(** * compgraph: a shallow embedding of the stream engine

    The development follows [compgraph/operations.py],
    [compgraph/graph.py] and, for the word count graph,
    [compgraph/algorithms.py].  Rows are Python dicts, kept here as
    insertion-ordered association lists (iteration order matters in
    [Joiner.common_join_part]); their order-insensitive reading, which is
    what Python's [==] on dicts observes, is the finite map [row_map].
    Generators are modelled by what a consumer sees of them: the rows they
    yield followed by the way they end (exhausted, or an exception).
    Where object identity matters, rows ([Map] and its mappers) and graphs
    ([Graph.copy]) are objects at addresses of a store.  The external sort,
    whose module is not at hand, is modelled from its specification. *)

From stdpp Require Import base option list strings gmap fin_maps sorting.
From Stdlib Require Import ZArith String Ascii Lia.

#[local] Set Warnings "-clear-no-such-hyp".

Open Scope Z_scope.
Open Scope string_scope.
Open Scope list_scope.

(** * The model *)

(** ** Values and rows *)

(** The values of the model: Python [int] and [str].  Floats are not part
    of the model; the places that produce a float (the [/] of [Divide], of
    [Mean] and of the term frequencies) take the quotient as a
    parameter. *)
Inductive Value : Type :=
| VInt (n : Z)
| VStr (s : string).

#[global] Instance Value_eq_dec : EqDecision Value.
Proof. solve_decision. Defined.

(** [TRow = dict[str, Any]], in insertion order. *)
Definition TRow : Type := list (string * Value).

(** The exceptions the modelled code raises or lets through. *)
Inductive exn : Type :=
| KeyError (key : string)
| ValueError (msg : string)
| RuntimeError (msg : string)
| TypeError
| AttributeError
| IndexError
| ZeroDivisionError
| OverflowError.

#[global] Instance exn_eq_dec : EqDecision exn.
Proof. solve_decision. Defined.

(** [isinstance(e, ArithmeticError)]: of the exceptions of the model
    [ZeroDivisionError] and [OverflowError] derive from [ArithmeticError];
    [ValueError] does not. *)
Definition is_ArithmeticError (e : exn) : bool :=
  match e with
  | ZeroDivisionError | OverflowError => true
  | _ => false
  end.

(** [row[k]] and [k in row]. *)
Fixpoint dict_get (row : TRow) (k : string) : option Value :=
  match row with
  | [] => None
  | (k', v) :: rest => if String.eqb k' k then Some v else dict_get rest k
  end.

Definition dict_contains (k : string) (row : TRow) : bool :=
  match dict_get row k with Some _ => true | None => false end.

(** [row[k] = v] and [row.update({k: v})]: an existing key keeps its
    position, a new key goes last. *)
Fixpoint dict_set (row : TRow) (k : string) (v : Value) : TRow :=
  match row with
  | [] => [(k, v)]
  | (k', v') :: rest =>
      if String.eqb k' k then (k', v) :: rest else (k', v') :: dict_set rest k v
  end.

(** [del row[k]] (the caller has checked that [k] is there). *)
Fixpoint dict_del (row : TRow) (k : string) : TRow :=
  match row with
  | [] => []
  | (k', v') :: rest =>
      if String.eqb k' k then rest else (k', v') :: dict_del rest k
  end.

(** [row.copy()]: rows are values here, so the copy is the row itself; the
    store model further down is where object identity is tracked. *)
Definition dict_copy (row : TRow) : TRow := row.

Definition dict_keys (row : TRow) : list string := row.*1.

(** A well-formed dict binds every key once. *)
Definition row_ok (row : TRow) : Prop := NoDup (dict_keys row).

#[global] Instance row_ok_dec (row : TRow) : Decision (row_ok row).
Proof. unfold row_ok. apply _. Defined.

(** What [==] on dicts observes. *)
Definition row_map (row : TRow) : gmap string Value := list_to_map row.

(** [k in keys] for a sequence of column names. *)
Definition in_keys (k : string) (keys : list string) : bool :=
  existsb (String.eqb k) keys.

(** [row[k]] as an expression. *)
Definition getitem (row : TRow) (k : string) : exn + Value :=
  match dict_get row k with
  | Some v => inr v
  | None => inl (KeyError k)
  end.

(** ** Generators as streams *)

(** How a generator ends: it is exhausted, or it raises. *)
Inductive outcome : Type :=
| Done
| Raise (e : exn).

#[global] Instance outcome_eq_dec : EqDecision outcome.
Proof. solve_decision. Defined.

(** What a consumer sees of an iterator: the items it yields, then the way
    it ends. *)
Abbreviation stream A := (list A * outcome)%type (only parsing).

(** A list literal used as an iterable. *)
Definition of_list {A} (l : list A) : stream A := (l, Done).

(** [yield from s] followed by the rest of the generator body [k]; when
    [s] raises, the body is left and [k] never runs. *)
Definition yield_from {A} (s : stream A) (k : stream A) : stream A :=
  match s.2 with
  | Done => (s.1 ++ k.1, k.2)
  | Raise e => (s.1, Raise e)
  end.

(** [list(s)]: the items, unless the iterator raises on the way. *)
Definition materialize {A} (s : stream A) : exn + list A :=
  match s.2 with
  | Done => inr s.1
  | Raise e => inl e
  end.

(** ** Mappers and [Map] *)

(** The row objects alive during a run, by address.  A stream of rows is
    then a stream of addresses, and two occurrences of an address are the
    same dict. *)
Abbreviation store := (list TRow) (only parsing).

(** [Mapper.__call__(row)]: the store after the call and the rows it
    yields. *)
Definition Mapper : Type := store → nat → store * stream nat.

(** A mapper that works on the row it is given and yields that row: [f]
    gives the row as the body leaves it, and the exception if it raises.
    (An address is never dangling; for one that is, nothing happens.) *)
Definition in_place (f : TRow → TRow * option exn) : Mapper := λ σ r,
  match σ !! r with
  | Some row =>
      let '(row', err) := f row in
      (<[r := row']> σ,
       match err with
       | None => ([r], Done)
       | Some e => ([], Raise e)
       end)
  | None => (σ, ([], Done))
  end.

(** [DummyMapper]: [yield row]. *)
Definition DummyMapper : Mapper := in_place (λ row, (row, None)).

(** [string.punctuation]: the ASCII characters that are neither letters,
    digits nor blanks. *)
Definition is_punctuation (c : ascii) : bool :=
  let n := nat_of_ascii c in
  ((33 <=? n) && (n <=? 47) || (58 <=? n) && (n <=? 64)
   || (91 <=? n) && (n <=? 96) || (123 <=? n) && (n <=? 126))%nat.

(** [txt.translate(str.maketrans('', '', string.punctuation))]. *)
Fixpoint remove_punctuation (txt : string) : string :=
  match txt with
  | EmptyString => EmptyString
  | String c rest =>
      if is_punctuation c then remove_punctuation rest
      else String c (remove_punctuation rest)
  end.

(** [row[column] = method(row[column])] for a [str] method. *)
Definition str_column_body (method : string → string) (column : string)
    (row : TRow) : TRow * option exn :=
  match getitem row column with
  | inl e => (row, Some e)
  | inr (VStr txt) => (dict_set row column (VStr (method txt)), None)
  | inr (VInt _) => (row, Some AttributeError)
  end.

(** [FilterPunctuation.__call__]. *)
Definition FilterPunctuation (column : string) : Mapper :=
  in_place (str_column_body remove_punctuation column).

(** [LowerCase.__call__]; [_lower_case] is [str.lower], a parameter of
    the model. *)
Definition LowerCase (_lower_case : string → string) (column : string) : Mapper :=
  in_place (str_column_body _lower_case column).

(** [str.lower] on ASCII text. *)
Definition ascii_lower_char (c : ascii) : ascii :=
  let n := nat_of_ascii c in
  if ((65 <=? n) && (n <=? 90))%nat then ascii_of_nat (n + 32) else c.

Fixpoint ascii_lower (txt : string) : string :=
  match txt with
  | EmptyString => EmptyString
  | String c rest => String (ascii_lower_char c) (ascii_lower rest)
  end.

(** [s * n] for a [str] and an [int]. *)
Fixpoint str_repeat (n : nat) (s : string) : string :=
  match n with
  | O => EmptyString
  | S n' => s +:+ str_repeat n' s
  end.

(** [a * b]. *)
Definition py_mul (a b : Value) : exn + Value :=
  match a, b with
  | VInt n, VInt m => inr (VInt (n * m))
  | VInt n, VStr s | VStr s, VInt n => inr (VStr (str_repeat (Z.to_nat n) s))
  | VStr _, VStr _ => inl TypeError
  end.

(** The loop [for column in self.columns: row[result] *= row[column]];
    the row keeps what was written to it before an exception. *)
Fixpoint product_loop (result_column : string) (columns : list string)
    (row : TRow) : TRow * option exn :=
  match columns with
  | [] => (row, None)
  | column :: rest =>
      match getitem row result_column with
      | inl e => (row, Some e)
      | inr acc =>
          match getitem row column with
          | inl e => (row, Some e)
          | inr v =>
              match py_mul acc v with
              | inl e => (row, Some e)
              | inr p => product_loop result_column rest (dict_set row result_column p)
              end
          end
      end
  end.

(** [Product.__call__]. *)
Definition Product (columns : list string) (result_column : string) : Mapper :=
  in_place (λ row, product_loop result_column columns
                     (dict_set row result_column (VInt 1))).

(** The least magnitude that no float can hold: [2 ** 1024 - 2 ** 970],
    half way between the largest float and [2 ** 1024]; a quotient is
    rounded to the nearest float, so it is too large from here on. *)
Definition float_limit : Z := Z.shiftl 1 1024 - Z.shiftl 1 970.

(** The quotient [n / m] of two ints, [m] not zero, is too large for a
    float. *)
Definition float_overflow (n m : Z) : bool :=
  Z.leb (float_limit * Z.abs m) (Z.abs n).

(** [a / b] on ints: a zero divisor raises [ZeroDivisionError], a quotient
    too large for a float raises [OverflowError]; otherwise the quotient
    is a float, which [truediv] supplies. *)
Definition py_truediv (truediv : Z → Z → Value) (a b : Value) : exn + Value :=
  match a, b with
  | VInt n, VInt m =>
      if Z.eqb m 0 then inl ZeroDivisionError
      else if float_overflow n m then inl OverflowError
      else inr (truediv n m)
  | _, _ => inl TypeError
  end.

Definition zero_denominator : exn :=
  ValueError "Denominator column contains zero value".

(** [Divide.__call__]: the [try] turns a [ZeroDivisionError] into a
    [ValueError]; any other exception passes. *)
Definition Divide (truediv : Z → Z → Value)
    (column_numerator column_denominator result_column : string) : Mapper :=
  in_place (λ row,
    match getitem row column_numerator with
    | inl e => (row, Some e)
    | inr a =>
        match getitem row column_denominator with
        | inl e => (row, Some e)
        | inr b =>
            match py_truediv truediv a b with
            | inl ZeroDivisionError => (row, Some zero_denominator)
            | inl e => (row, Some e)
            | inr q => (dict_set row result_column q, None)
            end
        end
    end).

(** The dict comprehension of [Project.__call__]. *)
Fixpoint project_loop (columns : list string) (row new_row : TRow) : exn + TRow :=
  match columns with
  | [] => inr new_row
  | column :: rest =>
      match getitem row column with
      | inl e => inl e
      | inr v => project_loop rest row (dict_set new_row column v)
      end
  end.

(** [Project.__call__] yields a dict of its own making. *)
Definition Project (columns : list string) : Mapper := λ σ r,
  match σ !! r with
  | Some row =>
      match project_loop columns row [] with
      | inl e => (σ, ([], Raise e))
      | inr new_row => (σ ++ [new_row], ([List.length σ], Done))
      end
  | None => (σ, ([], Done))
  end.

(** [Map.__call__] on row objects: the mapper is run on one row after the
    other, for as long as nothing raises. *)
Fixpoint Map_rows (mapper : Mapper) (σ : store) (rows : list nat)
    (out : outcome) : store * stream nat :=
  match rows with
  | [] => (σ, ([], out))
  | r :: rest =>
      let '(σ', s) := mapper σ r in
      match s.2 with
      | Raise e => (σ', (s.1, Raise e))
      | Done =>
          let '(σ'', s') := Map_rows mapper σ' rest out in
          (σ'', (s.1 ++ s'.1, s'.2))
      end
  end.

Definition Map_store (mapper : Mapper) (σ : store) (rows : stream nat)
  : store * stream nat :=
  Map_rows mapper σ rows.1 rows.2.

(** What a mapper makes of one row, as values: the rows it yields, read
    when it is done. *)
Definition Mapper_call (mapper : Mapper) (row : TRow) : stream TRow :=
  let '(σ', s) := mapper [row] 0%nat in
  (omap (λ r, σ' !! r) s.1, s.2).

(** [Map.__call__] on streams of row values. *)
Definition Map_call (mapper : Mapper) (rows : stream TRow) : stream TRow :=
  foldr (λ row rest, yield_from (Mapper_call mapper row) rest) ([], rows.2) rows.1.

(** ** Keys and their comparison *)

(** What [itemgetter] applied to the key names returns: the bare value
    for one key, a tuple for several.  [KEmpty] is the empty [keys] sequence itself, which
    [_safe_groupby] yields in place of a key when there are no keys. *)
Inductive Key : Type :=
| KVal (v : Value)
| KTuple (vs : list Value)
| KEmpty.

#[global] Instance Key_eq_dec : EqDecision Key.
Proof. solve_decision. Defined.

(** [a > b] and [a < b] on values; [None] is the [TypeError] of comparing
    an [int] with a [str]. *)
Definition py_gt (a b : Value) : option bool :=
  match a, b with
  | VInt n, VInt m => Some (Z.ltb m n)
  | VStr s, VStr t => Some (String.ltb t s)
  | _, _ => None
  end.

Definition py_lt (a b : Value) : option bool :=
  match a, b with
  | VInt n, VInt m => Some (Z.ltb n m)
  | VStr s, VStr t => Some (String.ltb s t)
  | _, _ => None
  end.

(** Tuples compare at their first differing position. *)
Fixpoint tuple_gt (x y : list Value) : option bool :=
  match x, y with
  | [], _ => Some false
  | _ :: _, [] => Some true
  | a :: x', b :: y' => if decide (a = b) then tuple_gt x' y' else py_gt a b
  end.

Fixpoint tuple_lt (x y : list Value) : option bool :=
  match x, y with
  | _, [] => Some false
  | [], _ :: _ => Some true
  | a :: x', b :: y' => if decide (a = b) then tuple_lt x' y' else py_lt a b
  end.

Definition key_eq (k1 k2 : Key) : bool := bool_decide (k1 = k2).

Definition key_gt (k1 k2 : Key) : option bool :=
  match k1, k2 with
  | KVal a, KVal b => py_gt a b
  | KTuple x, KTuple y => tuple_gt x y
  | KEmpty, KEmpty => Some false
  | _, _ => None
  end.

Definition key_lt (k1 k2 : Key) : option bool :=
  match k1, k2 with
  | KVal a, KVal b => py_lt a b
  | KTuple x, KTuple y => tuple_lt x y
  | KEmpty, KEmpty => Some false
  | _, _ => None
  end.

(** [tuple(row[k] for k in keys)], stopping at the first missing column. *)
Fixpoint get_columns (keys : list string) (row : TRow) : exn + list Value :=
  match keys with
  | [] => inr []
  | k :: keys' =>
      match dict_get row k with
      | None => inl (KeyError k)
      | Some v =>
          match get_columns keys' row with
          | inl e => inl e
          | inr vs => inr (v :: vs)
          end
      end
  end.

(** [itemgetter] of the key names, applied to [row], for the non-empty
    [keys] it is built from. *)
Definition itemgetter (keys : list string) (row : TRow) : exn + Key :=
  match keys with
  | [] => inl TypeError
  | [k] =>
      match dict_get row k with
      | None => inl (KeyError k)
      | Some v => inr (KVal v)
      end
  | _ => match get_columns keys row with
         | inl e => inl e
         | inr vs => inr (KTuple vs)
         end
  end.

(** ** itertools.groupby *)

(** The rows with their keys, up to the first row whose key cannot be
    computed. *)
Fixpoint attach_keys (keys : list string) (rows : list TRow)
  : list (Key * TRow) * option exn :=
  match rows with
  | [] => ([], None)
  | row :: rest =>
      match itemgetter keys row with
      | inl e => ([], Some e)
      | inr k => let '(l, err) := attach_keys keys rest in ((k, row) :: l, err)
      end
  end.

(** Maximal runs of rows with equal keys. *)
Fixpoint group_runs (l : list (Key * TRow)) : list (Key * list TRow) :=
  match l with
  | [] => []
  | (k, row) :: rest =>
      match group_runs rest with
      | (k', g) :: gs =>
          if key_eq k k' then (k, row :: g) :: gs
          else (k, [row]) :: (k', g) :: gs
      | [] => [(k, [row])]
      end
  end.

(** Every group ends quietly when the key changes; the last one ends the
    way the underlying iterator does. *)
Fixpoint close_groups (out : outcome) (runs : list (Key * list TRow))
  : list (Key * stream TRow) :=
  match runs with
  | [] => []
  | [(k, g)] => [(k, (g, out))]
  | (k, g) :: rest => (k, (g, Done)) :: close_groups out rest
  end.

(** [itertools.groupby] of [rows] by the key columns. *)
Definition groupby (keys : list string) (rows : stream TRow)
  : stream (Key * stream TRow) :=
  let '(keyed, err) := attach_keys keys rows.1 in
  let out := match err with Some e => Raise e | None => rows.2 end in
  (close_groups out (group_runs keyed), out).

(** ** _safe_groupby *)

Definition unsorted_input : exn := ValueError "Stream is not sorted by keys".

(** A [StopIteration] that escapes a generator body. *)
Definition generator_raised_StopIteration : exn :=
  RuntimeError "generator raised StopIteration".

(** The [for keys, group in groups] loop. *)
Fixpoint safe_groupby_loop (prev_keys : Key) (groups : list (Key * stream TRow))
    (out : outcome) : stream (Key * stream TRow) :=
  match groups with
  | [] => ([], out)
  | (keys, group) :: rest =>
      match key_gt prev_keys keys with
      | None => ([], Raise TypeError)
      | Some true => ([], Raise unsorted_input)
      | Some false =>
          let '(l, o) := safe_groupby_loop keys rest out in
          ((keys, group) :: l, o)
      end
  end.

Definition _safe_groupby (rows : stream TRow) (keys : list string)
  : stream (Key * stream TRow) :=
  match keys with
  | _ :: _ =>
      let groups := groupby keys rows in
      match groups.1 with
      | [] =>
          match groups.2 with
          | Done => ([], Raise generator_raised_StopIteration)
          | Raise e => ([], Raise e)
          end
      | (prev_keys, group) :: rest =>
          let '(l, o) := safe_groupby_loop prev_keys rest groups.2 in
          ((prev_keys, group) :: l, o)
      end
  | [] => ([(KEmpty, rows)], Done)
  end.

(** ** Reducers and [Reduce] *)

(** A [Reducer] is called with the key names and the group. *)
Definition Reducer : Type := list string → stream TRow → stream TRow.

(** [Reduce.__call__]. *)
Definition Reduce_call (reducer : Reducer) (keys : list string)
    (rows : stream TRow) : stream TRow :=
  let '(groups, out) := _safe_groupby rows keys in
  foldr (λ kg rest, yield_from (reducer keys kg.2) rest) ([], out) groups.

(** [FirstReducer]: the first row of the group, if it has one. *)
Definition FirstReducer : Reducer := λ _ rows,
  match rows.1 with
  | row :: _ => ([row], Done)
  | [] => ([], rows.2)
  end.

(** ** Joiners *)

(** The suffix pair chosen at the top of [common_join_part]. *)
Inductive join_type : Type := JoinAny | JoinRight.

Definition relevant_suffixes (jt : join_type) (a_suffix b_suffix : string)
  : string * string :=
  match jt with
  | JoinRight => (b_suffix, a_suffix)
  | JoinAny => (a_suffix, b_suffix)
  end.

(** One turn of [for key, value in left_row.items()]. *)
Definition merge_field (keys : list string) (suffix_a suffix_b : string)
    (new_row : TRow) (kv : string * Value) : TRow :=
  let '(key, value) := kv in
  match dict_get new_row key with
  | None => dict_set new_row key value
  | Some old_right_value =>
      if negb (in_keys key keys) then
        let new_row := dict_del new_row key in
        let new_row := dict_set new_row (key +:+ suffix_a) value in
        dict_set new_row (key +:+ suffix_b) old_right_value
      else new_row
  end.

(** The body of the two loops: the row yielded for one [(left_row,
    right_row)] pair. *)
Definition join_rows (keys : list string) (suffix_a suffix_b : string)
    (left_row right_row : TRow) : TRow :=
  foldl (merge_field keys suffix_a suffix_b) (dict_copy right_row) left_row.

(** [common_join_part] over materialized arguments: the rows it yields
    when neither argument raises while it is read. *)
Definition common_join_rows (keys : list string) (a_suffix b_suffix : string)
    (jt : join_type) (left_rows right_rows : list TRow) : list TRow :=
  let '(sa, sb) := relevant_suffixes jt a_suffix b_suffix in
  left_row ← left_rows;
  right_row ← right_rows;
  [join_rows keys sa sb left_row right_row].

Inductive joiner_kind : Type :=
| InnerJoiner
| OuterJoiner
| LeftJoiner
| RightJoiner.

(** A [Joiner] object: its class and the two suffixes set by
    [Joiner.__init__] (defaults ['_1'] and ['_2']). *)
Record Joiner : Type := mkJoiner {
  joiner_class : joiner_kind;
  _a_suffix : string;
  _b_suffix : string;
}.

Definition default_joiner (c : joiner_kind) : Joiner := mkJoiner c "_1" "_2".

(** [Joiner.common_join_part]: [left_rows] is read lazily, [right_rows] is
    a list. *)
Definition common_join_part (self : Joiner) (keys : list string)
    (left_rows : stream TRow) (right_rows : list TRow) (jt : join_type)
  : stream TRow :=
  (common_join_rows keys (_a_suffix self) (_b_suffix self) jt left_rows.1 right_rows,
   left_rows.2).

(** [Joiner.__call__] of the four subclasses. *)
Definition Joiner_call (self : Joiner) (keys : list string)
    (rows_a rows_b : stream TRow) : stream TRow :=
  match joiner_class self with
  | InnerJoiner =>
      match materialize rows_b with
      | inl e => ([], Raise e)
      | inr materialized_b => common_join_part self keys rows_a materialized_b JoinAny
      end
  | OuterJoiner =>
      match materialize rows_a with
      | inl e => ([], Raise e)
      | inr materialized_a =>
          match materialize rows_b with
          | inl e => ([], Raise e)
          | inr materialized_b =>
              match materialized_a, materialized_b with
              | _ :: _, _ :: _ =>
                  common_join_part self keys (of_list materialized_a)
                    materialized_b JoinAny
              | _ :: _, [] => of_list materialized_a
              | [], _ :: _ => of_list materialized_b
              | [], [] => ([], Done)
              end
          end
      end
  | LeftJoiner =>
      match materialize rows_b with
      | inl e => ([], Raise e)
      | inr [] => rows_a
      | inr materialized_b => common_join_part self keys rows_a materialized_b JoinAny
      end
  | RightJoiner =>
      match materialize rows_a with
      | inl e => ([], Raise e)
      | inr [] => rows_b
      | inr materialized_a =>
          common_join_part self keys rows_b materialized_a JoinRight
      end
  end.

(** ** Join *)

(** [next(gen, (None, None))]: the next item and the generator after it,
    [None] once it is exhausted, or the exception it raises. *)
Definition next_or_none {A} (gen : stream A) : exn + (option A * stream A) :=
  match gen.1 with
  | x :: rest => inr (Some x, (rest, gen.2))
  | [] =>
      match gen.2 with
      | Done => inr (None, gen)
      | Raise e => inl e
      end
  end.

(** The local variables of [Join.__call__]. *)
Record join_state : Type := mkJoinState {
  rows_left : stream (Key * stream TRow);
  rows_right : stream (Key * stream TRow);
  keys_left : option Key;
  rows_left_group : option (stream TRow);
  keys_right : option Key;
  rows_right_group : option (stream TRow);
}.

(** One turn of [while True]. *)
Inductive turn : Type :=
| Break
| Raised (yielded : list TRow) (e : exn)
| Continue (yielded : list TRow) (st : join_state).

Section join_loop.
Variable joiner : list string → stream TRow → stream TRow → stream TRow.
Variable keys : list string.

(** [keys_left, rows_left_group = next(rows_left, (None, None))] after
    the rows of [yielded] went out. *)
Definition advance_left (yielded : stream TRow) (st : join_state) : turn :=
  match yielded.2 with
  | Raise e => Raised yielded.1 e
  | Done =>
      match next_or_none (rows_left st) with
      | inl e => Raised yielded.1 e
      | inr (item, gen) =>
          Continue yielded.1
            (mkJoinState gen (rows_right st) (fst <$> item) (snd <$> item)
               (keys_right st) (rows_right_group st))
      end
  end.

Definition advance_right (yielded : stream TRow) (st : join_state) : turn :=
  match yielded.2 with
  | Raise e => Raised yielded.1 e
  | Done =>
      match next_or_none (rows_right st) with
      | inl e => Raised yielded.1 e
      | inr (item, gen) =>
          Continue yielded.1
            (mkJoinState (rows_left st) gen (keys_left st) (rows_left_group st)
               (fst <$> item) (snd <$> item))
      end
  end.

Definition advance_both (yielded : stream TRow) (st : join_state) : turn :=
  match advance_left yielded st with
  | Continue l st' => advance_right (l, Done) st'
  | t => t
  end.

Definition join_turn (st : join_state) : turn :=
  match rows_left_group st, rows_right_group st, keys_left st, keys_right st with
  | Some gl, Some gr, Some kl, Some kr =>
      if key_eq kl kr then advance_both (joiner keys gl gr) st
      else match key_gt kl kr with
           | None => Raised [] TypeError
           | Some true => advance_right (joiner keys (of_list []) gr) st
           | Some false =>
               match key_lt kl kr with
               | None => Raised [] TypeError
               | Some true => advance_left (joiner keys gl (of_list [])) st
               | Some false => Continue [] st
               end
           end
  | Some gl, _, _, _ => advance_left (joiner keys gl (of_list [])) st
  | None, Some gr, _, _ => advance_right (joiner keys (of_list []) gr) st
  | None, None, _, _ => Break
  end.

(** The loop, for at most [fuel] turns. *)
Fixpoint join_loop (fuel : nat) (st : join_state) : option (stream TRow) :=
  match fuel with
  | O => None
  | S fuel' =>
      match join_turn st with
      | Break => Some ([], Done)
      | Raised yielded e => Some (yielded, Raise e)
      | Continue yielded st' =>
          (λ s : stream TRow, (yielded ++ s.1, s.2)) <$> join_loop fuel' st'
      end
  end.

(** The two [next] calls before the loop. *)
Definition join_init (left right : stream (Key * stream TRow))
  : exn + join_state :=
  match next_or_none left with
  | inl e => inl e
  | inr (item_l, gen_l) =>
      match next_or_none right with
      | inl e => inl e
      | inr (item_r, gen_r) =>
          inr (mkJoinState gen_l gen_r (fst <$> item_l) (snd <$> item_l)
                 (fst <$> item_r) (snd <$> item_r))
      end
  end.

(** The body of [Join.__call__] once the two [_safe_groupby] generators
    are made, run for at most [fuel] turns of its loop. *)
Definition Join_groups (fuel : nat) (left right : stream (Key * stream TRow))
  : option (stream TRow) :=
  match join_init left right with
  | inl e => Some ([], Raise e)
  | inr st => join_loop fuel st
  end.

(** [Join.__call__(rows, args[0])]. *)
Definition Join_call_fuel (fuel : nat) (rows other : stream TRow)
  : option (stream TRow) :=
  Join_groups fuel (_safe_groupby rows keys) (_safe_groupby other keys).

(** Each turn of the loop uses up a group, so this many turns suffice. *)
Definition Join_call (rows other : stream TRow) : option (stream TRow) :=
  Join_call_fuel
    (S (List.length (_safe_groupby rows keys).1
        + List.length (_safe_groupby other keys).1))
    rows other.

End join_loop.

(** ** Graphs *)

(** The operations a graph node can hold.  ([Read], which opens a file,
    is left out.) *)
Inductive Operation : Type :=
| ReadIterGenerator (name : string)
| Map (mapper : Mapper)
| Reduce (reducer : Reducer) (keys : list string)
| Join (joiner : Joiner) (keys : list string)
| ExternalSort (keys : list string).

(** The objects a graph is made of: [Graph] objects, whose [_parents]
    field is the address of a list object, and list objects holding the
    addresses of [Graph] objects. *)
Inductive obj : Type :=
| GraphObj (_operation : Operation) (_parents : nat)
| ListObj (items : list nat).

(** The heap: objects by address; a new object goes to the end. *)
Abbreviation heap := (list obj) (only parsing).

Definition alloc (h : heap) (o : obj) : heap * nat := (h ++ [o], List.length h).

(** [Graph.copy]: a new [Graph] object with the fields of [self]. *)
Definition copy (h : heap) (self : nat) : option (heap * nat) :=
  match h !! self with
  | Some (GraphObj operation parents) => Some (alloc h (GraphObj operation parents))
  | _ => None
  end.

(** The builders: each makes the list of parents, then the [Graph]. *)
Definition graph_from_iter (h : heap) (name : string) : heap * nat :=
  let '(h, parents) := alloc h (ListObj []) in
  alloc h (GraphObj (ReadIterGenerator name) parents).

Definition graph_map (h : heap) (self : nat) (mapper : Mapper) : heap * nat :=
  let '(h, parents) := alloc h (ListObj [self]) in
  alloc h (GraphObj (Map mapper) parents).

Definition graph_reduce (h : heap) (self : nat) (reducer : Reducer)
    (keys : list string) : heap * nat :=
  let '(h, parents) := alloc h (ListObj [self]) in
  alloc h (GraphObj (Reduce reducer keys) parents).

Definition graph_sort (h : heap) (self : nat) (keys : list string) : heap * nat :=
  let '(h, parents) := alloc h (ListObj [self]) in
  alloc h (GraphObj (ExternalSort keys) parents).

Definition graph_join (h : heap) (self : nat) (joiner : Joiner)
    (join_graph : nat) (keys : list string) : heap * nat :=
  let '(h, parents) := alloc h (ListObj [self; join_graph]) in
  alloc h (GraphObj (Join joiner keys) parents).

Section call_operation.
(** [ExternalSort.__call__] is not among the sources at hand: it is a
    parameter here. *)
Variable sort_call : list string → stream TRow → stream TRow.
(** The named sources: for each name, the rows its supplier hands out. *)
Variable kwargs : gmap string (stream TRow).

(** [operation( *parents_run, **kwargs)] on streams of row values.  An
    operation called with too few streams raises; [Join] reads its second
    stream as [args[0]]. *)
Definition call_operation (operation : Operation)
    (parents_run : list (stream TRow)) : option (stream TRow) :=
  match operation, parents_run with
  | ReadIterGenerator name, _ =>
      Some (match kwargs !! name with
            | Some rows => rows
            | None => ([], Raise (KeyError name))
            end)
  | _, [] => Some ([], Raise TypeError)
  | Map mapper, rows :: _ => Some (Map_call mapper rows)
  | Reduce reducer keys, rows :: _ => Some (Reduce_call reducer keys rows)
  | ExternalSort keys, rows :: _ => Some (sort_call keys rows)
  | Join joiner keys, rows :: other :: _ =>
      Join_call (Joiner_call joiner) keys rows other
  | Join _ _, [_] => Some ([], Raise IndexError)
  end.

End call_operation.

Section run.
(** What a stream is, and what calling an operation on the streams of its
    parents gives, are left open in [Graph.run] itself: [run] only passes
    the streams on. *)
Variable Stream : Type.
Variable call : Operation → list Stream → option Stream.

(** [Graph.run]: the streams of the parents, then the operation on them.
    [fuel] bounds the depth of the recursion. *)
Fixpoint run (fuel : nat) (h : heap) (self : nat) : option Stream :=
  match fuel with
  | O => None
  | S fuel' =>
      match h !! self with
      | Some (GraphObj operation parents) =>
          match h !! parents with
          | Some (ListObj items) =>
              parents_run ← mapM (run fuel' h) items;
              call operation parents_run
          | _ => None
          end
      | _ => None
      end
  end.

End run.

(** ** External sort *)

Section external_sort.
(** The keys by which rows are sorted and their order: the key tuple of a
    row and the ascending order of key tuples. *)
Variable K : Type.
Variable key : TRow → K.
Variable leb : K → K → bool.
(** The number of rows the in-memory buffer holds, less one: the buffer is
    never of size zero. *)
Variable CHUNK_pred : nat.

(** Modelled from the spec: the configured row count of the buffer
    (§4.5, step 1); [external_sort.py] is not among the sources. *)
Definition CHUNK : nat := S CHUNK_pred.

(** Rows compare by their keys. *)
Definition row_leb (a b : TRow) : bool := leb (key a) (key b).

(** The rows of a stream whose key tuple equals [k]. *)
Definition same_key (k : K) (row : TRow) : bool :=
  leb (key row) k && leb k (key row).

(** Modelled from the spec: putting a row into a sorted buffer, before
    the rows that came after it and do not have a smaller key (the step of
    the stable sort of §4.5, step 2). *)
Fixpoint insert_row (row : TRow) (buffer : list TRow) : list TRow :=
  match buffer with
  | [] => [row]
  | row' :: rest =>
      if row_leb row row' then row :: buffer else row' :: insert_row row rest
  end.

(** Modelled from the spec: the stable sort of a buffer (§4.5, step 2);
    [external_sort.py] is not among the sources. *)
Fixpoint stable_sort (buffer : list TRow) : list TRow :=
  match buffer with
  | [] => []
  | row :: rest => insert_row row (stable_sort rest)
  end.

(** Modelled from the spec: reading the input into buffers of [CHUNK]
    rows (§4.5, steps 1 and 4).  [room] is what is left of the current
    buffer, [buffer] the rows read into it, last first. *)
Fixpoint read_chunks (room : nat) (buffer : list TRow) (rows : list TRow)
  : list (list TRow) :=
  match rows with
  | [] => match buffer with [] => [] | _ => [reverse buffer] end
  | row :: rest =>
      match room with
      | O | S O => reverse (row :: buffer) :: read_chunks CHUNK [] rest
      | S room' => read_chunks room' (row :: buffer) rest
      end
  end.

(** Modelled from the spec: the least entry of the heap of run heads
    keyed by [(key_tuple, run_index)] (§4.5, step 5): the head with the
    least key, and among heads with equal keys the one of the run with the
    least index.  The result is that row and the runs without it. *)
Fixpoint pop_min (runs : list (list TRow)) : option (TRow * list (list TRow)) :=
  match runs with
  | [] => None
  | run :: rest =>
      match run, pop_min rest with
      | [], None => None
      | [], Some (row', rest') => Some (row', [] :: rest')
      | row :: run', None => Some (row, run' :: rest)
      | row :: run', Some (row', rest') =>
          if row_leb row row' then Some (row, run' :: rest)
          else Some (row', run :: rest')
      end
  end.

(** Modelled from the spec: the k-way merge of the sorted runs (§4.5,
    step 5), one row per unit of [fuel]. *)
Fixpoint merge_runs (fuel : nat) (runs : list (list TRow)) : list TRow :=
  match fuel with
  | O => []
  | S fuel' =>
      match pop_min runs with
      | None => []
      | Some (row, runs') => row :: merge_runs fuel' runs'
      end
  end.

(** Modelled from the spec: [ExternalSort.__call__] (§4.5): a single
    buffer is emitted as it is sorted, several are merged.  A run read
    back from its spill file is taken to be the run that was written. *)
Definition ExternalSort_rows (rows : list TRow) : list TRow :=
  match stable_sort <$> read_chunks CHUNK [] rows with
  | [run] => run
  | runs => merge_runs (List.length rows) runs
  end.

End external_sort.

(** * What the claims speak of *)

(** ** The combine rule as the specification words it *)

(** The rule of the specification for one field [k ↦ lrow[k]]: the
    renamed pair is bound to [lrow[k]] and to [rrow[k]], read from the
    right row itself.  Where [rrow] has no [k] the rule names a value that
    does not exist; the row is then left as it is. *)
Definition stated_merge_field (keys : list string) (suffix_L suffix_R : string)
    (rrow : TRow) (new_row : TRow) (kv : string * Value) : TRow :=
  let '(k, lrow_k) := kv in
  if negb (dict_contains k new_row) then dict_set new_row k lrow_k
  else if in_keys k keys then new_row
  else match dict_get rrow k with
       | Some rrow_k =>
           dict_set (dict_set (dict_del new_row k) (k +:+ suffix_L) lrow_k)
                    (k +:+ suffix_R) rrow_k
       | None => new_row
       end.

Definition stated_join_rows (keys : list string) (suffix_L suffix_R : string)
    (lrow rrow : TRow) : TRow :=
  foldl (stated_merge_field keys suffix_L suffix_R rrow) (dict_copy rrow) lrow.

(** ** Rows free of name clashes *)

(** Two suffixes are apart when no name can be read both ways. *)
Definition suffixes_apart (sa sb : string) : Prop :=
  ∀ k k' : string, k +:+ sa ≠ k' +:+ sb.

(** [k] is a column of both rows and not a join key. *)
Definition collides (keys : list string) (l r : TRow) (k : string) : bool :=
  dict_contains k l && dict_contains k r && negb (in_keys k keys).

(** No name made by renaming a colliding column is a column of either
    row. *)
Definition no_clashb (keys : list string) (sa sb : string) (l r : TRow) : bool :=
  forallb (λ k, implb (collides keys l r k)
                  (forallb (λ c, negb (dict_contains c l) && negb (dict_contains c r))
                           [k +:+ sa; k +:+ sb]))
          (dict_keys l).

(** Both rows are well-formed dicts and no suffixed name is taken. *)
Definition joinable (keys : list string) (sa sb : string) (l r : TRow) : bool :=
  bool_decide (row_ok l) && bool_decide (row_ok r) && no_clashb keys sa sb l r.

(** Every pair of the two groups is [joinable]. *)
Definition all_joinable (keys : list string) (sa sb : string)
    (left_rows right_rows : list TRow) : bool :=
  forallb (λ l, forallb (λ r, joinable keys sa sb l r) right_rows) left_rows.

(** The two rows carry the same values in the join columns, as the rows
    of two groups with equal keys do. *)
Definition same_join_columns (keys : list string) (l r : TRow) : bool :=
  forallb (λ k, bool_decide (dict_get l k = dict_get r k)) keys.

(** What the joined row [m] holds for a column [k ↦ v] of the row whose
    fields were merged in, [r] being the row that was copied. *)
Definition joined_at (keys : list string) (sa sb : string) (r m : TRow)
    (k : string) (v : Value) : Prop :=
  match dict_get r k with
  | None => dict_get m k = Some v
  | Some w =>
      if in_keys k keys then dict_get m k = Some w
      else dict_get m k = None
           ∧ dict_get m (k +:+ sa) = Some v
           ∧ dict_get m (k +:+ sb) = Some w
  end.

(** [c] is a name made by renaming a colliding column. *)
Definition renamed_name (keys : list string) (sa sb : string) (l r : TRow)
    (c : string) : option string :=
  find (λ k, collides keys l r k
             && (String.eqb c (k +:+ sa) || String.eqb c (k +:+ sb)))
       (dict_keys l).

(** ** The merge of two rows, seen on finite maps *)

Definition map_merge_field (keys : list string) (sa sb : string)
    (m : gmap string Value) (kv : string * Value) : gmap string Value :=
  match m !! kv.1 with
  | None => <[kv.1 := kv.2]> m
  | Some old =>
      if in_keys kv.1 keys then m
      else <[kv.1 +:+ sb := old]> (<[kv.1 +:+ sa := kv.2]> (delete kv.1 m))
  end.

Section merge_invariant.
Variables (keys : list string) (sa sb : string).
Variables (lm rm : gmap string Value).

(** What the merged row holds for a column [k] of the left row. *)
Definition merged_at (m : gmap string Value) (k : string) (v : Value) : Prop :=
  match rm !! k with
  | None => m !! k = Some v
  | Some w =>
      if in_keys k keys then m !! k = Some w
      else m !! k = None ∧ m !! (k +:+ sa) = Some v ∧ m !! (k +:+ sb) = Some w
  end.

Definition renamed_from (ks : list string) (c : string) : Prop :=
  ∃ k, k ∈ ks ∧ is_Some (rm !! k) ∧ in_keys k keys = false
       ∧ (c = k +:+ sa ∨ c = k +:+ sb).

Definition merge_inv (P : TRow) (m : gmap string Value) : Prop :=
  (∀ c, c ∉ P.*1 → ¬ renamed_from (P.*1) c → m !! c = rm !! c)
  ∧ (∀ k v, k ∈ P.*1 → lm !! k = Some v → merged_at m k v).

End merge_invariant.

(** ** The merge loop as the specification words it *)

Section stated_merge.
Variable joiner : list string → stream TRow → stream TRow → stream TRow.
Variable keys : list string.
(** How the two streams of groups end. *)
Variables out_L out_R : outcome.

(** Advancing a side that has no group left but ends with an exception
    raises it; otherwise the merge goes on with [k]. *)
Definition advanced (out : outcome) (rest : list (Key * stream TRow))
    (k : stream TRow) : stream TRow :=
  match rest, out with
  | [], Raise e => ([], Raise e)
  | _, _ => k
  end.

(** The five cases of the merge loop, on the groups still to come from
    the left and from the right. *)
Fixpoint stated_merge (L : list (Key * stream TRow))
  : list (Key * stream TRow) → stream TRow :=
  fix against (R : list (Key * stream TRow)) : stream TRow :=
    match L, R with
    | [], [] => ([], Done)
    | (kL, groupL) :: L', [] =>
        yield_from (joiner keys groupL (of_list []))
          (advanced out_L L' (stated_merge L' []))
    | [], (kR, groupR) :: R' =>
        yield_from (joiner keys (of_list []) groupR)
          (advanced out_R R' (against R'))
    | (kL, groupL) :: L', (kR, groupR) :: R' =>
        if key_eq kL kR then
          yield_from (joiner keys groupL groupR)
            (advanced out_L L' (advanced out_R R' (stated_merge L' R')))
        else match key_lt kL kR with
             | Some true =>
                 yield_from (joiner keys groupL (of_list []))
                   (advanced out_L L' (stated_merge L' R))
             | Some false =>
                 yield_from (joiner keys (of_list []) groupR)
                   (advanced out_R R' (against R'))
             | None => ([], Raise TypeError)
             end
    end.

(** The whole of it: the first group of either side is fetched, then the
    groups are merged. *)
Definition stated_join (L R : list (Key * stream TRow)) : stream TRow :=
  advanced out_L L (advanced out_R R (stated_merge L R)).

(** The loop state in which [L] and [R] are the groups not yet
    delegated, the first of each being the current one. *)
Definition state_of (L R : list (Key * stream TRow)) : join_state :=
  mkJoinState (tail L, out_L) (tail R, out_R)
    (fst <$> head L) (snd <$> head L) (fst <$> head R) (snd <$> head R).

(** What a turn contributes to the output, the rest of the loop being run
    with [fuel]. *)
Definition after_turn (fuel : nat) (t : turn) : option (stream TRow) :=
  match t with
  | Break => Some ([], Done)
  | Raised yielded e => Some (yielded, Raise e)
  | Continue yielded st' =>
      (λ s : stream TRow, (yielded ++ s.1, s.2)) <$> join_loop joiner keys fuel st'
  end.

End stated_merge.

(** ** Sortedness of a stream of groups *)

(** The keys of the groups [itertools.groupby] makes of [rows]. *)
Definition group_keys (keys : list string) (rows : list TRow) : list Key :=
  (group_runs (attach_keys keys rows).1).*1.

(** The transition from group [i] to group [i + 1] is strictly
    decreasing. *)
Definition descent_at (ks : list Key) (i : nat) : Prop :=
  ∃ k1 k2, ks !! i = Some k1 ∧ ks !! S i = Some k2 ∧ key_gt k1 k2 = Some true.

(** Every row has the key columns. *)
Definition has_keys (keys : list string) (rows : list TRow) : bool :=
  bool_decide ((attach_keys keys rows).2 = None).

(** Any two of the keys can be compared. *)
Definition comparable (ks : list Key) : bool :=
  forallb (λ k1, forallb (λ k2, bool_decide (is_Some (key_gt k1 k2))) ks) ks.

(** ** The column-transforming mappers *)

(** The column-transforming mappers, each with the body it runs on the
    row it is given. *)
Inductive column_mapper : Type :=
| CM_FilterPunctuation (column : string)
| CM_LowerCase (_lower_case : string → string) (column : string)
| CM_Product (columns : list string) (result_column : string).

Definition mapper_of (m : column_mapper) : Mapper :=
  match m with
  | CM_FilterPunctuation column => FilterPunctuation column
  | CM_LowerCase lower column => LowerCase lower column
  | CM_Product columns result_column => Product columns result_column
  end.

Definition body_of (m : column_mapper) (row : TRow) : TRow * option exn :=
  match m with
  | CM_FilterPunctuation column => str_column_body remove_punctuation column row
  | CM_LowerCase lower column => str_column_body lower column row
  | CM_Product columns result_column =>
      product_loop result_column columns (dict_set row result_column (VInt 1))
  end.

(** ** Well-formed heaps and the sources of a graph *)

(** Every object refers to objects made before it, a [Graph] to a list
    and a list to [Graph]s: what the builders and [copy] produce. *)
Definition obj_ok (h : heap) (i : nat) (o : obj) : bool :=
  match o with
  | GraphObj _ parents =>
      (parents <? i)%nat
      && match h !! parents with Some (ListObj _) => true | _ => false end
  | ListObj items =>
      forallb (λ p, (p <? i)%nat
                    && match h !! p with Some (GraphObj _ _) => true | _ => false end)
              items
  end.

Definition heap_ok (h : heap) : bool :=
  forallb (λ i, match h !! i with Some o => obj_ok h i o | None => true end)
          (seq 0 (List.length h)).

(** The graph at [g] has an iterator source named [n] somewhere under
    it. *)
Inductive contains_source (h : list obj) (n : string) : nat → Prop :=
| contains_here g parents :
    h !! g = Some (GraphObj (ReadIterGenerator n) parents) →
    contains_source h n g
| contains_below g operation parents items p :
    h !! g = Some (GraphObj operation parents) →
    h !! parents = Some (ListObj items) →
    p ∈ items → contains_source h n p →
    contains_source h n g.

(** The input a joiner reads first when [Join], having no keys, hands it
    the two whole streams: [OuterJoiner] and [RightJoiner] begin with
    [list(rows_a)], [InnerJoiner] and [LeftJoiner] with [list(rows_b)]. *)
Definition reads_left_first (c : joiner_kind) : bool :=
  match c with
  | OuterJoiner | RightJoiner => true
  | InnerJoiner | LeftJoiner => false
  end.

(** The run of the graph at [g] looks up the iterator source named [n]
    before anything has failed or been yielded.  [g] is that source; or a
    [Map], a keyed [Reduce] or a keyed [Join] whose first input does; or a
    keyed [Join] whose first input hands out a first row that has the key
    columns, and whose second input does; or a [Reduce] without keys,
    whose reducer reads its rows before it yields, over an input that
    does; or a [Join] without keys, when the input its joiner reads first
    does, or when that input ends without failing and the other one does;
    or an [ExternalSort], if it passes on the failure of its input, whose
    input does.  (On a well-formed heap the run of the graph at [p] needs
    no more fuel than [S p].) *)
Inductive pulls_first (sort_call : list string → stream TRow → stream TRow)
    (kwargs : gmap string (stream TRow)) (h : list obj) (n : string)
  : nat → Prop :=
| pulls_source g parents :
    h !! g = Some (GraphObj (ReadIterGenerator n) parents) →
    pulls_first sort_call kwargs h n g
| pulls_map g mapper parents p items :
    h !! g = Some (GraphObj (Map mapper) parents) →
    h !! parents = Some (ListObj (p :: items)) →
    pulls_first sort_call kwargs h n p → pulls_first sort_call kwargs h n g
| pulls_reduce g reducer keys parents p items :
    h !! g = Some (GraphObj (Reduce reducer keys) parents) →
    h !! parents = Some (ListObj (p :: items)) →
    keys ≠ [] →
    pulls_first sort_call kwargs h n p → pulls_first sort_call kwargs h n g
| pulls_join g joiner keys parents p q items :
    h !! g = Some (GraphObj (Join joiner keys) parents) →
    h !! parents = Some (ListObj (p :: q :: items)) →
    keys ≠ [] →
    pulls_first sort_call kwargs h n p → pulls_first sort_call kwargs h n g
| pulls_join_second g joiner keys parents p q items row rest out k :
    h !! g = Some (GraphObj (Join joiner keys) parents) →
    h !! parents = Some (ListObj (p :: q :: items)) →
    keys ≠ [] →
    run _ (call_operation sort_call kwargs) (S p) h p = Some (row :: rest, out) →
    itemgetter keys row = inr k →
    pulls_first sort_call kwargs h n q → pulls_first sort_call kwargs h n g
| pulls_reduce_all g reducer parents p items :
    h !! g = Some (GraphObj (Reduce reducer []) parents) →
    h !! parents = Some (ListObj (p :: items)) →
    reducer [] ([], Raise (KeyError n)) = ([], Raise (KeyError n)) →
    pulls_first sort_call kwargs h n p → pulls_first sort_call kwargs h n g
| pulls_cross g joiner parents p q items :
    h !! g = Some (GraphObj (Join joiner []) parents) →
    h !! parents = Some (ListObj (p :: q :: items)) →
    pulls_first sort_call kwargs h n
      (if reads_left_first (joiner_class joiner) then p else q) →
    pulls_first sort_call kwargs h n g
| pulls_cross_second g joiner parents p q items l :
    h !! g = Some (GraphObj (Join joiner []) parents) →
    h !! parents = Some (ListObj (p :: q :: items)) →
    run _ (call_operation sort_call kwargs)
      (S (if reads_left_first (joiner_class joiner) then p else q)) h
      (if reads_left_first (joiner_class joiner) then p else q)
    = Some (l, Done) →
    pulls_first sort_call kwargs h n
      (if reads_left_first (joiner_class joiner) then q else p) →
    pulls_first sort_call kwargs h n g
| pulls_sort g keys parents p items :
    h !! g = Some (GraphObj (ExternalSort keys) parents) →
    h !! parents = Some (ListObj (p :: items)) →
    sort_call keys ([], Raise (KeyError n)) = ([], Raise (KeyError n)) →
    pulls_first sort_call kwargs h n p → pulls_first sort_call kwargs h n g.

(** ** Merging two runs *)

Section merge_two_runs.
(** The keys by which rows are sorted and their order: the key tuple of a
    row and the ascending order of key tuples. *)
Variable K : Type.
Variable key : TRow → K.
Variable leb : K → K → bool.
#[local] Abbreviation row_leb := (row_leb K key leb).

(** The merge of two runs that prefers the first on equal keys. *)
Fixpoint merge_two (a : list TRow) : list TRow → list TRow :=
  fix against (b : list TRow) : list TRow :=
    match a, b with
    | [], _ => b
    | _, [] => a
    | x :: a', y :: b' =>
        if row_leb x y then x :: merge_two a' b else y :: against b'
    end.

(** The merge of the runs one after the other. *)
Definition merge_all (runs : list (list TRow)) : list TRow :=
  foldr merge_two [] runs.

End merge_two_runs.

(** ** Examples *)

Definition ex_left : list TRow :=
  [ [("id", VInt 1); ("v", VStr "a")]; [("id", VInt 2); ("v", VStr "b")] ].

Definition ex_right : list TRow :=
  [ [("id", VInt 1); ("v", VStr "x")]; [("id", VInt 2); ("v", VStr "y")] ].

Definition ex_joined : list TRow :=
  [ [("id", VInt 1); ("v_1", VStr "a"); ("v_2", VStr "x")];
    [("id", VInt 2); ("v_1", VStr "b"); ("v_2", VStr "y")] ].

(** Two rows whose column [v_1] is also the name a renamed [v] takes. *)
Definition clash_left : TRow :=
  [("id", VInt 1); ("v", VStr "a"); ("v_1", VStr "b")].

Definition clash_right : TRow :=
  [("id", VInt 1); ("v", VStr "x"); ("v_1", VStr "y")].

(** The heap after [Graph.graph_from_iter('texts').map(DummyMapper())]. *)
Definition ex_heap : list obj :=
  (graph_map (graph_from_iter [] "texts").1 (graph_from_iter [] "texts").2
     DummyMapper).1.

(** The heap after
    [Graph.graph_from_iter('a').join(InnerJoiner(), Graph.graph_from_iter('n'), ['k'])]:
    the join is at address 5, the source [n] at address 3. *)
Definition ex_join_heap : list obj :=
  let '(h, a) := graph_from_iter [] "a" in
  let '(h, n) := graph_from_iter h "n" in
  (graph_join h a (default_joiner InnerJoiner) n ["k"]).1.

(** Rows that have the key column [k]. *)
Definition ex_keyed : list TRow :=
  [ [("k", VInt 1); ("v", VStr "a")]; [("k", VInt 2); ("v", VStr "b")] ].

(** The heap after
    [Graph.graph_from_iter('a').map(Divide('x', 'y')).join(InnerJoiner(), Graph.graph_from_iter('n'), ['k'])]:
    the join is at address 7, the source [n] at address 5. *)
Definition ex_divide_join_heap : list obj :=
  let '(h, a) := graph_from_iter [] "a" in
  let '(h, m) := graph_map h a (Divide (λ a b, VInt (a / b)) "x" "y" "divide") in
  let '(h, n) := graph_from_iter h "n" in
  (graph_join h m (default_joiner InnerJoiner) n ["k"]).1.

(** Rows to sort by their [id], and the order of ints. *)
Definition id_key (row : TRow) : Z :=
  match dict_get row "id" with
  | Some (VInt n) => n
  | _ => 0
  end.

Definition ex_unsorted : list TRow :=
  [ [("id", VInt 3); ("v", VStr "a")]; [("id", VInt 1); ("v", VStr "b")];
    [("id", VInt 3); ("v", VStr "c")]; [("id", VInt 2); ("v", VStr "d")];
    [("id", VInt 1); ("v", VStr "e")] ].

Definition ex_sorted : list TRow :=
  [ [("id", VInt 1); ("v", VStr "b")]; [("id", VInt 1); ("v", VStr "e")];
    [("id", VInt 2); ("v", VStr "d")]; [("id", VInt 3); ("v", VStr "a")];
    [("id", VInt 3); ("v", VStr "c")] ].

Ltac decide_by_computation :=
  match goal with
  | |- ?P => apply (bool_decide_unpack P); vm_compute; exact I
  end.

(** * Further operations *)

(** ** The mappers that drop rows *)

(** [if test: yield row], for a [test] that may raise. *)
Definition yield_if (test : TRow → exn + bool) : Mapper := λ σ r,
  match σ !! r with
  | Some row =>
      match test row with
      | inl e => (σ, ([], Raise e))
      | inr true => (σ, ([r], Done))
      | inr false => (σ, ([], Done))
      end
  | None => (σ, ([], Done))
  end.

(** [Filter.__call__]; [condition] is the callable given to [__init__],
    with the truth value of what it returns. *)
Definition Filter (condition : TRow → exn + bool) : Mapper := yield_if condition.

(** [len(v)]. *)
Definition py_len (v : Value) : exn + Z :=
  match v with
  | VStr s => inr (Z.of_nat (String.length s))
  | VInt _ => inl TypeError
  end.

(** [LongerThanN.__call__]: [if len(row[self.column]) > self.n]. *)
Definition LongerThanN (column : string) (n : Z) : Mapper :=
  yield_if (λ row,
    match getitem row column with
    | inl e => inl e
    | inr v =>
        match py_len v with
        | inl e => inl e
        | inr len => inr (Z.ltb n len)
        end
    end).

(** [a >= b] on values. *)
Definition py_ge (a b : Value) : option bool :=
  match a, b with
  | VInt n, VInt m => Some (Z.leb m n)
  | VStr s, VStr t => Some (negb (String.ltb s t))
  | _, _ => None
  end.

(** [AtLeastNTimes.__call__]: [if row[self.column] >= self.n], for the
    [int] threshold [n]. *)
Definition AtLeastNTimes (column : string) (n : Z) : Mapper :=
  yield_if (λ row,
    match getitem row column with
    | inl e => inl e
    | inr v =>
        match py_ge v (VInt n) with
        | None => inl TypeError
        | Some b => inr b
        end
    end).

(** ** [Split] *)

(** Text is a sequence of code points below 256.  These are the ones
    [str.isspace] holds of, which are also the ones [\s] matches and
    [str.strip] removes. *)
Definition is_space (c : ascii) : bool :=
  let n := nat_of_ascii c in
  ((9 <=? n) && (n <=? 13) || (28 <=? n) && (n <=? 32)
   || (n =? 133) || (n =? 160))%nat.

(** The longest prefix of [s] made of characters that satisfy [p], and
    what follows it. *)
Fixpoint span (p : ascii → bool) (s : string) : string * string :=
  match s with
  | EmptyString => (EmptyString, EmptyString)
  | String c rest =>
      if p c then let '(run, after) := span p rest in (String c run, after)
      else (EmptyString, s)
  end.

(** One match, at the start of [s], of the pattern [Split.__init__] makes
    for [separator=None]: a group of [\S] under a star, then [\s] under a
    star.  Both stars are greedy and nothing follows them, so the match is
    the longest run of non-blanks followed by the longest run of blanks. *)
Definition match_word (s : string) : string * string :=
  let '(word, after) := span (λ c, negb (is_space c)) s in
  let '(blanks, after) := span is_space after in
  (word +:+ blanks, after).

(** [re.finditer] of that pattern on [s], the matched texts: one match
    after the other; the pattern matches the empty text only at the end of
    [s], and that match is the last one.  Every other match uses up a
    character: [fuel] bounds their number. *)
Fixpoint finditer_words (fuel : nat) (s : string) : list string :=
  match fuel with
  | O => []
  | S fuel' =>
      let '(m, after) := match_word s in
      match m with
      | EmptyString => [EmptyString]
      | _ => m :: finditer_words fuel' after
      end
  end.

(** The characters to which the syntax of regular expressions gives a
    meaning.  [Split.__init__] puts the separator into its pattern as it
    is, so with one of these the pattern is another one, or none at all;
    such separators are outside the model. *)
Definition regex_special (c : ascii) : bool :=
  existsb (Ascii.eqb c) (list_ascii_of_string ".^$*+?{}[]\|()").

(** [re.finditer] of the pattern made for a separator [c] of one
    character that is not [regex_special] (any run of characters other
    than [c], then [c]), the matched texts: every match runs up to the
    next [c] and takes it in; what follows the last [c] does not match.
    [part] is the text read since the last match. *)
Fixpoint finditer_separator (c : ascii) (part : string) (s : string) : list string :=
  match s with
  | EmptyString => []
  | String a rest =>
      if Ascii.eqb a c then (part +:+ String c EmptyString) :: finditer_separator c EmptyString rest
      else finditer_separator c (part +:+ String a EmptyString) rest
  end.

(** [re.finditer(self.split_regex, txt)] for the pattern [Split.__init__]
    makes: of [separator=None], or of a one-character separator that is
    not [regex_special]. *)
Definition finditer_split (separator : option ascii) (txt : string) : list string :=
  match separator with
  | None => finditer_words (S (String.length txt)) txt
  | Some c => finditer_separator c EmptyString txt
  end.

(** [str.lstrip], [str.rstrip] and [str.strip] without arguments. *)
Fixpoint lstrip (s : string) : string :=
  match s with
  | EmptyString => EmptyString
  | String c rest => if is_space c then lstrip rest else s
  end.

Fixpoint rstrip (s : string) : string :=
  match s with
  | EmptyString => EmptyString
  | String c rest =>
      match rstrip rest with
      | EmptyString => if is_space c then EmptyString else String c EmptyString
      | kept => String c kept
      end
  end.

Definition strip (s : string) : string := lstrip (rstrip s).

(** The values [Split.__call__] yields rows for: the stripped matches that
    are not empty. *)
Definition split_values (separator : option ascii) (txt : string) : list string :=
  filter (λ value, value ≠ EmptyString) (strip <$> finditer_split separator txt).

(** [Split.__call__]: every value goes into a copy of the row, which is a
    new object; the row itself is not written to.  [re.finditer] raises on
    what is not a [str]. *)
Definition Split (column : string) (separator : option ascii) : Mapper := λ σ r,
  match σ !! r with
  | Some row =>
      match getitem row column with
      | inl e => (σ, ([], Raise e))
      | inr (VInt _) => (σ, ([], Raise TypeError))
      | inr (VStr txt) =>
          let new_rows :=
            (λ value, dict_set (dict_copy row) column (VStr value))
              <$> split_values separator txt in
          (σ ++ new_rows, (seq (List.length σ) (List.length new_rows), Done))
      end
  | None => (σ, ([], Done))
  end.

(** ** The reducers *)

(** [a + b] on values. *)
Definition py_add (a b : Value) : exn + Value :=
  match a, b with
  | VInt n, VInt m => inr (VInt (n + m))
  | VStr s, VStr t => inr (VStr (s +:+ t))
  | _, _ => inl TypeError
  end.

(** [row = next(iter(rows))] in the body of a reducer, [rows] being the
    iterator [Reduce] passes: the first row and the iterator after it.  On
    an exhausted iterator the [StopIteration] leaves the generator body as
    a [RuntimeError]. *)
Definition next_row (rows : stream TRow) : exn + (TRow * stream TRow) :=
  match rows.1 with
  | row :: rest => inr (row, (rest, rows.2))
  | [] =>
      inl (match rows.2 with
           | Done => generator_raised_StopIteration
           | Raise e => e
           end)
  end.

(** A loop [for row in rows: body] over the rows left of the iterator,
    where [body] updates the local variables [acc] or raises: the loop
    ends with the first exception of the body, or else the way the
    iterator ends. *)
Fixpoint for_rows {A} (body : A → TRow → exn + A) (rows : list TRow)
    (out : outcome) (acc : A) : exn + A :=
  match rows with
  | [] => match out with Done => inr acc | Raise e => inl e end
  | row :: rest =>
      match body acc row with
      | inl e => inl e
      | inr acc' => for_rows body rest out acc'
      end
  end.

(** [d[k] += rhs]: [d[k]] is read, then the right-hand side [rhs] is
    evaluated, then the sum is stored. *)
Definition dict_iadd (d : TRow) (k : string) (rhs : exn + Value) : exn + TRow :=
  match getitem d k with
  | inl e => inl e
  | inr old =>
      match rhs with
      | inl e => inl e
      | inr v =>
          match py_add old v with
          | inl e => inl e
          | inr new => inr (dict_set d k new)
          end
      end
  end.

(** [CountRows.__call__]: [sum(1 for _ in rows)], then the one row. *)
Definition CountRows (column : string) : Reducer := λ _ rows,
  match for_rows (λ rows_ctr _, inr (rows_ctr + 1)) rows.1 rows.2 0 with
  | inl e => ([], Raise e)
  | inr rows_ctr => ([ [(column, VInt rows_ctr)] ], Done)
  end.

(** [Count.__call__]. *)
Definition Count (column : string) : Reducer := λ group_key rows,
  match next_row rows with
  | inl e => ([], Raise e)
  | inr (row, rows) =>
      match project_loop group_key row [] with
      | inl e => ([], Raise e)
      | inr new_row =>
          let new_row := dict_set new_row column (VInt 1) in
          match for_rows (λ new_row _, dict_iadd new_row column (inr (VInt 1)))
                  rows.1 rows.2 new_row with
          | inl e => ([], Raise e)
          | inr new_row => ([new_row], Done)
          end
      end
  end.

(** [Sum.__call__]. *)
Definition Sum (column : string) : Reducer := λ group_key rows,
  match next_row rows with
  | inl e => ([], Raise e)
  | inr (row, rows) =>
      match project_loop group_key row [] with
      | inl e => ([], Raise e)
      | inr new_row =>
          match getitem row column with
          | inl e => ([], Raise e)
          | inr v =>
              let new_row := dict_set new_row column v in
              match for_rows (λ new_row row,
                                dict_iadd new_row column (getitem row column))
                      rows.1 rows.2 new_row with
              | inl e => ([], Raise e)
              | inr new_row => ([new_row], Done)
              end
          end
      end
  end.

(** [Mean.__call__]; the local variables of its loop are [new_row] and
    [stream_size], and [truediv] is the quotient of two ints, as for
    [Divide]. *)
Definition Mean (truediv : Z → Z → Value) (column : string) : Reducer :=
  λ group_key rows,
  match next_row rows with
  | inl e => ([], Raise e)
  | inr (row, rows) =>
      match project_loop group_key row [] with
      | inl e => ([], Raise e)
      | inr new_row =>
          match getitem row column with
          | inl e => ([], Raise e)
          | inr v =>
              let new_row := dict_set new_row column v in
              match for_rows (λ '(new_row, stream_size) row,
                                match dict_iadd new_row column (getitem row column) with
                                | inl e => inl e
                                | inr new_row => inr (new_row, stream_size + 1)
                                end)
                      rows.1 rows.2 (new_row, 1) with
              | inl e => ([], Raise e)
              | inr (new_row, stream_size) =>
                  match getitem new_row column with
                  | inl e => ([], Raise e)
                  | inr total =>
                      match py_truediv truediv total (VInt stream_size) with
                      | inl e => ([], Raise e)
                      | inr mean => ([dict_set new_row column mean], Done)
                      end
                  end
              end
          end
      end
  end.

(** The [defaultdict(int)] of the two term-frequency reducers: the words
    in the order in which they were first seen, each with its number. *)
Fixpoint counter_get (counter : list (Value * Value)) (w : Value) : option Value :=
  match counter with
  | [] => None
  | (w', n) :: rest => if decide (w' = w) then Some n else counter_get rest w
  end.

Fixpoint counter_set (counter : list (Value * Value)) (w : Value) (n : Value)
  : list (Value * Value) :=
  match counter with
  | [] => [(w, n)]
  | (w', n') :: rest =>
      if decide (w' = w) then (w', n) :: rest else (w', n') :: counter_set rest w n
  end.

(** [new_row[word] += rhs]: the word is evaluated, its number is read
    ([0] for a word not seen before), then the right-hand side is
    evaluated and the sum stored. *)
Definition counter_iadd (new_row : list (Value * Value)) (word rhs : exn + Value)
  : exn + list (Value * Value) :=
  match word with
  | inl e => inl e
  | inr w =>
      match rhs with
      | inl e => inl e
      | inr v =>
          match py_add (default (VInt 0) (counter_get new_row w)) v with
          | inl e => inl e
          | inr n => inr (counter_set new_row w n)
          end
      end
  end.

(** The generator expression both reducers end with: for every word of
    [new_row] the row [dict(common_dict, words_column=word,
    result_column=value / stream_size)]. *)
Fixpoint frequency_rows (truediv : Z → Z → Value) (common_dict : TRow)
    (words_column result_column : string) (stream_size : Value)
    (new_row : list (Value * Value)) : stream TRow :=
  match new_row with
  | [] => ([], Done)
  | (column, value) :: rest =>
      match py_truediv truediv value stream_size with
      | inl e => ([], Raise e)
      | inr tf =>
          let '(l, out) := frequency_rows truediv common_dict words_column
                             result_column stream_size rest in
          (dict_set (dict_set common_dict words_column column) result_column tf :: l,
           out)
      end
  end.

(** [TermFrequency.__call__]. *)
Definition TermFrequency (truediv : Z → Z → Value)
    (words_column result_column : string) : Reducer := λ group_key rows,
  match next_row rows with
  | inl e => ([], Raise e)
  | inr (row, rows) =>
      match project_loop group_key row [] with
      | inl e => ([], Raise e)
      | inr common_dict =>
          match counter_iadd [] (getitem row words_column) (inr (VInt 1)) with
          | inl e => ([], Raise e)
          | inr new_row =>
              match for_rows (λ '(new_row, stream_size) row,
                                match counter_iadd new_row (getitem row words_column)
                                        (inr (VInt 1)) with
                                | inl e => inl e
                                | inr new_row => inr (new_row, stream_size + 1)
                                end)
                      rows.1 rows.2 (new_row, 1) with
              | inl e => ([], Raise e)
              | inr (new_row, stream_size) =>
                  frequency_rows truediv common_dict words_column result_column
                    (VInt stream_size) new_row
              end
          end
      end
  end.

(** [TermFrequencyFromCounts.__call__]. *)
Definition TermFrequencyFromCounts (truediv : Z → Z → Value)
    (words_column count_column result_column : string) : Reducer :=
  λ group_key rows,
  match next_row rows with
  | inl e => ([], Raise e)
  | inr (row, rows) =>
      match project_loop group_key row [] with
      | inl e => ([], Raise e)
      | inr common_dict =>
          match counter_iadd [] (getitem row words_column)
                  (getitem row count_column) with
          | inl e => ([], Raise e)
          | inr new_row =>
              match getitem row count_column with
              | inl e => ([], Raise e)
              | inr stream_size =>
                  match for_rows (λ '(new_row, stream_size) row,
                                    match counter_iadd new_row (getitem row words_column)
                                            (getitem row count_column) with
                                    | inl e => inl e
                                    | inr new_row =>
                                        match getitem row count_column with
                                        | inl e => inl e
                                        | inr v =>
                                            match py_add stream_size v with
                                            | inl e => inl e
                                            | inr stream_size => inr (new_row, stream_size)
                                            end
                                        end
                                    end)
                          rows.1 rows.2 (new_row, stream_size) with
                  | inl e => ([], Raise e)
                  | inr (new_row, stream_size) =>
                      frequency_rows truediv common_dict words_column result_column
                        stream_size new_row
                  end
              end
          end
      end
  end.

(** ** Streams sorted by their keys *)

(** No key is greater than the one after it. *)
Fixpoint ascending (ks : list Key) : bool :=
  match ks with
  | k1 :: ((k2 :: _) as rest) =>
      bool_decide (key_gt k1 k2 = Some false) && ascending rest
  | _ => true
  end.

(** Every row has the key columns, and the keys of the rows do not
    descend. *)
Definition sorted_by (keys : list string) (rows : list TRow) : bool :=
  has_keys keys rows && ascending (group_keys keys rows).

(** The maximal runs of rows with equal keys. *)
Definition runs_of (keys : list string) (rows : list TRow) : list (list TRow) :=
  (group_runs (attach_keys keys rows).1).*2.

(** The rows of [rows] whose key is [k]. *)
Definition rows_with_key (keys : list string) (k : Key) (rows : list TRow)
  : list TRow :=
  filter (λ row, itemgetter keys row = inr k) rows.

(** The sum of the [int]s of a column. *)
Definition column_total (column : string) (rows : list TRow) : Z :=
  foldr (λ row total, match dict_get row column with
                      | Some (VInt n) => n + total
                      | _ => total
                      end) 0 rows.

(** Every row holds an [int] in the column. *)
Definition int_column (column : string) (rows : list TRow) : bool :=
  forallb (λ row, match dict_get row column with
                  | Some (VInt _) => true
                  | _ => false
                  end) rows.

(** No group has a mean, the sum of the column by the number of rows,
    too large for a float. *)
Definition means_fit (column : string) (groups : list (list TRow)) : bool :=
  forallb (λ g, negb (float_overflow (column_total column g)
                        (Z.of_nat (List.length g)))) groups.

(** The reducers that yield one row per group, the key columns of its
    first row with a number under [column]. *)
Inductive aggregate : Type :=
| AggCount
| AggSum
| AggMean.

Definition aggregate_reducer (truediv : Z → Z → Value) (column : string)
    (a : aggregate) : Reducer :=
  match a with
  | AggCount => Count column
  | AggSum => Sum column
  | AggMean => Mean truediv column
  end.

(** What each of them needs of the rows it is to reduce: [Count] nothing,
    [Sum] an [int] under the column in every row, [Mean] that and no group
    with a mean too large for a float. *)
Definition aggregate_accepts (a : aggregate) (column : string)
    (keys : list string) (rows : list TRow) : bool :=
  match a with
  | AggCount => true
  | AggSum => int_column column rows
  | AggMean => int_column column rows && means_fit column (runs_of keys rows)
  end.

(** The heap after
    [Graph.graph_from_iter('n').map(DummyMapper()).reduce(CountRows('c'), [])]:
    the [Reduce] is at address 5. *)
Definition ex_count_heap : list obj :=
  let '(h, n) := graph_from_iter [] "n" in
  let '(h, m) := graph_map h n DummyMapper in
  (graph_reduce h m (CountRows "c") []).1.

(** Rows with several rows to a key, and a number in each. *)
Definition ex_marks : list TRow :=
  [ [("id", VInt 1); ("x", VInt 4)]; [("id", VInt 1); ("x", VInt 6)];
    [("id", VInt 2); ("x", VInt 5)] ].

(** ** The join of two sorted streams, row by row *)

(** The rows of [rows] that have the key of [row]. *)
Definition matching_rows (keys : list string) (row : TRow) (rows : list TRow)
  : list TRow :=
  filter (λ r, itemgetter keys r = itemgetter keys row) rows.

(** Every row of [left_rows], in order, joined with every row of
    [right_rows] that has its key, in order; a row with no match is
    dropped, or kept as it is when [keep] is set. *)
Definition equi_join (keep : bool) (keys : list string) (sa sb : string)
    (left_rows right_rows : list TRow) : list TRow :=
  l ← left_rows;
  match matching_rows keys l right_rows with
  | [] => if keep then [l] else []
  | matches => join_rows keys sa sb l <$> matches
  end.

(** Every key of the one side can be compared with every key of the
    other. *)
Definition cross_comparable (ksL ksR : list Key) : bool :=
  forallb (λ kl, forallb (λ kr, bool_decide (is_Some (key_lt kl kr))) ksR) ksL.

(** The same on groups: the rows of the groups of [R] whose key is [k],
    and the groups of [L] joined with them. *)
Definition group_matches (k : Key) (R : list (Key * list TRow)) : list TRow :=
  List.concat (filter (λ kg, kg.1 = k) R).*2.

Definition joined_groups (keep : bool) (keys : list string) (sa sb : string)
    (L R : list (Key * list TRow)) : list TRow :=
  kg ← L;
  match group_matches kg.1 R with
  | [] => if keep then kg.2 else []
  | matches => common_join_rows keys sa sb JoinAny kg.2 matches
  end.

(** A group as [_safe_groupby] yields it from a stream that ends
    quietly. *)
Definition closed_group (kg : Key * list TRow) : Key * stream TRow :=
  (kg.1, (kg.2, Done)).

(** ** What the mappers keep and compute *)

(** The row at [r] passes [test]. *)
Definition kept (test : TRow → exn + bool) (σ : list TRow) (r : nat) : bool :=
  match σ !! r with
  | Some row => match test row with inr true => true | _ => false end
  | None => false
  end.

(** The column holds a [str] of more than [n] characters. *)
Definition str_longer_than (column : string) (n : Z) (row : TRow) : bool :=
  match dict_get row column with
  | Some (VStr txt) => Z.ltb n (Z.of_nat (String.length txt))
  | _ => false
  end.

(** The column holds an [int] that is at least [n]. *)
Definition int_at_least (column : string) (n : Z) (row : TRow) : bool :=
  match dict_get row column with
  | Some (VInt m) => Z.leb n m
  | _ => false
  end.

(** The product of the [int]s the row holds in [columns], from [acc]
    on. *)
Definition column_product (columns : list string) (row : TRow) (acc : Z) : Z :=
  foldl (λ acc column, match dict_get row column with
                       | Some (VInt n) => acc * n
                       | _ => acc
                       end) acc columns.

(** Every one of the columns holds an [int] in the row. *)
Definition int_columns (columns : list string) (row : TRow) : bool :=
  forallb (λ column, match dict_get row column with
                     | Some (VInt _) => true
                     | _ => false
                     end) columns.

(** ** Texts made of words and blanks *)

(** Every character of [s] satisfies [p]. *)
Fixpoint string_forall (p : ascii → bool) (s : string) : bool :=
  match s with
  | EmptyString => true
  | String c rest => p c && string_forall p rest
  end.

(** A word: one character or more, none of them a blank. *)
Definition is_word (w : string) : bool :=
  negb (String.eqb w EmptyString) && string_forall (λ c, negb (is_space c)) w.

(** One blank or more. *)
Definition is_blanks (s : string) : bool :=
  negb (String.eqb s EmptyString) && string_forall is_space s.

(** The words of [ws], each followed by its blanks, then [last]. *)
Definition spaced (ws : list (string * string)) (last : string) : string :=
  foldr (λ wsp acc, wsp.1 +:+ wsp.2 +:+ acc) last ws.

(** The parts of [parts], each followed by the separator [c], then
    [tail]. *)
Definition separated (c : ascii) (parts : list string) (tail : string) : string :=
  foldr (λ part acc, part +:+ String c acc) tail parts.

(** [s] is empty or begins with a character that fails [p]. *)
Definition stops (p : ascii → bool) (s : string) : Prop :=
  match s with
  | EmptyString => True
  | String c _ => p c = false
  end.

(** ** Counting words *)

(** The values the rows hold in a column. *)
Definition column_values (column : string) (rows : list TRow) : list Value :=
  omap (λ row, dict_get row column) rows.

(** The words in the order in which they are first met. *)
Definition first_seen (ws : list Value) : list Value :=
  foldl (λ seen w, if decide (w ∈ seen) then seen else seen ++ [w]) [] ws.

(** How many times [w] is among [ws]. *)
Definition occurrences (w : Value) (ws : list Value) : Z :=
  Z.of_nat (List.length (filter (λ w', w' = w) ws)).

(** A tally of words, and the tally with one more [w]. *)
Fixpoint tally (f : list (Value * Z)) (w : Value) : list (Value * Z) :=
  match f with
  | [] => [(w, 1)]
  | (w', n) :: rest =>
      if decide (w' = w) then (w', n + 1) :: rest else (w', n) :: tally rest w
  end.

(** What a tally says of [w]. *)
Definition tally_get (f : list (Value * Z)) (w : Value) : Z :=
  foldr (λ wn acc, if decide (wn.1 = w) then wn.2 + acc else acc) 0 f.

(** The tally as the [defaultdict] holds it. *)
Definition counter_of (f : list (Value * Z)) : list (Value * Value) :=
  (λ wn, (wn.1, VInt wn.2)) <$> f.

(** ** Rows without a match *)

(** The rows of [rows] whose key no row of [others] has. *)
Definition unmatched_rows (keys : list string) (rows others : list TRow)
  : list TRow :=
  filter (λ r, matching_rows keys r others = []) rows.

(** The same on groups. *)
Definition unmatched_groups (R L : list (Key * list TRow)) : list TRow :=
  kg ← R;
  match group_matches kg.1 L with
  | [] => kg.2
  | _ => []
  end.

(** ** The graphs of [algorithms.py] *)

Section algorithms.
(** [Graph.graph_from_file], whose operation [Read] opens a file, is not
    modelled: here it is any function that builds a graph. *)
Variable graph_from_file : list obj → string → list obj * nat.
(** [str.lower], as for [LowerCase]. *)
Variable _lower_case : string → string.

(** [reader]: the graph that reads the file when a file name is given,
    the named source otherwise. *)
Definition reader (h : list obj) (input_stream_name : string)
    (filename : option string) : list obj * nat :=
  match filename with
  | Some name => graph_from_file h name
  | None => graph_from_iter h input_stream_name
  end.

(** [word_count_graph]: the chain of calls on [reader_graph.copy()], each
    made on the graph the call before it returned. *)
Definition word_count_graph (h : list obj) (input_stream_name : string)
    (text_column count_column : string) (filename : option string)
  : option (list obj * nat) :=
  let '(h, reader_graph) := reader h input_stream_name filename in
  match copy h reader_graph with
  | None => None
  | Some (h, g) =>
      let '(h, g) := graph_map h g (FilterPunctuation text_column) in
      let '(h, g) := graph_map h g (LowerCase _lower_case text_column) in
      let '(h, g) := graph_map h g (Split text_column None) in
      let '(h, g) := graph_sort h g [text_column] in
      let '(h, g) := graph_reduce h g (Count count_column) [text_column] in
      Some (graph_sort h g [count_column; text_column])
  end.

End algorithms.

(** What [ReadIterGenerator] yields for the source named [name]. *)
Definition source_rows (kwargs : gmap string (list TRow * outcome)) (name : string)
  : list TRow * outcome :=
  match kwargs !! name with
  | Some rows => rows
  | None => ([], Raise (KeyError name))
  end.

(** The words of the texts of the rows, as the three mappers of
    [word_count_graph] make them. *)
Definition words_of (_lower_case : string → string) (text_column : string)
    (rows : list TRow * outcome) : list TRow * outcome :=
  Map_call (Split text_column None)
    (Map_call (LowerCase _lower_case text_column)
       (Map_call (FilterPunctuation text_column) rows)).

(** The rows of [rows] that hold [v] in the column. *)
Definition rows_holding (column : string) (v : Value) (rows : list TRow)
  : list TRow :=
  filter (λ row, dict_get row column = Some v) rows.

(** The graph at [g] of the well-formed heap [h] runs to the stream [s],
    with [f] units of fuel or more. *)
Definition runs_to (Stream : Type) (call : Operation → list Stream → option Stream)
    (h : list obj) (g : nat) (s : Stream) (f : nat) : Prop :=
  heap_ok h = true
  ∧ (∃ operation parents, h !! g = Some (GraphObj operation parents))
  ∧ ∀ fuel, (f ≤ fuel)%nat → run Stream call fuel h g = Some s.

(** The rows [word_count_graph] counts: for every row that holds a text,
    one row per word of the text without its punctuation and in lower
    case. *)
Definition word_rows (_lower_case : string → string) (text_column : string)
    (rows : list TRow) : list TRow :=
  row ← rows;
  match dict_get row text_column with
  | Some (VStr txt) =>
      (λ w, dict_set row text_column (VStr w))
        <$> split_values None (_lower_case (remove_punctuation txt))
  | _ => []
  end.

(** Every row holds a [str] in the column. *)
Definition str_column (column : string) (rows : list TRow) : bool :=
  forallb (λ row, match dict_get row column with
                  | Some (VStr _) => true
                  | _ => false
                  end) rows.

(** One text, and its words in rows. *)
Definition ex_texts : list TRow := [ [("text", VStr "A, a Rose rose!")] ].

Definition ex_words : list TRow :=
  [ [("text", VStr "a")]; [("text", VStr "a")];
    [("text", VStr "rose")]; [("text", VStr "rose")] ].

(** ** Adding up counts by word *)

(** The tally with [n] more of [w]. *)
Fixpoint tally_by (f : list (Value * Z)) (w : Value) (n : Z) : list (Value * Z) :=
  match f with
  | [] => [(w, n)]
  | (w', m) :: rest =>
      if decide (w' = w) then (w', m + n) :: rest else (w', m) :: tally_by rest w n
  end.

(** The word and the count of every row that holds a word and an [int]
    count. *)
Definition word_weights (words_column count_column : string) (rows : list TRow)
  : list (Value * Z) :=
  omap (λ row, match dict_get row words_column, dict_get row count_column with
               | Some w, Some (VInt n) => Some (w, n)
               | _, _ => None
               end) rows.

(** No word has a share, the sum of its counts by the sum of all counts,
    too large for a float. *)
Definition shares_fit (words_column count_column : string) (rows : list TRow)
  : bool :=
  forallb (λ w, negb (float_overflow
                        (column_total count_column
                           (rows_holding words_column w rows))
                        (column_total count_column rows)))
          (column_values words_column rows).

(** A group in which a word comes back. *)
Definition ex_counts : list TRow :=
  [ [("id", VInt 1); ("v", VStr "b"); ("n", VInt 2)];
    [("id", VInt 1); ("v", VStr "e"); ("n", VInt 3)];
    [("id", VInt 1); ("v", VStr "b"); ("n", VInt 5)] ].

(** * Facts about the model *)

(** ** Dict operations seen through [row_map] *)

Lemma dict_get_row_map (row : TRow) (k : string) :
  dict_get row k = row_map row !! k.
Proof.
  unfold row_map. induction row as [|[k' v] rest IH]; simpl.
  - by rewrite lookup_empty.
  - destruct (String.eqb_spec k' k) as [->|Hne].
    + by rewrite lookup_insert_eq.
    + by rewrite lookup_insert_ne.
Qed.

Lemma row_map_dict_set (row : TRow) (k : string) (v : Value) :
  row_map (dict_set row k v) = <[k:=v]> (row_map row).
Proof.
  unfold row_map. induction row as [|[k' v'] rest IH]; simpl; [done|].
  destruct (String.eqb_spec k' k) as [->|Hne]; simpl.
  - by rewrite insert_insert_eq.
  - rewrite IH. by apply insert_insert_ne.
Qed.

Lemma dict_keys_dict_del (row : TRow) (k k' : string) :
  k' ∈ dict_keys (dict_del row k) → k' ∈ dict_keys row.
Proof.
  unfold dict_keys. induction row as [|[k0 v0] rest IH]; simpl; [done|].
  destruct (String.eqb_spec k0 k); simpl; set_solver.
Qed.

Lemma row_map_dict_del (row : TRow) (k : string) :
  row_ok row → row_map (dict_del row k) = delete k (row_map row).
Proof.
  unfold row_ok, row_map, dict_keys.
  induction row as [|[k' v'] rest IH]; simpl; intros Hnd.
  - by rewrite delete_empty.
  - apply NoDup_cons in Hnd as [Hnotin Hnd].
    destruct (String.eqb_spec k' k) as [->|Hne]; simpl.
    + rewrite delete_insert_eq. symmetry. apply delete_id.
      by apply not_elem_of_list_to_map_1.
    + rewrite delete_insert_ne by done. by rewrite IH.
Qed.

Lemma row_ok_dict_set (row : TRow) (k : string) (v : Value) :
  row_ok row → row_ok (dict_set row k v).
Proof.
  unfold row_ok, dict_keys.
  induction row as [|[k' v'] rest IH]; simpl; intros Hnd.
  - apply NoDup_singleton.
  - apply NoDup_cons in Hnd as [Hnotin Hnd].
    destruct (String.eqb_spec k' k) as [->|Hne]; simpl.
    + by apply NoDup_cons.
    + apply NoDup_cons. split; [|by apply IH].
      intros Hin. apply Hnotin. clear -Hin Hne.
      induction rest as [|[k0 v0] rest IH]; simpl in *.
      * set_solver.
      * destruct (String.eqb_spec k0 k); simpl in *; set_solver.
Qed.

Lemma row_ok_dict_del (row : TRow) (k : string) :
  row_ok row → row_ok (dict_del row k).
Proof.
  unfold row_ok. induction row as [|[k' v'] rest IH]; simpl; intros Hnd; [done|].
  unfold dict_keys in *. simpl in *.
  apply NoDup_cons in Hnd as [Hnotin Hnd].
  destruct (String.eqb_spec k' k) as [->|Hne]; simpl; [done|].
  apply NoDup_cons. split; [|by apply IH].
  intros Hin. apply Hnotin. by eapply (dict_keys_dict_del rest k).
Qed.

Lemma elem_of_dict_keys (row : TRow) (k : string) :
  k ∈ dict_keys row ↔ is_Some (dict_get row k).
Proof.
  unfold dict_keys. induction row as [|[k' v'] rest IH]; simpl.
  - split; [set_solver|]. by intros [? ?].
  - destruct (String.eqb_spec k' k) as [->|Hne].
    + split; [eauto|set_solver].
    + rewrite <- IH. set_solver.
Qed.

Lemma in_keys_spec (k : string) (keys : list string) :
  in_keys k keys = true ↔ k ∈ keys.
Proof.
  unfold in_keys. rewrite existsb_exists. split.
  - intros (x & Hin & Heq). apply String.eqb_eq in Heq as ->.
    by apply list_elem_of_In.
  - intros Hin. exists k. split; [by apply list_elem_of_In|apply String.eqb_refl].
Qed.

(** ** Column names with a suffix *)

Lemma list_ascii_of_string_app (s1 s2 : string) :
  list_ascii_of_string (s1 +:+ s2)
  = (list_ascii_of_string s1 ++ list_ascii_of_string s2)%list.
Proof. induction s1 as [|a s1 IH]; simpl; [done|]. by rewrite IH. Qed.

Lemma list_ascii_of_string_inj (s1 s2 : string) :
  list_ascii_of_string s1 = list_ascii_of_string s2 → s1 = s2.
Proof.
  intros H. rewrite <- (string_of_list_ascii_of_string s1),
    <- (string_of_list_ascii_of_string s2). by rewrite H.
Qed.

(** Appending the same suffix to two names keeps them apart. *)
Lemma suffix_inj (s k k' : string) : k +:+ s = k' +:+ s → k = k'.
Proof.
  intros H. apply list_ascii_of_string_inj.
  apply (f_equal list_ascii_of_string) in H.
  rewrite !list_ascii_of_string_app in H. by apply app_inv_tail in H.
Qed.

Lemma default_suffixes_apart : suffixes_apart "_1" "_2".
Proof.
  intros k k' H. apply (f_equal list_ascii_of_string) in H.
  rewrite !list_ascii_of_string_app in H. simpl in H.
  change ["_"%char; "1"%char] with (["_"%char] ++ ["1"%char])%list in H.
  change ["_"%char; "2"%char] with (["_"%char] ++ ["2"%char])%list in H.
  rewrite !app_assoc in H. apply app_inj_tail in H as [_ H]. discriminate.
Qed.

Lemma suffixes_apart_sym (sa sb : string) :
  suffixes_apart sa sb → suffixes_apart sb sa.
Proof. intros H k k' Heq. by apply (H k' k). Qed.

(** ** The merge of two rows, seen on finite maps *)

Lemma merge_field_row_map keys sa sb (new_row : TRow) (kv : string * Value) :
  row_ok new_row →
  row_ok (merge_field keys sa sb new_row kv)
  ∧ row_map (merge_field keys sa sb new_row kv)
    = map_merge_field keys sa sb (row_map new_row) kv.
Proof.
  intros Hok. destruct kv as [k v]. unfold merge_field, map_merge_field. simpl.
  rewrite <- dict_get_row_map. destruct (dict_get new_row k) as [old|].
  - destruct (in_keys k keys); simpl; [done|]. split.
    + by do 2 apply row_ok_dict_set; apply row_ok_dict_del.
    + by rewrite !row_map_dict_set, row_map_dict_del.
  - split; [by apply row_ok_dict_set|apply row_map_dict_set].
Qed.

Lemma join_rows_row_map keys sa sb (left_row right_row : TRow) :
  row_ok right_row →
  row_ok (join_rows keys sa sb left_row right_row)
  ∧ row_map (join_rows keys sa sb left_row right_row)
    = foldl (map_merge_field keys sa sb) (row_map right_row) left_row.
Proof.
  unfold join_rows, dict_copy. revert right_row.
  induction left_row as [|kv rest IH]; intros right_row Hok; simpl; [done|].
  destruct (merge_field_row_map keys sa sb right_row kv Hok) as [Hok' Heq].
  destruct (IH _ Hok') as [Hok'' Heq'']. split; [done|]. by rewrite Heq'', Heq.
Qed.

(** ** What the merged row holds when no suffixed name is taken *)

Section merge_invariant_facts.
Variables (keys : list string) (sa sb : string).
Variables (lm rm : gmap string Value).
#[local] Abbreviation merged_at := (merged_at keys sa sb rm).
#[local] Abbreviation renamed_from := (renamed_from keys sa sb rm).
#[local] Abbreviation merge_inv := (merge_inv keys sa sb lm rm).
Hypothesis Hap : suffixes_apart sa sb.
(** The names made by renaming a colliding column are columns of
    neither row. *)
Hypothesis Hclash : ∀ k : string,
  is_Some (lm !! k) → is_Some (rm !! k) → in_keys k keys = false →
  lm !! (k +:+ sa) = None ∧ lm !! (k +:+ sb) = None
  ∧ rm !! (k +:+ sa) = None ∧ rm !! (k +:+ sb) = None.

Lemma merge_inv_init : merge_inv [] rm.
Proof. split; [done|]. intros k v Hin. by apply elem_of_nil in Hin. Qed.

Lemma merge_inv_step (P : TRow) (k : string) (v : Value) (m : gmap string Value) :
  k ∉ P.*1 → lm !! k = Some v → (∀ k0, k0 ∈ P.*1 → is_Some (lm !! k0)) →
  merge_inv P m →
  merge_inv (P ++ [(k, v)]) (map_merge_field keys sa sb m (k, v)).
Proof.
  intros Hfresh Hk Hdom [Ha Hb].
  assert (Hmk : m !! k = rm !! k).
  { apply Ha; [done|]. intros (k0 & Hk0 & Hr0 & Hj0 & Hc).
    destruct (Hclash k0 (Hdom _ Hk0) Hr0 Hj0) as (Hx1 & Hx2 & _).
    destruct Hc as [->| ->]; congruence. }
  assert (Hnew : ∀ c, c ∈ (P ++ [(k, v)]).*1 ↔ c ∈ P.*1 ∨ c = k).
  { intros c. rewrite fmap_app, elem_of_app. simpl. set_solver. }
  unfold map_merge_field. simpl. rewrite Hmk.
  destruct (rm !! k) as [w|] eqn:Hrk; [destruct (in_keys k keys) eqn:Hjk|].
  - (* a join key: the row is left as it is *)
    split.
    + intros c Hc Hren. apply Ha.
      * rewrite Hnew in Hc. tauto.
      * intros (k0 & Hk0 & Hrest). apply Hren. exists k0.
        rewrite Hnew. tauto.
    + intros k0 v0 Hk0 Hl0. apply Hnew in Hk0 as [Hk0| ->]; [by apply Hb|].
      unfold merged_at. by rewrite Hrk, Hjk.
  - (* a colliding column: renamed *)
    destruct (Hclash k (mk_is_Some _ _ Hk) (mk_is_Some _ _ Hrk) Hjk)
      as (Hl1 & Hl2 & Hr1 & Hr2).
    assert (Hne1 : k +:+ sa ≠ k) by congruence.
    assert (Hne2 : k +:+ sb ≠ k) by congruence.
    split.
    + intros c Hc Hren.
      assert (c ≠ k) by (rewrite Hnew in Hc; tauto).
      assert (c ≠ k +:+ sa ∧ c ≠ k +:+ sb) as [? ?].
      { split; intros ->; apply Hren; exists k; rewrite Hnew; eauto 10. }
      rewrite !lookup_insert_ne, lookup_delete_ne by done. apply Ha.
      * rewrite Hnew in Hc. tauto.
      * intros (k0 & Hk0 & Hrest). apply Hren. exists k0.
        rewrite Hnew. tauto.
    + intros k0 v0 Hk0 Hl0. apply Hnew in Hk0 as [Hk0| ->].
      * assert (k0 ≠ k) by congruence.
        assert (k0 ≠ k +:+ sa ∧ k0 ≠ k +:+ sb) as [? ?] by (split; congruence).
        specialize (Hb k0 v0 Hk0 Hl0). unfold merged_at in *.
        destruct (rm !! k0) as [w0|] eqn:Hr0; [destruct (in_keys k0 keys) eqn:Hj0|].
        -- by rewrite !lookup_insert_ne, lookup_delete_ne.
        -- destruct (Hclash k0 (mk_is_Some _ _ Hl0) (mk_is_Some _ _ Hr0) Hj0)
             as (Hx1 & Hx2 & _).
           assert (k0 +:+ sa ≠ k ∧ k0 +:+ sb ≠ k) as [? ?] by (split; congruence).
           assert (k0 +:+ sa ≠ k +:+ sa ∧ k0 +:+ sb ≠ k +:+ sb) as [? ?].
           { split; intros Heq; by apply suffix_inj in Heq. }
           assert (k0 +:+ sa ≠ k +:+ sb) by apply Hap.
           assert (k0 +:+ sb ≠ k +:+ sa) by (intros Heq; by apply (Hap k k0)).
           destruct Hb as (Hb1 & Hb2 & Hb3).
           by rewrite !lookup_insert_ne, !lookup_delete_ne.
        -- by rewrite !lookup_insert_ne, lookup_delete_ne.
      * unfold merged_at. rewrite Hrk, Hjk.
        assert (k +:+ sa ≠ k +:+ sb) by apply Hap.
        rewrite Hl0 in Hk. injection Hk as ->.
        split; [|split].
        -- by rewrite !lookup_insert_ne, lookup_delete_eq.
        -- rewrite lookup_insert_ne by done. by rewrite lookup_insert_eq.
        -- by rewrite lookup_insert_eq.
  - (* a column the right row does not have: added *)
    split.
    + intros c Hc Hren.
      assert (c ≠ k) by (rewrite Hnew in Hc; tauto).
      rewrite lookup_insert_ne by done. apply Ha.
      * rewrite Hnew in Hc. tauto.
      * intros (k0 & Hk0 & Hrest). apply Hren. exists k0.
        rewrite Hnew. tauto.
    + intros k0 v0 Hk0 Hl0. apply Hnew in Hk0 as [Hk0| ->].
      * assert (k0 ≠ k) by congruence.
        specialize (Hb k0 v0 Hk0 Hl0). unfold merged_at in *.
        destruct (rm !! k0) as [w0|] eqn:Hr0; [destruct (in_keys k0 keys) eqn:Hj0|].
        -- by rewrite lookup_insert_ne.
        -- destruct (Hclash k0 (mk_is_Some _ _ Hl0) (mk_is_Some _ _ Hr0) Hj0)
             as (Hx1 & Hx2 & _).
           assert (k0 +:+ sa ≠ k ∧ k0 +:+ sb ≠ k) as [? ?] by (split; congruence).
           by rewrite !lookup_insert_ne.
        -- by rewrite lookup_insert_ne.
      * unfold merged_at. rewrite Hrk, lookup_insert_eq. congruence.
Qed.

Lemma merge_inv_fold (Q : TRow) : ∀ (P : TRow) (m : gmap string Value),
  NoDup ((P ++ Q).*1) →
  (∀ k v, (k, v) ∈ P ++ Q → lm !! k = Some v) →
  merge_inv P m →
  merge_inv (P ++ Q) (foldl (map_merge_field keys sa sb) m Q).
Proof.
  induction Q as [|[k v] Q IH]; intros P m Hnd Hl Hinv; simpl.
  - by rewrite app_nil_r.
  - replace (P ++ (k, v) :: Q) with ((P ++ [(k, v)]) ++ Q) in *
      by (by rewrite <- app_assoc).
    apply IH; [done..|].
    rewrite !fmap_app in Hnd. simpl in Hnd.
    apply NoDup_app in Hnd as (Hnd & _ & _).
    apply NoDup_app in Hnd as (_ & Hnd & _).
    apply merge_inv_step; [| |  |done].
    + intros Hin. by apply (Hnd k Hin), list_elem_of_singleton.
    + apply Hl. rewrite !elem_of_app. left. right. by apply list_elem_of_singleton.
    + intros k0 Hk0. apply list_elem_of_fmap in Hk0 as ([k1 v1] & -> & Hin).
      exists v1. apply Hl. rewrite !elem_of_app. by do 2 left.
Qed.

(** A column still to be merged holds in the new row what it held in
    the copied row. *)
Lemma merge_inv_pending (P : TRow) (m : gmap string Value) (k : string) :
  k ∉ P.*1 → is_Some (lm !! k) → (∀ k0, k0 ∈ P.*1 → is_Some (lm !! k0)) →
  merge_inv P m → m !! k = rm !! k.
Proof.
  intros Hfresh Hk Hdom [Ha _]. apply Ha; [done|].
  intros (k0 & Hk0 & Hr0 & Hj0 & Hc).
  destruct (Hclash k0 (Hdom _ Hk0) Hr0 Hj0) as (Hx1 & Hx2 & _).
  destruct Hk as [v Hk]. destruct Hc as [->| ->]; congruence.
Qed.

End merge_invariant_facts.

Lemma dict_contains_false (k : string) (row : TRow) :
  dict_contains k row = false ↔ dict_get row k = None.
Proof. unfold dict_contains. destruct (dict_get row k); split; congruence. Qed.

Lemma dict_contains_true (k : string) (row : TRow) :
  dict_contains k row = true ↔ is_Some (dict_get row k).
Proof.
  unfold dict_contains. destruct (dict_get row k); split; intros H;
    first [done | by eauto | by destruct H].
Qed.

Lemma no_clashb_spec keys sa sb (l r : TRow) (k : string) :
  no_clashb keys sa sb l r = true →
  is_Some (dict_get l k) → is_Some (dict_get r k) → in_keys k keys = false →
  dict_get l (k +:+ sa) = None ∧ dict_get l (k +:+ sb) = None
  ∧ dict_get r (k +:+ sa) = None ∧ dict_get r (k +:+ sb) = None.
Proof.
  unfold no_clashb. rewrite forallb_forall. intros Hall Hl Hr Hj.
  specialize (Hall k). rewrite <- list_elem_of_In, elem_of_dict_keys in Hall.
  specialize (Hall Hl). unfold collides in Hall.
  apply dict_contains_true in Hl, Hr. rewrite Hl, Hr, Hj in Hall. simpl in Hall.
  rewrite !andb_true_iff, !negb_true_iff, !dict_contains_false in Hall. tauto.
Qed.

(** The joined row, column by column, when no suffixed name is taken. *)
Lemma join_rows_columns keys sa sb (l r : TRow) :
  suffixes_apart sa sb → row_ok l → row_ok r →
  no_clashb keys sa sb l r = true →
  row_ok (join_rows keys sa sb l r)
  ∧ (∀ k v, dict_get l k = Some v →
       joined_at keys sa sb r (join_rows keys sa sb l r) k v)
  ∧ (∀ c w, dict_get l c = None → dict_get r c = Some w →
       dict_get (join_rows keys sa sb l r) c = Some w).
Proof.
  intros Hap Hl Hr Hnc.
  destruct (join_rows_row_map keys sa sb l r Hr) as [Hok Hmap].
  split; [done|].
  assert (Hclash : ∀ k : string,
    is_Some (row_map l !! k) → is_Some (row_map r !! k) → in_keys k keys = false →
    row_map l !! (k +:+ sa) = None ∧ row_map l !! (k +:+ sb) = None
    ∧ row_map r !! (k +:+ sa) = None ∧ row_map r !! (k +:+ sb) = None).
  { intros k. rewrite <- !dict_get_row_map. by apply no_clashb_spec. }
  destruct (merge_inv_fold keys sa sb (row_map l) (row_map r) Hap Hclash
              l [] (row_map r)) as [Ha Hb].
  { done. }
  { intros k v Hin. simpl in Hin. rewrite <- dict_get_row_map.
    unfold row_map. rewrite dict_get_row_map.
    by apply elem_of_list_to_map_1. }
  { apply merge_inv_init. }
  simpl in Ha, Hb. rewrite <- Hmap in Ha, Hb. split.
  - intros k v Hk. specialize (Hb k v).
    unfold merged_at in Hb. unfold joined_at.
    rewrite <- !dict_get_row_map in Hb. apply Hb.
    + apply elem_of_dict_keys. by eauto.
    + done.
  - intros c w Hlc Hrc. rewrite !dict_get_row_map.
    rewrite Ha; [by rewrite <- dict_get_row_map| |].
    + intros Hin. apply elem_of_dict_keys in Hin as [? ?]. congruence.
    + intros (k & Hk & Hrk & Hjk & Hc).
      apply elem_of_dict_keys in Hk. rewrite !dict_get_row_map in Hk.
      destruct (Hclash k Hk Hrk Hjk) as (_ & _ & H3 & H4).
      rewrite <- !dict_get_row_map in H3, H4.
      destruct Hc as [-> | ->]; congruence.
Qed.

(** ** The code follows the stated combine rule *)

Lemma joinable_spec keys sa sb (l r : TRow) :
  joinable keys sa sb l r = true →
  row_ok l ∧ row_ok r ∧ no_clashb keys sa sb l r = true.
Proof.
  unfold joinable. rewrite !andb_true_iff, !bool_decide_eq_true. tauto.
Qed.

Lemma no_clashb_map_spec keys sa sb (l r : TRow) :
  no_clashb keys sa sb l r = true →
  ∀ k : string,
    is_Some (row_map l !! k) → is_Some (row_map r !! k) → in_keys k keys = false →
    row_map l !! (k +:+ sa) = None ∧ row_map l !! (k +:+ sb) = None
    ∧ row_map r !! (k +:+ sa) = None ∧ row_map r !! (k +:+ sb) = None.
Proof. intros H k. rewrite <- !dict_get_row_map. by apply no_clashb_spec. Qed.

Lemma lookup_row_map_elem (l : TRow) (k : string) (v : Value) :
  row_ok l → (k, v) ∈ l → row_map l !! k = Some v.
Proof. intros Hok Hin. unfold row_map. by apply elem_of_list_to_map_1. Qed.

(** With no suffixed name taken, the code follows the stated rule step by
    step. *)
Lemma join_rows_stated keys sa sb (l r : TRow) :
  suffixes_apart sa sb → row_ok l → row_ok r →
  no_clashb keys sa sb l r = true →
  join_rows keys sa sb l r = stated_join_rows keys sa sb l r.
Proof.
  intros Hap Hl Hr Hnc. unfold join_rows, stated_join_rows, dict_copy.
  pose proof (no_clashb_map_spec _ _ _ _ _ Hnc) as Hclash.
  assert (Hgen : ∀ Q P nr, l = P ++ Q → row_ok nr →
    merge_inv keys sa sb (row_map l) (row_map r) P (row_map nr) →
    foldl (merge_field keys sa sb) nr Q
    = foldl (stated_merge_field keys sa sb r) nr Q).
  { induction Q as [|[k v] Q IH]; intros P nr Heq Hok Hinv; cbn [foldl]; [done|].
    assert (Hnd : NoDup ((P ++ [(k, v)]).*1)).
    { unfold row_ok, dict_keys in Hl. rewrite Heq in Hl.
      replace (P ++ (k, v) :: Q) with ((P ++ [(k, v)]) ++ Q) in Hl
        by (by rewrite <- app_assoc).
      rewrite fmap_app in Hl. by apply NoDup_app in Hl as (? & _ & _). }
    assert (Hlk : ∀ k0 v0, (k0, v0) ∈ P ++ [(k, v)] → row_map l !! k0 = Some v0).
    { intros k0 v0 Hin. apply lookup_row_map_elem; [done|].
      rewrite Heq. rewrite elem_of_app in Hin. rewrite elem_of_app.
      destruct Hin as [?|Hin]; [by left|right].
      apply list_elem_of_singleton in Hin as ->. by left. }
    assert (Hfresh : k ∉ P.*1).
    { rewrite fmap_app in Hnd. apply NoDup_app in Hnd as (_ & Hnd & _).
      intros Hin. by apply (Hnd k Hin), list_elem_of_singleton. }
    assert (Hdom : ∀ k0, k0 ∈ P.*1 → is_Some (row_map l !! k0)).
    { intros k0 Hk0. apply list_elem_of_fmap in Hk0 as ([k1 v1] & -> & Hin).
      exists v1. apply Hlk. rewrite elem_of_app. by left. }
    assert (Hk : row_map l !! k = Some v).
    { apply Hlk. rewrite elem_of_app. right. by left. }
    pose proof (merge_inv_pending keys sa sb _ _ Hclash P _ k Hfresh
                  (mk_is_Some _ _ Hk) Hdom Hinv) as Hpend.
    rewrite <- !dict_get_row_map in Hpend.
    assert (Hstep : stated_merge_field keys sa sb r nr (k, v)
                    = merge_field keys sa sb nr (k, v)).
    { unfold stated_merge_field, merge_field, dict_contains.
      rewrite <- Hpend. destruct (dict_get nr k); simpl; [|done].
      by destruct (in_keys k keys). }
    rewrite Hstep.
    destruct (merge_field_row_map keys sa sb nr (k, v) Hok) as [Hok' Hmap].
    apply (IH (P ++ [(k, v)])).
    - by rewrite <- app_assoc.
    - done.
    - rewrite Hmap. by apply merge_inv_step. }
  apply (Hgen l [] r); [done..|apply merge_inv_init].
Qed.

(** ** Swapping the rows and the suffixes *)

Lemma all_joinable_spec keys sa sb (left_rows right_rows : list TRow) (l r : TRow) :
  all_joinable keys sa sb left_rows right_rows = true →
  l ∈ left_rows → r ∈ right_rows → joinable keys sa sb l r = true.
Proof.
  unfold all_joinable. rewrite forallb_forall. intros Hall Hl Hr.
  apply list_elem_of_In in Hl, Hr. specialize (Hall l Hl).
  rewrite forallb_forall in Hall. by apply Hall.
Qed.

Lemma collides_spec keys (l r : TRow) (k : string) :
  collides keys l r k = true
  ↔ is_Some (dict_get l k) ∧ is_Some (dict_get r k) ∧ in_keys k keys = false.
Proof.
  unfold collides.
  rewrite !andb_true_iff, negb_true_iff, !dict_contains_true. tauto.
Qed.

Lemma collides_sym keys (l r : TRow) (k : string) :
  collides keys l r k = collides keys r l k.
Proof. unfold collides. by rewrite (andb_comm (dict_contains k l)). Qed.

(** A column of neither the merged row nor a renaming is as the copied
    row has it. *)
Lemma join_rows_untouched keys sa sb (l r : TRow) (c : string) :
  suffixes_apart sa sb → row_ok l → row_ok r →
  no_clashb keys sa sb l r = true →
  dict_get l c = None →
  (∀ k, collides keys l r k = true → c ≠ k +:+ sa ∧ c ≠ k +:+ sb) →
  dict_get (join_rows keys sa sb l r) c = dict_get r c.
Proof.
  intros Hap Hl Hr Hnc Hlc Hren.
  destruct (join_rows_row_map keys sa sb l r Hr) as [Hok Hmap].
  pose proof (no_clashb_map_spec _ _ _ _ _ Hnc) as Hclash.
  destruct (merge_inv_fold keys sa sb (row_map l) (row_map r) Hap Hclash
              l [] (row_map r)) as [Ha _].
  { done. }
  { intros k v Hin. by apply lookup_row_map_elem. }
  { apply merge_inv_init. }
  simpl in Ha. rewrite <- Hmap in Ha. rewrite !dict_get_row_map. apply Ha.
  - intros Hin. apply elem_of_dict_keys in Hin as [? ?]. congruence.
  - intros (k & Hk & Hrk & Hjk & Hc).
    destruct (Hren k); [|tauto].
    apply collides_spec. rewrite !dict_get_row_map.
    split; [|done]. rewrite <- dict_get_row_map. by apply elem_of_dict_keys.
Qed.

(** [no_clashb] says the same of the two rows whichever is merged into
    which, with the suffixes in either order. *)
Lemma no_clashb_intro keys sa sb (l r : TRow) :
  (∀ k, collides keys l r k = true →
     dict_get l (k +:+ sa) = None ∧ dict_get l (k +:+ sb) = None
     ∧ dict_get r (k +:+ sa) = None ∧ dict_get r (k +:+ sb) = None) →
  no_clashb keys sa sb l r = true.
Proof.
  intros H. unfold no_clashb. apply forallb_forall. intros k _.
  destruct (collides keys l r k) eqn:Hc; [|done]. simpl.
  destruct (H k Hc) as (H1 & H2 & H3 & H4).
  apply dict_contains_false in H1, H2, H3, H4. by rewrite H1, H2, H3, H4.
Qed.

Lemma no_clashb_swap keys sa sb (l r : TRow) :
  no_clashb keys sa sb l r = true → no_clashb keys sb sa r l = true.
Proof.
  intros H. apply no_clashb_intro. intros k Hc.
  rewrite collides_sym in Hc. apply collides_spec in Hc as (Hl & Hr & Hj).
  destruct (no_clashb_spec _ _ _ _ _ k H Hl Hr Hj) as (? & ? & ? & ?). tauto.
Qed.

Lemma same_join_columns_spec keys (l r : TRow) (k : string) :
  same_join_columns keys l r = true → in_keys k keys = true →
  dict_get l k = dict_get r k.
Proof.
  unfold same_join_columns. rewrite forallb_forall. intros H Hk.
  apply in_keys_spec, list_elem_of_In in Hk.
  specialize (H k Hk). by apply bool_decide_eq_true in H.
Qed.

Lemma renamed_name_Some keys sa sb (l r : TRow) (c k : string) :
  renamed_name keys sa sb l r c = Some k →
  collides keys l r k = true ∧ (c = k +:+ sa ∨ c = k +:+ sb).
Proof.
  unfold renamed_name. intros H. apply find_some in H as [_ H].
  apply andb_true_iff in H as [Hc H]. split; [done|].
  apply orb_true_iff in H as [H|H]; apply String.eqb_eq in H; tauto.
Qed.

Lemma renamed_name_None keys sa sb (l r : TRow) (c : string) :
  renamed_name keys sa sb l r c = None →
  ∀ k, collides keys l r k = true → c ≠ k +:+ sa ∧ c ≠ k +:+ sb.
Proof.
  unfold renamed_name. intros H k Hc.
  pose proof (find_none _ _ H k) as Hk. simpl in Hk.
  rewrite Hc in Hk. simpl in Hk.
  assert (Hin : In k (dict_keys l)).
  { apply list_elem_of_In, elem_of_dict_keys. by apply collides_spec in Hc as (? & _). }
  specialize (Hk Hin). apply orb_false_iff in Hk as [H1 H2].
  apply String.eqb_neq in H1, H2. done.
Qed.

(** Merging the left row into a copy of the right one with suffixes
    [(sa, sb)], or the right row into a copy of the left one with
    [(sb, sa)], builds the same dict. *)
Lemma join_rows_swap keys sa sb (la rb : TRow) :
  suffixes_apart sa sb → row_ok la → row_ok rb →
  no_clashb keys sa sb la rb = true →
  same_join_columns keys la rb = true →
  row_map (join_rows keys sb sa rb la) = row_map (join_rows keys sa sb la rb).
Proof.
  intros Hap Hla Hrb Hnc Hsame.
  pose proof (suffixes_apart_sym _ _ Hap) as Hap'.
  pose proof (no_clashb_swap _ _ _ _ _ Hnc) as Hnc'.
  destruct (join_rows_columns keys sa sb la rb Hap Hla Hrb Hnc) as (_ & Hi & _).
  destruct (join_rows_columns keys sb sa rb la Hap' Hrb Hla Hnc') as (_ & Hr & _).
  pose proof (λ c, join_rows_untouched keys sa sb la rb c Hap Hla Hrb Hnc) as Hiu.
  pose proof (λ c, join_rows_untouched keys sb sa rb la c Hap' Hrb Hla Hnc') as Hru.
  apply map_eq. intros c. rewrite <- !dict_get_row_map.
  destruct (renamed_name keys sa sb la rb c) as [k|] eqn:Hren.
  - apply renamed_name_Some in Hren as [Hc Hname].
    apply collides_spec in Hc as ([va Hva] & [vb Hvb] & Hj).
    specialize (Hi k va Hva). specialize (Hr k vb Hvb).
    unfold joined_at in Hi, Hr. rewrite Hvb, Hj in Hi. rewrite Hva, Hj in Hr.
    destruct Hi as (_ & Hi1 & Hi2). destruct Hr as (_ & Hr1 & Hr2).
    destruct Hname as [-> | ->]; congruence.
  - pose proof (renamed_name_None _ _ _ _ _ _ Hren) as Hnot.
    assert (Hnot' : ∀ k, collides keys rb la k = true →
                         c ≠ k +:+ sb ∧ c ≠ k +:+ sa).
    { intros k Hk. rewrite collides_sym in Hk. destruct (Hnot k Hk). done. }
    destruct (dict_get la c) as [va|] eqn:Hva;
      destruct (dict_get rb c) as [vb|] eqn:Hvb.
    + specialize (Hi c va Hva). specialize (Hr c vb Hvb).
      unfold joined_at in Hi, Hr. rewrite Hvb in Hi. rewrite Hva in Hr.
      destruct (in_keys c keys) eqn:Hj.
      * rewrite Hi, Hr. rewrite <- Hva, <- Hvb.
        by apply (same_join_columns_spec keys).
      * destruct Hi as (-> & _). by destruct Hr as (-> & _).
    + specialize (Hi c va Hva). unfold joined_at in Hi. rewrite Hvb in Hi.
      rewrite Hi. rewrite (Hru c Hvb Hnot'). done.
    + specialize (Hr c vb Hvb). unfold joined_at in Hr. rewrite Hva in Hr.
      rewrite Hr. rewrite (Hiu c Hva Hnot). done.
    + rewrite (Hru c Hvb Hnot'), (Hiu c Hva Hnot). congruence.
Qed.

(** ** Comparison of keys: the order is total on comparable keys *)

Lemma string_ltb_connected (s t : string) :
  s ≠ t → String.ltb t s = false → String.ltb s t = true.
Proof.
  unfold String.ltb. intros Hne. rewrite (String.compare_antisym t s).
  destruct (String.compare s t) eqn:Hc; simpl; intros H.
  - by apply String.compare_eq_iff in Hc.
  - done.
  - discriminate H.
Qed.

Lemma string_ltb_asym (s t : string) :
  String.ltb t s = true → String.ltb s t = false.
Proof.
  unfold String.ltb. rewrite (String.compare_antisym t s).
  by destruct (String.compare s t).
Qed.

Lemma py_gt_lt_None (a b : Value) : py_gt a b = None ↔ py_lt a b = None.
Proof. by destruct a, b. Qed.

Lemma py_connected (a b : Value) :
  a ≠ b → py_gt a b = Some false → py_lt a b = Some true.
Proof.
  destruct a as [n|s], b as [m|t]; simpl; try done; intros Hne [= H]; f_equal.
  - apply Z.ltb_lt. apply Z.ltb_ge in H.
    assert (n ≠ m) by congruence. lia.
  - apply string_ltb_connected; congruence.
Qed.

Lemma py_asym (a b : Value) : py_gt a b = Some true → py_lt a b = Some false.
Proof.
  destruct a as [n|s], b as [m|t]; simpl; try done; intros [= H]; f_equal.
  - apply Z.ltb_ge. apply Z.ltb_lt in H. lia.
  - by apply string_ltb_asym.
Qed.

Lemma tuple_gt_lt_None (x y : list Value) :
  tuple_gt x y = None ↔ tuple_lt x y = None.
Proof.
  revert y. induction x as [|a x IH]; intros [|b y]; simpl; try done.
  destruct (decide (a = b)); [apply IH|apply py_gt_lt_None].
Qed.

Lemma tuple_asym (x y : list Value) :
  tuple_gt x y = Some true → tuple_lt x y = Some false.
Proof.
  revert y. induction x as [|a x IH]; intros [|b y]; simpl; try done.
  destruct (decide (a = b)); [apply IH|apply py_asym].
Qed.

Lemma tuple_connected (x y : list Value) :
  x ≠ y → tuple_gt x y = Some false → tuple_lt x y = Some true.
Proof.
  revert y. induction x as [|a x IH]; intros [|b y]; simpl; try done.
  destruct (decide (a = b)) as [->|Hne]; intros Hxy.
  - apply IH. congruence.
  - by apply py_connected.
Qed.

Lemma key_gt_lt_None (k1 k2 : Key) : key_gt k1 k2 = None ↔ key_lt k1 k2 = None.
Proof.
  destruct k1, k2; simpl; try done;
    [apply py_gt_lt_None|apply tuple_gt_lt_None].
Qed.

Lemma key_asym (k1 k2 : Key) : key_gt k1 k2 = Some true → key_lt k1 k2 = Some false.
Proof. destruct k1, k2; simpl; try done; [apply py_asym|apply tuple_asym]. Qed.

Lemma key_connected (k1 k2 : Key) :
  key_eq k1 k2 = false → key_gt k1 k2 = Some false → key_lt k1 k2 = Some true.
Proof.
  unfold key_eq. rewrite bool_decide_eq_false.
  destruct k1, k2; simpl; try done; intros Hne.
  - apply py_connected. congruence.
  - apply tuple_connected. congruence.
Qed.

(** ** The loop of [Join.__call__] follows the stated merge *)

Section stated_merge_facts.
Variable joiner : list string → stream TRow → stream TRow → stream TRow.
Variable keys : list string.
(** How the two streams of groups end. *)
Variables out_L out_R : outcome.
#[local] Abbreviation stated_merge := (stated_merge joiner keys out_L out_R).
#[local] Abbreviation stated_join := (stated_join joiner keys out_L out_R).
#[local] Abbreviation state_of := (state_of out_L out_R).
#[local] Abbreviation after_turn := (after_turn joiner keys).

Lemma advance_left_state_of (yielded : stream TRow) kL gL L' R :
  advance_left yielded (state_of ((kL, gL) :: L') R)
  = match yielded.2 with
    | Raise e => Raised yielded.1 e
    | Done => match L', out_L with
              | [], Raise e => Raised yielded.1 e
              | _, _ => Continue yielded.1 (state_of L' R)
              end
    end.
Proof.
  unfold advance_left, next_or_none, state_of. simpl.
  destruct (yielded.2); [|done]. destruct L' as [|[k g] L'']; [|done].
  by destruct out_L.
Qed.

Lemma advance_right_state_of (yielded : stream TRow) kR gR L R' :
  advance_right yielded (state_of L ((kR, gR) :: R'))
  = match yielded.2 with
    | Raise e => Raised yielded.1 e
    | Done => match R', out_R with
              | [], Raise e => Raised yielded.1 e
              | _, _ => Continue yielded.1 (state_of L R')
              end
    end.
Proof.
  unfold advance_right, next_or_none, state_of. simpl.
  destruct (yielded.2); [|done]. destruct R' as [|[k g] R'']; [|done].
  by destruct out_R.
Qed.

Lemma stated_merge_unfold (L R : list (Key * stream TRow)) :
  stated_merge L R
  = match L, R with
    | [], [] => ([], Done)
    | (kL, groupL) :: L', [] =>
        yield_from (joiner keys groupL (of_list []))
          (advanced out_L L' (stated_merge L' []))
    | [], (kR, groupR) :: R' =>
        yield_from (joiner keys (of_list []) groupR)
          (advanced out_R R' (stated_merge [] R'))
    | (kL, groupL) :: L', (kR, groupR) :: R' =>
        if key_eq kL kR then
          yield_from (joiner keys groupL groupR)
            (advanced out_L L' (advanced out_R R' (stated_merge L' R')))
        else match key_lt kL kR with
             | Some true =>
                 yield_from (joiner keys groupL (of_list []))
                   (advanced out_L L' (stated_merge L' R))
             | Some false =>
                 yield_from (joiner keys (of_list []) groupR)
                   (advanced out_R R' (stated_merge L R'))
             | None => ([], Raise TypeError)
             end
    end.
Proof. destruct L as [|[kL gL] L'], R as [|[kR gR] R']; reflexivity. Qed.

Lemma join_loop_S (fuel : nat) (st : join_state) :
  join_loop joiner keys (S fuel) st = after_turn fuel (join_turn joiner keys st).
Proof. reflexivity. Qed.

Lemma after_advance_left fuel (yielded : stream TRow) kL gL L' R :
  join_loop joiner keys fuel (state_of L' R) = Some (stated_merge L' R) →
  after_turn fuel (advance_left yielded (state_of ((kL, gL) :: L') R))
  = Some (yield_from yielded (advanced out_L L' (stated_merge L' R))).
Proof.
  intros IH. rewrite advance_left_state_of. unfold yield_from, advanced.
  destruct yielded as [ys [|e]]; simpl; [|done].
  destruct L' as [|x L'']; [destruct out_L|]; simpl; rewrite ?IH, ?app_nil_r; done.
Qed.

Lemma after_advance_right fuel (yielded : stream TRow) kR gR L R' :
  join_loop joiner keys fuel (state_of L R') = Some (stated_merge L R') →
  after_turn fuel (advance_right yielded (state_of L ((kR, gR) :: R')))
  = Some (yield_from yielded (advanced out_R R' (stated_merge L R'))).
Proof.
  intros IH. rewrite advance_right_state_of. unfold yield_from, advanced.
  destruct yielded as [ys [|e]]; simpl; [|done].
  destruct R' as [|x R'']; [destruct out_R|]; simpl; rewrite ?IH, ?app_nil_r; done.
Qed.

Lemma after_advance_both fuel (yielded : stream TRow) kL gL kR gR L' R' :
  join_loop joiner keys fuel (state_of L' R') = Some (stated_merge L' R') →
  after_turn fuel
    (advance_both yielded (state_of ((kL, gL) :: L') ((kR, gR) :: R')))
  = Some (yield_from yielded
            (advanced out_L L' (advanced out_R R' (stated_merge L' R')))).
Proof.
  intros IH. unfold advance_both. rewrite advance_left_state_of.
  destruct yielded as [ys [|e]]; simpl; [|done].
  assert (Hright : after_turn fuel
                     (advance_right (ys, Done) (state_of L' ((kR, gR) :: R')))
                   = Some (yield_from (ys, Done)
                             (advanced out_R R' (stated_merge L' R'))))
    by (by apply after_advance_right).
  unfold yield_from, advanced in *. simpl in *.
  destruct L' as [|x L'']; [destruct out_L|]; simpl; rewrite ?app_nil_r; done.
Qed.

(** The loop does what the five cases say, and with one turn per group
    (and one to see that nothing is left) it comes to its end. *)
Lemma join_loop_state_of (fuel : nat) : ∀ L R : list (Key * stream TRow),
  (List.length L + List.length R < fuel)%nat →
  join_loop joiner keys fuel (state_of L R) = Some (stated_merge L R).
Proof.
  induction fuel as [|fuel IH]; intros L R Hfuel; [lia|].
  rewrite join_loop_S, stated_merge_unfold.
  destruct L as [|[kL gL] L'], R as [|[kR gR] R']; simpl in Hfuel.
  - reflexivity.
  - change (join_turn joiner keys (state_of [] ((kR, gR) :: R')))
      with (advance_right (joiner keys (of_list []) gR)
              (state_of [] ((kR, gR) :: R'))).
    apply after_advance_right, IH. simpl. lia.
  - change (join_turn joiner keys (state_of ((kL, gL) :: L') []))
      with (advance_left (joiner keys gL (of_list []))
              (state_of ((kL, gL) :: L') [])).
    apply after_advance_left, IH. simpl. lia.
  - unfold join_turn. cbn [state_of rows_left_group rows_right_group keys_left
                           keys_right head fmap option_fmap option_map fst snd].
    destruct (key_eq kL kR) eqn:Heq.
    + apply after_advance_both, IH. lia.
    + destruct (key_gt kL kR) as [[|]|] eqn:Hgt.
      * rewrite (key_asym _ _ Hgt). apply after_advance_right, IH. simpl. lia.
      * rewrite (key_connected _ _ Heq Hgt).
        apply after_advance_left, IH. simpl. lia.
      * apply key_gt_lt_None in Hgt. by rewrite Hgt.
Qed.

End stated_merge_facts.

(** [Join_groups] over two streams of groups. *)
Lemma Join_groups_stated joiner keys (out_L out_R : outcome)
    (L R : list (Key * stream TRow)) :
  Join_groups joiner keys (S (List.length L + List.length R)) (L, out_L) (R, out_R)
  = Some (stated_join joiner keys out_L out_R L R).
Proof.
  unfold Join_groups, join_init, next_or_none, stated_join, advanced.
  cbn [fst snd].
  destruct L as [|[kL gL] L']; [destruct out_L|];
    (destruct R as [|[kR gR] R']; [destruct out_R|]); try reflexivity;
    match goal with
    | |- join_loop _ _ _ ?st = Some (stated_merge _ _ ?oL ?oR ?l ?r) =>
        change st with (state_of oL oR l r); apply join_loop_state_of; simpl; lia
    end.
Qed.

(** ** [_safe_groupby] and the order of the groups *)

Lemma comparable_spec (ks : list Key) (k1 k2 : Key) :
  comparable ks = true → k1 ∈ ks → k2 ∈ ks → is_Some (key_gt k1 k2).
Proof.
  unfold comparable. rewrite forallb_forall. intros H H1 H2.
  apply list_elem_of_In in H1, H2. specialize (H k1 H1).
  rewrite forallb_forall in H. specialize (H k2 H2).
  by apply bool_decide_eq_true in H.
Qed.

Lemma close_groups_keys (out : outcome) (runs : list (Key * list TRow)) :
  (close_groups out runs).*1 = runs.*1.
Proof.
  induction runs as [|[k g] runs IH]; [done|].
  destruct runs as [|[k' g'] runs']; [done|].
  change (close_groups out ((k, g) :: (k', g') :: runs'))
    with ((k, (g, Done)) :: close_groups out ((k', g') :: runs')).
  rewrite !fmap_cons. rewrite IH. done.
Qed.

Lemma close_groups_length (out : outcome) (runs : list (Key * list TRow)) :
  List.length (close_groups out runs) = List.length runs.
Proof.
  rewrite <- (length_fmap fst (close_groups out runs)), close_groups_keys.
  apply length_fmap.
Qed.

(** The loop of [_safe_groupby], started after the group with key
    [prev_keys]: it raises the unsorted-input error exactly when one of
    the transitions is strictly decreasing, and otherwise lets every group
    through. *)
Lemma safe_groupby_loop_spec (groups : list (Key * stream TRow)) :
  ∀ prev_keys : Key,
  (∀ i k1 k2, (prev_keys :: groups.*1) !! i = Some k1 →
              (prev_keys :: groups.*1) !! S i = Some k2 →
              is_Some (key_gt k1 k2)) →
  ((safe_groupby_loop prev_keys groups Done).2 = Raise unsorted_input
   ↔ ∃ i, descent_at (prev_keys :: groups.*1) i)
  ∧ ((¬ ∃ i, descent_at (prev_keys :: groups.*1) i) →
     safe_groupby_loop prev_keys groups Done = (groups, Done)).
Proof.
  induction groups as [|[k g] groups IH]; intros prev Hcmp; simpl.
  - split; [split; [done|]|done].
    intros (i & k1 & k2 & _ & H2 & _). by destruct i.
  - destruct (Hcmp 0%nat prev k eq_refl eq_refl) as [b Hb]. rewrite Hb.
    destruct b; simpl.
    + split; [split; [|done]|].
      * intros _. exists 0%nat, prev, k. done.
      * intros Hno. exfalso. apply Hno. exists 0%nat, prev, k. done.
    + destruct (IH k) as [IH1 IH2].
      { intros i k1 k2 H1 H2. by apply (Hcmp (S i)). }
      destruct (safe_groupby_loop k groups Done) as [l o] eqn:Hloop. simpl in *.
      assert (Hshift : (∃ i, descent_at (prev :: k :: groups.*1) i)
                       ↔ ∃ i, descent_at (k :: groups.*1) i).
      { split.
        - intros ([|i] & k1 & k2 & H1 & H2 & Hgt).
          + simpl in H1, H2. congruence.
          + exists i, k1, k2. done.
        - intros (i & k1 & k2 & H1 & H2 & Hgt). exists (S i), k1, k2. done. }
      rewrite Hshift. split; [done|].
      intros Hno. specialize (IH2 Hno). congruence.
Qed.

Lemma attach_keys_no_error (keys : list string) (rows : list TRow) :
  (attach_keys keys rows).2 = None →
  List.length (attach_keys keys rows).1 = List.length rows.
Proof.
  induction rows as [|row rows IH]; simpl; [done|].
  destruct (itemgetter keys row); [done|].
  destruct (attach_keys keys rows) as [l err]. simpl in *.
  intros H. by rewrite IH.
Qed.

Lemma group_runs_nil (l : list (Key * TRow)) : group_runs l = [] → l = [].
Proof.
  destruct l as [|[k row] l]; simpl; [done|].
  destruct (group_runs l) as [|[k' g] gs]; [done|]. by destruct (key_eq k k').
Qed.

(** [_safe_groupby] on a stream whose first row has the key columns
    yields a first group. *)
Lemma safe_groupby_first_group (keys : list string) (row : TRow)
    (rows : list TRow) (out : outcome) (k : Key) :
  keys ≠ [] → itemgetter keys row = inr k →
  ∃ g rest, (_safe_groupby (row :: rows, out) keys).1 = (k, g) :: rest.
Proof.
  intros Hkeys Hk. unfold _safe_groupby, groupby.
  destruct keys as [|key keys']; [done|]. set (keys := key :: keys') in *.
  cbn [fst snd attach_keys]. rewrite Hk.
  destruct (attach_keys keys rows) as [l err]. cbn [fst snd].
  set (o := match err with Some e => Raise e | None => out end).
  assert (∃ g runs, group_runs ((k, row) :: l) = (k, g) :: runs) as (g & runs & ->).
  { simpl. destruct (group_runs l) as [|[k' g'] gs]; [by eauto|].
    destruct (key_eq k k'); by eauto. }
  assert (∃ g' rest, close_groups o ((k, g) :: runs) = (k, g') :: rest)
    as (g' & rest & ->).
  { destruct runs as [|[k1 g1] runs]; simpl; by eauto. }
  cbn [fst snd]. destruct (safe_groupby_loop k rest o) as [l' o']. by eauto.
Qed.

(** ** Mappers that write to the row they are given *)

Lemma mapper_of_in_place (m : column_mapper) : mapper_of m = in_place (body_of m).
Proof. by destruct m. Qed.

(** [Map] with an in-place mapper whose body raises on none of the rows:
    the addresses come out as they went in, no row object is made, and
    each row object holds what the body left in it. *)
Lemma Map_rows_in_place (f : TRow → TRow * option exn) (refs : list nat) :
  ∀ σ : store,
  NoDup refs →
  (∀ r, r ∈ refs → ∃ row, σ !! r = Some row ∧ (f row).2 = None) →
  ∃ σ' : store,
    Map_rows (in_place f) σ refs Done = (σ', (refs, Done))
    ∧ List.length σ' = List.length σ
    ∧ (∀ r row, r ∈ refs → σ !! r = Some row → σ' !! r = Some (f row).1)
    ∧ (∀ r, r ∉ refs → σ' !! r = σ !! r).
Proof.
  induction refs as [|r refs IH]; intros σ Hnd Hok.
  - exists σ. simpl. split; [done|]. split; [done|]. split; [|done].
    intros r row Hr. by apply elem_of_nil in Hr.
  - apply NoDup_cons in Hnd as [Hr Hnd].
    destruct (Hok r) as (row & Hrow & Hf); [by left|].
    cbn [Map_rows]. unfold in_place at 1. rewrite Hrow.
    destruct (f row) as [row' err] eqn:Hfr. simpl in Hf. subst err.
    cbn [snd fst].
    assert (Hvalid : (r < List.length σ)%nat) by (by eapply lookup_lt_Some).
    destruct (IH (<[r := row']> σ) Hnd) as (σ' & Hrun & Hlen & Hin & Hout).
    { intros r0 Hr0. destruct (Hok r0) as (row0 & Hrow0 & Hf0); [by right|].
      exists row0. split; [|done].
      rewrite list_lookup_insert_ne; [done|]. intros ->. done. }
    exists σ'. rewrite Hrun. cbn [fst snd app]. split; [done|].
    split; [by rewrite Hlen, length_insert|]. split.
    + intros r0 row0 Hr0 Hrow0. apply elem_of_cons in Hr0 as [->|Hr0].
      * rewrite Hout by done. rewrite list_lookup_insert_eq by done.
        rewrite Hrow in Hrow0. injection Hrow0 as <-. by rewrite Hfr.
      * apply Hin; [done|]. rewrite list_lookup_insert_ne; [done|].
        intros ->. done.
    + intros r0 Hr0. apply not_elem_of_cons in Hr0 as [Hne Hr0].
      rewrite Hout by done. by rewrite list_lookup_insert_ne.
Qed.

Lemma str_column_body_ok (method : string → string) (column : string)
    (row : TRow) (txt : string) :
  dict_get row column = Some (VStr txt) →
  str_column_body method column row
  = (dict_set row column (VStr (method txt)), None).
Proof. intros H. unfold str_column_body, getitem. by rewrite H. Qed.

(** ** Runs of graphs on a heap *)

Lemma mapM_ext_in {A B} (f g : A → option B) (l : list A) :
  (∀ x, x ∈ l → f x = g x) → mapM f l = mapM g l.
Proof.
  induction l as [|x l IH]; intros H; [done|].
  cbn [mapM]. rewrite (H x) by (by left). rewrite IH; [done|].
  intros y Hy. apply H. by right.
Qed.

(** [Join.__call__] comes to its end, with the output of the stated
    merge. *)
Lemma Join_call_stated joiner keys (rows other : stream TRow) :
  Join_call joiner keys rows other
  = Some (stated_join joiner keys
            (_safe_groupby rows keys).2 (_safe_groupby other keys).2
            (_safe_groupby rows keys).1 (_safe_groupby other keys).1).
Proof.
  unfold Join_call, Join_call_fuel.
  destruct (_safe_groupby rows keys) as [L out_L].
  destruct (_safe_groupby other keys) as [R out_R].
  apply Join_groups_stated.
Qed.

Lemma heap_ok_lookup (h : heap) (i : nat) (o : obj) :
  heap_ok h = true → h !! i = Some o → obj_ok h i o = true.
Proof.
  unfold heap_ok. rewrite forallb_forall. intros Hall Hi.
  specialize (Hall i). rewrite Hi in Hall. apply Hall.
  apply in_seq. apply lookup_lt_Some in Hi. lia.
Qed.

Lemma heap_ok_graph (h : heap) (g : nat) operation parents :
  heap_ok h = true → h !! g = Some (GraphObj operation parents) →
  (parents < g)%nat ∧ ∃ items, h !! parents = Some (ListObj items).
Proof.
  intros Hok Hg. pose proof (heap_ok_lookup h g _ Hok Hg) as H. simpl in H.
  apply andb_true_iff in H as [Hlt H]. apply Nat.ltb_lt in Hlt.
  split; [done|]. destruct (h !! parents) as [[|items]|]; try done. by eauto.
Qed.

Lemma heap_ok_list (h : heap) (l : nat) (items : list nat) (p : nat) :
  heap_ok h = true → h !! l = Some (ListObj items) → p ∈ items →
  (p < l)%nat ∧ ∃ operation parents, h !! p = Some (GraphObj operation parents).
Proof.
  intros Hok Hl Hp. pose proof (heap_ok_lookup h l _ Hok Hl) as H. simpl in H.
  rewrite forallb_forall in H. specialize (H p). 
  rewrite <- list_elem_of_In in H. specialize (H Hp).
  apply andb_true_iff in H as [Hlt H]. apply Nat.ltb_lt in Hlt.
  split; [done|]. destruct (h !! p) as [[op ps|]|]; try done. by eauto.
Qed.

Lemma call_operation_total sort_call kwargs (operation : Operation)
    (parents_run : list (stream TRow)) :
  is_Some (call_operation sort_call kwargs operation parents_run).
Proof.
  destruct operation, parents_run as [|rows [|other rest]]; simpl; eauto.
  all: rewrite Join_call_stated; eauto.
Qed.

Section run_facts.
Variable Stream : Type.
Variable call : Operation → list Stream → option Stream.
(** Calling an operation gives a stream. *)
Hypothesis call_total : ∀ operation parents_run,
  is_Some (call operation parents_run).

(** On a well-formed heap the run of a graph needs no more fuel than its
    address, and then gives a stream. *)
Lemma run_total (h : heap) :
  heap_ok h = true →
  ∀ (n g : nat) operation parents,
    (g < n)%nat → h !! g = Some (GraphObj operation parents) →
    ∃ s, ∀ fuel, (g < fuel)%nat → run Stream call fuel h g = Some s.
Proof.
  intros Hok. induction n as [|n IH]; intros g operation parents Hn Hg; [lia|].
  destruct (heap_ok_graph h g _ _ Hok Hg) as (Hlt & items & Hitems).
  assert (Hparents : ∃ ss, ∀ fuel, (g ≤ fuel)%nat →
            mapM (run Stream call fuel h) items = Some ss).
  { assert (Hall : ∀ p, p ∈ items → (p < parents)%nat
               ∧ ∃ operation parents, h !! p = Some (GraphObj operation parents)).
    { intros p Hp. by eapply heap_ok_list. }
    clear Hitems. induction items as [|p items IHitems].
    - exists []. done.
    - destruct (Hall p) as (Hp & op & ps & Hobj); [by left|].
      destruct (IH p op ps) as (s & Hs); [lia|done|].
      destruct IHitems as (ss & Hss); [intros q Hq; apply Hall; by right|].
      exists (s :: ss). intros fuel Hfuel. cbn [mapM].
      rewrite Hs by lia. simpl. rewrite Hss by done. done. }
  destruct Hparents as (ss & Hss).
  destruct (call_total operation ss) as (s & Hs).
  exists s. intros [|fuel] Hfuel; [lia|].
  cbn [run]. rewrite Hg, Hitems. rewrite Hss by lia. simpl. done.
Qed.

(** Objects added to a well-formed heap do not change the run of the
    graphs already there. *)
Lemma run_alloc (h ext : heap) :
  heap_ok h = true →
  ∀ (fuel g : nat), (g < List.length h)%nat →
    run Stream call fuel (h ++ ext) g = run Stream call fuel h g.
Proof.
  intros Hok. induction fuel as [|fuel IH]; intros g Hg; [done|].
  cbn [run]. rewrite lookup_app_l by done.
  destruct (h !! g) as [[operation parents|items]|] eqn:Hobj; try done.
  destruct (heap_ok_graph h g _ _ Hok Hobj) as (Hlt & items & Hitems).
  rewrite lookup_app_l by lia. rewrite Hitems.
  rewrite (mapM_ext_in (run Stream call fuel (h ++ ext))
             (run Stream call fuel h)); [done|].
  intros p Hp. apply IH.
  destruct (heap_ok_list h parents items p Hok Hitems Hp) as [? _]. lia.
Qed.

End run_facts.

Lemma obj_ok_app (h ext : heap) (i : nat) (o : obj) :
  obj_ok h i o = true → obj_ok (h ++ ext) i o = true.
Proof.
  destruct o as [operation parents|items]; simpl.
  - rewrite !andb_true_iff. intros [Hlt H]. split; [done|].
    destruct (h !! parents) as [o|] eqn:Hp; [|done].
    by rewrite (lookup_app_l_Some _ _ _ _ Hp).
  - rewrite !forallb_forall. intros H p Hp. specialize (H p Hp).
    apply andb_true_iff in H as [Hlt H]. apply andb_true_iff. split; [done|].
    destruct (h !! p) as [o|] eqn:Hobj; [|done].
    by rewrite (lookup_app_l_Some _ _ _ _ Hobj).
Qed.

Lemma heap_ok_alloc (h : heap) (o : obj) :
  heap_ok h = true → obj_ok h (List.length h) o = true →
  heap_ok (h ++ [o]) = true.
Proof.
  intros Hok Ho. unfold heap_ok. apply forallb_forall. intros i Hi.
  apply in_seq in Hi. rewrite length_app in Hi. simpl in Hi.
  destruct (decide (i < List.length h)%nat) as [Hlt|Hge].
  - rewrite lookup_app_l by done.
    destruct (h !! i) as [oi|] eqn:Hobj; [|done].
    apply obj_ok_app. by apply heap_ok_lookup.
  - assert (i = List.length h) as -> by lia.
    rewrite list_lookup_middle by done. by apply obj_ok_app.
Qed.

(** What [Graph.copy] makes: a new object, with the operation and the
    parents list of the old one, which runs as the old one does. *)
Lemma copy_spec (Stream : Type) (call : Operation → list Stream → option Stream)
    (h h' : heap) (g g' : nat) :
  (∀ operation parents_run, is_Some (call operation parents_run)) →
  heap_ok h = true → copy h g = Some (h', g') →
  h !! g' = None
  ∧ (∀ a o, h !! a = Some o → h' !! a = Some o)
  ∧ (∃ operation parents,
       h !! g = Some (GraphObj operation parents)
       ∧ h' !! g' = Some (GraphObj operation parents))
  ∧ heap_ok h' = true
  ∧ (∀ fuel, run Stream call fuel h' g' = run Stream call fuel h g
             ∧ run Stream call fuel h' g = run Stream call fuel h g)
  ∧ (∃ s, ∀ fuel, (g < fuel)%nat → run Stream call fuel h g = Some s)
  ∧ (g < List.length h')%nat.
Proof.
  intros Hcall Hok Hcopy. unfold copy in Hcopy.
  destruct (h !! g) as [[operation parents|]|] eqn:Hg; try done.
  unfold alloc in Hcopy. injection Hcopy as <- <-.
  destruct (heap_ok_graph h g _ _ Hok Hg) as (Hlt & items & Hitems).
  pose proof (lookup_lt_Some _ _ _ Hg) as Hglt.
  split; [by apply lookup_ge_None_2|].
  split; [intros a o Ha; by apply lookup_app_l_Some|].
  split; [exists operation, parents; split; [done|by apply list_lookup_middle]|].
  split.
  { apply heap_ok_alloc; [done|]. simpl. rewrite Hitems.
    apply andb_true_iff. split; [|done]. apply Nat.ltb_lt. lia. }
  split.
  - intros fuel. split; [|by apply run_alloc].
    destruct fuel as [|fuel]; [done|]. cbn [run].
    rewrite list_lookup_middle by done. rewrite Hg.
    rewrite lookup_app_l by lia. rewrite Hitems.
    rewrite (mapM_ext_in (run Stream call fuel (h ++ [GraphObj operation parents]))
               (run Stream call fuel h)); [done|].
    intros p Hp. apply run_alloc; [done|].
    destruct (heap_ok_list h parents items p Hok Hitems Hp) as [? _]. lia.
  - split; [by eapply (run_total Stream call Hcall)|]. rewrite length_app. lia.
Qed.

Lemma pulls_first_contains sort_call kwargs (h : list obj) (n : string) (g : nat) :
  pulls_first sort_call kwargs h n g → contains_source h n g.
Proof.
  induction 1.
  - by eapply contains_here.
  - eapply contains_below; [done..| |done]. by left.
  - eapply contains_below; [done..| |done]. by left.
  - eapply contains_below; [done..| |done]. by left.
  - eapply contains_below; [done..| |done]. by right; left.
  - eapply contains_below; [done..| |done]. by left.
  - eapply contains_below; [done..| |done].
    destruct (reads_left_first _); [by left|by right; left].
  - eapply contains_below; [done..| |done].
    destruct (reads_left_first _); [by right; left|by left].
  - eapply contains_below; [done..| |done]. by left.
Qed.

(** ** Operations on an input that fails at once *)

Lemma Reduce_call_failed_input (reducer : Reducer) (keys : list string) (e : exn) :
  keys ≠ [] → Reduce_call reducer keys ([], Raise e) = ([], Raise e).
Proof. by destruct keys. Qed.

Lemma Reduce_call_no_keys_failed (reducer : Reducer) (rows : stream TRow)
    (l : list TRow) (e : exn) :
  reducer [] rows = (l, Raise e) → Reduce_call reducer [] rows = (l, Raise e).
Proof. intros H. unfold Reduce_call. cbn. by rewrite H. Qed.

Lemma Join_call_failed_input joiner (keys : list string) (e : exn)
    (other : stream TRow) :
  keys ≠ [] → Join_call joiner keys ([], Raise e) other = Some ([], Raise e).
Proof. by destruct keys. Qed.

(** The first group of the left input is fetched, then the fetch of the
    first group of the right input fails. *)
Lemma Join_call_failed_second joiner (keys : list string) (e : exn)
    (row : TRow) (rest : list TRow) (out : outcome) (k : Key) :
  keys ≠ [] → itemgetter keys row = inr k →
  Join_call joiner keys (row :: rest, out) ([], Raise e) = Some ([], Raise e).
Proof.
  intros Hkeys Hk.
  assert (Hfailed : _safe_groupby ([], Raise e) keys = ([], Raise e)).
  { by destruct keys. }
  unfold Join_call, Join_call_fuel, Join_groups. rewrite Hfailed.
  destruct (safe_groupby_first_group keys row rest out k Hkeys Hk)
    as (g & groups & Hfirst).
  unfold join_init, next_or_none.
  destruct (_safe_groupby (row :: rest, out) keys) as [l o].
  simpl in Hfirst. subst l. reflexivity.
Qed.

(** Without keys the two streams go to the joiner as they are. *)
Lemma Join_call_no_keys_failed joiner (rows other : stream TRow)
    (l : list TRow) (e : exn) :
  joiner [] rows other = (l, Raise e) →
  Join_call joiner [] rows other = Some (l, Raise e).
Proof.
  intros H. unfold Join_call, Join_call_fuel, Join_groups. cbn.
  unfold advance_both, advance_left. by rewrite H.
Qed.

Lemma Joiner_call_failed_first (self : Joiner) (keys : list string) (e : exn)
    (rows : stream TRow) :
  if reads_left_first (joiner_class self)
  then Joiner_call self keys ([], Raise e) rows = ([], Raise e)
  else Joiner_call self keys rows ([], Raise e) = ([], Raise e).
Proof. unfold Joiner_call. by destruct (joiner_class self). Qed.

Lemma Joiner_call_failed_second (self : Joiner) (keys : list string) (e : exn)
    (l : list TRow) :
  if reads_left_first (joiner_class self)
  then Joiner_call self keys (l, Done) ([], Raise e) = ([], Raise e)
  else Joiner_call self keys ([], Raise e) (l, Done) = ([], Raise e).
Proof.
  unfold Joiner_call. destruct (joiner_class self); cbn; by destruct l.
Qed.

Section missing_source.
Variable sort_call : list string → stream TRow → stream TRow.
Variable kwargs : gmap string (stream TRow).

Lemma parents_run_total (h : list obj) (l : nat) (items : list nat) :
  heap_ok h = true → h !! l = Some (ListObj items) →
  ∀ fuel, (l ≤ fuel)%nat →
    is_Some (mapM (run _ (call_operation sort_call kwargs) fuel h) items).
Proof.
  intros Hok Hl fuel Hfuel. apply mapM_is_Some, Forall_forall.
  intros p Hp. simpl.
  destruct (heap_ok_list h l items p Hok Hl Hp) as (Hlt & op & ps & Hobj).
  destruct (run_total _ _ (call_operation_total sort_call kwargs) h Hok (S p) p op ps)
    as (s & Hs);
    [lia|done|].
  rewrite Hs by lia. by eauto.
Qed.

(** Past the address of the graph, more fuel changes nothing. *)
Lemma run_more_fuel (h : list obj) (l : nat) (items : list nat) (p : nat)
    (s : stream TRow) :
  heap_ok h = true → h !! l = Some (ListObj items) → p ∈ items →
  run _ (call_operation sort_call kwargs) (S p) h p = Some s →
  ∀ fuel, (p < fuel)%nat →
    run _ (call_operation sort_call kwargs) fuel h p = Some s.
Proof.
  intros Hok Hl Hp Hs fuel Hfuel.
  destruct (heap_ok_list h l items p Hok Hl Hp) as (Hlt & op & ps & Hobj).
  destruct (run_total _ _ (call_operation_total sort_call kwargs) h Hok (S p) p op ps)
    as (s' & Hs'); [lia|done|].
  rewrite Hs' in Hs by lia. injection Hs as <-. by apply Hs'.
Qed.

(** The run of a graph with one parent or more: the operation on the run
    of the first parent and the runs of the others. *)
Lemma run_node (h : list obj) (g : nat) operation parents (p : nat)
    (items : list nat) (fuel : nat) :
  heap_ok h = true →
  h !! g = Some (GraphObj operation parents) →
  h !! parents = Some (ListObj (p :: items)) →
  (g < S fuel)%nat →
  (p < fuel)%nat
  ∧ ∃ sp ss,
      run _ (call_operation sort_call kwargs) fuel h p = Some sp
      ∧ mapM (run _ (call_operation sort_call kwargs) fuel h) items = Some ss
      ∧ run _ (call_operation sort_call kwargs) (S fuel) h g
        = call_operation sort_call kwargs operation (sp :: ss).
Proof.
  intros Hok Hg Hl Hfuel.
  destruct (heap_ok_graph h g _ _ Hok Hg) as (Hlt & _).
  destruct (heap_ok_list h parents _ p Hok Hl) as (Hp & _); [by left|].
  split; [lia|].
  destruct (parents_run_total h parents _ Hok Hl fuel) as (ss & Hss); [lia|].
  cbn [run]. rewrite Hg, Hl, Hss. cbn [mapM] in Hss.
  destruct (run _ (call_operation sort_call kwargs) fuel h p) as [sp|]; [|done].
  simpl in Hss.
  destruct (mapM (run _ (call_operation sort_call kwargs) fuel h) items) as [ss'|];
    [|done].
  simpl in Hss. injection Hss as <-. by exists sp, ss'.
Qed.

(** The same for a graph with two parents or more. *)
Lemma run_node_two (h : list obj) (g : nat) operation parents (p q : nat)
    (items : list nat) (fuel : nat) :
  heap_ok h = true →
  h !! g = Some (GraphObj operation parents) →
  h !! parents = Some (ListObj (p :: q :: items)) →
  (g < S fuel)%nat →
  (p < fuel)%nat ∧ (q < fuel)%nat
  ∧ ∃ sp sq ss,
      run _ (call_operation sort_call kwargs) fuel h p = Some sp
      ∧ run _ (call_operation sort_call kwargs) fuel h q = Some sq
      ∧ run _ (call_operation sort_call kwargs) (S fuel) h g
        = call_operation sort_call kwargs operation (sp :: sq :: ss).
Proof.
  intros Hok Hg Hl Hfuel.
  destruct (run_node h g _ _ p _ fuel Hok Hg Hl Hfuel) as (Hp & sp & ss & Hsp & Hss & Hrun).
  destruct (heap_ok_graph h g _ _ Hok Hg) as (Hlt & _).
  destruct (heap_ok_list h parents _ q Hok Hl) as (Hq & _); [by right; left|].
  split; [done|]. split; [lia|].
  cbn [mapM] in Hss.
  destruct (run _ (call_operation sort_call kwargs) fuel h q) as [sq|]; [|done].
  simpl in Hss.
  destruct (mapM (run _ (call_operation sort_call kwargs) fuel h) items) as [ss'|];
    [|done].
  simpl in Hss. injection Hss as <-. by exists sp, sq, ss'.
Qed.

Lemma run_pulls_first (h : list obj) (n : string) (g : nat) :
  heap_ok h = true → kwargs !! n = None → pulls_first sort_call kwargs h n g →
  ∀ fuel, (g < fuel)%nat →
    run _ (call_operation sort_call kwargs) fuel h g = Some ([], Raise (KeyError n)).
Proof.
  intros Hok Hn Hpull.
  induction Hpull as [g parents Hg
                     |g mapper parents p items Hg Hl _ IH
                     |g reducer keys parents p items Hg Hl Hkeys _ IH
                     |g joiner keys parents p q items Hg Hl Hkeys _ IH
                     |g joiner keys parents p q items row rest out k
                        Hg Hl Hkeys Hp Hk _ IH
                     |g reducer parents p items Hg Hl Hreducer _ IH
                     |g joiner parents p q items Hg Hl _ IH
                     |g joiner parents p q items l Hg Hl Hfirst _ IH
                     |g keys parents p items Hg Hl Hsort _ IH];
    intros [|fuel] Hfuel; try lia.
  - cbn [run]. rewrite Hg.
    destruct (heap_ok_graph h g _ _ Hok Hg) as (Hlt & items & Hl). rewrite Hl.
    destruct (parents_run_total h parents items Hok Hl fuel) as (ss & ->); [lia|].
    cbn [mbind option_bind call_operation]. by rewrite Hn.
  - destruct (run_node h g _ _ p _ fuel Hok Hg Hl Hfuel)
      as (Hp & sp & ss & Hsp & _ & ->).
    rewrite IH in Hsp by done. by injection Hsp as <-.
  - destruct (run_node h g _ _ p _ fuel Hok Hg Hl Hfuel)
      as (Hp & sp & ss & Hsp & _ & ->).
    rewrite IH in Hsp by done. injection Hsp as <-. cbn [call_operation].
    by rewrite Reduce_call_failed_input.
  - destruct (run_node_two h g _ _ p q _ fuel Hok Hg Hl Hfuel)
      as (Hp & Hq & sp & sq & ss & Hsp & _ & ->).
    rewrite IH in Hsp by done. injection Hsp as <-. cbn [call_operation].
    by rewrite Join_call_failed_input.
  - destruct (run_node_two h g _ _ p q _ fuel Hok Hg Hl Hfuel)
      as (Hplt & Hq & sp & sq & ss & Hsp & Hsq & ->).
    rewrite (run_more_fuel h parents _ p _ Hok Hl (ltac:(by left)) Hp) in Hsp by done.
    rewrite IH in Hsq by done. injection Hsp as <-. injection Hsq as <-.
    cbn [call_operation].
    by rewrite (Join_call_failed_second _ keys (KeyError n) row rest out k).
  - destruct (run_node h g _ _ p _ fuel Hok Hg Hl Hfuel)
      as (Hp & sp & ss & Hsp & _ & ->).
    rewrite IH in Hsp by done. injection Hsp as <-. cbn [call_operation].
    by rewrite (Reduce_call_no_keys_failed _ _ _ _ Hreducer).
  - destruct (run_node_two h g _ _ p q _ fuel Hok Hg Hl Hfuel)
      as (Hp & Hq & sp & sq & ss & Hsp & Hsq & ->).
    cbn [call_operation]. apply Join_call_no_keys_failed.
    pose proof (Joiner_call_failed_first joiner [] (KeyError n)) as Hcall.
    destruct (reads_left_first (joiner_class joiner)).
    + rewrite IH in Hsp by done. injection Hsp as <-. apply Hcall.
    + rewrite IH in Hsq by done. injection Hsq as <-. apply Hcall.
  - destruct (run_node_two h g _ _ p q _ fuel Hok Hg Hl Hfuel)
      as (Hp & Hq & sp & sq & ss & Hsp & Hsq & ->).
    cbn [call_operation]. apply Join_call_no_keys_failed.
    pose proof (Joiner_call_failed_second joiner [] (KeyError n) l) as Hcall.
    destruct (reads_left_first (joiner_class joiner)).
    + rewrite (run_more_fuel h parents _ p _ Hok Hl (ltac:(by left)) Hfirst) in Hsp
        by done.
      rewrite IH in Hsq by done. injection Hsp as <-. injection Hsq as <-.
      apply Hcall.
    + rewrite (run_more_fuel h parents _ q _ Hok Hl (ltac:(by right; left)) Hfirst)
        in Hsq by done.
      rewrite IH in Hsp by done. injection Hsp as <-. injection Hsq as <-.
      apply Hcall.
  - destruct (run_node h g _ _ p _ fuel Hok Hg Hl Hfuel)
      as (Hp & sp & ss & Hsp & _ & ->).
    rewrite IH in Hsp by done. injection Hsp as <-. cbn [call_operation].
    by rewrite Hsort.
Qed.

End missing_source.

(** ** The external sort is the stable sort *)

Section external_sort_facts.
(** The keys by which rows are sorted and their order: the key tuple of a
    row and the ascending order of key tuples. *)
Variable K : Type.
Variable key : TRow → K.
Variable leb : K → K → bool.
(** The number of rows the in-memory buffer holds, less one: the buffer is
    never of size zero. *)
Variable CHUNK_pred : nat.
#[local] Abbreviation CHUNK := (CHUNK CHUNK_pred).
#[local] Abbreviation row_leb := (row_leb K key leb).
#[local] Abbreviation same_key := (same_key K key leb).
#[local] Abbreviation insert_row := (insert_row K key leb).
#[local] Abbreviation stable_sort := (stable_sort K key leb).
#[local] Abbreviation read_chunks := (read_chunks CHUNK_pred).
#[local] Abbreviation pop_min := (pop_min K key leb).
#[local] Abbreviation merge_runs := (merge_runs K key leb).
#[local] Abbreviation ExternalSort_rows := (ExternalSort_rows K key leb CHUNK_pred).
#[local] Abbreviation merge_two := (merge_two K key leb).
#[local] Abbreviation merge_all := (merge_all K key leb).
Hypothesis leb_total : ∀ k1 k2, leb k1 k2 = true ∨ leb k2 k1 = true.
Hypothesis leb_trans : ∀ k1 k2 k3,
  leb k1 k2 = true → leb k2 k3 = true → leb k1 k3 = true.

Lemma row_leb_false (a b : TRow) : row_leb a b = false → row_leb b a = true.
Proof. unfold row_leb. intros H. destruct (leb_total (key a) (key b)); congruence. Qed.

Lemma row_leb_trans (a b c : TRow) :
  row_leb a b = true → row_leb b c = true → row_leb a c = true.
Proof. unfold row_leb. apply leb_trans. Qed.

Lemma insert_row_Permutation (row : TRow) (buffer : list TRow) :
  insert_row row buffer ≡ₚ row :: buffer.
Proof.
  induction buffer as [|row' rest IH]; simpl; [done|].
  destruct (row_leb row row'); [done|]. rewrite IH. apply Permutation_swap.
Qed.

Lemma stable_sort_Permutation (buffer : list TRow) : stable_sort buffer ≡ₚ buffer.
Proof.
  induction buffer as [|row rest IH]; simpl; [done|].
  by rewrite insert_row_Permutation, IH.
Qed.

Lemma insert_row_Sorted (row : TRow) (buffer : list TRow) :
  Sorted (λ a b, row_leb a b = true) buffer →
  Sorted (λ a b, row_leb a b = true) (insert_row row buffer).
Proof.
  induction 1 as [|row' rest Hsorted IH Hhd]; simpl.
  - by repeat constructor.
  - destruct (row_leb row row') eqn:Hle.
    + by repeat constructor.
    + constructor; [done|].
      destruct Hhd as [|row'' rest' Hle']; simpl.
      * constructor. by apply row_leb_false.
      * destruct (row_leb row row''); constructor; [by apply row_leb_false|done].
Qed.

Lemma stable_sort_Sorted (buffer : list TRow) :
  Sorted (λ a b, row_leb a b = true) (stable_sort buffer).
Proof.
  induction buffer as [|row rest IH]; simpl; [constructor|].
  by apply insert_row_Sorted.
Qed.

Lemma insert_row_stable (k : K) (row : TRow) (buffer : list TRow) :
  List.filter (same_key k) (insert_row row buffer)
  = List.filter (same_key k) (row :: buffer).
Proof.
  induction buffer as [|row' rest IH]; [done|].
  cbn [insert_row]. destruct (row_leb row row') eqn:Hle; [done|].
  cbn [List.filter] in *. rewrite IH.
  destruct (same_key k row) eqn:Hk, (same_key k row') eqn:Hk'; try done.
  exfalso. unfold same_key, row_leb in *.
  apply andb_true_iff in Hk as [H1 _], Hk' as [_ H2].
  by rewrite (leb_trans _ _ _ H1 H2) in Hle.
Qed.

Lemma stable_sort_stable (k : K) (buffer : list TRow) :
  List.filter (same_key k) (stable_sort buffer) = List.filter (same_key k) buffer.
Proof.
  induction buffer as [|row rest IH]; [done|].
  cbn [stable_sort]. rewrite insert_row_stable. cbn [List.filter]. by rewrite IH.
Qed.

Lemma merge_two_nil_r (a : list TRow) : merge_two a [] = a.
Proof. by destruct a. Qed.

Lemma merge_two_nil_l (b : list TRow) : merge_two [] b = b.
Proof. by destruct b. Qed.

Lemma merge_two_cons (x y : TRow) (a b : list TRow) :
  merge_two (x :: a) (y :: b)
  = if row_leb x y then x :: merge_two a (y :: b) else y :: merge_two (x :: a) b.
Proof. reflexivity. Qed.

Lemma insert_row_merge_two (row : TRow) (a : list TRow) : ∀ b : list TRow,
  insert_row row (merge_two a b) = merge_two (insert_row row a) b.
Proof.
  induction a as [|x a IHa]; intros b.
  - induction b as [|y b IHb]; [done|].
    rewrite merge_two_nil_l. rewrite merge_two_nil_l in IHb.
    cbn [insert_row] in *. rewrite merge_two_cons.
    destruct (row_leb row y); [by rewrite merge_two_nil_l|].
    by rewrite IHb.
  - induction b as [|y b IHb].
    + by rewrite !merge_two_nil_r.
    + rewrite merge_two_cons. cbn [insert_row].
      destruct (row_leb row x) eqn:Hrx, (row_leb x y) eqn:Hxy.
      * cbn [insert_row]. rewrite Hrx, !merge_two_cons.
        by rewrite (row_leb_trans _ _ _ Hrx Hxy), Hxy.
      * cbn [insert_row]. rewrite !merge_two_cons.
        destruct (row_leb row y) eqn:Hry.
        -- by rewrite Hxy.
        -- rewrite IHb. cbn [insert_row]. by rewrite Hrx.
      * cbn [insert_row]. rewrite Hrx, merge_two_cons, Hxy. by rewrite IHa.
      * cbn [insert_row]. rewrite merge_two_cons, Hxy.
        destruct (row_leb row y) eqn:Hry.
        -- apply row_leb_false in Hxy.
           by rewrite (row_leb_trans _ _ _ Hry Hxy) in Hrx.
        -- rewrite IHb. cbn [insert_row]. by rewrite Hrx.
Qed.

Lemma stable_sort_app (a b : list TRow) :
  stable_sort (a ++ b) = merge_two (stable_sort a) (stable_sort b).
Proof.
  induction a as [|x a IH]; simpl.
  - by destruct (stable_sort b).
  - by rewrite IH, insert_row_merge_two.
Qed.

Lemma stable_sort_concat (chunks : list (list TRow)) :
  merge_all (stable_sort <$> chunks) = stable_sort (List.concat chunks).
Proof.
  induction chunks as [|c chunks IH]; [done|].
  simpl. rewrite stable_sort_app. by rewrite <- IH.
Qed.

Lemma pop_min_merge_all (runs : list (list TRow)) :
  match pop_min runs with
  | None => merge_all runs = [] ∧ List.length (List.concat runs) = O
  | Some (row, runs') =>
      merge_all runs = row :: merge_all runs'
      ∧ List.length (List.concat runs) = S (List.length (List.concat runs'))
  end.
Proof.
  induction runs as [|run rest IH]; [done|].
  cbn [pop_min]. unfold merge_all in *. cbn [foldr List.concat].
  destruct run as [|x run'], (pop_min rest) as [[y rest']|];
    destruct IH as [IHm IHlen].
  - cbn [foldr List.concat]. rewrite !merge_two_nil_l. simpl. by split.
  - rewrite merge_two_nil_l. simpl. by split.
  - rewrite IHm, merge_two_cons.
    destruct (row_leb x y); cbn [foldr List.concat].
    + rewrite IHm. split; [done|]. rewrite !length_app. simpl. lia.
    + split; [done|]. rewrite !length_app. simpl. lia.
  - cbn [foldr List.concat]. rewrite IHm, !merge_two_nil_r.
    split; [done|]. rewrite !length_app. simpl. lia.
Qed.

Lemma merge_runs_merge_all (fuel : nat) : ∀ runs : list (list TRow),
  (List.length (List.concat runs) ≤ fuel)%nat → merge_runs fuel runs = merge_all runs.
Proof.
  induction fuel as [|fuel IH]; intros runs Hfuel; cbn [merge_runs];
    pose proof (pop_min_merge_all runs) as Hpop;
    destruct (pop_min runs) as [[row runs']|].
  - destruct Hpop as [_ Hlen]. lia.
  - by destruct Hpop as [-> _].
  - destruct Hpop as [-> Hlen]. rewrite IH; [done|lia].
  - by destruct Hpop as [-> _].
Qed.

Lemma read_chunks_concat (rows : list TRow) : ∀ (room : nat) (buffer : list TRow),
  List.concat (read_chunks room buffer rows) = reverse buffer ++ rows.
Proof.
  induction rows as [|row rows IH]; intros room buffer.
  - cbn [read_chunks]. destruct buffer; [done|].
    simpl. by rewrite !app_nil_r.
  - cbn [read_chunks].
    assert (Hfull : List.concat (reverse (row :: buffer) :: read_chunks CHUNK [] rows)
                    = reverse buffer ++ row :: rows).
    { cbn [List.concat]. rewrite IH, reverse_cons. simpl.
      by rewrite <- app_assoc. }
    destruct room as [|[|room']]; [done..|].
    rewrite IH, reverse_cons. by rewrite <- app_assoc.
Qed.

(** The external sort gives what the stable sort of the whole input
    gives. *)
Lemma ExternalSort_rows_stable_sort (rows : list TRow) :
  ExternalSort_rows rows = stable_sort rows.
Proof.
  unfold ExternalSort_rows.
  pose proof (read_chunks_concat rows CHUNK []) as Hconcat. simpl in Hconcat.
  pose proof (stable_sort_concat (read_chunks CHUNK [] rows)) as Hmerge.
  rewrite Hconcat in Hmerge.
  assert (Hlen : List.length (List.concat (stable_sort <$> read_chunks CHUNK [] rows))
                 = List.length rows).
  { rewrite <- Hconcat at 2. clear.
    induction (read_chunks CHUNK [] rows) as [|c cs IH]; [done|].
    rewrite fmap_cons. cbn [List.concat]. rewrite !length_app, IH.
    by rewrite (Permutation_length (stable_sort_Permutation c)). }
  assert (Hgen : merge_runs (List.length rows)
                   (stable_sort <$> read_chunks CHUNK [] rows) = stable_sort rows).
  { rewrite merge_runs_merge_all by lia. done. }
  destruct (stable_sort <$> read_chunks CHUNK [] rows) as [|run [|run' runs]];
    [done| |done].
  rewrite <- Hmerge. unfold merge_all. simpl. by rewrite merge_two_nil_r.
Qed.

End external_sort_facts.

(** ** The groups of a sorted stream *)

Lemma attach_keys_rows (keys : list string) (rows : list TRow) :
  (attach_keys keys rows).2 = None →
  (attach_keys keys rows).1.*2 = rows
  ∧ Forall (λ kr, itemgetter keys kr.2 = inr kr.1) (attach_keys keys rows).1.
Proof.
  induction rows as [|row rows IH]; simpl; [done|].
  destruct (itemgetter keys row) as [e|k] eqn:Hk; [done|].
  destruct (attach_keys keys rows) as [l err]. simpl in *.
  intros ->. destruct (IH eq_refl) as [IH1 IH2]. split.
  - f_equal. exact IH1.
  - by constructor.
Qed.

Lemma group_runs_concat (l : list (Key * TRow)) :
  List.concat (group_runs l).*2 = l.*2.
Proof.
  induction l as [|[k row] l IH]; simpl; [done|].
  destruct (group_runs l) as [|[k' g] gs]; simpl in *.
  - by f_equal.
  - destruct (key_eq k k'); simpl; by f_equal.
Qed.

Lemma group_runs_nonempty (l : list (Key * TRow)) :
  Forall (λ kg, kg.2 ≠ []) (group_runs l).
Proof.
  induction l as [|[k row] l IH]; simpl; [constructor|].
  destruct (group_runs l) as [|[k' g] gs].
  - by repeat constructor.
  - destruct (key_eq k k').
    + inversion IH; subst. by constructor.
    + by constructor.
Qed.

Lemma group_runs_keyed (P : Key → TRow → Prop) (l : list (Key * TRow)) :
  Forall (λ kr, P kr.1 kr.2) l →
  Forall (λ kg, Forall (P kg.1) kg.2) (group_runs l).
Proof.
  induction 1 as [|[k row] l Hrow Hl IH]; simpl in *; [constructor|].
  destruct (group_runs l) as [|[k' g] gs].
  - by repeat constructor.
  - destruct (key_eq k k') eqn:Heq.
    + apply bool_decide_eq_true in Heq as <-.
      inversion IH; subst. constructor; [|done]. by constructor.
    + constructor; [|done]. by repeat constructor.
Qed.

(** Groups that follow each other have different keys. *)
Lemma group_runs_adjacent (l : list (Key * TRow)) (i : nat) (k1 k2 : Key) :
  (group_runs l).*1 !! i = Some k1 → (group_runs l).*1 !! S i = Some k2 →
  k1 ≠ k2.
Proof.
  revert i. induction l as [|[k row] l IH]; intros i; simpl; [done|].
  destruct (group_runs l) as [|[k' g] gs] eqn:Hruns.
  - by destruct i.
  - destruct (key_eq k k') eqn:Heq.
    + apply bool_decide_eq_true in Heq as <-. apply IH.
    + destruct i as [|i].
      * simpl. intros [= <-] [= <-]. by apply bool_decide_eq_false in Heq.
      * apply (IH i).
Qed.

Lemma ascii_compare_lt_trans (a b c : ascii) :
  Ascii.compare a b = Lt → Ascii.compare b c = Lt → Ascii.compare a c = Lt.
Proof.
  unfold Ascii.compare. rewrite !N.compare_lt_iff. lia.
Qed.

Lemma string_compare_lt_trans (s t u : string) :
  String.compare s t = Lt → String.compare t u = Lt → String.compare s u = Lt.
Proof.
  revert t u. induction s as [|a s IH]; intros [|b t] [|c u]; simpl; try done.
  destruct (Ascii.compare a b) eqn:Hab; try done.
  - apply Ascii.compare_eq_iff in Hab as ->.
    destruct (Ascii.compare b c) eqn:Hbc; try done. apply IH.
  - destruct (Ascii.compare b c) eqn:Hbc; try done.
    + apply Ascii.compare_eq_iff in Hbc as <-. by rewrite Hab.
    + by rewrite (ascii_compare_lt_trans _ _ _ Hab Hbc).
Qed.

Lemma py_lt_trans (a b c : Value) :
  py_lt a b = Some true → py_lt b c = Some true → py_lt a c = Some true.
Proof.
  destruct a as [n|s], b as [m|t], c as [p|u]; simpl; try done;
    intros [= H1] [= H2]; f_equal.
  - apply Z.ltb_lt in H1, H2. apply Z.ltb_lt. lia.
  - unfold String.ltb in *.
    destruct (String.compare s t) eqn:H1'; try done.
    destruct (String.compare t u) eqn:H2'; try done.
    by rewrite (string_compare_lt_trans _ _ _ H1' H2').
Qed.

Lemma py_lt_irrefl (a : Value) : py_lt a a ≠ Some true.
Proof.
  destruct a as [n|s]; simpl; intros [= H].
  - apply Z.ltb_lt in H. lia.
  - unfold String.ltb in H.
    destruct (String.compare s s) eqn:Hc; try done.
    pose proof (String.compare_antisym s s) as Ha. rewrite Hc in Ha. done.
Qed.

Lemma tuple_lt_trans (x y z : list Value) :
  tuple_lt x y = Some true → tuple_lt y z = Some true → tuple_lt x z = Some true.
Proof.
  revert y z. induction x as [|a x IH]; intros [|b y] [|c z]; simpl; try done.
  destruct (decide (a = b)) as [->|Hab].
  - destruct (decide (b = c)) as [->|Hbc]; [apply IH|done].
  - destruct (decide (b = c)) as [->|Hbc].
    + intros H _. by rewrite decide_False.
    + intros H1 H2. destruct (decide (a = c)) as [->|Hac].
      * exfalso. apply (py_lt_irrefl c). by apply (py_lt_trans c b c).
      * by apply (py_lt_trans a b c).
Qed.

Lemma tuple_lt_irrefl (x : list Value) : tuple_lt x x ≠ Some true.
Proof.
  induction x as [|a x IH]; simpl; [done|]. by rewrite decide_True.
Qed.

Lemma key_lt_trans (k1 k2 k3 : Key) :
  key_lt k1 k2 = Some true → key_lt k2 k3 = Some true → key_lt k1 k3 = Some true.
Proof.
  destruct k1, k2, k3; simpl; try done; [apply py_lt_trans|apply tuple_lt_trans].
Qed.

Lemma key_lt_irrefl (k : Key) : key_lt k k ≠ Some true.
Proof.
  destruct k; simpl; [apply py_lt_irrefl|apply tuple_lt_irrefl|done].
Qed.

Lemma key_lt_gt (k1 k2 : Key) : key_lt k1 k2 = Some true → key_gt k2 k1 = Some true.
Proof.
  assert (Hpy : ∀ a b, py_lt a b = Some true → py_gt b a = Some true).
  { by intros [n|s] [m|t]. }
  destruct k1 as [a|x|], k2 as [b|y|]; simpl; try done; [apply Hpy|].
  revert y. induction x as [|a x IH]; intros [|b y]; simpl; try done.
  destruct (decide (a = b)) as [->|Hab].
  - rewrite decide_True by done. apply IH.
  - rewrite decide_False by congruence. apply Hpy.
Qed.
Lemma close_groups_Done (runs : list (Key * list TRow)) :
  close_groups Done runs = (λ kg, (kg.1, (kg.2, Done))) <$> runs.
Proof.
  induction runs as [|[k g] runs IH]; [done|].
  destruct runs as [|[k' g'] runs']; [done|].
  change (close_groups Done ((k, g) :: (k', g') :: runs'))
    with ((k, (g, Done)) :: close_groups Done ((k', g') :: runs')).
  by rewrite IH.
Qed.

Lemma ascending_cons (k1 k2 : Key) (ks : list Key) :
  ascending (k1 :: k2 :: ks) = true
  ↔ key_gt k1 k2 = Some false ∧ ascending (k2 :: ks) = true.
Proof.
  change (ascending (k1 :: k2 :: ks))
    with (bool_decide (key_gt k1 k2 = Some false) && ascending (k2 :: ks)).
  by rewrite andb_true_iff, bool_decide_eq_true.
Qed.

Lemma safe_groupby_loop_ascending (groups : list (Key * stream TRow)) :
  ∀ prev_keys : Key,
  ascending (prev_keys :: groups.*1) = true →
  safe_groupby_loop prev_keys groups Done = (groups, Done).
Proof.
  induction groups as [|[k g] groups IH]; intros prev Hasc; [done|].
  rewrite fmap_cons in Hasc. apply ascending_cons in Hasc as [Hgt Hasc].
  cbn [safe_groupby_loop]. simpl in Hgt. rewrite Hgt.
  by rewrite (IH k Hasc).
Qed.

Lemma safe_groupby_sorted (keys : list string) (rows : list TRow) :
  keys ≠ [] → rows ≠ [] → sorted_by keys rows = true →
  _safe_groupby (rows, Done) keys
  = ((λ kg, (kg.1, (kg.2, Done))) <$> group_runs (attach_keys keys rows).1, Done).
Proof.
  intros Hkeys Hrows Hsorted.
  apply andb_true_iff in Hsorted as [Hhas Hasc].
  apply bool_decide_eq_true in Hhas.
  unfold group_keys in Hasc.
  unfold _safe_groupby, groupby. destruct keys as [|key keys']; [done|].
  set (keys := key :: keys') in *. cbn [fst snd].
  pose proof (attach_keys_no_error keys rows Hhas) as Hlen.
  destruct (attach_keys keys rows) as [keyed err]. simpl in Hhas, Hasc, Hlen.
  subst err. cbn [fst snd]. rewrite close_groups_Done.
  destruct (group_runs keyed) as [|[k g] runs] eqn:Hruns.
  { apply group_runs_nil in Hruns. subst keyed. by destruct rows. }
  rewrite fmap_cons. cbn [fst snd].
  rewrite safe_groupby_loop_ascending; [done|].
  rewrite <- list_fmap_compose. exact Hasc.
Qed.

(** Keys that do not descend and differ from one group to the next
    ascend strictly, from any group to any later one. *)
Lemma ascending_lt (ks : list Key) :
  ascending ks = true →
  (∀ i k1 k2, ks !! i = Some k1 → ks !! S i = Some k2 → k1 ≠ k2) →
  ∀ i j ki kj, (i < j)%nat → ks !! i = Some ki → ks !! j = Some kj →
  key_lt ki kj = Some true.
Proof.
  induction ks as [|k1 ks IH]; intros Hasc Hadj i j ki kj Hij Hi Hj; [done|].
  destruct ks as [|k2 ks].
  { destruct i, j; try lia; by destruct j. }
  apply ascending_cons in Hasc as [Hgt Hasc].
  assert (H12 : key_lt k1 k2 = Some true).
  { apply key_connected; [|done]. apply bool_decide_eq_false.
    by apply (Hadj 0%nat). }
  assert (Hadj' : ∀ i k k', (k2 :: ks) !! i = Some k → (k2 :: ks) !! S i = Some k' → k ≠ k').
  { intros i' k k'. apply (Hadj (S i')). }
  destruct i as [|i], j as [|j]; try lia.
  - simpl in Hi. injection Hi as <-. simpl in Hj.
    destruct j as [|j].
    + simpl in Hj. by injection Hj as <-.
    + apply (key_lt_trans k1 k2 kj); [done|].
      apply (IH Hasc Hadj' 0%nat (S j)); [lia|done|done].
  - apply (IH Hasc Hadj' i j); [lia|done|done].
Qed.

Lemma Reduce_call_sorted (reducer : Reducer) (keys : list string) (rows : list TRow) :
  keys ≠ [] → rows ≠ [] → sorted_by keys rows = true →
  Reduce_call reducer keys (rows, Done)
  = foldr (λ g rest, yield_from (reducer keys (g, Done)) rest) ([], Done)
      (runs_of keys rows).
Proof.
  intros Hkeys Hrows Hsorted. unfold Reduce_call, runs_of.
  rewrite (safe_groupby_sorted keys rows Hkeys Hrows Hsorted).
  induction (group_runs (attach_keys keys rows).1) as [|[k g] runs IH]; [done|].
  rewrite !fmap_cons. cbn [foldr fst snd]. by rewrite IH.
Qed.

Lemma runs_of_concat (keys : list string) (rows : list TRow) :
  has_keys keys rows = true → List.concat (runs_of keys rows) = rows.
Proof.
  intros H. apply bool_decide_eq_true in H. unfold runs_of.
  rewrite group_runs_concat. by apply attach_keys_rows.
Qed.

Lemma runs_of_nonempty (keys : list string) (rows : list TRow) :
  Forall (λ g, g ≠ []) (runs_of keys rows).
Proof.
  unfold runs_of. apply Forall_fmap. apply group_runs_nonempty.
Qed.
(** ** Dicts, list by list *)

Lemma dict_get_dict_set (row : TRow) (k k' : string) (v : Value) :
  dict_get (dict_set row k v) k' = if String.eqb k k' then Some v else dict_get row k'.
Proof.
  rewrite !dict_get_row_map, row_map_dict_set.
  destruct (String.eqb_spec k k') as [->|Hne].
  - by rewrite lookup_insert_eq.
  - by rewrite lookup_insert_ne.
Qed.

Lemma dict_get_dict_set_eq (row : TRow) (k : string) (v : Value) :
  dict_get (dict_set row k v) k = Some v.
Proof. by rewrite dict_get_dict_set, String.eqb_refl. Qed.

Lemma dict_get_dict_set_ne (row : TRow) (k k' : string) (v : Value) :
  k ≠ k' → dict_get (dict_set row k v) k' = dict_get row k'.
Proof.
  intros Hne. rewrite dict_get_dict_set.
  by destruct (String.eqb_spec k k').
Qed.

Lemma dict_set_dict_set (row : TRow) (k : string) (v w : Value) :
  dict_set (dict_set row k v) k w = dict_set row k w.
Proof.
  induction row as [|[k' v'] rest IH]; simpl.
  - by rewrite String.eqb_refl.
  - destruct (String.eqb_spec k' k) as [->|Hne]; simpl.
    + by rewrite String.eqb_refl.
    + destruct (String.eqb_spec k' k); [done|]. by rewrite IH.
Qed.

Lemma dict_keys_dict_set (row : TRow) (k k' : string) (v : Value) :
  k' ∈ dict_keys (dict_set row k v) ↔ k' = k ∨ k' ∈ dict_keys row.
Proof.
  rewrite !elem_of_dict_keys, dict_get_dict_set.
  destruct (String.eqb_spec k k') as [->|Hne].
  - split; [by left|by eauto].
  - split; [by right|]. intros [->|H]; done.
Qed.

(** ** The dict comprehension over the key columns *)

Lemma project_loop_get (columns : list string) (row : TRow) :
  ∀ new_row out : TRow,
  project_loop columns row new_row = inr out →
  ∀ c, dict_get out c
       = if in_keys c columns then dict_get row c else dict_get new_row c.
Proof.
  induction columns as [|column rest IH]; intros new_row out; simpl.
  - by intros [= ->].
  - unfold getitem. destruct (dict_get row column) as [v|] eqn:Hv; [|done].
    intros Hout c. rewrite (IH _ _ Hout c).
    destruct (in_keys c rest) eqn:Hin.
    + by rewrite orb_true_r.
    + rewrite orb_false_r, dict_get_dict_set.
      rewrite (String.eqb_sym c column).
      destruct (String.eqb_spec column c) as [<-|Hne]; done.
Qed.

Lemma project_loop_row_ok (columns : list string) (row : TRow) :
  ∀ new_row out : TRow,
  row_ok new_row → project_loop columns row new_row = inr out → row_ok out.
Proof.
  induction columns as [|column rest IH]; intros new_row out Hok; simpl.
  - by intros [= <-].
  - destruct (getitem row column) as [e|v]; [done|].
    apply IH. by apply row_ok_dict_set.
Qed.

Lemma project_loop_total (columns : list string) (row : TRow) :
  (∀ k, k ∈ columns → is_Some (dict_get row k)) →
  ∀ new_row, ∃ out, project_loop columns row new_row = inr out.
Proof.
  induction columns as [|column rest IH]; intros Hhas new_row; simpl; [by eauto|].
  unfold getitem. destruct (Hhas column) as [v ->]; [by left|].
  apply IH. intros k Hk. apply Hhas. by right.
Qed.

(** The comprehension raises the [KeyError] of the first column that the
    row does not have. *)
Lemma project_loop_missing (before after : list string) (column : string)
    (row : TRow) :
  (∀ k, k ∈ before → is_Some (dict_get row k)) →
  dict_get row column = None →
  ∀ new_row, project_loop (before ++ column :: after) row new_row
             = inl (KeyError column).
Proof.
  induction before as [|k before IH]; intros Hhas Hnone new_row; simpl.
  - unfold getitem. by rewrite Hnone.
  - unfold getitem. destruct (Hhas k) as [v ->]; [by left|].
    apply IH; [|done]. intros k' Hk'. apply Hhas. by right.
Qed.

Lemma get_columns_has (keys : list string) (row : TRow) (vs : list Value) :
  get_columns keys row = inr vs → ∀ k, k ∈ keys → is_Some (dict_get row k).
Proof.
  revert vs. induction keys as [|key keys IH]; intros vs; simpl.
  - intros _ k Hk. by apply elem_of_nil in Hk.
  - destruct (dict_get row key) as [v|] eqn:Hv; [|done].
    destruct (get_columns keys row) as [e|vs'] eqn:Hvs; [done|].
    intros _ k Hk. apply elem_of_cons in Hk as [->|Hk]; [by eauto|].
    by apply (IH vs').
Qed.

Lemma itemgetter_has (keys : list string) (row : TRow) (k : Key) :
  itemgetter keys row = inr k → ∀ c, c ∈ keys → is_Some (dict_get row c).
Proof.
  unfold itemgetter. destruct keys as [|key [|key' keys]]; [done| |].
  - destruct (dict_get row key) as [v|] eqn:Hv; [|done].
    intros _ c Hc. apply list_elem_of_singleton in Hc as ->. by eauto.
  - destruct (get_columns (key :: key' :: keys) row) as [e|vs] eqn:Hvs; [done|].
    intros _. by apply (get_columns_has _ _ vs).
Qed.
(** ** Reducers on the groups of a sorted stream *)

(** When the reducer makes one row of every group, [Reduce] yields these
    rows, one per group and in the order of the groups. *)
Lemma Reduce_one_row_each (reducer : Reducer) (keys : list string)
    (R : list TRow → TRow → Prop) (runs : list (list TRow)) :
  Forall (λ g, ∃ out, reducer keys (g, Done) = ([out], Done) ∧ R g out) runs →
  ∃ outs, foldr (λ g rest, yield_from (reducer keys (g, Done)) rest) ([], Done) runs
          = (outs, Done)
          ∧ Forall2 R runs outs.
Proof.
  induction 1 as [|g runs (out & Hg & HR) _ (outs & IH & IH2)].
  - exists []. by split.
  - exists (out :: outs). split; [|by constructor].
    cbn [foldr]. rewrite IH, Hg. done.
Qed.

Lemma count_loop_spec (column : string) (rest : list TRow) :
  ∀ (new_row : TRow) (n : Z),
  for_rows (λ new_row _, dict_iadd new_row column (inr (VInt 1))) rest Done
    (dict_set new_row column (VInt n))
  = inr (dict_set new_row column (VInt (n + Z.of_nat (List.length rest)))).
Proof.
  induction rest as [|row rest IH]; intros new_row n.
  - simpl. by rewrite Z.add_0_r.
  - cbn [for_rows]. unfold dict_iadd, getitem.
    rewrite dict_get_dict_set_eq. cbn [py_add].
    rewrite dict_set_dict_set, IH. do 2 f_equal. f_equal.
    rewrite length_cons. lia.
Qed.

Lemma Count_group (column : string) (keys : list string) (row : TRow)
    (rest : list TRow) :
  (∀ k, k ∈ keys → is_Some (dict_get row k)) →
  ∃ out, Count column keys (row :: rest, Done) = ([out], Done)
         ∧ row_ok out
         ∧ dict_get out column = Some (VInt (Z.of_nat (List.length (row :: rest))))
         ∧ ∀ c, c ≠ column →
                dict_get out c = if in_keys c keys then dict_get row c else None.
Proof.
  intros Hhas. unfold Count, next_row. cbn [fst snd].
  destruct (project_loop_total keys row Hhas []) as [new_row Hnew].
  rewrite Hnew, count_loop_spec.
  eexists. split; [done|]. split; [|split].
  - apply row_ok_dict_set. apply (project_loop_row_ok keys row [] new_row); [|done].
    apply NoDup_nil_2.
  - rewrite dict_get_dict_set_eq. do 2 f_equal. rewrite length_cons. lia.
  - intros c Hc. rewrite dict_get_dict_set_ne by done.
    apply (project_loop_get keys row [] new_row Hnew).
Qed.

Lemma column_total_app (column : string) (l1 l2 : list TRow) :
  column_total column (l1 ++ l2) = column_total column l1 + column_total column l2.
Proof.
  induction l1 as [|row l1 IH]; simpl; [done|].
  fold (column_total column (l1 ++ l2)). fold (column_total column l1).
  rewrite IH. destruct (dict_get row column) as [[n|s]|]; lia.
Qed.

Lemma column_total_counts (column : string) (runs : list (list TRow))
    (outs : list TRow) :
  Forall2 (λ g out, dict_get out column = Some (VInt (Z.of_nat (List.length g))))
          runs outs →
  column_total column outs = Z.of_nat (List.length (List.concat runs)).
Proof.
  induction 1 as [|g out runs outs Hout _ IH]; [done|].
  cbn [column_total foldr List.concat]. fold (column_total column outs).
  rewrite Hout, IH, length_app. lia.
Qed.

Lemma column_total_sums (column : string) (runs : list (list TRow))
    (outs : list TRow) :
  Forall2 (λ g out, dict_get out column = Some (VInt (column_total column g)))
          runs outs →
  column_total column outs = column_total column (List.concat runs).
Proof.
  induction 1 as [|g out runs outs Hout _ IH]; [done|].
  change (List.concat (g :: runs)) with (g ++ List.concat runs).
  rewrite column_total_app, <- IH.
  change (column_total column (out :: outs))
    with (match dict_get out column with
          | Some (VInt n) => n + column_total column outs
          | _ => column_total column outs
          end).
  by rewrite Hout.
Qed.

(** The rows of a run carry the key columns. *)
Lemma runs_of_has_keys (keys : list string) (rows : list TRow) :
  has_keys keys rows = true →
  Forall (Forall (λ row, ∀ c, c ∈ keys → is_Some (dict_get row c)))
         (runs_of keys rows).
Proof.
  intros H. apply bool_decide_eq_true in H.
  destruct (attach_keys_rows keys rows H) as [_ Hkeyed].
  unfold runs_of. apply Forall_fmap.
  pose proof (group_runs_keyed (λ k row, itemgetter keys row = inr k) _ Hkeyed) as Hruns.
  eapply Forall_impl; [exact Hruns|]. intros [k g] Hg. simpl in *.
  eapply Forall_impl; [exact Hg|]. intros row Hrow. by apply (itemgetter_has keys row k).
Qed.
Lemma int_column_cons (column : string) (row : TRow) (rows : list TRow) :
  int_column column (row :: rows) = true →
  (∃ n, dict_get row column = Some (VInt n)) ∧ int_column column rows = true.
Proof.
  unfold int_column. cbn [forallb]. intros H. apply andb_true_iff in H as [H1 H2].
  split; [|done]. destruct (dict_get row column) as [[n|s]|]; try done. by eauto.
Qed.

Lemma column_total_cons (column : string) (row : TRow) (rows : list TRow) (n : Z) :
  dict_get row column = Some (VInt n) →
  column_total column (row :: rows) = n + column_total column rows.
Proof.
  intros H.
  change (column_total column (row :: rows))
    with (match dict_get row column with
          | Some (VInt n) => n + column_total column rows
          | _ => column_total column rows
          end).
  by rewrite H.
Qed.

Lemma sum_loop_spec (column : string) (rest : list TRow) :
  int_column column rest = true →
  ∀ (new_row : TRow) (n : Z),
  for_rows (λ new_row row, dict_iadd new_row column (getitem row column)) rest Done
    (dict_set new_row column (VInt n))
  = inr (dict_set new_row column (VInt (n + column_total column rest))).
Proof.
  induction rest as [|row rest IH]; intros Hint new_row n.
  - simpl. by rewrite Z.add_0_r.
  - apply int_column_cons in Hint as [[m Hm] Hint].
    cbn [for_rows]. unfold dict_iadd, getitem.
    rewrite dict_get_dict_set_eq, Hm. cbn [py_add].
    rewrite dict_set_dict_set, (IH Hint).
    rewrite (column_total_cons column row rest m Hm). do 3 f_equal. lia.
Qed.

Lemma Sum_group (column : string) (keys : list string) (row : TRow)
    (rest : list TRow) :
  (∀ k, k ∈ keys → is_Some (dict_get row k)) →
  int_column column (row :: rest) = true →
  ∃ out, Sum column keys (row :: rest, Done) = ([out], Done)
         ∧ row_ok out
         ∧ dict_get out column = Some (VInt (column_total column (row :: rest)))
         ∧ ∀ c, c ≠ column →
                dict_get out c = if in_keys c keys then dict_get row c else None.
Proof.
  intros Hhas Hint. unfold Sum, next_row. cbn [fst snd].
  destruct (project_loop_total keys row Hhas []) as [new_row Hnew].
  apply int_column_cons in Hint as [[n Hn] Hint].
  rewrite Hnew. unfold getitem at 1. rewrite Hn.
  rewrite (sum_loop_spec column rest Hint).
  eexists. split; [done|]. split; [|split].
  - apply row_ok_dict_set. apply (project_loop_row_ok keys row [] new_row); [|done].
    apply NoDup_nil_2.
  - rewrite dict_get_dict_set_eq. by rewrite (column_total_cons column row rest n Hn).
  - intros c Hc. rewrite dict_get_dict_set_ne by done.
    apply (project_loop_get keys row [] new_row Hnew).
Qed.

Lemma mean_loop_spec (column : string) (rest : list TRow) :
  int_column column rest = true →
  ∀ (new_row : TRow) (n size : Z),
  for_rows (λ '(new_row, stream_size) row,
              match dict_iadd new_row column (getitem row column) with
              | inl e => inl e
              | inr new_row => inr (new_row, stream_size + 1)
              end) rest Done
    (dict_set new_row column (VInt n), size)
  = inr (dict_set new_row column (VInt (n + column_total column rest)),
         size + Z.of_nat (List.length rest)).
Proof.
  induction rest as [|row rest IH]; intros Hint new_row n size.
  - simpl. by rewrite !Z.add_0_r.
  - apply int_column_cons in Hint as [[m Hm] Hint].
    cbn [for_rows]. unfold dict_iadd, getitem.
    rewrite dict_get_dict_set_eq, Hm. cbn [py_add].
    rewrite dict_set_dict_set, (IH Hint).
    rewrite (column_total_cons column row rest m Hm), length_cons.
    do 2 f_equal; [do 2 f_equal|]; lia.
Qed.

Lemma int_column_app (column : string) (l1 l2 : list TRow) :
  int_column column (l1 ++ l2) = int_column column l1 && int_column column l2.
Proof. unfold int_column. apply forallb_app. Qed.

Lemma int_column_concat (column : string) (runs : list (list TRow)) :
  int_column column (List.concat runs) = true →
  Forall (λ g, int_column column g = true) runs.
Proof.
  induction runs as [|g runs IH]; [constructor|].
  cbn [List.concat]. rewrite int_column_app. intros H.
  apply andb_true_iff in H as [H1 H2]. constructor; [done|by apply IH].
Qed.

Lemma means_fit_group (column : string) (groups : list (list TRow))
    (g : list TRow) :
  means_fit column groups = true → g ∈ groups →
  float_overflow (column_total column g) (Z.of_nat (List.length g)) = false.
Proof.
  unfold means_fit. rewrite forallb_forall. intros H Hg.
  apply list_elem_of_In in Hg. apply H in Hg. by apply negb_true_iff in Hg.
Qed.

Lemma Mean_group (truediv : Z → Z → Value) (column : string) (keys : list string)
    (row : TRow) (rest : list TRow) :
  (∀ k, k ∈ keys → is_Some (dict_get row k)) →
  int_column column (row :: rest) = true →
  float_overflow (column_total column (row :: rest))
    (Z.of_nat (List.length (row :: rest))) = false →
  ∃ out, Mean truediv column keys (row :: rest, Done) = ([out], Done)
         ∧ row_ok out
         ∧ dict_get out column
           = Some (truediv (column_total column (row :: rest))
                     (Z.of_nat (List.length (row :: rest))))
         ∧ ∀ c, c ≠ column →
                dict_get out c = if in_keys c keys then dict_get row c else None.
Proof.
  intros Hhas Hint Hfits. unfold Mean, next_row. cbn [fst snd].
  destruct (project_loop_total keys row Hhas []) as [new_row Hnew].
  apply int_column_cons in Hint as [[n Hn] Hint].
  rewrite Hnew. unfold getitem at 1. rewrite Hn.
  rewrite (mean_loop_spec column rest Hint).
  unfold getitem. rewrite dict_get_dict_set_eq. cbn [py_truediv].
  assert (Hsize : 1 + Z.of_nat (List.length rest) = Z.of_nat (List.length (row :: rest))).
  { rewrite length_cons. lia. }
  rewrite Hsize.
  destruct (Z.eqb_spec (Z.of_nat (List.length (row :: rest))) 0) as [H0|_].
  { rewrite length_cons in H0. lia. }
  rewrite <- (column_total_cons column row rest n Hn), Hfits.
  rewrite dict_set_dict_set.
  eexists. split; [done|]. split; [|split].
  - apply row_ok_dict_set. apply (project_loop_row_ok keys row [] new_row); [|done].
    apply NoDup_nil_2.
  - by rewrite dict_get_dict_set_eq.
  - intros c Hc. rewrite dict_get_dict_set_ne by done.
    apply (project_loop_get keys row [] new_row Hnew).
Qed.

Lemma count_rows_loop (rows : list TRow) (n : Z) :
  for_rows (λ (rows_ctr : Z) (_ : TRow), inr (rows_ctr + 1)) rows Done n
  = inr (n + Z.of_nat (List.length rows)).
Proof.
  revert n. induction rows as [|row rows IH]; intros n.
  - simpl. by rewrite Z.add_0_r.
  - cbn [for_rows]. rewrite IH, length_cons. f_equal. lia.
Qed.

(** Rows whose keys differ from one to the next are groups of their
    own. *)
Lemma group_runs_singletons (l : list (Key * TRow)) :
  (∀ i k1 k2, l.*1 !! i = Some k1 → l.*1 !! S i = Some k2 → k1 ≠ k2) →
  group_runs l = (λ kr, (kr.1, [kr.2])) <$> l.
Proof.
  induction l as [|[k row] l IH]; intros Hadj; [done|].
  cbn [group_runs]. rewrite IH.
  - destruct l as [|[k' row'] l]; [done|].
    rewrite fmap_cons. cbn [fst snd].
    assert (Hne : k ≠ k') by (by apply (Hadj 0%nat)).
    unfold key_eq. by rewrite bool_decide_eq_false_2.
  - intros i k1 k2. apply (Hadj (S i)).
Qed.

Lemma attach_keys_keyed (keys : list string) (l : list (Key * TRow)) :
  Forall (λ kr, itemgetter keys kr.2 = inr kr.1) l →
  attach_keys keys l.*2 = (l, None).
Proof.
  induction 1 as [|[k row] l Hrow _ IH]; [done|].
  rewrite fmap_cons. cbn [attach_keys snd]. simpl in Hrow. rewrite Hrow, IH. done.
Qed.

(** The first rows of the groups, each with its key. *)
Lemma group_runs_heads (l : list (Key * TRow)) :
  ∃ heads : list (Key * TRow),
    Forall2 (λ kg kr, kg.1 = kr.1 ∧ head kg.2 = Some kr.2) (group_runs l) heads.
Proof.
  pose proof (group_runs_nonempty l) as Hne.
  induction (group_runs l) as [|[k g] runs IH]; [by exists []|].
  apply Forall_cons in Hne as [Hg Hne]. destruct (IH Hne) as [heads Hheads].
  destruct g as [|row g]; [done|].
  exists ((k, row) :: heads). by constructor.
Qed.
(** The first rows of the runs of a stream are a stream with the same
    keys, one row per key. *)
Lemma first_rows_keyed (keys : list string) (rows firsts : list TRow) :
  has_keys keys rows = true →
  Forall2 (λ g out, head g = Some out) (runs_of keys rows) firsts →
  ∃ heads : list (Key * TRow),
    heads.*2 = firsts
    ∧ heads.*1 = group_keys keys rows
    ∧ Forall (λ kr, itemgetter keys kr.2 = inr kr.1) heads.
Proof.
  intros Hhas. apply bool_decide_eq_true in Hhas.
  destruct (attach_keys_rows keys rows Hhas) as [_ Hkeyed].
  pose proof (group_runs_keyed (λ k row, itemgetter keys row = inr k) _ Hkeyed)
    as Hruns.
  unfold runs_of, group_keys. revert firsts Hruns.
  induction (group_runs (attach_keys keys rows).1) as [|[k g] runs IH];
    intros firsts Hruns Hall.
  - apply Forall2_nil_inv_l in Hall as ->. by exists [].
  - rewrite fmap_cons in Hall. apply Forall2_cons_inv_l in Hall
      as (out & firsts' & Hout & Hall & ->).
    apply Forall_cons in Hruns as [Hg Hruns].
    destruct (IH firsts' Hruns Hall) as (heads & H1 & H2 & H3).
    exists ((k, out) :: heads). rewrite !fmap_cons. cbn [fst snd].
    split; [by rewrite H1|]. split; [by rewrite H2|].
    constructor; [|done]. simpl in *.
    destruct g as [|row g]; [done|]. injection Hout as <-.
    by apply Forall_cons in Hg as [Hg _].
Qed.

Lemma runs_of_first_rows (keys : list string) (rows firsts : list TRow) :
  has_keys keys rows = true →
  Forall2 (λ g out, head g = Some out) (runs_of keys rows) firsts →
  has_keys keys firsts = true
  ∧ group_keys keys firsts = group_keys keys rows
  ∧ runs_of keys firsts = (λ row, [row]) <$> firsts.
Proof.
  intros Hhas Hall.
  destruct (first_rows_keyed keys rows firsts Hhas Hall) as (heads & H1 & H2 & H3).
  pose proof (attach_keys_keyed keys heads H3) as Hattach. rewrite H1 in Hattach.
  assert (Hruns : group_runs heads = (λ kr, (kr.1, [kr.2])) <$> heads).
  { apply group_runs_singletons. rewrite H2. unfold group_keys.
    apply group_runs_adjacent. }
  split; [|split].
  - unfold has_keys. rewrite Hattach. by apply bool_decide_eq_true.
  - rewrite <- H2. unfold group_keys. rewrite Hattach. cbn [fst].
    rewrite Hruns, <- list_fmap_compose. done.
  - unfold runs_of. rewrite Hattach. cbn [fst].
    rewrite Hruns, <- H1, <- !list_fmap_compose. done.
Qed.

(** ** The merge of sorted groups *)

Lemma key_gt_flip (k1 k2 : Key) : key_gt k1 k2 = key_lt k2 k1.
Proof.
  assert (Hpy : ∀ a b, py_gt a b = py_lt b a) by (by intros [n|s] [m|t]).
  destruct k1 as [a|x|], k2 as [b|y|]; simpl; try done.
  revert y. induction x as [|a x IH]; intros [|b y]; simpl; try done.
  destruct (decide (a = b)) as [->|Hab].
  - rewrite decide_True by done. apply IH.
  - rewrite decide_False by congruence. apply Hpy.
Qed.

Lemma ascending_StronglySorted (ks : list Key) :
  ascending ks = true →
  (∀ i k1 k2, ks !! i = Some k1 → ks !! S i = Some k2 → k1 ≠ k2) →
  StronglySorted (λ k1 k2, key_lt k1 k2 = Some true) ks.
Proof.
  intros Hasc Hadj. pose proof (ascending_lt ks Hasc Hadj) as Hlt. clear Hasc Hadj.
  induction ks as [|k ks IH]; constructor.
  - apply IH. intros i j ki kj Hij. apply (Hlt (S i) (S j)). lia.
  - apply Forall_forall. intros k' Hk'.
    apply list_elem_of_lookup_1 in Hk' as [j Hj].
    apply (Hlt 0%nat (S j)); [lia|done|done].
Qed.

Lemma advanced_Done (rest : list (Key * stream TRow)) (k : stream TRow) :
  advanced Done rest k = k.
Proof. by destruct rest. Qed.

Lemma group_matches_nil (k : Key) (R : list (Key * list TRow)) :
  Forall (λ kg, kg.1 ≠ k) R → group_matches k R = [].
Proof.
  unfold group_matches. induction 1 as [|kg R Hkg _ IH]; [done|].
  by rewrite filter_cons_False.
Qed.

Lemma group_matches_cons_eq (k : Key) (g : list TRow) (R : list (Key * list TRow)) :
  group_matches k ((k, g) :: R) = g ++ group_matches k R.
Proof. unfold group_matches. by rewrite filter_cons_True. Qed.

Lemma group_matches_cons_ne (k k' : Key) (g : list TRow)
    (R : list (Key * list TRow)) :
  k' ≠ k → group_matches k ((k', g) :: R) = group_matches k R.
Proof. intros Hne. unfold group_matches. by rewrite filter_cons_False. Qed.

Lemma joined_groups_drop (keep : bool) (keys : list string) (sa sb : string)
    (L R : list (Key * list TRow)) (k : Key) (g : list TRow) :
  Forall (λ kg, kg.1 ≠ k) L →
  joined_groups keep keys sa sb L ((k, g) :: R) = joined_groups keep keys sa sb L R.
Proof.
  unfold joined_groups. induction 1 as [|kg L Hkg _ IH]; [done|].
  cbn [mbind list_bind]. rewrite IH. by rewrite group_matches_cons_ne.
Qed.

Section merge_of_sorted_groups.
Variable J : list string → stream TRow → stream TRow → stream TRow.
Variable keys : list string.
Variables sa sb : string.
Variable keep : bool.
Hypothesis J_both : ∀ gl gr, gl ≠ [] → gr ≠ [] →
  J keys (gl, Done) (gr, Done) = (common_join_rows keys sa sb JoinAny gl gr, Done).
Hypothesis J_left : ∀ gl, gl ≠ [] →
  J keys (gl, Done) (of_list []) = (if keep then gl else [], Done).
Hypothesis J_right : ∀ gr, gr ≠ [] → J keys (of_list []) (gr, Done) = ([], Done).

#[local] Abbreviation klt := (λ k1 k2 : Key, key_lt k1 k2 = Some true).

Lemma klt_ne_Forall (k : Key) (R : list (Key * list TRow)) :
  Forall (klt k) R.*1 → Forall (λ kg, kg.1 ≠ k) R.
Proof.
  intros H. rewrite Forall_fmap in H. eapply Forall_impl; [exact H|].
  intros kg Hlt <-. simpl in Hlt. by apply (key_lt_irrefl kg.1).
Qed.

Lemma klt_trans_Forall (k k' : Key) (ks : list Key) :
  klt k k' → Forall (klt k') ks → Forall (klt k) ks.
Proof.
  intros Hlt H. eapply Forall_impl; [exact H|].
  intros k'' H'. by apply (key_lt_trans k k' k'').
Qed.

(** The merge of two streams of groups whose keys ascend strictly yields
    the groups of the left joined with the groups of their key on the
    right. *)
Lemma merge_sorted_groups (L : list (Key * list TRow)) :
  StronglySorted klt L.*1 → Forall (λ kg, kg.2 ≠ []) L →
  ∀ R : list (Key * list TRow),
  StronglySorted klt R.*1 → Forall (λ kg, kg.2 ≠ []) R →
  (∀ kl kr, kl ∈ L.*1 → kr ∈ R.*1 → is_Some (key_lt kl kr)) →
  stated_merge J keys Done Done (closed_group <$> L) (closed_group <$> R)
  = (joined_groups keep keys sa sb L R, Done).
Proof.
  induction L as [|[kL gl] L' IHL]; intros HsL HneL R HsR HneR Hcmp.
  - clear HsL HneL Hcmp. induction R as [|[kR gr] R' IHR]; [done|].
    rewrite fmap_cons, stated_merge_unfold. cbn [fmap list_fmap closed_group fst snd].
    rewrite fmap_cons in HsR. apply StronglySorted_inv in HsR as [HsR _].
    apply Forall_cons in HneR as [Hgr HneR].
    rewrite advanced_Done. rewrite (J_right gr Hgr).
    change (list_fmap _ _ closed_group R') with (closed_group <$> R').
    change (@nil (Key * stream TRow)) with (closed_group <$> []) at 1.
    rewrite (IHR HsR HneR). done.
  - rewrite fmap_cons in HsL. apply StronglySorted_inv in HsL as [HsL HltL].
    apply Forall_cons in HneL as [Hgl HneL]. cbn [fst snd] in *.
    assert (HcmpL' : ∀ R0 : list (Key * list TRow),
              (∀ kl kr, kl ∈ ((kL, gl) :: L').*1 → kr ∈ R0.*1 → is_Some (key_lt kl kr)) →
              ∀ kl kr, kl ∈ L'.*1 → kr ∈ R0.*1 → is_Some (key_lt kl kr)).
    { intros R0 H kl kr Hkl Hkr. apply H; [|done]. rewrite fmap_cons. by right. }
    induction R as [|[kR gr] R' IHR].
    + rewrite fmap_cons, stated_merge_unfold.
      cbn [fmap list_fmap closed_group fst snd].
      rewrite advanced_Done, (J_left gl Hgl).
      change (list_fmap _ _ closed_group L') with (closed_group <$> L').
      change (@nil (Key * stream TRow)) with (closed_group <$> []).
      rewrite (IHL HsL HneL [] HsR HneR (HcmpL' [] Hcmp)).
      unfold joined_groups, yield_from. cbn [mbind list_bind fst snd group_matches].
      done.
    + rewrite fmap_cons in HsR. apply StronglySorted_inv in HsR as [HsR HltR].
      apply Forall_cons in HneR as [Hgr HneR]. cbn [fst snd] in *.
      rewrite !fmap_cons, stated_merge_unfold. cbn [closed_group fst snd].
      destruct (key_eq kL kR) eqn:Heq.
      * apply bool_decide_eq_true in Heq as <-.
        rewrite !advanced_Done, (J_both gl gr Hgl Hgr).
        assert (Hcmp' : ∀ kl kr, kl ∈ L'.*1 → kr ∈ R'.*1 → is_Some (key_lt kl kr)).
        { intros kl kr Hkl Hkr. apply Hcmp; rewrite fmap_cons; by right. }
        rewrite (IHL HsL HneL R' HsR HneR Hcmp').
        unfold yield_from. cbn [fst snd]. f_equal.
        unfold joined_groups at 2. cbn [mbind list_bind fst snd].
        rewrite group_matches_cons_eq.
        rewrite (group_matches_nil kL R') by (by apply klt_ne_Forall).
        rewrite app_nil_r. destruct gr as [|r gr']; [done|].
        f_equal. symmetry. apply joined_groups_drop. by apply klt_ne_Forall.
      * destruct (Hcmp kL kR) as [b Hb]; [rewrite fmap_cons; by left
                                         |rewrite fmap_cons; by left|].
        rewrite Hb. destruct b.
        -- rewrite advanced_Done, (J_left gl Hgl).
           assert (HsR0 : StronglySorted klt ((kR, gr) :: R').*1).
           { rewrite fmap_cons. by constructor. }
           assert (HneR0 : Forall (λ kg : Key * list TRow, kg.2 ≠ []) ((kR, gr) :: R')).
           { by constructor. }
           pose proof (IHL HsL HneL ((kR, gr) :: R') HsR0 HneR0
                         (HcmpL' ((kR, gr) :: R') Hcmp)) as IH.
           rewrite fmap_cons in IH. cbn [closed_group fst snd] in IH. rewrite IH.
           unfold yield_from. cbn [fst snd]. f_equal.
           unfold joined_groups at 2. cbn [mbind list_bind fst snd].
           rewrite group_matches_nil; [done|].
           constructor.
           ++ simpl. intros ->. by apply (key_lt_irrefl kL).
           ++ apply klt_ne_Forall. by apply (klt_trans_Forall kL kR).
        -- rewrite advanced_Done, (J_right gr Hgr).
           assert (HRL : klt kR kL).
           { apply key_connected.
             - unfold key_eq in *. apply bool_decide_eq_false.
               apply bool_decide_eq_false in Heq. congruence.
             - by rewrite key_gt_flip. }
           assert (Hcmp' : ∀ kl kr, kl ∈ ((kL, gl) :: L').*1 → kr ∈ R'.*1 →
                             is_Some (key_lt kl kr)).
           { intros kl kr Hkl Hkr. apply Hcmp; [done|]. rewrite fmap_cons. by right. }
           pose proof (IHR HsR HneR Hcmp') as IH.
           rewrite fmap_cons in IH. cbn [closed_group fst snd] in IH. rewrite IH.
           unfold yield_from. cbn [fst snd app]. f_equal.
           symmetry. apply joined_groups_drop.
           constructor.
           ++ simpl. intros ->. by apply (key_lt_irrefl kR).
           ++ apply klt_ne_Forall. by apply (klt_trans_Forall kR kL).
Qed.

End merge_of_sorted_groups.
Lemma group_matches_rows (keys : list string) (k : Key)
    (R : list (Key * list TRow)) :
  Forall (λ kg, Forall (λ r, itemgetter keys r = inr kg.1) kg.2) R →
  group_matches k R = filter (λ r, itemgetter keys r = inr k) (List.concat R.*2).
Proof.
  induction 1 as [|[k' g] R Hg _ IH]; [done|].
  rewrite fmap_cons. cbn [List.concat snd]. rewrite filter_app, <- IH.
  simpl in Hg. destruct (decide (k' = k)) as [->|Hne].
  - rewrite group_matches_cons_eq. f_equal.
    clear -Hg. induction Hg as [|r g Hr _ IH]; [done|].
    rewrite filter_cons_True by done. by rewrite <- IH.
  - rewrite group_matches_cons_ne by done.
    assert (filter (λ r, itemgetter keys r = inr k) g = []) as ->; [|done].
    clear -Hg Hne. induction Hg as [|r g Hr _ IH]; [done|].
    rewrite filter_cons_False; [done|]. rewrite Hr. congruence.
Qed.

Lemma common_join_rows_bind (keys : list string) (sa sb : string)
    (gl matches : list TRow) :
  common_join_rows keys sa sb JoinAny gl matches
  = gl ≫= (λ l, join_rows keys sa sb l <$> matches).
Proof.
  unfold common_join_rows. cbn [relevant_suffixes].
  induction gl as [|l gl IH]; [done|].
  cbn [mbind list_bind]. rewrite IH. f_equal.
Qed.

Lemma joined_groups_rows (keep : bool) (keys : list string) (sa sb : string)
    (L R : list (Key * list TRow)) :
  Forall (λ kg, Forall (λ r, itemgetter keys r = inr kg.1) kg.2) L →
  Forall (λ kg, Forall (λ r, itemgetter keys r = inr kg.1) kg.2) R →
  joined_groups keep keys sa sb L R
  = equi_join keep keys sa sb (List.concat L.*2) (List.concat R.*2).
Proof.
  intros HL HR. unfold joined_groups, equi_join.
  induction HL as [|[k gl] L Hgl _ IH]; [done|].
  rewrite fmap_cons. cbn [List.concat mbind list_bind fst snd].
  rewrite bind_app. rewrite IH. f_equal.
  rewrite (group_matches_rows keys k R HR). simpl in Hgl.
  set (Rr := List.concat R.*2).
  assert (Heach : ∀ l, l ∈ gl →
            matching_rows keys l Rr = filter (λ r, itemgetter keys r = inr k) Rr).
  { intros l Hl. rewrite Forall_forall in Hgl. unfold matching_rows.
    by rewrite (Hgl l Hl). }
  set (M := filter (λ r, itemgetter keys r = inr k) Rr) in *.
  clearbody M. clear Hgl.
  destruct M as [|m M].
  - induction gl as [|l gl IHgl]; [by destruct keep|].
    cbn [mbind list_bind]. rewrite (Heach l) by (by left).
    rewrite <- IHgl by (intros l' Hl'; apply Heach; by right).
    by destruct keep.
  - rewrite common_join_rows_bind.
    induction gl as [|l gl IHgl]; [done|].
    cbn [mbind list_bind]. rewrite (Heach l) by (by left).
    rewrite <- IHgl by (intros l' Hl'; apply Heach; by right). done.
Qed.

Lemma cross_comparable_spec (ksL ksR : list Key) (kl kr : Key) :
  cross_comparable ksL ksR = true → kl ∈ ksL → kr ∈ ksR → is_Some (key_lt kl kr).
Proof.
  unfold cross_comparable. rewrite forallb_forall. intros H Hl Hr.
  apply list_elem_of_In in Hl, Hr. specialize (H kl Hl).
  rewrite forallb_forall in H. specialize (H kr Hr).
  by apply bool_decide_eq_true in H.
Qed.

(** The merge of the groups of two sorted streams, for a joiner that
    crosses two groups, keeps or drops a left group with nothing on the
    right, and drops a right group with nothing on the left. *)
Lemma merge_sorted_rows (J : list string → stream TRow → stream TRow → stream TRow)
    (keep : bool) (keys : list string) (sa sb : string)
    (left_rows right_rows : list TRow) :
  (∀ gl gr, gl ≠ [] → gr ≠ [] →
     J keys (gl, Done) (gr, Done) = (common_join_rows keys sa sb JoinAny gl gr, Done)) →
  (∀ gl, gl ≠ [] →
     J keys (gl, Done) (of_list []) = (if keep then gl else [], Done)) →
  (∀ gr, gr ≠ [] → J keys (of_list []) (gr, Done) = ([], Done)) →
  sorted_by keys left_rows = true → sorted_by keys right_rows = true →
  cross_comparable (group_keys keys left_rows) (group_keys keys right_rows) = true →
  stated_merge J keys Done Done
    (closed_group <$> group_runs (attach_keys keys left_rows).1)
    (closed_group <$> group_runs (attach_keys keys right_rows).1)
  = (equi_join keep keys sa sb left_rows right_rows, Done).
Proof.
  intros HJ1 HJ2 HJ3 HsL HsR Hcmp.
  apply andb_true_iff in HsL as [HhasL HascL].
  apply andb_true_iff in HsR as [HhasR HascR].
  apply bool_decide_eq_true in HhasL, HhasR.
  destruct (attach_keys_rows keys left_rows HhasL) as [HrowsL HkeyedL].
  destruct (attach_keys_rows keys right_rows HhasR) as [HrowsR HkeyedR].
  rewrite (merge_sorted_groups J keys sa sb keep HJ1 HJ2 HJ3).
  - rewrite joined_groups_rows.
    + by rewrite !group_runs_concat, HrowsL, HrowsR.
    + by apply (group_runs_keyed (λ k row, itemgetter keys row = inr k)).
    + by apply (group_runs_keyed (λ k row, itemgetter keys row = inr k)).
  - apply ascending_StronglySorted; [exact HascL|apply group_runs_adjacent].
  - apply group_runs_nonempty.
  - apply ascending_StronglySorted; [exact HascR|apply group_runs_adjacent].
  - apply group_runs_nonempty.
  - intros kl kr. by apply cross_comparable_spec.
Qed.

(** [Join.__call__] on two sorted streams comes to the merge of their
    groups. *)
Lemma Join_call_sorted (J : list string → stream TRow → stream TRow → stream TRow)
    (keys : list string) (left_rows right_rows : list TRow) :
  keys ≠ [] → left_rows ≠ [] → right_rows ≠ [] →
  sorted_by keys left_rows = true → sorted_by keys right_rows = true →
  Join_call J keys (left_rows, Done) (right_rows, Done)
  = Some (stated_merge J keys Done Done
            (closed_group <$> group_runs (attach_keys keys left_rows).1)
            (closed_group <$> group_runs (attach_keys keys right_rows).1)).
Proof.
  intros Hkeys HL HR HsL HsR.
  rewrite Join_call_stated.
  rewrite (safe_groupby_sorted keys left_rows Hkeys HL HsL).
  rewrite (safe_groupby_sorted keys right_rows Hkeys HR HsR).
  cbn [fst snd]. unfold stated_join. by rewrite !advanced_Done.
Qed.

Lemma key_lt_comparable_sym (k1 k2 : Key) :
  is_Some (key_lt k1 k2) → is_Some (key_lt k2 k1).
Proof.
  intros H. destruct (key_lt k2 k1) eqn:H21; [by eauto|].
  rewrite <- key_gt_flip in H21. apply key_gt_lt_None in H21.
  rewrite H21 in H. by destruct H.
Qed.

Lemma cross_comparable_sym (ksL ksR : list Key) :
  cross_comparable ksL ksR = true → cross_comparable ksR ksL = true.
Proof.
  intros H. unfold cross_comparable. apply forallb_forall. intros kr Hr.
  apply forallb_forall. intros kl Hl. apply bool_decide_eq_true.
  apply key_lt_comparable_sym.
  apply (cross_comparable_spec ksL ksR); [done| |]; by apply list_elem_of_In.
Qed.

(** The merge does not prefer a side: with the two streams of groups and
    the two arguments of the joiner exchanged it yields the same. *)
Lemma stated_merge_swap (J : list string → stream TRow → stream TRow → stream TRow)
    (keys : list string) (L : list (Key * stream TRow)) :
  ∀ R : list (Key * stream TRow),
  (∀ kl kr, kl ∈ L.*1 → kr ∈ R.*1 → is_Some (key_lt kl kr)) →
  stated_merge J keys Done Done L R
  = stated_merge (λ ks a b, J ks b a) keys Done Done R L.
Proof.
  induction L as [|[kL gl] L' IHL]; intros R Hcmp.
  - clear Hcmp. induction R as [|[kR gr] R' IHR]; [done|].
    rewrite (stated_merge_unfold J), (stated_merge_unfold (λ ks a b, J ks b a)).
    by rewrite !advanced_Done, IHR.
  - induction R as [|[kR gr] R' IHR].
    + rewrite (stated_merge_unfold J), (stated_merge_unfold (λ ks a b, J ks b a)).
      rewrite !advanced_Done, IHL; [done|].
      intros kl kr _ Hkr. by apply elem_of_nil in Hkr.
    + rewrite (stated_merge_unfold J), (stated_merge_unfold (λ ks a b, J ks b a)).
      rewrite !advanced_Done.
      assert (Hsym : key_eq kR kL = key_eq kL kR).
      { unfold key_eq. apply bool_decide_ext. split; congruence. }
      rewrite Hsym. destruct (key_eq kL kR) eqn:Heq.
      * rewrite IHL; [done|].
        intros kl kr Hkl Hkr. apply Hcmp; rewrite fmap_cons; by right.
      * destruct (Hcmp kL kR) as [b Hb]; [rewrite fmap_cons; by left
                                         |rewrite fmap_cons; by left|].
        rewrite Hb. destruct b.
        -- assert (key_lt kR kL = Some false) as ->.
           { apply key_asym. by rewrite key_gt_flip. }
           rewrite IHL; [done|].
           intros kl kr Hkl Hkr. apply Hcmp; [|done]. rewrite fmap_cons. by right.
        -- assert (key_lt kR kL = Some true) as ->.
           { apply key_connected; [by rewrite Hsym|by rewrite key_gt_flip]. }
           rewrite IHR; [done|].
           intros kl kr Hkl Hkr. apply Hcmp; [done|]. rewrite fmap_cons. by right.
Qed.

Lemma common_join_rows_nil_r (keys : list string) (sa sb : string) (jt : join_type)
    (left_rows : list TRow) :
  common_join_rows keys sa sb jt left_rows [] = [].
Proof.
  unfold common_join_rows. destruct (relevant_suffixes jt sa sb) as [a b].
  induction left_rows as [|l left_rows IH]; [done|]. exact IH.
Qed.

(** ** Mappers, row by row *)

Lemma Mapper_call_yield_if (test : TRow → exn + bool) (row : TRow) :
  Mapper_call (yield_if test) row
  = match test row with
    | inl e => ([], Raise e)
    | inr true => ([row], Done)
    | inr false => ([], Done)
    end.
Proof.
  unfold Mapper_call, yield_if. cbn [lookup list_lookup].
  by destruct (test row) as [e|[|]].
Qed.

Lemma Map_call_yield_if (test : TRow → exn + bool) (keep : TRow → bool)
    (rows : list TRow) :
  (∀ row, row ∈ rows → test row = inr (keep row)) →
  Map_call (yield_if test) (rows, Done) = (filter (λ row, keep row = true) rows, Done).
Proof.
  unfold Map_call. cbn [fst snd].
  induction rows as [|row rows IH]; intros Htest; [done|].
  cbn [foldr]. rewrite IH by (intros r Hr; apply Htest; by right).
  rewrite Mapper_call_yield_if, (Htest row) by (by left).
  destruct (keep row) eqn:Hk.
  - by rewrite filter_cons_True.
  - rewrite filter_cons_False; [done|]. by rewrite Hk.
Qed.

Lemma Map_rows_yield_if (test : TRow → exn + bool) (σ : list TRow)
    (refs : list nat) :
  (∀ r, r ∈ refs → ∃ row b, σ !! r = Some row ∧ test row = inr b) →
  Map_rows (yield_if test) σ refs Done
  = (σ, (filter (λ r, kept test σ r = true) refs, Done)).
Proof.
  induction refs as [|r refs IH]; intros Hok; [done|].
  cbn [Map_rows]. destruct (Hok r) as (row & b & Hrow & Hb); [by left|].
  unfold yield_if at 1. rewrite Hrow, Hb.
  destruct b; cbn [fst snd];
    rewrite IH by (intros r' Hr'; apply Hok; by right); cbn [fst snd app].
  - rewrite filter_cons_True; [done|]. unfold kept. by rewrite Hrow, Hb.
  - rewrite filter_cons_False; [done|]. unfold kept. by rewrite Hrow, Hb.
Qed.

Lemma product_loop_ints (result_column : string) (columns : list string)
    (row : TRow) :
  result_column ∉ columns → int_columns columns row = true →
  ∀ acc : Z,
  product_loop result_column columns (dict_set row result_column (VInt acc))
  = (dict_set row result_column (VInt (column_product columns row acc)), None).
Proof.
  induction columns as [|column rest IH]; intros Hres Hint acc; [done|].
  apply not_elem_of_cons in Hres as [Hne Hres].
  unfold int_columns in Hint. cbn [forallb] in Hint.
  apply andb_true_iff in Hint as [Hc Hint].
  destruct (dict_get row column) as [[n|s]|] eqn:Hn; try done.
  cbn [product_loop]. unfold getitem.
  rewrite dict_get_dict_set_eq, dict_get_dict_set_ne, Hn by done.
  cbn [py_mul]. rewrite dict_set_dict_set, (IH Hres Hint).
  unfold column_product. cbn [foldl]. by rewrite Hn.
Qed.

Lemma product_loop_missing (result_column : string) (before after : list string)
    (column : string) (row : TRow) :
  result_column ∉ before → result_column ≠ column →
  int_columns before row = true → dict_get row column = None →
  ∀ acc : Z,
  product_loop result_column (before ++ column :: after)
    (dict_set row result_column (VInt acc))
  = (dict_set row result_column (VInt (column_product before row acc)),
     Some (KeyError column)).
Proof.
  induction before as [|c rest IH]; intros Hres Hne Hint Hnone acc.
  - cbn [app product_loop]. unfold getitem.
    rewrite dict_get_dict_set_eq, dict_get_dict_set_ne, Hnone by done. done.
  - apply not_elem_of_cons in Hres as [Hne' Hres].
    unfold int_columns in Hint. cbn [forallb] in Hint.
    apply andb_true_iff in Hint as [Hc Hint].
    destruct (dict_get row c) as [[n|s]|] eqn:Hn; try done.
    cbn [app product_loop]. unfold getitem.
    rewrite dict_get_dict_set_eq, dict_get_dict_set_ne, Hn by done.
    cbn [py_mul]. rewrite dict_set_dict_set, (IH Hres Hne Hint Hnone).
    unfold column_product. cbn [foldl]. by rewrite Hn.
Qed.

(** [Map] stops at the first row on which the mapper raises: the rows
    after it are not read. *)
Lemma Map_rows_raise (mapper : Mapper) (good : list nat) :
  ∀ (σ σ1 σ2 : list TRow) (ys zs : list nat) (bad : nat) (later : list nat)
    (e : exn) (out : outcome),
  Map_rows mapper σ good Done = (σ1, (ys, Done)) →
  mapper σ1 bad = (σ2, (zs, Raise e)) →
  Map_rows mapper σ (good ++ bad :: later) out = (σ2, (ys ++ zs, Raise e)).
Proof.
  induction good as [|r good IH]; intros σ σ1 σ2 ys zs bad later e out Hgood Hbad.
  - simpl in Hgood. injection Hgood as <- <-.
    cbn [app Map_rows]. rewrite Hbad. done.
  - cbn [app Map_rows] in *. destruct (mapper σ r) as [σ' [ys' [|e']]]; cbn [fst snd] in *.
    + destruct (Map_rows mapper σ' good Done) as [σ'' [ys'' o]] eqn:Hrest.
      cbn [fst snd] in Hgood. injection Hgood as <- <- ->.
      rewrite (IH σ' σ'' σ2 ys'' zs bad later e out Hrest Hbad).
      cbn [fst snd]. by rewrite app_assoc.
    + done.
Qed.
(** ** The matches of [Split] *)

Lemma string_app_cons (c : ascii) (s1 s2 : string) :
  String c s1 +:+ s2 = String c (s1 +:+ s2).
Proof. reflexivity. Qed.

Lemma string_app_nil_l (s : string) : EmptyString +:+ s = s.
Proof. reflexivity. Qed.

Lemma string_app_assoc (s1 s2 s3 : string) : (s1 +:+ s2) +:+ s3 = s1 +:+ (s2 +:+ s3).
Proof.
  induction s1 as [|c s1 IH]; [done|]. by rewrite !string_app_cons, IH.
Qed.

Lemma string_app_nil_r (s : string) : s +:+ EmptyString = s.
Proof. induction s as [|c s IH]; [done|]. by rewrite string_app_cons, IH. Qed.

Lemma string_app_length (s1 s2 : string) :
  String.length (s1 +:+ s2) = (String.length s1 + String.length s2)%nat.
Proof.
  induction s1 as [|c s1 IH]; [done|]. rewrite string_app_cons. simpl. by rewrite IH.
Qed.

Lemma span_app (p : ascii → bool) (run after : string) :
  string_forall p run = true → stops p after →
  span p (run +:+ after) = (run, after).
Proof.
  intros Hrun Hstop. induction run as [|c run IH].
  - rewrite string_app_nil_l.
    destruct after as [|c after]; [done|]. simpl in *. by rewrite Hstop.
  - simpl in Hrun. apply andb_true_iff in Hrun as [Hc Hrun].
    rewrite string_app_cons. cbn [span]. rewrite Hc, (IH Hrun). done.
Qed.

Lemma is_word_spec (w : string) :
  is_word w = true ↔ w ≠ EmptyString ∧ string_forall (λ c, negb (is_space c)) w = true.
Proof.
  unfold is_word. rewrite andb_true_iff, negb_true_iff.
  split; intros [H1 H2]; (split; [|done]).
  - intros ->. done.
  - by destruct w.
Qed.

Lemma is_blanks_spec (s : string) :
  is_blanks s = true ↔ s ≠ EmptyString ∧ string_forall is_space s = true.
Proof.
  unfold is_blanks. rewrite andb_true_iff, negb_true_iff.
  split; intros [H1 H2]; (split; [|done]).
  - intros ->. done.
  - by destruct s.
Qed.

Lemma word_stops (w after : string) :
  is_word w = true → stops is_space (w +:+ after).
Proof.
  intros H. apply is_word_spec in H as [Hne H]. destruct w as [|c w]; [done|].
  rewrite string_app_cons.
  simpl in *. apply andb_true_iff in H as [Hc _]. by apply negb_true_iff.
Qed.

Lemma blanks_stops (s after : string) :
  is_blanks s = true → stops (λ c, negb (is_space c)) (s +:+ after).
Proof.
  intros H. apply is_blanks_spec in H as [Hne H]. destruct s as [|c s]; [done|].
  rewrite string_app_cons.
  simpl in *. apply andb_true_iff in H as [Hc _]. by rewrite Hc.
Qed.

(** What follows the blanks of a word in a text made by [spaced]: a word,
    or nothing. *)
Lemma spaced_stops (ws : list (string * string)) (last : string) :
  Forall (λ wsp, is_word wsp.1 = true ∧ is_blanks wsp.2 = true) ws →
  last = EmptyString ∨ is_word last = true →
  stops is_space (spaced ws last).
Proof.
  intros Hws Hlast. destruct Hws as [|[w sp] ws [Hw _] _]; cbn [spaced foldr fst snd].
  - destruct Hlast as [->|Hlast]; [done|].
    rewrite <- (string_app_nil_r last). by apply word_stops.
  - by apply word_stops.
Qed.

Lemma match_word_spaced (w sp after : string) :
  is_word w = true → is_blanks sp = true → stops is_space after →
  match_word (w +:+ sp +:+ after) = (w +:+ sp, after).
Proof.
  intros Hw Hsp Hafter. unfold match_word.
  apply is_word_spec in Hw as [_ Hw].
  rewrite (span_app _ w (sp +:+ after) Hw (blanks_stops sp after Hsp)).
  apply is_blanks_spec in Hsp as [_ Hsp].
  by rewrite (span_app is_space sp after Hsp Hafter).
Qed.

Lemma match_word_last (w : string) :
  is_word w = true → match_word w = (w, EmptyString).
Proof.
  intros Hw. unfold match_word. apply is_word_spec in Hw as [_ Hw].
  pose proof (span_app _ w EmptyString Hw I) as Hspan.
  rewrite string_app_nil_r in Hspan. rewrite Hspan. simpl.
  by rewrite string_app_nil_r.
Qed.

Lemma match_word_blanks (sp after : string) :
  is_blanks sp = true → stops is_space after →
  match_word (sp +:+ after) = (sp, after).
Proof.
  intros Hsp Hafter. unfold match_word.
  pose proof (blanks_stops sp after Hsp) as Hstop.
  pose proof (span_app (λ c, negb (is_space c)) EmptyString (sp +:+ after)
                eq_refl Hstop) as Hspan.
  rewrite string_app_nil_l in Hspan. rewrite Hspan.
  apply is_blanks_spec in Hsp as [_ Hsp].
  by rewrite (span_app is_space sp after Hsp Hafter).
Qed.

Lemma finditer_words_spaced (ws : list (string * string)) (last : string) :
  Forall (λ wsp, is_word wsp.1 = true ∧ is_blanks wsp.2 = true) ws →
  last = EmptyString ∨ is_word last = true →
  ∀ fuel, (String.length (spaced ws last) < fuel)%nat →
  finditer_words fuel (spaced ws last)
  = ((λ wsp, wsp.1 +:+ wsp.2) <$> ws)
    ++ (if String.eqb last EmptyString then [EmptyString]
        else [last; EmptyString]).
Proof.
  intros Hws Hlast. induction Hws as [|[w sp] ws [Hw Hsp] Hws IH]; intros fuel Hfuel.
  - cbn [spaced foldr fmap list_fmap app] in *.
    destruct Hlast as [->|Hlast].
    + destruct fuel as [|fuel]; [lia|]. done.
    + pose proof Hlast as Hlast'. apply is_word_spec in Hlast' as [Hne _].
      destruct fuel as [|[|fuel]]; [lia|destruct last; simpl in *; [done|lia]|].
      cbn [finditer_words]. rewrite (match_word_last last Hlast).
      destruct last as [|c last]; [done|]. done.
  - cbn [spaced foldr fst snd] in *. fold (spaced ws last) in *.
    destruct fuel as [|fuel]; [lia|]. cbn [finditer_words].
    rewrite (match_word_spaced w sp (spaced ws last) Hw Hsp (spaced_stops ws last Hws Hlast)).
    pose proof Hw as Hw'. apply is_word_spec in Hw' as [Hne _].
    destruct (w +:+ sp) as [|c m] eqn:Hm; [by destruct w|].
    rewrite fmap_cons. cbn [app fst snd]. rewrite Hm. f_equal.
    apply IH. rewrite !string_app_length in Hfuel.
    destruct w; simpl in *; [done|lia].
Qed.
Lemma rstrip_cons (c : ascii) (s : string) :
  rstrip (String c s)
  = match rstrip s with
    | EmptyString => if is_space c then EmptyString else String c EmptyString
    | kept => String c kept
    end.
Proof. reflexivity. Qed.

Lemma rstrip_blank (s : string) :
  string_forall is_space s = true → rstrip s = EmptyString.
Proof.
  induction s as [|c s IH]; [done|]. simpl. intros H.
  apply andb_true_iff in H as [Hc H]. by rewrite (IH H), Hc.
Qed.

Lemma rstrip_word_blank (w sp : string) :
  string_forall (λ c, negb (is_space c)) w = true →
  string_forall is_space sp = true →
  rstrip (w +:+ sp) = w.
Proof.
  intros Hw Hsp. induction w as [|c w IH].
  - rewrite string_app_nil_l. by apply rstrip_blank.
  - simpl in Hw. apply andb_true_iff in Hw as [Hc Hw].
    rewrite string_app_cons, rstrip_cons, (IH Hw).
    apply negb_true_iff in Hc. rewrite Hc. by destruct w.
Qed.

Lemma lstrip_stops (s : string) : stops is_space s → lstrip s = s.
Proof. destruct s as [|c s]; [done|]. simpl. by intros ->. Qed.

Lemma strip_blank (s : string) :
  string_forall is_space s = true → strip s = EmptyString.
Proof. intros H. unfold strip. by rewrite rstrip_blank. Qed.

Lemma strip_word_blank (w sp : string) :
  is_word w = true → string_forall is_space sp = true → strip (w +:+ sp) = w.
Proof.
  intros Hw Hsp. unfold strip.
  pose proof (word_stops w EmptyString Hw) as Hstop.
  rewrite string_app_nil_r in Hstop.
  apply is_word_spec in Hw as [_ Hw].
  rewrite (rstrip_word_blank w sp Hw Hsp). by apply lstrip_stops.
Qed.

(** [Split] on a text of words and blanks gives the words. *)
Lemma split_values_spaced (lead : string) (ws : list (string * string))
    (last : string) :
  string_forall is_space lead = true →
  Forall (λ wsp, is_word wsp.1 = true ∧ is_blanks wsp.2 = true) ws →
  last = EmptyString ∨ is_word last = true →
  split_values None (lead +:+ spaced ws last)
  = ws.*1 ++ (if String.eqb last EmptyString then [] else [last]).
Proof.
  intros Hlead Hws Hlast. unfold split_values, finditer_split.
  assert (Hbody : ∀ fuel, (String.length (spaced ws last) < fuel)%nat →
            filter (λ value, value ≠ EmptyString)
              (strip <$> finditer_words fuel (spaced ws last))
            = ws.*1 ++ (if String.eqb last EmptyString then [] else [last])).
  { intros fuel Hfuel. rewrite (finditer_words_spaced ws last Hws Hlast fuel Hfuel).
    rewrite fmap_app, filter_app. f_equal.
    - clear -Hws. induction Hws as [|[w sp] ws [Hw Hsp] _ IH]; [done|].
      rewrite !fmap_cons. cbn [fst snd].
      apply is_blanks_spec in Hsp as [_ Hsp].
      rewrite (strip_word_blank w sp Hw Hsp).
      rewrite filter_cons_True, IH; [done|].
      apply is_word_spec in Hw as [Hne _]. done.
    - destruct Hlast as [->|Hlast]; [done|].
      pose proof Hlast as Hlast'. apply is_word_spec in Hlast' as [Hne _].
      destruct (String.eqb_spec last EmptyString) as [->|_]; [done|].
      rewrite !fmap_cons.
      pose proof (strip_word_blank last EmptyString Hlast eq_refl) as Hs.
      rewrite string_app_nil_r in Hs. rewrite Hs.
      rewrite filter_cons_True by done. done. }
  destruct lead as [|c lead].
  - rewrite string_app_nil_l. apply Hbody. lia.
  - assert (Hb : is_blanks (String c lead) = true) by (by apply is_blanks_spec).
    cbn [finditer_words].
    rewrite (match_word_blanks (String c lead) (spaced ws last) Hb
               (spaced_stops ws last Hws Hlast)).
    rewrite fmap_cons, (strip_blank _ Hlead).
    rewrite filter_cons_False by (by intros H; apply H).
    apply Hbody. rewrite string_app_length. simpl. lia.
Qed.

Lemma finditer_separator_tail (c : ascii) (tail : string) :
  string_forall (λ a, negb (Ascii.eqb a c)) tail = true →
  ∀ part, finditer_separator c part tail = [].
Proof.
  induction tail as [|a tail IH]; intros H part; [done|].
  simpl in H. apply andb_true_iff in H as [Ha H]. apply negb_true_iff in Ha.
  cbn [finditer_separator]. rewrite Ha. by apply IH.
Qed.

Lemma finditer_separator_part (c : ascii) (p after : string) :
  string_forall (λ a, negb (Ascii.eqb a c)) p = true →
  ∀ part, finditer_separator c part (p +:+ String c after)
          = (part +:+ p +:+ String c EmptyString) :: finditer_separator c EmptyString after.
Proof.
  induction p as [|a p IH]; intros H part.
  - rewrite !string_app_nil_l. cbn [finditer_separator]. by rewrite Ascii.eqb_refl.
  - simpl in H. apply andb_true_iff in H as [Ha H]. apply negb_true_iff in Ha.
    rewrite string_app_cons. cbn [finditer_separator]. rewrite Ha.
    rewrite (IH H). by rewrite string_app_assoc, string_app_cons, string_app_nil_l.
Qed.

Lemma finditer_separator_separated (c : ascii) (parts : list string) (tail : string) :
  Forall (λ p, string_forall (λ a, negb (Ascii.eqb a c)) p = true) parts →
  string_forall (λ a, negb (Ascii.eqb a c)) tail = true →
  finditer_separator c EmptyString (separated c parts tail)
  = (λ p, p +:+ String c EmptyString) <$> parts.
Proof.
  intros Hparts Htail. induction Hparts as [|p parts Hp _ IH].
  - by apply finditer_separator_tail.
  - cbn [separated foldr]. fold (separated c parts tail).
    rewrite (finditer_separator_part c p _ Hp), IH. done.
Qed.

Lemma rstrip_ends (s : string) (c : ascii) :
  is_space c = false → rstrip (s +:+ String c EmptyString) = s +:+ String c EmptyString.
Proof.
  intros Hc. induction s as [|a s IH].
  - rewrite string_app_nil_l. simpl. by rewrite Hc.
  - rewrite string_app_cons, rstrip_cons, IH.
    destruct s; by rewrite ?string_app_cons, ?string_app_nil_l.
Qed.

Lemma lstrip_app_stop (s : string) (c : ascii) :
  is_space c = false →
  lstrip (s +:+ String c EmptyString) = lstrip s +:+ String c EmptyString.
Proof.
  intros Hc. induction s as [|a s IH].
  - rewrite !string_app_nil_l. simpl. by rewrite Hc.
  - rewrite string_app_cons. simpl. destruct (is_space a); [exact IH|].
    by rewrite string_app_cons.
Qed.

(** [Split] with a separator that is not a blank: every part goes out
    with its separator, and what follows the last separator is lost. *)
Lemma split_values_separated (c : ascii) (parts : list string) (tail : string) :
  is_space c = false →
  Forall (λ p, string_forall (λ a, negb (Ascii.eqb a c)) p = true) parts →
  string_forall (λ a, negb (Ascii.eqb a c)) tail = true →
  split_values (Some c) (separated c parts tail)
  = (λ p, lstrip p +:+ String c EmptyString) <$> parts.
Proof.
  intros Hc Hparts Htail. unfold split_values, finditer_split.
  rewrite (finditer_separator_separated c parts tail Hparts Htail).
  clear Hparts Htail. induction parts as [|p parts IH]; [done|].
  rewrite !fmap_cons. unfold strip at 1.
  rewrite (rstrip_ends p c Hc), (lstrip_app_stop p c Hc).
  rewrite filter_cons_True.
  - by rewrite IH.
  - by destruct (lstrip p).
Qed.

Lemma omap_lookup_fresh (σ new_rows : list TRow) :
  omap (λ r, (σ ++ new_rows) !! r) (seq (List.length σ) (List.length new_rows))
  = new_rows.
Proof.
  revert σ. induction new_rows as [|row new_rows IH]; intros σ; [done|].
  cbn [List.length seq omap list_omap].
  rewrite list_lookup_middle by done.
  specialize (IH (σ ++ [row])). rewrite <- app_assoc, length_app in IH.
  cbn [List.length app] in IH. rewrite Nat.add_1_r in IH.
  change (list_omap _ _ ?f ?l) with (omap f l). by rewrite IH.
Qed.

Lemma Mapper_call_Split (column : string) (separator : option ascii)
    (row : TRow) (txt : string) :
  dict_get row column = Some (VStr txt) →
  Mapper_call (Split column separator) row
  = ((λ value, dict_set row column (VStr value)) <$> split_values separator txt,
     Done).
Proof.
  intros Htxt. unfold Mapper_call, Split, getitem.
  cbn [lookup list_lookup]. rewrite Htxt. cbn [fst snd].
  rewrite (omap_lookup_fresh [row]). done.
Qed.

(** [Map] with [Split] adds the rows it yields to the store and leaves
    the rows that were there as they were. *)
Lemma Map_rows_Split (column : string) (separator : option ascii)
    (refs : list nat) :
  ∀ (σ : list TRow) (out : outcome),
  ∃ new_rows : list TRow,
    (Map_rows (Split column separator) σ refs out).1 = σ ++ new_rows
    ∧ (Map_rows (Split column separator) σ refs out).2.1
      = seq (List.length σ) (List.length new_rows).
Proof.
  induction refs as [|r refs IH]; intros σ out.
  - exists []. by rewrite app_nil_r.
  - cbn [Map_rows].
    assert (Hone : ∃ new1 o1, Split column separator σ r
                              = (σ ++ new1, (seq (List.length σ) (List.length new1), o1))).
    { unfold Split. destruct (σ !! r) as [row|]; [|exists [], Done; by rewrite app_nil_r].
      destruct (getitem row column) as [e|[n|txt]].
      - exists [], (Raise e). by rewrite app_nil_r.
      - exists [], (Raise TypeError). by rewrite app_nil_r.
      - eexists _, Done. done. }
    destruct Hone as (new1 & o1 & ->). cbn [fst snd].
    destruct o1 as [|e].
    + destruct (IH (σ ++ new1) out) as (new2 & H1 & H2).
      destruct (Map_rows (Split column separator) (σ ++ new1) refs out)
        as [σ' [ys o]]. cbn [fst snd] in *.
      exists (new1 ++ new2). split; [by rewrite H1, app_assoc|].
      rewrite H2, !length_app, seq_app. done.
    + exists new1. done.
Qed.

(** ** Graphs built on graphs *)

Section builders.
Variable Stream : Type.
Variable call : Operation → list Stream → option Stream.

(** A new node over the graphs [items]: the list of parents, then the
    [Graph] object; what was in the heap runs as before, and the node runs
    its operation on the runs of [items]. *)
Lemma run_new_node (h : list obj) (operation : Operation) (items : list nat) :
  heap_ok h = true →
  (∀ p, p ∈ items → ∃ op ps, h !! p = Some (GraphObj op ps)) →
  let h' := (h ++ [ListObj items]) ++ [GraphObj operation (List.length h)] in
  heap_ok h' = true
  ∧ (∀ fuel a, (a < List.length h)%nat →
       run Stream call fuel h' a = run Stream call fuel h a)
  ∧ ∀ fuel, run Stream call (S fuel) h' (List.length (h ++ [ListObj items]))
            = mapM (run Stream call fuel h) items ≫= call operation.
Proof.
  intros Hok Hitems h'.
  assert (Hok1 : heap_ok (h ++ [ListObj items]) = true).
  { apply heap_ok_alloc; [done|]. cbn [obj_ok]. apply forallb_forall.
    intros p Hp. apply list_elem_of_In in Hp.
    destruct (Hitems p Hp) as (op & ps & Hobj).
    pose proof (lookup_lt_Some _ _ _ Hobj) as Hlt.
    apply andb_true_iff. split; [by apply Nat.ltb_lt|]. by rewrite Hobj. }
  assert (Hok2 : heap_ok h' = true).
  { apply heap_ok_alloc; [done|]. cbn [obj_ok].
    pose proof (length_app h [ListObj items]) as Hlen. cbn [List.length] in Hlen.
    apply andb_true_iff. split; [apply Nat.ltb_lt; lia|].
    by rewrite list_lookup_middle. }
  assert (Hold : ∀ fuel a, (a < List.length h)%nat →
            run Stream call fuel h' a = run Stream call fuel h a).
  { intros fuel a Ha. unfold h'.
    rewrite (run_alloc Stream call _ _ Hok1) by (rewrite length_app; simpl; lia).
    by rewrite (run_alloc Stream call _ _ Hok). }
  split; [done|]. split; [done|].
  intros fuel. cbn [run].
  assert (Hg : h' !! List.length (h ++ [ListObj items])
               = Some (GraphObj operation (List.length h))).
  { unfold h'. by rewrite list_lookup_middle. }
  assert (Hl : h' !! List.length h = Some (ListObj items)).
  { unfold h'. rewrite lookup_app_l by (rewrite length_app; simpl; lia).
    by rewrite list_lookup_middle. }
  rewrite Hg, Hl.
  rewrite (mapM_ext_in (run Stream call fuel h') (run Stream call fuel h)); [done|].
  intros p Hp. apply Hold. destruct (Hitems p Hp) as (op & ps & Hobj).
  by apply (lookup_lt_Some _ _ _ Hobj).
Qed.

End builders.
(** ** The keys of the rows a reducer yields *)

Lemma get_columns_ext (keys : list string) (r1 r2 : TRow) :
  (∀ c, c ∈ keys → dict_get r1 c = dict_get r2 c) →
  get_columns keys r1 = get_columns keys r2.
Proof.
  induction keys as [|k keys IH]; intros H; [done|].
  cbn [get_columns]. rewrite (H k) by (by left).
  rewrite IH; [done|]. intros c Hc. apply H. by right.
Qed.

Lemma itemgetter_ext (keys : list string) (r1 r2 : TRow) :
  (∀ c, c ∈ keys → dict_get r1 c = dict_get r2 c) →
  itemgetter keys r1 = itemgetter keys r2.
Proof.
  intros H. unfold itemgetter. destruct keys as [|k [|k' keys]]; [done| |].
  - by rewrite (H k) by (by left).
  - by rewrite (get_columns_ext _ r1 r2 H).
Qed.

(** Rows that have, one for one, the keys of the first rows of the runs
    of a stream are a stream with the same keys, one row per key. *)
Lemma reduced_rows_keyed (keys : list string) (rows outs : list TRow) :
  has_keys keys rows = true →
  Forall2 (λ g out, ∃ row, head g = Some row
                           ∧ itemgetter keys out = itemgetter keys row)
          (runs_of keys rows) outs →
  has_keys keys outs = true
  ∧ group_keys keys outs = group_keys keys rows
  ∧ runs_of keys outs = (λ row, [row]) <$> outs.
Proof.
  intros Hhas Hall.
  assert (Hheads : ∃ heads : list (Key * TRow),
            heads.*2 = outs ∧ heads.*1 = group_keys keys rows
            ∧ Forall (λ kr, itemgetter keys kr.2 = inr kr.1) heads).
  { apply bool_decide_eq_true in Hhas.
    destruct (attach_keys_rows keys rows Hhas) as [_ Hkeyed].
    pose proof (group_runs_keyed (λ k row, itemgetter keys row = inr k) _ Hkeyed)
      as Hruns.
    unfold runs_of, group_keys in *. revert outs Hall Hruns.
    induction (group_runs (attach_keys keys rows).1) as [|[k g] runs IH];
      intros outs Hall Hruns.
    - apply Forall2_nil_inv_l in Hall as ->. by exists [].
    - rewrite fmap_cons in Hall. apply Forall2_cons_inv_l in Hall
        as (out & outs' & (row & Hrow & Hout) & Hall & ->).
      apply Forall_cons in Hruns as [Hg Hruns].
      destruct (IH outs' Hall Hruns) as (heads & H1 & H2 & H3).
      exists ((k, out) :: heads). rewrite !fmap_cons. cbn [fst snd].
      split; [by rewrite H1|]. split; [by rewrite H2|].
      constructor; [|done]. simpl in *.
      destruct g as [|row' g]; [done|]. injection Hrow as <-.
      apply Forall_cons in Hg as [Hg _]. by rewrite Hout. }
  destruct Hheads as (heads & H1 & H2 & H3).
  pose proof (attach_keys_keyed keys heads H3) as Hattach. rewrite H1 in Hattach.
  assert (Hruns : group_runs heads = (λ kr, (kr.1, [kr.2])) <$> heads).
  { apply group_runs_singletons. rewrite H2. unfold group_keys.
    apply group_runs_adjacent. }
  split; [|split].
  - unfold has_keys. rewrite Hattach. by apply bool_decide_eq_true.
  - rewrite <- H2. unfold group_keys. rewrite Hattach. cbn [fst].
    rewrite Hruns, <- list_fmap_compose. done.
  - unfold runs_of. rewrite Hattach. cbn [fst].
    rewrite Hruns, <- H1, <- !list_fmap_compose. done.
Qed.

(** A reducer that makes one row of every group of a sorted stream. *)
Lemma Reduce_call_each_group (reducer : Reducer) (keys : list string)
    (rows : list TRow) (R : list TRow → TRow → Prop) :
  keys ≠ [] → rows ≠ [] → sorted_by keys rows = true →
  (∀ row rest, row :: rest ∈ runs_of keys rows →
     (∀ k, k ∈ keys → is_Some (dict_get row k)) →
     ∃ out, reducer keys (row :: rest, Done) = ([out], Done) ∧ R (row :: rest) out) →
  ∃ outs, Reduce_call reducer keys (rows, Done) = (outs, Done)
          ∧ Forall2 R (runs_of keys rows) outs.
Proof.
  intros Hkeys Hrows Hsorted Heach.
  rewrite (Reduce_call_sorted _ keys rows Hkeys Hrows Hsorted).
  apply andb_true_iff in Hsorted as [Hhas _].
  apply Reduce_one_row_each.
  pose proof (runs_of_has_keys keys rows Hhas) as Hk.
  pose proof (runs_of_nonempty keys rows) as Hne.
  rewrite Forall_forall in Hk. rewrite Forall_forall in Hne.
  apply Forall_forall. intros g Hg.
  specialize (Hk g Hg). specialize (Hne g Hg).
  destruct g as [|row rest]; [done|].
  apply Forall_cons in Hk as [Hrow _]. by apply Heach.
Qed.

Lemma runs_of_int_column (column : string) (keys : list string) (rows : list TRow)
    (g : list TRow) :
  has_keys keys rows = true → int_column column rows = true →
  g ∈ runs_of keys rows → int_column column g = true.
Proof.
  intros Hhas Hint Hg. rewrite <- (runs_of_concat keys rows Hhas) in Hint.
  apply int_column_concat in Hint. rewrite Forall_forall in Hint. by apply Hint.
Qed.

(** ** The tally of the term-frequency reducers *)

Lemma counter_of_cons (w : Value) (n : Z) (f : list (Value * Z)) :
  counter_of ((w, n) :: f) = (w, VInt n) :: counter_of f.
Proof. reflexivity. Qed.

Lemma counter_iadd_tally (f : list (Value * Z)) (w : Value) :
  counter_iadd (counter_of f) (inr w) (inr (VInt 1)) = inr (counter_of (tally f w)).
Proof.
  unfold counter_iadd. induction f as [|[w' m] f IH]; [done|].
  rewrite counter_of_cons. cbn [counter_get counter_set tally].
  destruct (decide (w' = w)) as [->|Hne]; [done|].
  destruct (py_add (default (VInt 0) (counter_get (counter_of f) w)) (VInt 1))
    as [e|v]; [done|].
  injection IH as IH. by rewrite counter_of_cons, IH.
Qed.

Lemma tally_keys (f : list (Value * Z)) (w : Value) :
  (tally f w).*1 = if decide (w ∈ f.*1) then f.*1 else f.*1 ++ [w].
Proof.
  induction f as [|[w' n] f IH]; [done|].
  cbn [tally]. rewrite !fmap_cons. cbn [fst].
  destruct (decide (w' = w)) as [->|Hne].
  - rewrite decide_True by (by left). done.
  - rewrite fmap_cons, IH. cbn [fst].
    destruct (decide (w ∈ f.*1)) as [Hin|Hnin].
    + rewrite decide_True by (by right). done.
    + rewrite decide_False; [done|].
      intros Hin. apply elem_of_cons in Hin as [->|Hin]; done.
Qed.

Lemma tally_get_tally (f : list (Value * Z)) (w w' : Value) :
  NoDup f.*1 →
  tally_get (tally f w) w' = tally_get f w' + (if decide (w = w') then 1 else 0).
Proof.
  induction f as [|[w0 n] f IH]; intros Hnd.
  - cbn [tally tally_get foldr fst snd]. destruct (decide (w = w')); lia.
  - rewrite fmap_cons in Hnd. apply NoDup_cons in Hnd as [Hnotin Hnd]. cbn [fst] in *.
    cbn [tally]. destruct (decide (w0 = w)) as [->|Hne].
    + cbn [tally_get foldr fst snd]. destruct (decide (w = w')); lia.
    + cbn [tally_get foldr fst snd]. fold (tally_get (tally f w) w').
      fold (tally_get f w'). rewrite (IH Hnd).
      destruct (decide (w0 = w')), (decide (w = w')); lia.
Qed.

Lemma tally_NoDup (f : list (Value * Z)) (w : Value) :
  NoDup f.*1 → NoDup (tally f w).*1.
Proof.
  intros Hnd. rewrite tally_keys. destruct (decide (w ∈ f.*1)); [done|].
  apply NoDup_app. split; [done|]. split.
  - intros x Hx Hx'. apply list_elem_of_singleton in Hx' as ->. done.
  - apply NoDup_singleton.
Qed.

Lemma tally_total (f : list (Value * Z)) (w : Value) :
  foldr Z.add 0 (tally f w).*2 = foldr Z.add 0 f.*2 + 1.
Proof.
  induction f as [|[w' n] f IH]; [done|].
  cbn [tally]. destruct (decide (w' = w)).
  - rewrite !fmap_cons. cbn [foldr snd]. lia.
  - rewrite !fmap_cons. cbn [foldr snd]. rewrite IH. lia.
Qed.

Lemma occurrences_cons (w w' : Value) (ws : list Value) :
  occurrences w' (w :: ws) = (if decide (w = w') then 1 else 0) + occurrences w' ws.
Proof.
  unfold occurrences. destruct (decide (w = w')) as [->|Hne].
  - rewrite filter_cons_True by done. rewrite length_cons. lia.
  - rewrite filter_cons_False by done. lia.
Qed.

(** The tally of the words [ws], started from the tally [f]. *)
Lemma foldl_tally (ws : list Value) :
  ∀ f : list (Value * Z),
  NoDup f.*1 →
  NoDup (foldl tally f ws).*1
  ∧ (foldl tally f ws).*1
    = foldl (λ seen w, if decide (w ∈ seen) then seen else seen ++ [w]) f.*1 ws
  ∧ (∀ w, tally_get (foldl tally f ws) w = tally_get f w + occurrences w ws)
  ∧ foldr Z.add 0 (foldl tally f ws).*2
    = foldr Z.add 0 f.*2 + Z.of_nat (List.length ws).
Proof.
  induction ws as [|w ws IH]; intros f Hnd.
  - cbn [foldl]. split; [done|]. split; [done|]. split.
    + intros w. unfold occurrences. simpl. lia.
    + simpl. lia.
  - cbn [foldl]. destruct (IH (tally f w) (tally_NoDup f w Hnd)) as (H1 & H2 & H3 & H4).
    split; [done|]. split; [|split].
    + by rewrite H2, tally_keys.
    + intros w'. rewrite H3, (tally_get_tally f w w' Hnd), occurrences_cons. lia.
    + rewrite H4, tally_total, length_cons. lia.
Qed.

Lemma tally_get_elem (f : list (Value * Z)) (w : Value) (n : Z) :
  NoDup f.*1 → (w, n) ∈ f → tally_get f w = n.
Proof.
  induction f as [|[w' m] f IH]; intros Hnd Hin; [by apply elem_of_nil in Hin|].
  rewrite fmap_cons in Hnd. apply NoDup_cons in Hnd as [Hnotin Hnd]. cbn [fst] in *.
  cbn [tally_get foldr fst snd]. fold (tally_get f w).
  apply elem_of_cons in Hin as [[= <- <-]|Hin].
  - rewrite decide_True by done.
    assert (tally_get f w = 0) as ->; [|lia].
    clear -Hnotin. induction f as [|[w0 n0] f IH]; [done|].
    rewrite fmap_cons in Hnotin. apply not_elem_of_cons in Hnotin as [Hne Hnotin].
    cbn [tally_get foldr fst snd]. fold (tally_get f w).
    rewrite decide_False by done. by apply IH.
  - rewrite decide_False; [by apply IH|].
    intros ->. apply Hnotin. apply list_elem_of_fmap. by exists (w, n).
Qed.

Lemma tf_loop (words_column : string) (rest : list TRow) :
  (∀ r, r ∈ rest → is_Some (dict_get r words_column)) →
  ∀ (f : list (Value * Z)) (size : Z),
  for_rows (λ '(new_row, stream_size) row,
              match counter_iadd new_row (getitem row words_column)
                      (inr (VInt 1)) with
              | inl e => inl e
              | inr new_row => inr (new_row, stream_size + 1)
              end) rest Done (counter_of f, size)
  = inr (counter_of (foldl tally f (column_values words_column rest)),
         size + Z.of_nat (List.length rest)).
Proof.
  induction rest as [|row rest IH]; intros Hhas f size.
  - simpl. by rewrite Z.add_0_r.
  - destruct (Hhas row) as [w Hw]; [by left|].
    cbn [for_rows]. unfold getitem at 1. rewrite Hw, counter_iadd_tally.
    rewrite IH by (intros r Hr; apply Hhas; by right).
    unfold column_values. cbn [omap list_omap]. rewrite Hw. cbn [foldl].
    rewrite length_cons. do 2 f_equal. lia.
Qed.

Lemma float_limit_gt_1 : (1 < float_limit)%Z.
Proof. vm_compute. reflexivity. Qed.

(** A quotient of magnitude at most 1 is no overflow. *)
Lemma float_overflow_part (n m : Z) :
  (0 ≤ n ≤ m)%Z → (0 < m)%Z → float_overflow n m = false.
Proof.
  intros Hn Hm. unfold float_overflow. apply Z.leb_gt.
  rewrite !Z.abs_eq by lia. pose proof float_limit_gt_1. nia.
Qed.

Lemma occurrences_bounds (w : Value) (ws : list Value) :
  (0 ≤ occurrences w ws ≤ Z.of_nat (List.length ws))%Z.
Proof.
  unfold occurrences. pose proof (length_filter (λ w', w' = w) ws). lia.
Qed.

Lemma frequency_rows_ints (truediv : Z → Z → Value) (common_dict : TRow)
    (words_column result_column : string) (size : Z) (f : list (Value * Z)) :
  size ≠ 0 →
  Forall (λ wn, float_overflow wn.2 size = false) f →
  frequency_rows truediv common_dict words_column result_column (VInt size)
    (counter_of f)
  = ((λ wn, dict_set (dict_set common_dict words_column wn.1) result_column
              (truediv wn.2 size)) <$> f, Done).
Proof.
  intros Hsize. induction 1 as [|[w n] f Hfits _ IH]; [done|].
  rewrite counter_of_cons. cbn [frequency_rows py_truediv].
  destruct (Z.eqb_spec size 0) as [|_]; [done|].
  cbn [snd] in Hfits. rewrite Hfits, IH. done.
Qed.

Lemma column_values_length (column : string) (rows : list TRow) :
  (∀ r, r ∈ rows → is_Some (dict_get r column)) →
  List.length (column_values column rows) = List.length rows.
Proof.
  induction rows as [|row rows IH]; intros Hhas; [done|].
  destruct (Hhas row) as [w Hw]; [by left|].
  unfold column_values. cbn [omap list_omap]. rewrite Hw. cbn [List.length].
  f_equal. apply IH. intros r Hr. apply Hhas. by right.
Qed.

(** ** The merge of sorted groups, nothing dropped *)

Lemma unmatched_groups_drop (R L : list (Key * list TRow)) (k : Key)
    (g : list TRow) :
  Forall (λ kg, kg.1 ≠ k) R →
  unmatched_groups R ((k, g) :: L) = unmatched_groups R L.
Proof.
  unfold unmatched_groups. induction 1 as [|kg R Hkg _ IH]; [done|].
  cbn [mbind list_bind]. rewrite IH. rewrite group_matches_cons_ne; [done|].
  congruence.
Qed.

Section merge_of_sorted_groups_outer.
Variable J : list string → stream TRow → stream TRow → stream TRow.
Variable keys : list string.
Variables sa sb : string.
Hypothesis J_both : ∀ gl gr, gl ≠ [] → gr ≠ [] →
  J keys (gl, Done) (gr, Done) = (common_join_rows keys sa sb JoinAny gl gr, Done).
Hypothesis J_left : ∀ gl, gl ≠ [] → J keys (gl, Done) (of_list []) = (gl, Done).
Hypothesis J_right : ∀ gr, gr ≠ [] → J keys (of_list []) (gr, Done) = (gr, Done).

#[local] Abbreviation klt := (λ k1 k2 : Key, key_lt k1 k2 = Some true).

Lemma klt_ne_Forall' (k : Key) (R : list (Key * list TRow)) :
  Forall (klt k) R.*1 → Forall (λ kg, kg.1 ≠ k) R.
Proof.
  intros H. rewrite Forall_fmap in H. eapply Forall_impl; [exact H|].
  intros kg Hlt <-. simpl in Hlt. by apply (key_lt_irrefl kg.1).
Qed.

(** With a joiner that keeps the groups of either side that have nothing
    on the other, the merge yields, in some order, the groups of the left
    joined with the groups of their key on the right, or kept, and the
    groups of the right that have nothing on the left. *)
Lemma merge_sorted_groups_outer (L : list (Key * list TRow)) :
  StronglySorted klt L.*1 → Forall (λ kg, kg.2 ≠ []) L →
  ∀ R : list (Key * list TRow),
  StronglySorted klt R.*1 → Forall (λ kg, kg.2 ≠ []) R →
  (∀ kl kr, kl ∈ L.*1 → kr ∈ R.*1 → is_Some (key_lt kl kr)) →
  ∃ out, stated_merge J keys Done Done (closed_group <$> L) (closed_group <$> R)
         = (out, Done)
         ∧ out ≡ₚ joined_groups true keys sa sb L R ++ unmatched_groups R L.
Proof.
  induction L as [|[kL gl] L' IHL]; intros HsL HneL R HsR HneR Hcmp.
  - clear HsL HneL Hcmp. induction R as [|[kR gr] R' IHR]; [by exists []|].
    rewrite fmap_cons in HsR. apply StronglySorted_inv in HsR as [HsR _].
    apply Forall_cons in HneR as [Hgr HneR].
    destruct (IHR HsR HneR) as (out & Hout & Hperm).
    exists (gr ++ out). rewrite fmap_cons, stated_merge_unfold.
    cbn [closed_group fst snd]. rewrite advanced_Done, (J_right gr Hgr).
    change (@nil (Key * stream TRow)) with (closed_group <$> []) at 1.
    rewrite Hout. split; [done|].
    unfold unmatched_groups in *. cbn [mbind list_bind fst snd group_matches] in *.
    cbn [joined_groups mbind list_bind app] in *.
    by apply Permutation_app_head.
  - rewrite fmap_cons in HsL. apply StronglySorted_inv in HsL as [HsL HltL].
    apply Forall_cons in HneL as [Hgl HneL]. cbn [fst snd] in *.
    assert (HcmpL' : ∀ R0 : list (Key * list TRow),
              (∀ kl kr, kl ∈ ((kL, gl) :: L').*1 → kr ∈ R0.*1 → is_Some (key_lt kl kr)) →
              ∀ kl kr, kl ∈ L'.*1 → kr ∈ R0.*1 → is_Some (key_lt kl kr)).
    { intros R0 H kl kr Hkl Hkr. apply H; [|done]. rewrite fmap_cons. by right. }
    induction R as [|[kR gr] R' IHR].
    + destruct (IHL HsL HneL [] HsR HneR (HcmpL' [] Hcmp)) as (out & Hout & Hperm).
      exists (gl ++ out). rewrite fmap_cons, stated_merge_unfold.
      cbn [fmap list_fmap closed_group fst snd].
      rewrite advanced_Done, (J_left gl Hgl).
      change (list_fmap _ _ closed_group L') with (closed_group <$> L').
      change (@nil (Key * stream TRow)) with (closed_group <$> []).
      rewrite Hout. split; [done|].
      unfold joined_groups at 1. cbn [mbind list_bind fst snd group_matches].
      cbn [fmap list_fmap filter List.concat list_filter].
      fold (joined_groups true keys sa sb L' []).
      rewrite <- app_assoc. by apply Permutation_app_head.
    + rewrite fmap_cons in HsR. apply StronglySorted_inv in HsR as [HsR HltR].
      apply Forall_cons in HneR as [Hgr HneR]. cbn [fst snd] in *.
      rewrite !fmap_cons, stated_merge_unfold. cbn [closed_group fst snd].
      destruct (key_eq kL kR) eqn:Heq.
      * apply bool_decide_eq_true in Heq as <-.
        rewrite !advanced_Done, (J_both gl gr Hgl Hgr).
        assert (Hcmp' : ∀ kl kr, kl ∈ L'.*1 → kr ∈ R'.*1 → is_Some (key_lt kl kr)).
        { intros kl kr Hkl Hkr. apply Hcmp; rewrite fmap_cons; by right. }
        destruct (IHL HsL HneL R' HsR HneR Hcmp') as (out & Hout & Hperm).
        rewrite Hout. eexists. split; [done|]. cbn [fst snd].
        unfold joined_groups at 1. cbn [mbind list_bind fst snd].
        fold (joined_groups true keys sa sb L' ((kL, gr) :: R')).
        rewrite group_matches_cons_eq.
        rewrite (group_matches_nil kL R') by (by apply klt_ne_Forall').
        rewrite app_nil_r.
        rewrite (joined_groups_drop true keys sa sb L' R' kL gr)
          by (by apply klt_ne_Forall').
        unfold unmatched_groups at 1. cbn [mbind list_bind fst snd].
        fold (unmatched_groups R' ((kL, gl) :: L')).
        rewrite group_matches_cons_eq.
        rewrite (unmatched_groups_drop R' L' kL gl) by (by apply klt_ne_Forall').
        destruct gr as [|r gr']; [done|]. destruct gl as [|l gl']; [done|].
        cbn [app]. rewrite <- app_assoc. by apply Permutation_app_head.
      * destruct (Hcmp kL kR) as [b Hb]; [rewrite fmap_cons; by left
                                         |rewrite fmap_cons; by left|].
        rewrite Hb. destruct b.
        -- rewrite advanced_Done, (J_left gl Hgl).
           assert (HsR0 : StronglySorted klt ((kR, gr) :: R').*1).
           { rewrite fmap_cons. by constructor. }
           assert (HneR0 : Forall (λ kg : Key * list TRow, kg.2 ≠ []) ((kR, gr) :: R')).
           { by constructor. }
           destruct (IHL HsL HneL ((kR, gr) :: R') HsR0 HneR0
                       (HcmpL' ((kR, gr) :: R') Hcmp)) as (out & Hout & Hperm).
           rewrite fmap_cons in Hout. cbn [closed_group fst snd] in Hout. rewrite Hout.
           eexists. split; [done|]. cbn [fst snd].
           assert (HneR1 : Forall (λ kg : Key * list TRow, kg.1 ≠ kL) ((kR, gr) :: R')).
           { constructor.
             - simpl. intros ->. by apply (key_lt_irrefl kL).
             - apply klt_ne_Forall'. eapply Forall_impl; [exact HltR|].
               intros k'' H'. by apply (key_lt_trans kL kR k''). }
           unfold joined_groups at 1. cbn [mbind list_bind fst snd].
           fold (joined_groups true keys sa sb L' ((kR, gr) :: R')).
           rewrite (group_matches_nil kL _ HneR1).
           rewrite (unmatched_groups_drop _ L' kL gl HneR1).
           rewrite <- app_assoc. by apply Permutation_app_head.
        -- rewrite advanced_Done, (J_right gr Hgr).
           assert (HRL : klt kR kL).
           { apply key_connected.
             - unfold key_eq in *. apply bool_decide_eq_false.
               apply bool_decide_eq_false in Heq. congruence.
             - by rewrite key_gt_flip. }
           assert (Hcmp' : ∀ kl kr, kl ∈ ((kL, gl) :: L').*1 → kr ∈ R'.*1 →
                             is_Some (key_lt kl kr)).
           { intros kl kr Hkl Hkr. apply Hcmp; [done|]. rewrite fmap_cons. by right. }
           destruct (IHR HsR HneR Hcmp') as (out & Hout & Hperm).
           rewrite fmap_cons in Hout. cbn [closed_group fst snd] in Hout. rewrite Hout.
           eexists. split; [done|]. cbn [fst snd].
           assert (HneL1 : Forall (λ kg : Key * list TRow, kg.1 ≠ kR) ((kL, gl) :: L')).
           { constructor.
             - simpl. intros ->. by apply (key_lt_irrefl kR).
             - apply klt_ne_Forall'. eapply Forall_impl; [exact HltL|].
               intros k'' H'. by apply (key_lt_trans kR kL k''). }
           rewrite (joined_groups_drop true keys sa sb _ R' kR gr HneL1).
           unfold unmatched_groups at 1. cbn [mbind list_bind fst snd].
           fold (unmatched_groups R' ((kL, gl) :: L')).
           rewrite (group_matches_nil kR _ HneL1).
           rewrite Hperm, !app_assoc. apply Permutation_app_tail.
           apply Permutation_app_comm.
Qed.

End merge_of_sorted_groups_outer.

Lemma unmatched_groups_rows (keys : list string) (R L : list (Key * list TRow)) :
  Forall (λ kg, Forall (λ r, itemgetter keys r = inr kg.1) kg.2) R →
  Forall (λ kg, Forall (λ r, itemgetter keys r = inr kg.1) kg.2) L →
  unmatched_groups R L = unmatched_rows keys (List.concat R.*2) (List.concat L.*2).
Proof.
  intros HR HL. unfold unmatched_groups, unmatched_rows.
  induction HR as [|[k gr] R Hgr _ IH]; [done|].
  rewrite fmap_cons. cbn [List.concat mbind list_bind fst snd].
  rewrite filter_app, IH. f_equal.
  rewrite (group_matches_rows keys k L HL). simpl in Hgr.
  set (Lr := List.concat L.*2).
  assert (Heach : ∀ r, r ∈ gr →
            matching_rows keys r Lr = filter (λ l, itemgetter keys l = inr k) Lr).
  { intros r Hr. rewrite Forall_forall in Hgr. unfold matching_rows.
    by rewrite (Hgr r Hr). }
  set (M := filter (λ l, itemgetter keys l = inr k) Lr) in *.
  clearbody M. clear Hgr.
  induction gr as [|r gr IHgr]; [by destruct M|].
  assert (Hr : matching_rows keys r Lr = M) by (apply Heach; by left).
  assert (IHgr' : ∀ r', r' ∈ gr → matching_rows keys r' Lr = M)
    by (intros r' Hr'; apply Heach; by right).
  specialize (IHgr IHgr'). clear IHgr' Heach.
  destruct M as [|m M].
  - rewrite filter_cons_True by done. by rewrite <- IHgr.
  - rewrite filter_cons_False by (by rewrite Hr). exact IHgr.
Qed.

(** ** The run of [word_count_graph] *)

Section runs_to_facts.
Variable Stream : Type.
Variable call : Operation → list Stream → option Stream.
Hypothesis call_total : ∀ operation parents_run,
  is_Some (call operation parents_run).

#[local] Abbreviation runs_to := (runs_to Stream call).

(** A new node over one graph. *)
Lemma runs_to_node (h : list obj) (g : nat) (s s' : Stream) (f : nat)
    (operation : Operation) :
  runs_to h g s f → call operation [s] = Some s' →
  runs_to ((h ++ [ListObj [g]]) ++ [GraphObj operation (List.length h)])
    (List.length (h ++ [ListObj [g]])) s' (S f).
Proof.
  intros (Hok & (op & ps & Hg) & Hrun) Hcall.
  assert (Hitems : ∀ p, p ∈ [g] → ∃ op ps, h !! p = Some (GraphObj op ps)).
  { intros p Hp. apply list_elem_of_singleton in Hp as ->. by eauto. }
  destruct (run_new_node Stream call h operation [g] Hok Hitems) as (Hok' & _ & Hnew).
  split; [done|]. split.
  - exists operation, (List.length h). by rewrite list_lookup_middle.
  - intros [|fuel] Hfuel; [lia|]. rewrite Hnew. cbn [mapM].
    rewrite Hrun by lia. simpl. done.
Qed.

(** A source. *)
Lemma runs_to_source (h : list obj) (name : string) (s : Stream) :
  heap_ok h = true → call (ReadIterGenerator name) [] = Some s →
  runs_to (graph_from_iter h name).1 (graph_from_iter h name).2 s 1.
Proof.
  intros Hok Hcall.
  assert (Hitems : ∀ p, p ∈ @nil nat → ∃ op ps, h !! p = Some (GraphObj op ps)).
  { intros p Hp. by apply elem_of_nil in Hp. }
  destruct (run_new_node Stream call h (ReadIterGenerator name) [] Hok Hitems)
    as (Hok' & _ & Hnew).
  unfold graph_from_iter, alloc. cbn [fst snd].
  split; [done|]. split.
  - exists (ReadIterGenerator name), (List.length h). by rewrite list_lookup_middle.
  - intros [|fuel] Hfuel; [lia|]. rewrite Hnew. cbn [mapM]. simpl. done.
Qed.

(** A copy. *)
Lemma runs_to_copy (h : list obj) (g : nat) (s : Stream) (f : nat) :
  runs_to h g s f →
  ∃ h' g', copy h g = Some (h', g') ∧ runs_to h' g' s f ∧ ∃ ext, h' = h ++ ext.
Proof.
  intros (Hok & (op & ps & Hg) & Hrun).
  assert (Hcopy : copy h g = Some (h ++ [GraphObj op ps], List.length h)).
  { unfold copy, alloc. by rewrite Hg. }
  exists (h ++ [GraphObj op ps]), (List.length h). split; [done|].
  destruct (copy_spec Stream call h _ g _ call_total Hok Hcopy)
    as (_ & _ & (op' & ps' & _ & Hg') & Hok' & Hsame & _ & _).
  split; [|by eauto]. split; [done|]. split; [by eauto|].
  intros fuel Hfuel. destruct (Hsame fuel) as [-> _]. by apply Hrun.
Qed.

End runs_to_facts.

Lemma word_count_graph_runs_to
    (graph_from_file : list obj → string → list obj * nat)
    (_lower_case : string → string)
    (sort_call : list string → stream TRow → stream TRow)
    (kwargs : gmap string (stream TRow))
    (h : list obj) (input_stream_name text_column count_column : string) :
  heap_ok h = true →
  ∃ h' g,
    word_count_graph graph_from_file _lower_case h input_stream_name
      text_column count_column None = Some (h', g)
    ∧ (∃ ext, h' = h ++ ext)
    ∧ runs_to (stream TRow) (call_operation sort_call kwargs) h' g
        (sort_call [count_column; text_column]
           (Reduce_call (Count count_column) [text_column]
              (sort_call [text_column]
                 (words_of _lower_case text_column
                    (source_rows kwargs input_stream_name))))) 7.
Proof.
  intros Hok. unfold word_count_graph, reader.
  set (call := call_operation sort_call kwargs).
  assert (Htotal : ∀ operation parents_run, is_Some (call operation parents_run)).
  { intros. apply call_operation_total. }
  pose proof (runs_to_source (stream TRow) call h input_stream_name
                (source_rows kwargs input_stream_name) Hok eq_refl) as H0.
  destruct (graph_from_iter h input_stream_name) as [h0 g0] eqn:Hsrc.
  assert (Hext0 : ∃ ext, h0 = h ++ ext).
  { unfold graph_from_iter, alloc in Hsrc. injection Hsrc as <- <-.
    rewrite <- app_assoc. by eauto. }
  cbn [fst snd] in H0.
  destruct (runs_to_copy (stream TRow) call Htotal h0 g0 _ _ H0)
    as (h1 & g1 & -> & H1 & (ext1 & ->)).
  pose proof (runs_to_node (stream TRow) call _ _ _ _ _
                (Map (FilterPunctuation text_column)) H1 eq_refl) as H2.
  pose proof (runs_to_node (stream TRow) call _ _ _ _ _
                (Map (LowerCase _lower_case text_column)) H2 eq_refl) as H3.
  pose proof (runs_to_node (stream TRow) call _ _ _ _ _
                (Map (Split text_column None)) H3 eq_refl) as H4.
  pose proof (runs_to_node (stream TRow) call _ _ _ _ _
                (ExternalSort [text_column]) H4 eq_refl) as H5.
  pose proof (runs_to_node (stream TRow) call _ _ _ _ _
                (Reduce (Count count_column) [text_column]) H5 eq_refl) as H6.
  pose proof (runs_to_node (stream TRow) call _ _ _ _ _
                (ExternalSort [count_column; text_column]) H6 eq_refl) as H7.
  unfold graph_map, graph_sort, graph_reduce, alloc. cbn [fst snd].
  eexists _, _. split; [reflexivity|]. split; [|exact H7].
  destruct Hext0 as (ext0 & ->). rewrite <- !app_assoc. by eauto.
Qed.
Lemma Mapper_call_in_place (f : TRow → TRow * option exn) (row : TRow) :
  Mapper_call (in_place f) row
  = match (f row).2 with
    | None => ([(f row).1], Done)
    | Some e => ([], Raise e)
    end.
Proof.
  unfold Mapper_call, in_place. cbn [lookup list_lookup].
  by destruct (f row) as [row' [e|]].
Qed.

Lemma Map_call_cons (mapper : Mapper) (row : TRow) (rows : list TRow)
    (out : outcome) :
  Map_call mapper (row :: rows, out)
  = yield_from (Mapper_call mapper row) (Map_call mapper (rows, out)).
Proof. reflexivity. Qed.

Lemma str_column_cons (column : string) (row : TRow) (rows : list TRow) :
  str_column column (row :: rows) = true →
  (∃ txt, dict_get row column = Some (VStr txt)) ∧ str_column column rows = true.
Proof.
  unfold str_column. cbn [forallb]. intros H. apply andb_true_iff in H as [H1 H2].
  split; [|done]. destruct (dict_get row column) as [[n|txt]|]; try done. by eauto.
Qed.

(** [Map] with a mapper that changes the text of a column. *)
Lemma Map_call_str_column (method : string → string) (column : string)
    (rows : list TRow) :
  str_column column rows = true →
  Map_call (in_place (str_column_body method column)) (rows, Done)
  = ((λ row, match dict_get row column with
             | Some (VStr txt) => dict_set row column (VStr (method txt))
             | _ => row
             end) <$> rows, Done)
  ∧ str_column column
      ((λ row, match dict_get row column with
               | Some (VStr txt) => dict_set row column (VStr (method txt))
               | _ => row
               end) <$> rows) = true.
Proof.
  induction rows as [|row rows IH]; intros Hstr; [done|].
  apply str_column_cons in Hstr as [[txt Htxt] Hstr]. destruct (IH Hstr) as [IH1 IH2].
  rewrite Map_call_cons, IH1, Mapper_call_in_place.
  rewrite (str_column_body_ok method column row txt Htxt).
  rewrite fmap_cons, Htxt. split; [done|].
  unfold str_column. cbn [forallb]. rewrite dict_get_dict_set_eq. exact IH2.
Qed.

(** [Map] with [Split] on rows that hold texts. *)
Lemma Map_call_Split (column : string) (separator : option ascii)
    (rows : list TRow) :
  str_column column rows = true →
  Map_call (Split column separator) (rows, Done)
  = (rows ≫= (λ row, match dict_get row column with
                      | Some (VStr txt) =>
                          (λ w, dict_set row column (VStr w))
                            <$> split_values separator txt
                      | _ => []
                      end), Done).
Proof.
  induction rows as [|row rows IH]; intros Hstr; [done|].
  apply str_column_cons in Hstr as [[txt Htxt] Hstr].
  rewrite Map_call_cons, (IH Hstr), (Mapper_call_Split column separator row txt Htxt).
  unfold yield_from. cbn [fst snd mbind list_bind]. by rewrite Htxt.
Qed.

(** The three mappers of [word_count_graph], one after the other, on rows
    that hold texts. *)
Lemma words_of_rows (_lower_case : string → string) (text_column : string)
    (rows : list TRow) :
  str_column text_column rows = true →
  words_of _lower_case text_column (rows, Done)
  = (word_rows _lower_case text_column rows, Done).
Proof.
  intros Hstr. unfold words_of, FilterPunctuation, LowerCase.
  destruct (Map_call_str_column remove_punctuation text_column rows Hstr) as [-> H1].
  destruct (Map_call_str_column _lower_case text_column _ H1) as [-> H2].
  rewrite (Map_call_Split text_column None _ H2).
  f_equal. unfold word_rows. clear H1 H2.
  induction rows as [|row rows IH]; [done|].
  apply str_column_cons in Hstr as [[txt Htxt] Hstr].
  rewrite !fmap_cons. cbn [mbind list_bind]. rewrite (IH Hstr), Htxt.
  rewrite !dict_get_dict_set_eq. f_equal.
  apply list_fmap_ext. intros i w _. by rewrite !dict_set_dict_set.
Qed.
Lemma group_matches_self (R : list (Key * list TRow)) (k : Key) (g : list TRow) :
  StronglySorted (λ k1 k2, key_lt k1 k2 = Some true) R.*1 →
  (k, g) ∈ R → group_matches k R = g.
Proof.
  induction R as [|[k' g'] R IH]; intros Hs Hin; [by apply elem_of_nil in Hin|].
  rewrite fmap_cons in Hs. apply StronglySorted_inv in Hs as [Hs Hlt]. cbn [fst] in *.
  apply elem_of_cons in Hin as [[= <- <-]|Hin].
  - rewrite group_matches_cons_eq, group_matches_nil; [by rewrite app_nil_r|].
    rewrite Forall_fmap in Hlt. eapply Forall_impl; [exact Hlt|].
    intros kg Hkg <-. simpl in Hkg. by apply (key_lt_irrefl kg.1).
  - rewrite group_matches_cons_ne; [by apply IH|].
    intros ->. rewrite Forall_forall in Hlt.
    apply (key_lt_irrefl k). apply Hlt. apply list_elem_of_fmap. by exists (k, g).
Qed.

Lemma elem_of_concat {A} (x : A) (ls : list (list A)) :
  x ∈ List.concat ls → ∃ l, x ∈ l ∧ l ∈ ls.
Proof.
  induction ls as [|l ls IH]; simpl; [by intros H; apply elem_of_nil in H|].
  intros H. apply elem_of_app in H as [H|H].
  - exists l. split; [done|by left].
  - destruct (IH H) as (l' & H1 & H2). exists l'. split; [done|by right].
Qed.

Lemma itemgetter_single (column : string) (row : TRow) (v : Value) :
  itemgetter [column] row = inr (KVal v) ↔ dict_get row column = Some v.
Proof.
  unfold itemgetter. destruct (dict_get row column) as [v'|]; [|done].
  split; congruence.
Qed.

Lemma itemgetter_single_key (column : string) (row : TRow) (k : Key) :
  itemgetter [column] row = inr k → ∃ v, k = KVal v ∧ dict_get row column = Some v.
Proof.
  unfold itemgetter. destruct (dict_get row column) as [v|]; [|done].
  intros [= <-]. by eauto.
Qed.

Lemma rows_holding_key (column : string) (v : Value) (rows : list TRow) :
  filter (λ r, itemgetter [column] r = inr (KVal v)) rows = rows_holding column v rows.
Proof.
  unfold rows_holding. induction rows as [|row rows IH]; [done|].
  destruct (decide (dict_get row column = Some v)) as [H|H].
  - rewrite !filter_cons_True; [by rewrite IH|done|by apply itemgetter_single].
  - rewrite !filter_cons_False; [done|done|]. by rewrite itemgetter_single.
Qed.

(** The counts of a sorted stream of words that is, up to its order, the
    stream [words]. *)
Lemma Reduce_Count_words (count_column text_column : string)
    (sorted words : list TRow) :
  count_column ≠ text_column → sorted ≠ [] →
  sorted_by [text_column] sorted = true → sorted ≡ₚ words →
  ∃ counted : list TRow,
    Reduce_call (Count count_column) [text_column] (sorted, Done) = (counted, Done)
    ∧ Forall (λ out, ∃ w,
         dict_get out text_column = Some w
         ∧ (0 < List.length (rows_holding text_column w words))%nat
         ∧ dict_get out count_column
           = Some (VInt (Z.of_nat (List.length (rows_holding text_column w words))))
         ∧ ∀ c, c ≠ text_column → c ≠ count_column → dict_get out c = None)
        counted
    ∧ NoDup (column_values text_column counted)
    ∧ ∀ row, row ∈ words →
        ∃ out, out ∈ counted ∧ dict_get out text_column = dict_get row text_column.
Proof.
  intros Hne Hsorted_ne Hsorted Hperm.
  pose proof Hsorted as Hsorted'.
  apply andb_true_iff in Hsorted' as [Hhas Hasc].
  pose proof Hhas as Hhas'. apply bool_decide_eq_true in Hhas'.
  destruct (attach_keys_rows [text_column] sorted Hhas') as [Hrows Hkeyed].
  set (R := group_runs (attach_keys [text_column] sorted).1) in *.
  assert (HR : Forall (λ kg, Forall (λ r, itemgetter [text_column] r = inr kg.1) kg.2) R).
  { by apply (group_runs_keyed (λ k row, itemgetter [text_column] row = inr k)). }
  assert (HRne : Forall (λ kg, kg.2 ≠ []) R) by apply group_runs_nonempty.
  assert (HRs : StronglySorted (λ k1 k2, key_lt k1 k2 = Some true) R.*1).
  { apply ascending_StronglySorted; [exact Hasc|apply group_runs_adjacent]. }
  assert (HRc : List.concat R.*2 = sorted).
  { unfold R. by rewrite group_runs_concat. }
  destruct (Reduce_call_each_group (Count count_column) [text_column] sorted
              (λ g out,
                 dict_get out count_column = Some (VInt (Z.of_nat (List.length g)))
                 ∧ ∀ c, c ≠ count_column →
                     dict_get out c
                     = if in_keys c [text_column]
                       then head g ≫= (λ row, dict_get row c) else None))
    as (counted & Hrun & Hall); try done.
  { intros row rest _ Hrow.
    destruct (Count_group count_column [text_column] row rest Hrow)
      as (out & H1 & _ & H3 & H4).
    exists out. done. }
  exists counted. split; [done|].
  unfold runs_of in Hall. fold R in Hall. rewrite Forall2_fmap_l in Hall.
  (* what each group and its row say *)
  assert (Heach : Forall2 (λ kg out, ∃ w,
              kg.1 = KVal w
              ∧ dict_get out text_column = Some w
              ∧ (0 < List.length (rows_holding text_column w words))%nat
              ∧ dict_get out count_column
                = Some (VInt (Z.of_nat (List.length (rows_holding text_column w words))))
              ∧ ∀ c, c ≠ text_column → c ≠ count_column → dict_get out c = None)
            R counted).
  { apply Forall2_same_length_lookup. split; [by eapply Forall2_length|].
    intros i [k g] out Hkg Hout.
    pose proof (Forall2_lookup_lr _ _ _ _ _ _ Hall Hkg Hout) as [Hcount Hother].
    cbn [fst snd] in *.
    pose proof (list_elem_of_lookup_2 _ _ _ Hkg) as Hin.
    rewrite Forall_forall in HR. pose proof (HR _ Hin) as Hg. cbn [fst snd] in Hg.
    rewrite Forall_forall in HRne. pose proof (HRne _ Hin) as Hgne. cbn [snd] in Hgne.
    destruct g as [|row rest]; [done|].
    apply Forall_cons in Hg as [Hrow Hrest].
    destruct (itemgetter_single_key _ _ _ Hrow) as (w & -> & Hw).
    assert (Hg : row :: rest = rows_holding text_column w sorted).
    { rewrite <- rows_holding_key, <- HRc.
      rewrite <- (group_matches_rows [text_column] (KVal w) R); [|by apply Forall_forall].
      symmetry. by apply group_matches_self. }
    assert (Hlen : List.length (row :: rest)
                   = List.length (rows_holding text_column w words)).
    { rewrite Hg. unfold rows_holding. by rewrite Hperm. }
    exists w. split; [done|]. split; [|split; [|split]].
    - rewrite (Hother text_column) by done. cbn [in_keys existsb].
      rewrite String.eqb_refl. done.
    - rewrite <- Hlen. simpl. lia.
    - by rewrite Hcount, Hlen.
    - intros c Hc1 Hc2. rewrite (Hother c) by done. cbn [in_keys existsb].
      destruct (String.eqb_spec c text_column); done. }
  split; [|split].
  - apply Forall_forall. intros out Hout.
    apply list_elem_of_lookup_1 in Hout as [i Hi].
    destruct (Forall2_lookup_r _ _ _ _ _ Heach Hi) as (kg & Hkg & w & _ & H).
    by exists w.
  - assert (Hvals : KVal <$> column_values text_column counted = R.*1).
    { clear -Heach. induction Heach as [|kg out R counted (w & Hk & Hw & _) _ IH];
        [done|].
      unfold column_values in *. cbn [omap list_omap]. rewrite Hw.
      rewrite !fmap_cons. by rewrite <- IH, Hk. }
    apply (NoDup_fmap_1 KVal). rewrite Hvals.
    clear -HRs. induction HRs as [|k ks _ IH Hlt]; [constructor|].
    constructor; [|done]. intros Hin. rewrite Forall_forall in Hlt.
    by apply (key_lt_irrefl k), Hlt.
  - intros row Hrow. rewrite <- Hperm in Hrow. rewrite <- HRc in Hrow.
    apply elem_of_concat in Hrow as (g & Hrowg & Hg).
    apply list_elem_of_fmap in Hg as ([k g'] & -> & Hkg). cbn [snd] in Hrowg.
    apply list_elem_of_lookup_1 in Hkg as [i Hi].
    destruct (Forall2_lookup_l _ _ _ _ _ Heach Hi) as (out & Hout & w & Hk & Hw & _).
    cbn [fst] in Hk. subst k.
    exists out. split; [by eapply list_elem_of_lookup_2|].
    rewrite Hw. symmetry. apply itemgetter_single.
    rewrite Forall_forall in HR. pose proof (HR _ (list_elem_of_lookup_2 _ _ _ Hi)) as Hg.
    cbn [fst snd] in Hg. rewrite Forall_forall in Hg. by apply Hg.
Qed.

(** ** The tally of [TermFrequencyFromCounts] *)

Lemma counter_iadd_tally_by (f : list (Value * Z)) (w : Value) (n : Z) :
  counter_iadd (counter_of f) (inr w) (inr (VInt n))
  = inr (counter_of (tally_by f w n)).
Proof.
  unfold counter_iadd. induction f as [|[w' m] f IH]; [done|].
  rewrite counter_of_cons. cbn [counter_get counter_set tally_by].
  destruct (decide (w' = w)) as [->|Hne]; [done|].
  destruct (py_add (default (VInt 0) (counter_get (counter_of f) w)) (VInt n))
    as [e|v]; [done|].
  injection IH as IH. by rewrite counter_of_cons, IH.
Qed.

Lemma tally_by_keys (f : list (Value * Z)) (w : Value) (n : Z) :
  (tally_by f w n).*1 = if decide (w ∈ f.*1) then f.*1 else f.*1 ++ [w].
Proof.
  induction f as [|[w' m] f IH]; [done|].
  cbn [tally_by]. rewrite !fmap_cons. cbn [fst].
  destruct (decide (w' = w)) as [->|Hne].
  - rewrite decide_True by (by left). done.
  - rewrite fmap_cons, IH. cbn [fst].
    destruct (decide (w ∈ f.*1)) as [Hin|Hnin].
    + rewrite decide_True by (by right). done.
    + rewrite decide_False; [done|].
      intros Hin. apply elem_of_cons in Hin as [->|Hin]; done.
Qed.

Lemma tally_by_get (f : list (Value * Z)) (w w' : Value) (n : Z) :
  NoDup f.*1 →
  tally_get (tally_by f w n) w' = tally_get f w' + (if decide (w = w') then n else 0).
Proof.
  induction f as [|[w0 m] f IH]; intros Hnd.
  - cbn [tally_by tally_get foldr fst snd]. destruct (decide (w = w')); lia.
  - rewrite fmap_cons in Hnd. apply NoDup_cons in Hnd as [Hnotin Hnd]. cbn [fst] in *.
    cbn [tally_by]. destruct (decide (w0 = w)) as [->|Hne].
    + cbn [tally_get foldr fst snd]. destruct (decide (w = w')); lia.
    + cbn [tally_get foldr fst snd]. fold (tally_get (tally_by f w n) w').
      fold (tally_get f w'). rewrite (IH Hnd).
      destruct (decide (w0 = w')), (decide (w = w')); lia.
Qed.

Lemma tally_by_NoDup (f : list (Value * Z)) (w : Value) (n : Z) :
  NoDup f.*1 → NoDup (tally_by f w n).*1.
Proof.
  intros Hnd. rewrite tally_by_keys. destruct (decide (w ∈ f.*1)); [done|].
  apply NoDup_app. split; [done|]. split.
  - intros x Hx Hx'. apply list_elem_of_singleton in Hx' as ->. done.
  - apply NoDup_singleton.
Qed.

Lemma tally_by_total (f : list (Value * Z)) (w : Value) (n : Z) :
  foldr Z.add 0 (tally_by f w n).*2 = foldr Z.add 0 f.*2 + n.
Proof.
  induction f as [|[w' m] f IH]; [simpl; lia|].
  cbn [tally_by]. destruct (decide (w' = w)).
  - rewrite !fmap_cons. cbn [foldr snd]. lia.
  - rewrite !fmap_cons. cbn [foldr snd]. rewrite IH. lia.
Qed.

(** The tally of the words [wns] with their counts, started from the
    tally [f]. *)
Lemma foldl_tally_by (wns : list (Value * Z)) :
  ∀ f : list (Value * Z),
  NoDup f.*1 →
  NoDup (foldl (λ f wn, tally_by f wn.1 wn.2) f wns).*1
  ∧ (foldl (λ f wn, tally_by f wn.1 wn.2) f wns).*1
    = foldl (λ seen w, if decide (w ∈ seen) then seen else seen ++ [w]) f.*1 wns.*1
  ∧ (∀ w, tally_get (foldl (λ f wn, tally_by f wn.1 wn.2) f wns) w
          = tally_get f w + tally_get wns w)
  ∧ foldr Z.add 0 (foldl (λ f wn, tally_by f wn.1 wn.2) f wns).*2
    = foldr Z.add 0 f.*2 + foldr Z.add 0 wns.*2.
Proof.
  induction wns as [|[w n] wns IH]; intros f Hnd.
  - cbn [foldl]. split; [done|]. split; [done|]. split.
    + intros w. unfold tally_get at 3. simpl. lia.
    + simpl. lia.
  - cbn [foldl fst snd].
    destruct (IH (tally_by f w n) (tally_by_NoDup f w n Hnd)) as (H1 & H2 & H3 & H4).
    split; [done|]. split; [|split].
    + rewrite H2, tally_by_keys. by rewrite fmap_cons.
    + intros w'. rewrite H3, (tally_by_get f w w' n Hnd).
      unfold tally_get at 4. cbn [foldr fst snd]. fold (tally_get wns w').
      destruct (decide (w = w')); lia.
    + rewrite H4, tally_by_total, fmap_cons. cbn [foldr snd]. lia.
Qed.

Lemma word_weights_cons (words_column count_column : string) (row : TRow)
    (rows : list TRow) (w : Value) (n : Z) :
  dict_get row words_column = Some w → dict_get row count_column = Some (VInt n) →
  word_weights words_column count_column (row :: rows)
  = (w, n) :: word_weights words_column count_column rows.
Proof. intros Hw Hn. unfold word_weights. cbn [omap list_omap]. by rewrite Hw, Hn. Qed.

Lemma tffc_loop (words_column count_column : string) (rest : list TRow) :
  (∀ r, r ∈ rest → is_Some (dict_get r words_column)) →
  int_column count_column rest = true →
  ∀ (f : list (Value * Z)) (size : Z),
  for_rows (λ '(new_row, stream_size) row,
              match counter_iadd new_row (getitem row words_column)
                      (getitem row count_column) with
              | inl e => inl e
              | inr new_row =>
                  match getitem row count_column with
                  | inl e => inl e
                  | inr v =>
                      match py_add stream_size v with
                      | inl e => inl e
                      | inr stream_size => inr (new_row, stream_size)
                      end
                  end
              end) rest Done (counter_of f, VInt size)
  = inr (counter_of (foldl (λ f wn, tally_by f wn.1 wn.2) f
                       (word_weights words_column count_column rest)),
         VInt (size + column_total count_column rest)).
Proof.
  induction rest as [|row rest IH]; intros Hhas Hint f size.
  - simpl. by rewrite Z.add_0_r.
  - destruct (Hhas row) as [w Hw]; [by left|].
    apply int_column_cons in Hint as [[n Hn] Hint].
    cbn [for_rows]. unfold getitem at 1 2 3. rewrite Hw, Hn, counter_iadd_tally_by.
    cbn [py_add]. rewrite IH by (try done; intros r Hr; apply Hhas; by right).
    rewrite (word_weights_cons _ _ row rest w n Hw Hn). cbn [foldl fst snd].
    rewrite (column_total_cons count_column row rest n Hn). do 3 f_equal. lia.
Qed.

Lemma word_weights_spec (words_column count_column : string) (rows : list TRow) :
  (∀ r, r ∈ rows → is_Some (dict_get r words_column)) →
  int_column count_column rows = true →
  (word_weights words_column count_column rows).*1 = column_values words_column rows
  ∧ foldr Z.add 0 (word_weights words_column count_column rows).*2
    = column_total count_column rows
  ∧ ∀ w, tally_get (word_weights words_column count_column rows) w
         = column_total count_column (rows_holding words_column w rows).
Proof.
  induction rows as [|row rows IH]; intros Hhas Hint; [done|].
  destruct (Hhas row) as [w Hw]; [by left|].
  apply int_column_cons in Hint as [[n Hn] Hint].
  destruct IH as (IH1 & IH2 & IH3); [intros r Hr; apply Hhas; by right|done|].
  rewrite (word_weights_cons _ _ row rows w n Hw Hn).
  rewrite !fmap_cons. cbn [fst snd foldr]. split; [|split].
  - unfold column_values in *. cbn [omap list_omap]. rewrite Hw. by f_equal.
  - rewrite IH2. by rewrite (column_total_cons count_column row rows n Hn).
  - intros w'. unfold tally_get. cbn [foldr fst snd].
    fold (tally_get (word_weights words_column count_column rows) w').
    rewrite IH3. unfold rows_holding.
    destruct (decide (w = w')) as [->|Hne].
    + rewrite filter_cons_True by done.
      by rewrite (column_total_cons count_column row _ n Hn).
    + rewrite filter_cons_False; [done|]. rewrite Hw. congruence.
Qed.
Lemma first_seen_from_elem (ws seen : list Value) (w : Value) :
  w ∈ foldl (λ seen w, if decide (w ∈ seen) then seen else seen ++ [w]) seen ws →
  w ∈ seen ∨ w ∈ ws.
Proof.
  revert seen. induction ws as [|w' ws IH]; intros seen Hw; [by left|].
  cbn [foldl] in Hw. apply IH in Hw as [Hw|Hw]; [|by right; right].
  destruct (decide (w' ∈ seen)); [by left|].
  apply elem_of_app in Hw as [Hw|Hw]; [by left|].
  apply list_elem_of_singleton in Hw as ->. right. by left.
Qed.

Lemma shares_fit_word (words_column count_column : string) (rows : list TRow)
    (w : Value) :
  shares_fit words_column count_column rows = true →
  w ∈ column_values words_column rows →
  float_overflow (column_total count_column (rows_holding words_column w rows))
    (column_total count_column rows) = false.
Proof.
  unfold shares_fit. rewrite forallb_forall. intros H Hw.
  apply list_elem_of_In in Hw. apply H in Hw. by apply negb_true_iff in Hw.
Qed.

Lemma first_seen_from_nonempty (ws seen : list Value) :
  seen ≠ [] →
  foldl (λ seen w, if decide (w ∈ seen) then seen else seen ++ [w]) seen ws ≠ [].
Proof.
  revert seen. induction ws as [|w ws IH]; intros seen Hseen; [done|].
  cbn [foldl]. apply IH. destruct (decide (w ∈ seen)); [done|].
  by destruct seen.
Qed.

Lemma tffc_run (truediv : Z → Z → Value)
    (words_column count_column result_column : string) (keys : list string)
    (row : TRow) (rest : list TRow) :
  (∀ k, k ∈ keys → is_Some (dict_get row k)) →
  (∀ r, r ∈ row :: rest → is_Some (dict_get r words_column)) →
  int_column count_column (row :: rest) = true →
  ∃ (common_dict : TRow) (freq : list (Value * Z)),
    TermFrequencyFromCounts truediv words_column count_column result_column keys
      (row :: rest, Done)
    = frequency_rows truediv common_dict words_column result_column
        (VInt (column_total count_column (row :: rest))) (counter_of freq)
    ∧ (∀ c, dict_get common_dict c
            = if in_keys c keys then dict_get row c else None)
    ∧ freq ≠ []
    ∧ NoDup freq.*1
    ∧ freq.*1 = first_seen (column_values words_column (row :: rest))
    ∧ (∀ w, tally_get freq w
            = column_total count_column (rows_holding words_column w (row :: rest)))
    ∧ foldr Z.add 0 freq.*2 = column_total count_column (row :: rest).
Proof.
  intros Hkeys Hwords Hint.
  destruct (project_loop_total keys row Hkeys []) as [common_dict Hcommon].
  destruct (Hwords row) as [w Hw]; [by left|].
  assert (Hrest : ∀ r, r ∈ rest → is_Some (dict_get r words_column)).
  { intros r Hr. apply Hwords. by right. }
  pose proof Hint as Hint'.
  apply int_column_cons in Hint' as [[n Hn] Hintrest].
  destruct (word_weights_spec words_column count_column (row :: rest) Hwords Hint)
    as (Hws1 & Hws2 & Hws3).
  set (wns := word_weights words_column count_column (row :: rest)) in *.
  destruct (foldl_tally_by wns [] (NoDup_nil_2 : NoDup ([] : list (Value * Z)).*1))
    as (Hnd & Horder & Hget & Htotal).
  exists common_dict, (foldl (λ f wn, tally_by f wn.1 wn.2) [] wns).
  split; [|split; [|split; [|split; [|split; [|split]]]]].
  - unfold TermFrequencyFromCounts, next_row. cbn [fst snd]. rewrite Hcommon.
    unfold getitem at 1 2 3. rewrite Hw, Hn.
    change (@nil (Value * Value)) with (counter_of []).
    rewrite counter_iadd_tally_by.
    rewrite (tffc_loop words_column count_column rest Hrest Hintrest).
    unfold wns. rewrite (word_weights_cons _ _ row rest w n Hw Hn).
    cbn [foldl fst snd].
    by rewrite (column_total_cons count_column row rest n Hn).
  - apply (project_loop_get keys row [] common_dict Hcommon).
  - intros Hnil. apply (f_equal (fmap fst)) in Hnil. rewrite Horder, Hws1 in Hnil.
    unfold column_values in Hnil. cbn [omap list_omap] in Hnil. rewrite Hw in Hnil.
    cbn [foldl fmap list_fmap] in Hnil. rewrite decide_False in Hnil by apply not_elem_of_nil.
    by apply first_seen_from_nonempty in Hnil.
  - exact Hnd.
  - rewrite Horder, Hws1. done.
  - intros w'. rewrite Hget, Hws3. unfold tally_get at 1. simpl. lia.
  - rewrite Htotal, Hws2. simpl. lia.
Qed.

(** * The claims *)

(** C1, as amended.  In [Joiner.common_join_part] every pair of a left
    row and a right row yields one row.  When no name [k ++ "_1"] or
    [k ++ "_2"] made for a colliding non-join column [k] is a column of
    either row, that row is the one the stated rule builds: a copy of the
    right row into which each field [k ↦ v] of the left row is merged, added
    when the right row has no [k], left as the right row has it when [k] is
    a join key, and otherwise dropped and replaced by [k ++ "_1" ↦ v] and
    [k ++ "_2" ↦ rrow[k]]; columns of the right row alone are kept.  The
    inner join of the two example tables on [id] is the expected table. *)
Theorem common_join_part_combine (keys : list string)
    (left_rows right_rows : list TRow) :
  all_joinable keys "_1" "_2" left_rows right_rows = true →
  common_join_part (default_joiner InnerJoiner) keys
      (of_list left_rows) right_rows JoinAny
    = of_list (l ← left_rows; r ← right_rows;
               [stated_join_rows keys "_1" "_2" l r])
  ∧ (∀ l r, l ∈ left_rows → r ∈ right_rows →
       row_ok (stated_join_rows keys "_1" "_2" l r)
       ∧ (∀ k v, dict_get l k = Some v →
            joined_at keys "_1" "_2" r (stated_join_rows keys "_1" "_2" l r) k v)
       ∧ (∀ c w, dict_get l c = None → dict_get r c = Some w →
            dict_get (stated_join_rows keys "_1" "_2" l r) c = Some w))
  ∧ Join_call (Joiner_call (default_joiner InnerJoiner)) ["id"]
      (of_list ex_left) (of_list ex_right) = Some (of_list ex_joined).
Proof.
  intros Hall.
  assert (Hpair : ∀ l r, l ∈ left_rows → r ∈ right_rows →
    row_ok l ∧ row_ok r ∧ no_clashb keys "_1" "_2" l r = true).
  { intros l r Hl Hr. by eapply joinable_spec, all_joinable_spec. }
  split; [|split; [|reflexivity]].
  - unfold common_join_part, common_join_rows, of_list. simpl. f_equal.
    clear Hall. induction left_rows as [|l ls IH]; simpl; [done|].
    f_equal.
    + assert (Hl : ∀ r, r ∈ right_rows →
        join_rows keys "_1" "_2" l r = stated_join_rows keys "_1" "_2" l r).
      { intros r Hr. destruct (Hpair l r) as (? & ? & ?); [by left|done|].
        by apply join_rows_stated; [apply default_suffixes_apart|..]. }
      clear -Hl. induction right_rows as [|r rs IHr]; simpl; [done|].
      f_equal; [apply Hl; by left|]. apply IHr. intros r' Hr'. apply Hl. by right.
    + apply IH. intros l' r Hl' Hr. apply Hpair; [by right|done].
  - intros l r Hl Hr. destruct (Hpair l r Hl Hr) as (Hokl & Hokr & Hnc).
    rewrite <- join_rows_stated by (by try apply default_suffixes_apart).
    by apply join_rows_columns; [apply default_suffixes_apart|..].
Qed.

Lemma common_join_part_combine_witness :
  all_joinable ["id"] "_1" "_2" ex_left ex_right = true
  ∧ common_join_part (default_joiner InnerJoiner) ["id"]
      (of_list ex_left) ex_right JoinAny
    = of_list (l ← ex_left; r ← ex_right; [stated_join_rows ["id"] "_1" "_2" l r]).
Proof.
  split; [reflexivity|].
  apply (common_join_part_combine ["id"] ex_left ex_right). reflexivity.
Defined.

(** C1, as stated, fails where a suffixed name is already a column: the
    left row's [v_1] collides, yet [v_1_2] is bound to the value the
    renaming of [v] had just written under [v_1], not to the right row's
    [v_1]. *)
Lemma common_join_part_rename_counterexample :
  row_ok clash_left ∧ row_ok clash_right
  ∧ dict_get clash_left "v_1" = Some (VStr "b")
  ∧ dict_get clash_right "v_1" = Some (VStr "y")
  ∧ in_keys "v_1" ["id"] = false
  ∧ common_join_part (default_joiner InnerJoiner) ["id"]
      (of_list [clash_left]) [clash_right] JoinAny
    = of_list [ [("id", VInt 1); ("v_2", VStr "x");
                 ("v_1_1", VStr "b"); ("v_1_2", VStr "a")] ]
  ∧ stated_join_rows ["id"] "_1" "_2" clash_left clash_right
    = [("id", VInt 1); ("v_2", VStr "x"); ("v_1_1", VStr "b"); ("v_1_2", VStr "y")]
  ∧ ¬ joined_at ["id"] "_1" "_2" clash_right
        (join_rows ["id"] "_1" "_2" clash_left clash_right) "v_1" (VStr "b").
Proof.
  split; [decide_by_computation|]. split; [decide_by_computation|].
  repeat (split; [reflexivity|]).
  unfold joined_at. vm_compute. intros (_ & _ & H). discriminate H.
Qed.

(** C4, as amended.  [RightJoiner] hands its inputs to [common_join_part]
    in swapped positions (the rows of the right input are merged into
    copies of the rows of the left input) and, with [join_type='right'],
    with the two suffixes swapped as well.  For two groups with equal join
    keys in which no name [k ++ "_1"] or [k ++ "_2"] made for a colliding
    non-join column [k] is a column of a row, every row it yields for a
    row [la] of the left input and a row [rb] of the right input carries,
    for a colliding non-join column, [la]'s value under ["_1"] and [rb]'s
    under ["_2"], and is, as a dict, the row the other strategies build
    for the pair. *)
Theorem RightJoiner_suffixes (keys : list string) (a b : TRow)
    (rows_a rows_b : list TRow) :
  all_joinable keys "_1" "_2" (a :: rows_a) (b :: rows_b) = true →
  (∀ la rb, la ∈ a :: rows_a → rb ∈ b :: rows_b →
     same_join_columns keys la rb = true) →
  Joiner_call (default_joiner RightJoiner) keys
    (of_list (a :: rows_a)) (of_list (b :: rows_b))
  = of_list (rb ← b :: rows_b; la ← a :: rows_a;
             [join_rows keys "_2" "_1" rb la])
  ∧ (∀ c, c ∈ [InnerJoiner; OuterJoiner; LeftJoiner] →
       Joiner_call (default_joiner c) keys
         (of_list (a :: rows_a)) (of_list (b :: rows_b))
       = of_list (la ← a :: rows_a; rb ← b :: rows_b;
                  [join_rows keys "_1" "_2" la rb]))
  ∧ ∀ la rb, la ∈ a :: rows_a → rb ∈ b :: rows_b →
      row_map (join_rows keys "_2" "_1" rb la)
      = row_map (join_rows keys "_1" "_2" la rb)
      ∧ ∀ k va vb,
          dict_get la k = Some va → dict_get rb k = Some vb →
          in_keys k keys = false →
          dict_get (join_rows keys "_2" "_1" rb la) k = None
          ∧ dict_get (join_rows keys "_2" "_1" rb la) (k +:+ "_1") = Some va
          ∧ dict_get (join_rows keys "_2" "_1" rb la) (k +:+ "_2") = Some vb.
Proof.
  intros Hall Hsame. split; [reflexivity|]. split.
  - intros c Hc.
    repeat (apply elem_of_cons in Hc as [->|Hc]; [reflexivity|]).
    by apply elem_of_nil in Hc.
  - intros la rb Hla Hrb.
    pose proof (all_joinable_spec _ _ _ _ _ la rb Hall Hla Hrb) as Hj.
    apply joinable_spec in Hj as (Hokl & Hokr & Hnc).
    split; [by apply join_rows_swap; [apply default_suffixes_apart|..|apply Hsame]|].
    intros k va vb Hva Hvb Hk.
    pose proof (suffixes_apart_sym _ _ default_suffixes_apart) as Hap'.
    pose proof (no_clashb_swap _ _ _ _ _ Hnc) as Hnc'.
    destruct (join_rows_columns keys "_2" "_1" rb la Hap' Hokr Hokl Hnc')
      as (_ & Hr & _).
    specialize (Hr k vb Hvb). unfold joined_at in Hr.
    rewrite Hva, Hk in Hr. tauto.
Qed.

Lemma RightJoiner_suffixes_witness :
  Joiner_call (default_joiner RightJoiner) ["id"]
    (of_list [ [("id", VInt 1); ("v", VStr "a")]; [("id", VInt 1); ("v", VStr "c")] ])
    (of_list [ [("id", VInt 1); ("v", VStr "x")] ])
  = of_list [ [("id", VInt 1); ("v_2", VStr "x"); ("v_1", VStr "a")];
              [("id", VInt 1); ("v_2", VStr "x"); ("v_1", VStr "c")] ]
  ∧ row_map [("id", VInt 1); ("v_2", VStr "x"); ("v_1", VStr "c")]
    = row_map (join_rows ["id"] "_1" "_2"
                 [("id", VInt 1); ("v", VStr "c")] [("id", VInt 1); ("v", VStr "x")]).
Proof.
  destruct (RightJoiner_suffixes ["id"]
              [("id", VInt 1); ("v", VStr "a")] [("id", VInt 1); ("v", VStr "x")]
              [ [("id", VInt 1); ("v", VStr "c")] ] [])
    as (Hcall & _ & Hrows).
  - reflexivity.
  - intros la rb Hla Hrb.
    apply elem_of_cons in Hrb as [->|Hrb]; [|by apply elem_of_nil in Hrb].
    repeat (apply elem_of_cons in Hla as [->|Hla]; [reflexivity|]).
    by apply elem_of_nil in Hla.
  - split; [exact Hcall|].
    destruct (Hrows [("id", VInt 1); ("v", VStr "c")] [("id", VInt 1); ("v", VStr "x")])
      as [Hmap _]; [by right; left|by left|].
    exact Hmap.
Defined.

(** C4, as stated, fails where a suffixed name is already a column: the
    left row's [v_1] collides, yet the row [RightJoiner] builds holds
    under [v_1_1] the left row's [v], not its [v_1], which is lost; and
    the row is not the one [InnerJoiner] builds for the same pair. *)
Lemma RightJoiner_suffixes_counterexample :
  same_join_columns ["id"] clash_left clash_right = true
  ∧ all_joinable ["id"] "_1" "_2" [clash_left] [clash_right] = false
  ∧ dict_get clash_left "v_1" = Some (VStr "b")
  ∧ dict_get clash_right "v_1" = Some (VStr "y")
  ∧ in_keys "v_1" ["id"] = false
  ∧ Joiner_call (default_joiner RightJoiner) ["id"]
      (of_list [clash_left]) (of_list [clash_right])
    = of_list [ [("id", VInt 1); ("v_2", VStr "x");
                 ("v_1_2", VStr "y"); ("v_1_1", VStr "a")] ]
  ∧ Joiner_call (default_joiner InnerJoiner) ["id"]
      (of_list [clash_left]) (of_list [clash_right])
    = of_list [ [("id", VInt 1); ("v_2", VStr "x");
                 ("v_1_1", VStr "b"); ("v_1_2", VStr "a")] ]
  ∧ dict_get (join_rows ["id"] "_2" "_1" clash_right clash_left) ("v_1" +:+ "_1")
    ≠ Some (VStr "b")
  ∧ row_map (join_rows ["id"] "_2" "_1" clash_right clash_left)
    ≠ row_map (join_rows ["id"] "_1" "_2" clash_left clash_right).
Proof.
  repeat (split; [reflexivity|]). split; [discriminate|].
  intros H. apply (f_equal (λ m : gmap string Value, m !! "v_1_1")) in H.
  rewrite <- !dict_get_row_map in H. discriminate H.
Qed.

(** C2.  [Join.__call__] runs its loop to the end, and what it yields is
    what the five cases of the merge say, over the two [_safe_groupby]
    streams of its inputs: equal keys, both groups go to the joiner and
    both sides advance; the left key smaller, the left group goes against
    the empty group and the left side advances; the right key smaller, the
    same on the right; one side exhausted, the groups of the other go one
    by one against the empty group; both exhausted, the output ends.  (An
    exception of a joiner or of either stream ends the output where it
    occurs.) *)
Theorem Join_merge_loop
    (joiner : list string → stream TRow → stream TRow → stream TRow)
    (keys : list string) (rows other : stream TRow) :
  Join_call joiner keys rows other
  = Some (stated_join joiner keys
            (_safe_groupby rows keys).2 (_safe_groupby other keys).2
            (_safe_groupby rows keys).1 (_safe_groupby other keys).1)
  ∧ ∀ out_L out_R kL groupL L kR groupR R,
      let merge := stated_merge joiner keys out_L out_R in
      let next_L := advanced out_L L in
      let next_R := advanced out_R R in
      merge [] [] = ([], Done)
      ∧ merge ((kL, groupL) :: L) []
        = yield_from (joiner keys groupL (of_list [])) (next_L (merge L []))
      ∧ merge [] ((kR, groupR) :: R)
        = yield_from (joiner keys (of_list []) groupR) (next_R (merge [] R))
      ∧ (kL = kR →
         merge ((kL, groupL) :: L) ((kR, groupR) :: R)
         = yield_from (joiner keys groupL groupR) (next_L (next_R (merge L R))))
      ∧ (kL ≠ kR → key_lt kL kR = Some true →
         merge ((kL, groupL) :: L) ((kR, groupR) :: R)
         = yield_from (joiner keys groupL (of_list []))
             (next_L (merge L ((kR, groupR) :: R))))
      ∧ (kL ≠ kR → key_gt kL kR = Some true →
         merge ((kL, groupL) :: L) ((kR, groupR) :: R)
         = yield_from (joiner keys (of_list []) groupR)
             (next_R (merge ((kL, groupL) :: L) R))).
Proof.
  split.
  - unfold Join_call, Join_call_fuel.
    destruct (_safe_groupby rows keys) as [L out_L].
    destruct (_safe_groupby other keys) as [R out_R].
    apply Join_groups_stated.
  - intros out_L out_R kL groupL L kR groupR R merge next_L next_R.
    unfold merge. rewrite !(stated_merge_unfold _ _ _ _ (_ :: _)).
    rewrite (stated_merge_unfold _ _ _ _ [] (_ :: _)).
    repeat split; try reflexivity.
    + intros ->. unfold key_eq. by rewrite bool_decide_eq_true_2.
    + intros Hne Hlt. unfold key_eq. rewrite bool_decide_eq_false_2 by done.
      by rewrite Hlt.
    + intros Hne Hgt. unfold key_eq. rewrite bool_decide_eq_false_2 by done.
      by rewrite (key_asym _ _ Hgt).
Qed.

Lemma Join_merge_loop_witness :
  Join_call (Joiner_call (default_joiner OuterJoiner)) ["id"]
    (of_list (ex_left ++ [ [("id", VInt 4)] ]))
    (of_list ([ [("id", VInt 0)] ] ++ ex_right ++ [ [("id", VInt 3)] ]))
  = Some (of_list ([ [("id", VInt 0)] ] ++ ex_joined
                   ++ [ [("id", VInt 3)]; [("id", VInt 4)] ])).
Proof.
  destruct (Join_merge_loop (Joiner_call (default_joiner OuterJoiner)) ["id"]
              (of_list (ex_left ++ [ [("id", VInt 4)] ]))
              (of_list ([ [("id", VInt 0)] ] ++ ex_right ++ [ [("id", VInt 3)] ])))
    as [H _].
  rewrite H. reflexivity.
Defined.

(** C3.  For a non-empty key tuple and a stream whose rows all have the
    key columns, with keys that can be compared, iterating
    [_safe_groupby] to its end raises the unsorted-input error if and only
    if the key of some group is strictly greater than the key of the group
    after it; when no transition is decreasing and the stream is not
    empty, every group is yielded and the iteration ends without an
    exception. *)
Theorem safe_groupby_unsorted_iff (keys : list string) (rows : list TRow) :
  keys ≠ [] →
  has_keys keys rows = true →
  comparable (group_keys keys rows) = true →
  ((_safe_groupby (of_list rows) keys).2 = Raise unsorted_input
   ↔ ∃ i, descent_at (group_keys keys rows) i)
  ∧ ((¬ ∃ i, descent_at (group_keys keys rows) i) → rows ≠ [] →
     _safe_groupby (of_list rows) keys
     = (close_groups Done (group_runs (attach_keys keys rows).1), Done)).
Proof.
  intros Hkeys Hhas Hcmp. apply bool_decide_eq_true in Hhas.
  unfold group_keys in *. unfold _safe_groupby, groupby.
  destruct keys as [|key keys']; [done|]. set (keys := key :: keys') in *.
  pose proof (attach_keys_no_error keys rows Hhas) as Hlen.
  cbn [of_list fst snd].
  destruct (attach_keys keys rows) as [keyed err]. simpl in Hhas, Hlen, Hcmp.
  subst err. cbn [fst snd].
  pose proof (close_groups_keys Done (group_runs keyed)) as Hk.
  destruct (close_groups Done (group_runs keyed)) as [|[k0 g0] rest] eqn:Hcl.
  - simpl in Hk. rewrite <- Hk. split.
    + split; [done|]. intros (i & k1 & k2 & H1 & _). by destruct i.
    + intros _ Hrows. exfalso. apply Hrows.
      assert (group_runs keyed = []) as Hnil by (by destruct (group_runs keyed)).
      apply group_runs_nil in Hnil. subst keyed. simpl in Hlen.
      by destruct rows.
  - rewrite <- Hk in *. rewrite fmap_cons in *. cbn [fst] in *.
    destruct (safe_groupby_loop_spec rest k0) as [H1 H2].
    { intros i k1 k2 Hi1 Hi2.
      apply (comparable_spec _ _ _ Hcmp); eapply list_elem_of_lookup_2; eauto. }
    destruct (safe_groupby_loop k0 rest Done) as [l o] eqn:Hloop.
    simpl in *. split; [done|].
    intros Hno _. specialize (H2 Hno). congruence.
Qed.

Lemma safe_groupby_unsorted_iff_witness :
  (_safe_groupby (of_list [ [("k", VInt 2)]; [("k", VInt 1)] ]) ["k"]).2
  = Raise unsorted_input
  ↔ ∃ i, descent_at (group_keys ["k"] [ [("k", VInt 2)]; [("k", VInt 1)] ]) i.
Proof.
  apply (safe_groupby_unsorted_iff ["k"] [ [("k", VInt 2)]; [("k", VInt 1)] ]);
    [discriminate|reflexivity|reflexivity].
Defined.

(** C9.  With a non-empty key tuple, [Reduce] on an empty stream, and
    [Join] with an empty left stream or (the first left row having the key
    columns) an empty right stream, yield nothing and end with the
    [RuntimeError] that the [StopIteration] of the unguarded [next] turns
    into: the output is not the empty stream. *)
Theorem empty_input_RuntimeError (keys : list string) :
  keys ≠ [] →
  (∀ reducer : Reducer,
     Reduce_call reducer keys (of_list [])
     = ([], Raise generator_raised_StopIteration))
  ∧ (∀ joiner other,
       Join_call joiner keys (of_list []) other
       = Some ([], Raise generator_raised_StopIteration))
  ∧ (∀ joiner row rows k, itemgetter keys row = inr k →
       Join_call joiner keys (of_list (row :: rows)) (of_list [])
       = Some ([], Raise generator_raised_StopIteration))
  ∧ ([], Raise generator_raised_StopIteration) ≠ @of_list TRow [].
Proof.
  intros Hkeys.
  assert (Hempty : _safe_groupby (of_list []) keys
                   = ([], Raise generator_raised_StopIteration)).
  { by destruct keys. }
  split; [|split; [|split]].
  - intros reducer. unfold Reduce_call. by rewrite Hempty.
  - intros joiner other. unfold Join_call, Join_call_fuel, Join_groups.
    by rewrite Hempty.
  - intros joiner row rows k Hk.
    unfold Join_call, Join_call_fuel, Join_groups. rewrite Hempty.
    destruct (safe_groupby_first_group keys row rows Done k Hkeys Hk)
      as (g & rest & Hfirst).
    unfold of_list, join_init, next_or_none.
    destruct (_safe_groupby (row :: rows, Done) keys) as [l o].
    simpl in Hfirst. subst l. reflexivity.
  - discriminate.
Qed.

Lemma empty_input_RuntimeError_witness :
  Reduce_call FirstReducer ["id"] (of_list [])
  = ([], Raise generator_raised_StopIteration).
Proof.
  destruct (empty_input_RuntimeError ["id"]) as [H _]; [discriminate|].
  apply H.
Defined.

(** C10.  [Map] with [FilterPunctuation], [LowerCase] or [Product], on
    rows for which the mapper does not raise: the rows yielded are the very
    objects that came in (same addresses, in the same order), no row object
    is created, and after the stream is consumed each of these objects
    holds what the mapper wrote (for the two string mappers: the column
    replaced by its transformed text), all other objects being unchanged.
    So the rows a source handed out are changed: a source holding
    [{text: "Hello, World"}] holds [{text: "Hello World"}] after
    [Map(FilterPunctuation("text"))] has run over it. *)
Theorem Map_mutates_rows_in_place (m : column_mapper) (σ : store)
    (refs : list nat) :
  NoDup refs →
  (∀ r, r ∈ refs → ∃ row, σ !! r = Some row ∧ (body_of m row).2 = None) →
  (∃ σ' : store,
     Map_store (mapper_of m) σ (of_list refs) = (σ', of_list refs)
     ∧ List.length σ' = List.length σ
     ∧ (∀ r row, r ∈ refs → σ !! r = Some row → σ' !! r = Some (body_of m row).1)
     ∧ (∀ r, r ∉ refs → σ' !! r = σ !! r))
  ∧ (∀ column row txt, dict_get row column = Some (VStr txt) →
       body_of (CM_FilterPunctuation column) row
       = (dict_set row column (VStr (remove_punctuation txt)), None))
  ∧ (∀ lower column row txt, dict_get row column = Some (VStr txt) →
       body_of (CM_LowerCase lower column) row
       = (dict_set row column (VStr (lower txt)), None))
  ∧ Map_store (FilterPunctuation "text") [ [("text", VStr "Hello, World")] ]
      (of_list [0%nat])
    = ([ [("text", VStr "Hello World")] ], of_list [0%nat]).
Proof.
  intros Hnd Hok. split; [|split; [|split]].
  - unfold Map_store, of_list. cbn [fst snd]. rewrite mapper_of_in_place.
    by apply Map_rows_in_place.
  - intros column row txt H. by apply str_column_body_ok.
  - intros lower column row txt H. by apply str_column_body_ok.
  - reflexivity.
Qed.

Lemma Map_mutates_rows_in_place_witness :
  ∃ σ' : store,
    Map_store (Product ["a"; "b"] "p")
      [ [("a", VInt 2); ("b", VInt 3)]; [("a", VInt 5); ("b", VInt 7)] ]
      (of_list [1%nat; 0%nat])
    = (σ', of_list [1%nat; 0%nat])
    ∧ σ' !! 0%nat = Some [("a", VInt 2); ("b", VInt 3); ("p", VInt 6)]
    ∧ σ' !! 1%nat = Some [("a", VInt 5); ("b", VInt 7); ("p", VInt 35)].
Proof.
  destruct (Map_mutates_rows_in_place (CM_Product ["a"; "b"] "p")
              [ [("a", VInt 2); ("b", VInt 3)]; [("a", VInt 5); ("b", VInt 7)] ]
              [1%nat; 0%nat]) as [(σ' & Hrun & _ & Hin & _) _].
  - apply (bool_decide_unpack _). vm_compute. exact I.
  - intros r Hr.
    repeat (apply elem_of_cons in Hr as [->|Hr]; [eexists; split; reflexivity|]).
    by apply elem_of_nil in Hr.
  - exists σ'. split; [exact Hrun|]. split.
    + apply (Hin 0%nat [("a", VInt 2); ("b", VInt 3)]); [|reflexivity].
      by right; left.
    + apply (Hin 1%nat [("a", VInt 5); ("b", VInt 7)]); [|reflexivity].
      by left.
Defined.

(** C7, as amended.  On a row whose numerator column holds an int and
    whose denominator column is zero, [Divide] yields nothing, leaves the
    row as it was and raises [ValueError('Denominator column contains zero
    value')]: the [ZeroDivisionError] is caught and replaced, and what is
    raised is not an [ArithmeticError]. *)
Theorem Divide_zero_denominator (truediv : Z → Z → Value)
    (column_numerator column_denominator result_column : string)
    (σ : store) (r : nat) (row : TRow) (n : Z) :
  σ !! r = Some row →
  dict_get row column_numerator = Some (VInt n) →
  dict_get row column_denominator = Some (VInt 0) →
  Divide truediv column_numerator column_denominator result_column σ r
    = (σ, ([], Raise zero_denominator))
  ∧ Map_store (Divide truediv column_numerator column_denominator result_column)
      σ (of_list [r])
    = (σ, ([], Raise zero_denominator))
  ∧ is_ArithmeticError zero_denominator = false.
Proof.
  intros Hrow Hnum Hden.
  assert (Hcall : Divide truediv column_numerator column_denominator
                    result_column σ r = (σ, ([], Raise zero_denominator))).
  { unfold Divide, in_place, getitem. rewrite Hrow, Hnum, Hden. simpl.
    by rewrite list_insert_id. }
  split; [done|]. split; [|done].
  unfold Map_store, of_list. simpl. by rewrite Hcall.
Qed.

Lemma Divide_zero_denominator_witness :
  Divide (λ a b, VInt (a / b)) "x" "y" "divide"
    [ [("x", VInt 1); ("y", VInt 0)] ] 0%nat
  = ([ [("x", VInt 1); ("y", VInt 0)] ], ([], Raise zero_denominator)).
Proof.
  destruct (Divide_zero_denominator (λ a b, VInt (a / b)) "x" "y" "divide"
              [ [("x", VInt 1); ("y", VInt 0)] ] 0%nat
              [("x", VInt 1); ("y", VInt 0)] 1) as [H _]; [reflexivity..|].
  exact H.
Defined.

(** C7, as stated, fails: on [{x: 1, y: 0}] what [Divide] raises is a
    [ValueError], which is not an [ArithmeticError]. *)
Lemma Divide_ArithmeticError_counterexample :
  ∃ e, (Divide (λ a b, VInt (a / b)) "x" "y" "divide"
          [ [("x", VInt 1); ("y", VInt 0)] ] 0%nat).2.2 = Raise e
       ∧ e = ValueError "Denominator column contains zero value"
       ∧ is_ArithmeticError e = false.
Proof. eexists. repeat split. Qed.

(** C6.  On a heap as the builders make it, [G.copy()] is a new [Graph]
    object (its address is not one of the heap before), no object of the
    heap is changed, and the new object holds the same operation and the
    address of the same parents list as [G]; whatever the streams are and
    whatever calling an operation on them does (so for every set of
    sources), the run of [G] gives a stream, and the runs of [G] and of
    the copy give the same. *)
Theorem copy_run (Stream : Type) (call : Operation → list Stream → option Stream)
    (h h' : heap) (g g' : nat) :
  (∀ operation parents_run, is_Some (call operation parents_run)) →
  heap_ok h = true → copy h g = Some (h', g') →
  h !! g' = None
  ∧ (∀ a o, h !! a = Some o → h' !! a = Some o)
  ∧ (∃ operation parents,
       h !! g = Some (GraphObj operation parents)
       ∧ h' !! g' = Some (GraphObj operation parents))
  ∧ ∃ s, ∀ fuel, (List.length h' ≤ fuel)%nat →
      run Stream call fuel h' g = Some s
      ∧ run Stream call fuel h' g' = Some s.
Proof.
  intros Hcall Hok Hcopy.
  destruct (copy_spec Stream call h h' g g' Hcall Hok Hcopy)
    as (Hnew & Hold & Hfields & _ & Hrun & (s & Hs) & Hlen).
  split; [done|]. split; [done|]. split; [done|].
  exists s. intros fuel Hfuel.
  destruct (Hrun fuel) as [-> ->]. split; apply Hs; lia.
Qed.

Lemma copy_run_witness :
  heap_ok ex_heap = true
  ∧ copy ex_heap 3 = Some (ex_heap ++ [GraphObj (Map DummyMapper) 2], 4%nat)
  ∧ ∃ s, ∀ fuel, (5 ≤ fuel)%nat →
      run _ (call_operation (λ _ rows, rows) {[ "texts" := of_list ex_left ]}) fuel
        (ex_heap ++ [GraphObj (Map DummyMapper) 2]) 3 = Some s
      ∧ run _ (call_operation (λ _ rows, rows) {[ "texts" := of_list ex_left ]}) fuel
          (ex_heap ++ [GraphObj (Map DummyMapper) 2]) 4 = Some s.
Proof.
  split; [reflexivity|]. split; [reflexivity|].
  destruct (copy_run _
              (call_operation (λ _ rows, rows) {[ "texts" := of_list ex_left ]})
              ex_heap (ex_heap ++ [GraphObj (Map DummyMapper) 2]) 3%nat 4%nat)
    as (_ & _ & _ & s & Hs);
    [apply call_operation_total|reflexivity|reflexivity|].
  exists s. exact Hs.
Defined.

(** C8, as amended.  When the run of a graph looks up the iterator source
    named [n] before anything has failed or been yielded, and the named
    sources have no [n], the run yields nothing and raises [KeyError(n)].
    That is so when the graph is that source; when it is a [Map], a keyed
    [Reduce] or a keyed [Join] over a first input of which it is so; a
    keyed [Join] whose first input hands out a first row with the key
    columns, over a second input of which it is so; a [Reduce] without
    keys whose reducer reads its rows before it yields, or an
    [ExternalSort] that passes on the failure of its input, over such an
    input; a [Join] without keys over such an input, if its joiner reads
    that one first or the other one ends without failing. *)
Theorem missing_source_KeyError
    (sort_call : list string → stream TRow → stream TRow)
    (kwargs : gmap string (stream TRow)) (h : list obj) (n : string) (g : nat) :
  heap_ok h = true →
  pulls_first sort_call kwargs h n g →
  kwargs !! n = None →
  contains_source h n g
  ∧ ∀ fuel, (g < fuel)%nat →
      run _ (call_operation sort_call kwargs) fuel h g = Some ([], Raise (KeyError n)).
Proof.
  intros Hok Hpull Hn. split; [by eapply pulls_first_contains|].
  by apply run_pulls_first.
Qed.

Lemma missing_source_KeyError_witness :
  run _ (call_operation (λ _ rows, rows) {[ "a" := of_list ex_keyed ]})
    6 ex_join_heap 5
  = Some ([], Raise (KeyError "n"))
  ∧ run _ (call_operation (λ _ rows, rows) {[ "a" := of_list ex_keyed ]})
      6 ex_count_heap 5
    = Some ([], Raise (KeyError "n")).
Proof.
  split.
  - destruct (missing_source_KeyError (λ _ rows, rows) {[ "a" := of_list ex_keyed ]}
                ex_join_heap "n" 5%nat) as [_ H].
    + reflexivity.
    + eapply (pulls_join_second _ _ _ _ 5%nat _ ["k"] 4%nat 1%nat 3%nat []);
        [reflexivity|reflexivity|discriminate|reflexivity|reflexivity|].
      by eapply pulls_source.
    + reflexivity.
    + apply H. lia.
  - destruct (missing_source_KeyError (λ _ rows, rows) {[ "a" := of_list ex_keyed ]}
                ex_count_heap "n" 5%nat) as [_ H].
    + reflexivity.
    + eapply (pulls_reduce_all _ _ _ _ 5%nat _ 4%nat 3%nat []);
        [reflexivity|reflexivity|reflexivity|].
      eapply (pulls_map _ _ _ _ 3%nat _ 2%nat 1%nat []); [reflexivity|reflexivity|].
      by eapply pulls_source.
    + reflexivity.
    + apply H. lia.
Defined.

(** C8, as stated, fails: in the join of a source [a], mapped with
    [Divide], with a source [n], run with an [a] whose first row has a
    zero denominator and with no [n], the left input is read first and
    the run raises the [ValueError] of [Divide]; the missing source is
    never asked for. *)
Lemma missing_source_counterexample :
  heap_ok ex_divide_join_heap = true
  ∧ contains_source ex_divide_join_heap "n" 7
  ∧ ({[ "a" := of_list [ [("k", VInt 1); ("x", VInt 1); ("y", VInt 0)] ] ]}
       : gmap string (stream TRow)) !! "n" = None
  ∧ (∀ sort_call,
       run _ (call_operation sort_call
                {[ "a" := of_list [ [("k", VInt 1); ("x", VInt 1); ("y", VInt 0)] ] ]})
         8 ex_divide_join_heap 7
       = Some ([], Raise (ValueError "Denominator column contains zero value")))
  ∧ ValueError "Denominator column contains zero value" ≠ KeyError "n".
Proof.
  split; [reflexivity|]. split.
  - eapply (contains_below _ _ 7%nat _ 6%nat [3%nat; 5%nat] 5%nat);
      [reflexivity|reflexivity| |].
    + by right; left.
    + by eapply contains_here.
  - split; [reflexivity|]. split; [|discriminate].
    intros sort_call. reflexivity.
Qed.

(** C5.  For a key order that is total and transitive, and whatever the
    size of the buffer, the external sort of a stream emits a permutation
    of it, ascending by key, in which the rows of equal key keep the order
    they had in the input. *)
Theorem ExternalSort_stable (K : Type) (key : TRow → K) (leb : K → K → bool)
    (CHUNK_pred : nat) (rows : list TRow) :
  (∀ k1 k2, leb k1 k2 = true ∨ leb k2 k1 = true) →
  (∀ k1 k2 k3, leb k1 k2 = true → leb k2 k3 = true → leb k1 k3 = true) →
  ExternalSort_rows K key leb CHUNK_pred rows ≡ₚ rows
  ∧ Sorted (λ a b, leb (key a) (key b) = true)
      (ExternalSort_rows K key leb CHUNK_pred rows)
  ∧ ∀ k, List.filter (same_key K key leb k)
           (ExternalSort_rows K key leb CHUNK_pred rows)
         = List.filter (same_key K key leb k) rows.
Proof.
  intros Htotal Htrans.
  rewrite (ExternalSort_rows_stable_sort K key leb CHUNK_pred Htotal Htrans).
  split; [apply stable_sort_Permutation|]. split.
  - by apply (stable_sort_Sorted K key leb).
  - intros k. by apply stable_sort_stable.
Qed.

Lemma ExternalSort_stable_witness :
  ExternalSort_rows Z id_key Z.leb 1 ex_unsorted = ex_sorted
  ∧ ExternalSort_rows Z id_key Z.leb 1 ex_unsorted ≡ₚ ex_unsorted.
Proof.
  split; [reflexivity|].
  apply (ExternalSort_stable Z id_key Z.leb 1 ex_unsorted).
  - intros k1 k2. rewrite !Z.leb_le. lia.
  - intros k1 k2 k3. rewrite !Z.leb_le. lia.
Defined.

(** * Further properties of the operations *)

(** ** Grouping and the reducers *)

(** X1.  On a non-empty stream that is sorted by a non-empty list of
    keys, [_safe_groupby] cuts the stream into groups and loses nothing:
    the groups, one after the other, are the rows of the stream in their
    order; no group is empty; every row of a group has the key the group
    is yielded with; and the keys ascend strictly from any group to any
    later one, so that no key is met twice. *)
Theorem safe_groupby_partition (keys : list string) (rows : list TRow) :
  keys ≠ [] → rows ≠ [] → sorted_by keys rows = true →
  ∃ groups : list (Key * list TRow),
    _safe_groupby (rows, Done) keys
    = ((λ kg, (kg.1, (kg.2, Done))) <$> groups, Done)
    ∧ List.concat groups.*2 = rows
    ∧ Forall (λ kg, kg.2 ≠ []
                    ∧ Forall (λ row, itemgetter keys row = inr kg.1) kg.2) groups
    ∧ ∀ i j ki kj, (i < j)%nat → groups.*1 !! i = Some ki →
        groups.*1 !! j = Some kj → key_lt ki kj = Some true.
Proof.
  intros Hkeys Hrows Hsorted.
  exists (group_runs (attach_keys keys rows).1).
  split; [by apply safe_groupby_sorted|].
  apply andb_true_iff in Hsorted as [Hhas Hasc].
  apply bool_decide_eq_true in Hhas.
  destruct (attach_keys_rows keys rows Hhas) as [Hrows' Hkeyed].
  split; [by rewrite group_runs_concat|]. split.
  - pose proof (group_runs_nonempty (attach_keys keys rows).1) as Hne.
    pose proof (group_runs_keyed (λ k row, itemgetter keys row = inr k) _ Hkeyed)
      as Hruns.
    rewrite Forall_forall in Hne. rewrite Forall_forall in Hruns.
    apply Forall_forall. intros kg Hkg. split; [by apply Hne|by apply Hruns].
  - apply ascending_lt; [exact Hasc|]. apply group_runs_adjacent.
Qed.

Lemma safe_groupby_partition_witness :
  ∃ groups : list (Key * list TRow),
    _safe_groupby (ex_sorted, Done) ["id"]
    = ((λ kg, (kg.1, (kg.2, Done))) <$> groups, Done)
    ∧ List.concat groups.*2 = ex_sorted
    ∧ Forall (λ kg, kg.2 ≠ []
                    ∧ Forall (λ row, itemgetter ["id"] row = inr kg.1) kg.2) groups
    ∧ ∀ i j ki kj, (i < j)%nat → groups.*1 !! i = Some ki →
        groups.*1 !! j = Some kj → key_lt ki kj = Some true.
Proof.
  apply (safe_groupby_partition ["id"] ex_sorted); [discriminate|discriminate|reflexivity].
Defined.

(** X2.  [Reduce] with [Count] over a non-empty stream sorted by a
    non-empty list of keys yields one row per group, in the order of the
    groups: the row holds the number of rows of the group in the count
    column and, for every other key column, the value of the first row of
    the group, and nothing else.  The counts add up to the number of rows
    of the input. *)
Theorem Reduce_Count_sorted (column : string) (keys : list string)
    (rows : list TRow) :
  keys ≠ [] → rows ≠ [] → sorted_by keys rows = true →
  ∃ counted : list TRow,
    Reduce_call (Count column) keys (rows, Done) = (counted, Done)
    ∧ Forall2 (λ g out,
         row_ok out
         ∧ dict_get out column = Some (VInt (Z.of_nat (List.length g)))
         ∧ ∀ c, c ≠ column →
             dict_get out c
             = if in_keys c keys then head g ≫= (λ row, dict_get row c) else None)
        (runs_of keys rows) counted
    ∧ column_total column counted = Z.of_nat (List.length rows).
Proof.
  intros Hkeys Hrows Hsorted.
  rewrite (Reduce_call_sorted _ keys rows Hkeys Hrows Hsorted).
  apply andb_true_iff in Hsorted as [Hhas _].
  destruct (Reduce_one_row_each (Count column) keys
              (λ g out,
                 row_ok out
                 ∧ dict_get out column = Some (VInt (Z.of_nat (List.length g)))
                 ∧ ∀ c, c ≠ column →
                     dict_get out c
                     = if in_keys c keys then head g ≫= (λ row, dict_get row c)
                       else None)
              (runs_of keys rows)) as (counted & Hrun & Hall).
  { pose proof (runs_of_has_keys keys rows Hhas) as Hk.
    pose proof (runs_of_nonempty keys rows) as Hne.
    apply Forall_forall. intros g Hg.
    pose proof (proj1 (Forall_forall _ _) Hk g Hg) as Hkg.
    pose proof (proj1 (Forall_forall _ _) Hne g Hg) as Hneg.
    destruct g as [|row rest]; [done|].
    apply Forall_cons in Hkg as [Hrow _].
    destruct (Count_group column keys row rest Hrow) as (out & H1 & H2 & H3 & H4).
    exists out. done. }
  exists counted. split; [done|]. split; [done|].
  rewrite <- (runs_of_concat keys rows Hhas) at 1.
  apply column_total_counts.
  eapply Forall2_impl; [exact Hall|]. by intros g out (_ & H & _).
Qed.

Lemma Reduce_Count_sorted_witness :
  ∃ counted : list TRow,
    Reduce_call (Count "n") ["id"] (ex_sorted, Done) = (counted, Done)
    ∧ Forall2 (λ g out,
         row_ok out
         ∧ dict_get out "n" = Some (VInt (Z.of_nat (List.length g)))
         ∧ ∀ c, c ≠ "n" →
             dict_get out c
             = if in_keys c ["id"] then head g ≫= (λ row, dict_get row c) else None)
        (runs_of ["id"] ex_sorted) counted
    ∧ column_total "n" counted = Z.of_nat (List.length ex_sorted).
Proof.
  apply (Reduce_Count_sorted "n" ["id"] ex_sorted); [discriminate|discriminate|reflexivity].
Defined.

(** X3.  [Reduce] with [Sum] over a non-empty stream sorted by a
    non-empty list of keys, the summed column holding an [int] in every
    row, yields one row per group, in the order of the groups: the row
    holds the sum of the column over the group and, for every other key
    column, the value of the first row of the group, and nothing else.
    The sums add up to the sum of the column over the input. *)
Theorem Reduce_Sum_sorted (column : string) (keys : list string)
    (rows : list TRow) :
  keys ≠ [] → rows ≠ [] → sorted_by keys rows = true →
  int_column column rows = true →
  ∃ sums : list TRow,
    Reduce_call (Sum column) keys (rows, Done) = (sums, Done)
    ∧ Forall2 (λ g out,
         row_ok out
         ∧ dict_get out column = Some (VInt (column_total column g))
         ∧ ∀ c, c ≠ column →
             dict_get out c
             = if in_keys c keys then head g ≫= (λ row, dict_get row c) else None)
        (runs_of keys rows) sums
    ∧ column_total column sums = column_total column rows.
Proof.
  intros Hkeys Hrows Hsorted Hint.
  rewrite (Reduce_call_sorted _ keys rows Hkeys Hrows Hsorted).
  apply andb_true_iff in Hsorted as [Hhas _].
  rewrite <- (runs_of_concat keys rows Hhas) in Hint.
  apply int_column_concat in Hint.
  destruct (Reduce_one_row_each (Sum column) keys
              (λ g out,
                 row_ok out
                 ∧ dict_get out column = Some (VInt (column_total column g))
                 ∧ ∀ c, c ≠ column →
                     dict_get out c
                     = if in_keys c keys then head g ≫= (λ row, dict_get row c)
                       else None)
              (runs_of keys rows)) as (sums & Hrun & Hall).
  { pose proof (runs_of_has_keys keys rows Hhas) as Hk.
    pose proof (runs_of_nonempty keys rows) as Hne.
    rewrite Forall_forall in Hk. rewrite Forall_forall in Hne.
    rewrite Forall_forall in Hint.
    apply Forall_forall. intros g Hg.
    specialize (Hk g Hg). specialize (Hne g Hg). specialize (Hint g Hg).
    destruct g as [|row rest]; [done|].
    apply Forall_cons in Hk as [Hrow _].
    destruct (Sum_group column keys row rest Hrow Hint) as (out & H1 & H2 & H3 & H4).
    exists out. done. }
  exists sums. split; [done|]. split; [done|].
  rewrite <- (runs_of_concat keys rows Hhas) at 1.
  apply column_total_sums.
  eapply Forall2_impl; [exact Hall|]. by intros g out (_ & H & _).
Qed.

Lemma Reduce_Sum_sorted_witness :
  ∃ sums : list TRow,
    Reduce_call (Sum "x") ["id"] (ex_marks, Done) = (sums, Done)
    ∧ Forall2 (λ g out,
         row_ok out
         ∧ dict_get out "x" = Some (VInt (column_total "x" g))
         ∧ ∀ c, c ≠ "x" →
             dict_get out c
             = if in_keys c ["id"] then head g ≫= (λ row, dict_get row c) else None)
        (runs_of ["id"] ex_marks) sums
    ∧ column_total "x" sums = column_total "x" ex_marks.
Proof.
  apply (Reduce_Sum_sorted "x" ["id"] ex_marks);
    [discriminate|discriminate|reflexivity|reflexivity].
Defined.

(** X4.  [Reduce] with [FirstReducer] over a non-empty stream sorted
    by a non-empty list of keys yields the first row of every group, in
    the order of the groups; the keys of the rows it yields ascend
    strictly, so every key is there once; and reducing its output once
    more gives that output again. *)
Theorem Reduce_FirstReducer_sorted (keys : list string) (rows : list TRow) :
  keys ≠ [] → rows ≠ [] → sorted_by keys rows = true →
  ∃ firsts : list TRow,
    Reduce_call FirstReducer keys (rows, Done) = (firsts, Done)
    ∧ Forall2 (λ g out, head g = Some out) (runs_of keys rows) firsts
    ∧ (∀ i j ri rj, (i < j)%nat → firsts !! i = Some ri → firsts !! j = Some rj →
         ∃ ki kj, itemgetter keys ri = inr ki ∧ itemgetter keys rj = inr kj
                  ∧ key_lt ki kj = Some true)
    ∧ Reduce_call FirstReducer keys (firsts, Done) = (firsts, Done).
Proof.
  intros Hkeys Hrows Hsorted.
  rewrite (Reduce_call_sorted _ keys rows Hkeys Hrows Hsorted).
  pose proof Hsorted as Hsorted'.
  apply andb_true_iff in Hsorted' as [Hhas Hasc].
  destruct (Reduce_one_row_each FirstReducer keys
              (λ g out, head g = Some out) (runs_of keys rows))
    as (firsts & Hrun & Hall).
  { pose proof (runs_of_nonempty keys rows) as Hne.
    eapply Forall_impl; [exact Hne|]. intros [|row g] Hg; [done|].
    exists row. done. }
  exists firsts. split; [done|]. split; [done|].
  destruct (runs_of_first_rows keys rows firsts Hhas Hall) as (Hhas' & Hkeys' & Hruns').
  destruct (first_rows_keyed keys rows firsts Hhas Hall) as (heads & H1 & H2 & H3).
  split.
  - intros i j ri rj Hij Hi Hj. rewrite <- H1 in Hi, Hj.
    rewrite list_lookup_fmap in Hi, Hj.
    destruct (heads !! i) as [[ki ri']|] eqn:Hhi; [|done].
    destruct (heads !! j) as [[kj rj']|] eqn:Hhj; [|done].
    simpl in Hi, Hj. injection Hi as <-. injection Hj as <-.
    rewrite Forall_forall in H3.
    exists ki, kj. split; [|split].
    + apply (H3 (ki, ri')). by eapply list_elem_of_lookup_2.
    + apply (H3 (kj, rj')). by eapply list_elem_of_lookup_2.
    + apply (ascending_lt (group_keys keys rows) Hasc) with (i := i) (j := j).
      * unfold group_keys. apply group_runs_adjacent.
      * done.
      * rewrite <- H2, list_lookup_fmap, Hhi. done.
      * rewrite <- H2, list_lookup_fmap, Hhj. done.
  - assert (Hfirsts : firsts ≠ []).
    { intros ->. apply Forall2_nil_inv_r in Hall.
      pose proof (runs_of_concat keys rows Hhas) as Hc. rewrite Hall in Hc.
      by rewrite <- Hc in Hrows. }
    rewrite (Reduce_call_sorted _ keys firsts Hkeys Hfirsts).
    + rewrite Hruns'. clear. induction firsts as [|row firsts IH]; [done|].
      rewrite fmap_cons. cbn [foldr]. rewrite IH. done.
    + unfold sorted_by. by rewrite Hhas', Hkeys'.
Qed.

Lemma Reduce_FirstReducer_sorted_witness :
  ∃ firsts : list TRow,
    Reduce_call FirstReducer ["id"] (ex_sorted, Done) = (firsts, Done)
    ∧ Forall2 (λ g out, head g = Some out) (runs_of ["id"] ex_sorted) firsts
    ∧ (∀ i j ri rj, (i < j)%nat → firsts !! i = Some ri → firsts !! j = Some rj →
         ∃ ki kj, itemgetter ["id"] ri = inr ki ∧ itemgetter ["id"] rj = inr kj
                  ∧ key_lt ki kj = Some true)
    ∧ Reduce_call FirstReducer ["id"] (firsts, Done) = (firsts, Done).
Proof.
  apply (Reduce_FirstReducer_sorted ["id"] ex_sorted);
    [discriminate|discriminate|reflexivity].
Defined.

(** X5.  [Reduce] with [Mean] over a non-empty stream sorted by a
    non-empty list of keys, the column holding an [int] in every row and
    no group having a mean too large for a float (where one has, the
    division raises [OverflowError]), yields one row per group, in the
    order of the groups: the row holds the quotient of the sum of the
    column over the group by the number of rows of the group and, for
    every other key column, the value of the first row of the group, and
    nothing else. *)
Theorem Reduce_Mean_sorted (truediv : Z → Z → Value) (column : string)
    (keys : list string) (rows : list TRow) :
  keys ≠ [] → rows ≠ [] → sorted_by keys rows = true →
  int_column column rows = true →
  means_fit column (runs_of keys rows) = true →
  ∃ means : list TRow,
    Reduce_call (Mean truediv column) keys (rows, Done) = (means, Done)
    ∧ Forall2 (λ g out,
         row_ok out
         ∧ dict_get out column
           = Some (truediv (column_total column g) (Z.of_nat (List.length g)))
         ∧ ∀ c, c ≠ column →
             dict_get out c
             = if in_keys c keys then head g ≫= (λ row, dict_get row c) else None)
        (runs_of keys rows) means.
Proof.
  intros Hkeys Hrows Hsorted Hint Hfit.
  rewrite (Reduce_call_sorted _ keys rows Hkeys Hrows Hsorted).
  apply andb_true_iff in Hsorted as [Hhas _].
  rewrite <- (runs_of_concat keys rows Hhas) in Hint.
  apply int_column_concat in Hint.
  apply Reduce_one_row_each.
  pose proof (runs_of_has_keys keys rows Hhas) as Hk.
  pose proof (runs_of_nonempty keys rows) as Hne.
  rewrite Forall_forall in Hk. rewrite Forall_forall in Hne.
  rewrite Forall_forall in Hint.
  apply Forall_forall. intros g Hg.
  specialize (Hk g Hg). specialize (Hne g Hg). specialize (Hint g Hg).
  apply (means_fit_group column _ g Hfit) in Hg as Hfits.
  destruct g as [|row rest]; [done|].
  apply Forall_cons in Hk as [Hrow _].
  destruct (Mean_group truediv column keys row rest Hrow Hint Hfits)
    as (out & H1 & H2 & H3 & H4).
  exists out. done.
Qed.

Lemma Reduce_Mean_sorted_witness :
  ∃ means : list TRow,
    Reduce_call (Mean (λ n m, VInt (n / m)) "x") ["id"] (ex_marks, Done)
    = (means, Done)
    ∧ Forall2 (λ g out,
         row_ok out
         ∧ dict_get out "x"
           = Some (VInt (column_total "x" g / Z.of_nat (List.length g)))
         ∧ ∀ c, c ≠ "x" →
             dict_get out c
             = if in_keys c ["id"] then head g ≫= (λ row, dict_get row c) else None)
        (runs_of ["id"] ex_marks) means.
Proof.
  apply (Reduce_Mean_sorted (λ n m, VInt (n / m)) "x" ["id"] ex_marks);
    [discriminate|discriminate|reflexivity|reflexivity|reflexivity].
Defined.

(** X6.  With an empty list of keys [Reduce] hands the whole stream
    to the reducer as one group, whatever its order and its columns.
    [CountRows] then yields one row with the number of rows, also for the
    empty stream, where the number is 0.  [Count] yields the same row for
    a stream that is not empty, and on the empty stream it fails with the
    [RuntimeError] of a [StopIteration] inside a generator, as [Sum] and
    [Mean] do; [FirstReducer] yields nothing there and ends quietly. *)
Theorem Reduce_no_keys (truediv : Z → Z → Value) (column : string)
    (rows : list TRow) :
  Reduce_call (CountRows column) [] (rows, Done)
  = ([ [(column, VInt (Z.of_nat (List.length rows)))] ], Done)
  ∧ (rows ≠ [] →
     Reduce_call (Count column) [] (rows, Done)
     = Reduce_call (CountRows column) [] (rows, Done))
  ∧ Reduce_call (Count column) [] ([], Done)
    = ([], Raise generator_raised_StopIteration)
  ∧ Reduce_call (Sum column) [] ([], Done)
    = ([], Raise generator_raised_StopIteration)
  ∧ Reduce_call (Mean truediv column) [] ([], Done)
    = ([], Raise generator_raised_StopIteration)
  ∧ Reduce_call FirstReducer [] ([], Done) = ([], Done).
Proof.
  assert (HCR : Reduce_call (CountRows column) [] (rows, Done)
                = ([ [(column, VInt (Z.of_nat (List.length rows)))] ], Done)).
  { unfold Reduce_call, _safe_groupby, CountRows. cbn [foldr fst snd].
    rewrite count_rows_loop. done. }
  split; [exact HCR|]. split; [|by repeat split].
  intros Hne. rewrite HCR. destruct rows as [|row rest]; [done|].
  unfold Reduce_call, _safe_groupby, Count, next_row. cbn [foldr fst snd project_loop].
  change (dict_set [] column (VInt 1)) with ([(column, VInt 1)]).
  pose proof (count_loop_spec column rest [] 1) as Hloop.
  change (dict_set [] column (VInt 1)) with ([(column, VInt 1)]) in Hloop.
  rewrite Hloop. unfold yield_from. cbn [fst snd app dict_set].
  do 5 f_equal. rewrite length_cons. lia.
Qed.
(** ** Join *)

(** X7.  [Join] with an [InnerJoiner] over two non-empty streams that
    are sorted by a non-empty list of keys, the keys of the one being
    comparable with the keys of the other, yields, for every row of the
    left stream in order and every row of the right stream that has the
    same key, in order, the row [common_join_part] makes of the two; a row
    of either side whose key the other side does not have yields
    nothing. *)
Theorem Join_InnerJoiner_sorted (self : Joiner) (keys : list string)
    (left_rows right_rows : list TRow) :
  joiner_class self = InnerJoiner →
  keys ≠ [] → left_rows ≠ [] → right_rows ≠ [] →
  sorted_by keys left_rows = true → sorted_by keys right_rows = true →
  cross_comparable (group_keys keys left_rows) (group_keys keys right_rows) = true →
  Join_call (Joiner_call self) keys (left_rows, Done) (right_rows, Done)
  = Some (equi_join false keys (_a_suffix self) (_b_suffix self)
            left_rows right_rows, Done).
Proof.
  intros Hclass Hkeys HL HR HsL HsR Hcmp.
  rewrite (Join_call_sorted _ keys left_rows right_rows Hkeys HL HR HsL HsR).
  f_equal. apply merge_sorted_rows; try done.
  - intros gl gr _ _. unfold Joiner_call. by rewrite Hclass.
  - intros gl _. unfold Joiner_call. rewrite Hclass.
    unfold of_list, materialize, common_join_part. cbn [fst snd].
    by rewrite common_join_rows_nil_r.
  - intros gr _. unfold Joiner_call. by rewrite Hclass.
Qed.

Lemma Join_InnerJoiner_sorted_witness :
  Join_call (Joiner_call (default_joiner InnerJoiner)) ["id"]
    (ex_sorted, Done) (ex_right, Done)
  = Some (equi_join false ["id"] "_1" "_2" ex_sorted ex_right, Done).
Proof.
  apply (Join_InnerJoiner_sorted (default_joiner InnerJoiner) ["id"]
           ex_sorted ex_right);
    [reflexivity|discriminate|discriminate|discriminate
    |reflexivity|reflexivity|reflexivity].
Defined.

(** X8.  [Join] with a [LeftJoiner] over two non-empty streams that
    are sorted by a non-empty list of keys, the keys of the one being
    comparable with the keys of the other, yields, for every row of the
    left stream in order, the rows made of it and of every row of the
    right stream that has the same key, in order, or the row itself, as it
    is, when the right stream has no row with its key: no row of the left
    stream is lost. *)
Theorem Join_LeftJoiner_sorted (self : Joiner) (keys : list string)
    (left_rows right_rows : list TRow) :
  joiner_class self = LeftJoiner →
  keys ≠ [] → left_rows ≠ [] → right_rows ≠ [] →
  sorted_by keys left_rows = true → sorted_by keys right_rows = true →
  cross_comparable (group_keys keys left_rows) (group_keys keys right_rows) = true →
  Join_call (Joiner_call self) keys (left_rows, Done) (right_rows, Done)
  = Some (equi_join true keys (_a_suffix self) (_b_suffix self)
            left_rows right_rows, Done).
Proof.
  intros Hclass Hkeys HL HR HsL HsR Hcmp.
  rewrite (Join_call_sorted _ keys left_rows right_rows Hkeys HL HR HsL HsR).
  f_equal. apply merge_sorted_rows; try done.
  - intros gl [|r gr] _ Hgr; [done|]. unfold Joiner_call. by rewrite Hclass.
  - intros gl _. unfold Joiner_call. by rewrite Hclass.
  - intros [|r gr] Hgr; [done|]. unfold Joiner_call. by rewrite Hclass.
Qed.

Lemma Join_LeftJoiner_sorted_witness :
  Join_call (Joiner_call (default_joiner LeftJoiner)) ["id"]
    (ex_sorted, Done) (ex_right, Done)
  = Some (equi_join true ["id"] "_1" "_2" ex_sorted ex_right, Done).
Proof.
  apply (Join_LeftJoiner_sorted (default_joiner LeftJoiner) ["id"]
           ex_sorted ex_right);
    [reflexivity|discriminate|discriminate|discriminate
    |reflexivity|reflexivity|reflexivity].
Defined.

(** X9.  [Join] with a [RightJoiner] over two non-empty streams that
    are sorted by a non-empty list of keys, the keys of the one being
    comparable with the keys of the other, goes by the rows of the right
    stream: for every row of the right stream in order it yields the rows
    made of it and of every row of the left stream that has the same key,
    in order, the fields of the right row being merged into a copy of the
    left row with the two suffixes exchanged, or the right row itself, as
    it is, when the left stream has no row with its key. *)
Theorem Join_RightJoiner_sorted (self : Joiner) (keys : list string)
    (left_rows right_rows : list TRow) :
  joiner_class self = RightJoiner →
  keys ≠ [] → left_rows ≠ [] → right_rows ≠ [] →
  sorted_by keys left_rows = true → sorted_by keys right_rows = true →
  cross_comparable (group_keys keys left_rows) (group_keys keys right_rows) = true →
  Join_call (Joiner_call self) keys (left_rows, Done) (right_rows, Done)
  = Some (equi_join true keys (_b_suffix self) (_a_suffix self)
            right_rows left_rows, Done).
Proof.
  intros Hclass Hkeys HL HR HsL HsR Hcmp.
  rewrite (Join_call_sorted _ keys left_rows right_rows Hkeys HL HR HsL HsR).
  f_equal. rewrite stated_merge_swap.
  - apply merge_sorted_rows; try done.
    + intros [|l gl] [|r gr] Hgl Hgr; try done.
      unfold Joiner_call. by rewrite Hclass.
    + intros gl _. unfold Joiner_call. by rewrite Hclass.
    + intros [|r gr] Hgr; [done|]. unfold Joiner_call. by rewrite Hclass.
    + by apply cross_comparable_sym.
  - intros kl kr Hkl Hkr.
    apply (cross_comparable_spec _ _ kl kr Hcmp).
    + rewrite <- list_fmap_compose in Hkl. exact Hkl.
    + rewrite <- list_fmap_compose in Hkr. exact Hkr.
Qed.

Lemma Join_RightJoiner_sorted_witness :
  Join_call (Joiner_call (default_joiner RightJoiner)) ["id"]
    (ex_sorted, Done) (ex_right, Done)
  = Some (equi_join true ["id"] "_2" "_1" ex_right ex_sorted, Done).
Proof.
  apply (Join_RightJoiner_sorted (default_joiner RightJoiner) ["id"]
           ex_sorted ex_right);
    [reflexivity|discriminate|discriminate|discriminate
    |reflexivity|reflexivity|reflexivity].
Defined.

(** X10.  With an empty list of keys [Join] hands the two whole
    streams to the joiner as one pair of groups, whatever their order and
    their columns, and yields what the joiner yields.  With an
    [InnerJoiner] these are the rows made of every row of the left stream
    and every row of the right stream; when one of the two streams is
    empty nothing is yielded and nothing is raised. *)
Theorem Join_no_keys (self : Joiner) (rows other : stream TRow) :
  Join_call (Joiner_call self) [] rows other = Some (Joiner_call self [] rows other)
  ∧ (joiner_class self = InnerJoiner →
     ∀ left_rows right_rows,
       Join_call (Joiner_call self) [] (left_rows, Done) (right_rows, Done)
       = Some (left_rows ≫= (λ l, join_rows [] (_a_suffix self) (_b_suffix self) l
                                    <$> right_rows), Done)
       ∧ Join_call (Joiner_call self) [] ([], Done) (right_rows, Done)
         = Some ([], Done)
       ∧ Join_call (Joiner_call self) [] (left_rows, Done) ([], Done)
         = Some ([], Done)).
Proof.
  assert (H : ∀ rows other, Join_call (Joiner_call self) [] rows other
                            = Some (Joiner_call self [] rows other)).
  { clear. intros rows other. rewrite Join_call_stated.
    unfold _safe_groupby, stated_join. cbn [fst snd].
    rewrite !advanced_Done, stated_merge_unfold.
    change (key_eq KEmpty KEmpty) with true. cbn match.
    rewrite !advanced_Done. unfold yield_from.
    destruct (Joiner_call self [] rows other) as [ys [|e]]; cbn [fst snd]; [|done].
    by rewrite app_nil_r. }
  split; [apply H|]. intros Hclass left_rows right_rows.
  rewrite !H. unfold Joiner_call. rewrite Hclass.
  unfold materialize, common_join_part. cbn [fst snd].
  rewrite common_join_rows_bind. split; [done|]. split; [done|].
  f_equal. f_equal. clear. induction left_rows as [|l left_rows IH]; [done|]. exact IH.
Qed.
(** ** Mappers *)

(** X11.  [Map] with a [Filter] whose condition does not raise yields
    the rows that satisfy the condition, in their order, and these are the
    row objects it was given: the store is left as it was, no row is
    copied and none is changed. *)
Theorem Map_Filter (condition : TRow → exn + bool) (σ : list TRow)
    (refs : list nat) :
  (∀ r, r ∈ refs → ∃ row b, σ !! r = Some row ∧ condition row = inr b) →
  Map_store (Filter condition) σ (refs, Done)
  = (σ, (filter (λ r, kept condition σ r = true) refs, Done)).
Proof. intros Hok. unfold Map_store, Filter. by apply Map_rows_yield_if. Qed.

Lemma Map_Filter_witness :
  Map_store (Filter (λ row, inr (int_at_least "id" 2 row))) ex_sorted
    ([0; 2; 4; 1]%nat, Done)
  = (ex_sorted, ([2; 4]%nat, Done)).
Proof.
  apply (Map_Filter (λ row, inr (int_at_least "id" 2 row)) ex_sorted [0; 2; 4; 1]%nat).
  intros r Hr.
  repeat (apply elem_of_cons in Hr as [->|Hr]; [eexists _, _; split; reflexivity|]).
  by apply elem_of_nil in Hr.
Defined.

(** X12.  On rows that hold a [str] in the column, [Map] with
    [LongerThanN] yields the rows whose text has more than [n] characters,
    a text of [n] characters being dropped; on rows that hold an [int] in
    the column, [Map] with [AtLeastNTimes] yields the rows whose number is
    [n] or more, the number [n] itself being kept.  The rows come out in
    their order and as they are. *)
Theorem Map_thresholds (column : string) (n : Z) (texts counts : list TRow) :
  (∀ row, row ∈ texts → ∃ txt, dict_get row column = Some (VStr txt)) →
  (∀ row, row ∈ counts → ∃ m, dict_get row column = Some (VInt m)) →
  Map_call (LongerThanN column n) (texts, Done)
  = (filter (λ row, str_longer_than column n row = true) texts, Done)
  ∧ Map_call (AtLeastNTimes column n) (counts, Done)
    = (filter (λ row, int_at_least column n row = true) counts, Done).
Proof.
  intros Htexts Hcounts. split.
  - apply Map_call_yield_if. intros row Hrow.
    destruct (Htexts row Hrow) as [txt Htxt].
    unfold getitem, str_longer_than. by rewrite Htxt.
  - apply Map_call_yield_if. intros row Hrow.
    destruct (Hcounts row Hrow) as [m Hm].
    unfold getitem, int_at_least. by rewrite Hm.
Qed.

Lemma Map_thresholds_witness :
  Map_call (LongerThanN "w" 2)
    ([ [("w", VStr "ab")]; [("w", VStr "abc")] ], Done)
  = ([ [("w", VStr "abc")] ], Done)
  ∧ Map_call (AtLeastNTimes "w" 2)
      ([ [("w", VInt 1)]; [("w", VInt 2)]; [("w", VInt 3)] ], Done)
    = ([ [("w", VInt 2)]; [("w", VInt 3)] ], Done).
Proof.
  apply (Map_thresholds "w" 2 [ [("w", VStr "ab")]; [("w", VStr "abc")] ]
           [ [("w", VInt 1)]; [("w", VInt 2)]; [("w", VInt 3)] ]).
  - intros row Hrow.
    repeat (apply elem_of_cons in Hrow as [->|Hrow]; [eexists; reflexivity|]).
    by apply elem_of_nil in Hrow.
  - intros row Hrow.
    repeat (apply elem_of_cons in Hrow as [->|Hrow]; [eexists; reflexivity|]).
    by apply elem_of_nil in Hrow.
Defined.

(** X13.  [Project] on a row that has all the columns yields one
    row, a new object: a well-formed dict that holds, for every one of the
    columns, what the row holds, and nothing else.  The row it was given
    and the other rows of the store stay as they are. *)
Theorem Project_columns (columns : list string) (σ : list TRow) (r : nat)
    (row : TRow) :
  σ !! r = Some row →
  (∀ c, c ∈ columns → is_Some (dict_get row c)) →
  ∃ new_row : TRow,
    Project columns σ r = (σ ++ [new_row], ([List.length σ], Done))
    ∧ row_ok new_row
    ∧ ∀ c, dict_get new_row c = if in_keys c columns then dict_get row c else None.
Proof.
  intros Hrow Hhas. unfold Project. rewrite Hrow.
  destruct (project_loop_total columns row Hhas []) as [new_row Hnew].
  rewrite Hnew. exists new_row. split; [done|]. split.
  - apply (project_loop_row_ok columns row [] new_row); [apply NoDup_nil_2|done].
  - apply (project_loop_get columns row [] new_row Hnew).
Qed.

Lemma Project_columns_witness :
  ∃ new_row : TRow,
    Project ["v"] ex_sorted 1%nat = (ex_sorted ++ [new_row], ([5%nat], Done))
    ∧ row_ok new_row
    ∧ ∀ c, dict_get new_row c
           = if in_keys c ["v"] then dict_get [("id", VInt 1); ("v", VStr "e")] c
             else None.
Proof.
  apply (Project_columns ["v"] ex_sorted 1%nat [("id", VInt 1); ("v", VStr "e")]).
  - reflexivity.
  - intros c Hc. apply list_elem_of_singleton in Hc as ->. by eexists.
Defined.

(** X14.  [Project] on a row that lacks one of the columns
    fails with the [KeyError] of the first column, in the order of the
    columns, that the row does not have; it yields nothing and leaves the
    store as it was. *)
Theorem Project_missing_column (before after : list string) (column : string)
    (σ : list TRow) (r : nat) (row : TRow) :
  σ !! r = Some row →
  (∀ c, c ∈ before → is_Some (dict_get row c)) →
  dict_get row column = None →
  Project (before ++ column :: after) σ r = (σ, ([], Raise (KeyError column))).
Proof.
  intros Hrow Hhas Hnone. unfold Project. rewrite Hrow.
  by rewrite (project_loop_missing before after column row Hhas Hnone).
Qed.

Lemma Project_missing_column_witness :
  Project (["id"] ++ "w" :: ["x"]) ex_sorted 0%nat
  = (ex_sorted, ([], Raise (KeyError "w"))).
Proof.
  apply (Project_missing_column ["id"] ["x"] "w" ex_sorted 0%nat
           [("id", VInt 1); ("v", VStr "b")]).
  - reflexivity.
  - intros c Hc. apply list_elem_of_singleton in Hc as ->. by eexists.
  - reflexivity.
Defined.

(** X15.  [Product] on a row that holds an [int] in every one of the
    columns, the result column not being one of them, yields the row it
    was given, after writing to it the product of these numbers under the
    result column; with no columns at all the product is 1. *)
Theorem Product_ints (columns : list string) (result_column : string)
    (σ : list TRow) (r : nat) (row : TRow) :
  σ !! r = Some row →
  result_column ∉ columns → int_columns columns row = true →
  Product columns result_column σ r
  = (<[r := dict_set row result_column (VInt (column_product columns row 1))]> σ,
     ([r], Done))
  ∧ column_product [] row 1 = 1.
Proof.
  intros Hrow Hres Hint. split; [|done]. unfold Product, in_place. rewrite Hrow.
  by rewrite (product_loop_ints result_column columns row Hres Hint).
Qed.

Lemma Product_ints_witness :
  Product ["a"; "b"] "p" [ [("a", VInt 2); ("b", VInt 3)] ] 0%nat
  = (<[0%nat := dict_set [("a", VInt 2); ("b", VInt 3)] "p"
                  (VInt (column_product ["a"; "b"] [("a", VInt 2); ("b", VInt 3)] 1))]>
       [ [("a", VInt 2); ("b", VInt 3)] ],
     ([0%nat], Done))
  ∧ column_product [] [("a", VInt 2); ("b", VInt 3)] 1 = 1.
Proof.
  apply (Product_ints ["a"; "b"] "p" [ [("a", VInt 2); ("b", VInt 3)] ] 0%nat
           [("a", VInt 2); ("b", VInt 3)]).
  - reflexivity.
  - decide_by_computation.
  - reflexivity.
Defined.

(** X16.  [Product] on a row that lacks one of the columns
    fails with the [KeyError] of that column and yields nothing, but it
    has written to the row by then: the row object is left with the
    product of the columns before the missing one under the result
    column. *)
Theorem Product_missing_column (before after : list string)
    (column result_column : string) (σ : list TRow) (r : nat) (row : TRow) :
  σ !! r = Some row →
  result_column ∉ before → result_column ≠ column →
  int_columns before row = true → dict_get row column = None →
  Product (before ++ column :: after) result_column σ r
  = (<[r := dict_set row result_column (VInt (column_product before row 1))]> σ,
     ([], Raise (KeyError column))).
Proof.
  intros Hrow Hres Hne Hint Hnone. unfold Product, in_place. rewrite Hrow.
  by rewrite (product_loop_missing result_column before after column row
                Hres Hne Hint Hnone).
Qed.

Lemma Product_missing_column_witness :
  Product (["a"] ++ "b" :: []) "p" [ [("a", VInt 2)] ] 0%nat
  = (<[0%nat := dict_set [("a", VInt 2)] "p"
                  (VInt (column_product ["a"] [("a", VInt 2)] 1))]>
       [ [("a", VInt 2)] ],
     ([], Raise (KeyError "b"))).
Proof.
  apply (Product_missing_column ["a"] [] "b" "p" [ [("a", VInt 2)] ] 0%nat
           [("a", VInt 2)]).
  - reflexivity.
  - decide_by_computation.
  - discriminate.
  - reflexivity.
  - reflexivity.
Defined.

(** X17.  [Map] stops at the first row on which the mapper raises:
    it yields what the mapper yielded for the rows before it and for that
    row, then raises the exception; the rows after it are not read, so
    that neither they nor the way the input ends bear on the outcome, and
    the store is as the mapper left it at that row. *)
Theorem Map_stops_at_first_failure (mapper : Mapper) (σ σ1 σ2 : list TRow)
    (good later : list nat) (bad : nat) (ys zs : list nat) (e : exn)
    (out : outcome) :
  Map_store mapper σ (good, Done) = (σ1, (ys, Done)) →
  mapper σ1 bad = (σ2, (zs, Raise e)) →
  Map_store mapper σ (good ++ bad :: later, out) = (σ2, (ys ++ zs, Raise e)).
Proof. unfold Map_store. cbn [fst snd]. apply Map_rows_raise. Qed.

Lemma Map_stops_at_first_failure_witness :
  Map_store (Divide (λ n m, VInt (n / m)) "id" "z" "q")
    [ [("id", VInt 1); ("z", VInt 1)]; [("id", VInt 1); ("z", VInt 0)];
      [("id", VInt 1); ("z", VInt 0)] ]
    ([0%nat] ++ 1%nat :: [2%nat], Done)
  = ([ [("id", VInt 1); ("z", VInt 1); ("q", VInt 1)];
       [("id", VInt 1); ("z", VInt 0)]; [("id", VInt 1); ("z", VInt 0)] ],
     ([0%nat] ++ [], Raise zero_denominator)).
Proof.
  apply (Map_stops_at_first_failure (Divide (λ n m, VInt (n / m)) "id" "z" "q")
           [ [("id", VInt 1); ("z", VInt 1)]; [("id", VInt 1); ("z", VInt 0)];
             [("id", VInt 1); ("z", VInt 0)] ]
           [ [("id", VInt 1); ("z", VInt 1); ("q", VInt 1)];
             [("id", VInt 1); ("z", VInt 0)]; [("id", VInt 1); ("z", VInt 0)] ]
           [ [("id", VInt 1); ("z", VInt 1); ("q", VInt 1)];
             [("id", VInt 1); ("z", VInt 0)]; [("id", VInt 1); ("z", VInt 0)] ]
           [0%nat] [2%nat] 1%nat [0%nat] [] zero_denominator Done);
    reflexivity.
Defined.
(** X18.  [Split] with no separator, on a row whose column holds
    a text made of words set apart by blanks, with or without blanks
    before the first word and after the last, yields one row per word, in
    the order of the words: the row it was given with the word in the
    column.  A text of blanks only, or the empty text, yields nothing. *)
Theorem Split_words (column : string) (row : TRow) (lead : string)
    (ws : list (string * string)) (last : string) :
  string_forall is_space lead = true →
  Forall (λ wsp, is_word wsp.1 = true ∧ is_blanks wsp.2 = true) ws →
  last = EmptyString ∨ is_word last = true →
  dict_get row column = Some (VStr (lead +:+ spaced ws last)) →
  Mapper_call (Split column None) row
  = ((λ w, dict_set row column (VStr w))
       <$> (ws.*1 ++ (if String.eqb last EmptyString then [] else [last])),
     Done).
Proof.
  intros Hlead Hws Hlast Htxt.
  rewrite (Mapper_call_Split column None row _ Htxt).
  by rewrite (split_values_spaced lead ws last Hlead Hws Hlast).
Qed.

Lemma Split_words_witness :
  Mapper_call (Split "text" None) [("doc", VInt 1); ("text", VStr " to be  or not ")]
  = ([ [("doc", VInt 1); ("text", VStr "to")];
       [("doc", VInt 1); ("text", VStr "be")];
       [("doc", VInt 1); ("text", VStr "or")];
       [("doc", VInt 1); ("text", VStr "not")] ], Done).
Proof.
  apply (Split_words "text" [("doc", VInt 1); ("text", VStr " to be  or not ")]
           " " [("to", " "); ("be", "  "); ("or", " "); ("not", " ")] "").
  - reflexivity.
  - repeat constructor.
  - by left.
  - reflexivity.
Defined.

(** X19.  [Split] with a separator of one character that is neither a
    blank nor a character with a meaning in regular expressions (the
    separator goes into the pattern unescaped), on a row whose column
    holds parts each followed by the separator and then a rest without
    separator, yields one row per part: the part keeps its separator,
    loses the blanks before it, and the rest after the last separator
    yields no row. *)
Theorem Split_separator (column : string) (row : TRow) (c : ascii)
    (parts : list string) (tail : string) :
  regex_special c = false →
  is_space c = false →
  Forall (λ p, string_forall (λ a, negb (Ascii.eqb a c)) p = true) parts →
  string_forall (λ a, negb (Ascii.eqb a c)) tail = true →
  dict_get row column = Some (VStr (separated c parts tail)) →
  Mapper_call (Split column (Some c)) row
  = ((λ p, dict_set row column (VStr (lstrip p +:+ String c EmptyString)))
       <$> parts, Done).
Proof.
  intros _ Hc Hparts Htail Htxt.
  rewrite (Mapper_call_Split column (Some c) row _ Htxt).
  rewrite (split_values_separated c parts tail Hc Hparts Htail).
  by rewrite <- list_fmap_compose.
Qed.

Lemma Split_separator_witness :
  Mapper_call (Split "text" (Some ";"%char)) [("text", VStr "a; b;c")]
  = ([ [("text", VStr "a;")]; [("text", VStr "b;")] ], Done).
Proof.
  apply (Split_separator "text" [("text", VStr "a; b;c")] ";"%char ["a"; " b"] "c").
  - reflexivity.
  - reflexivity.
  - repeat constructor.
  - reflexivity.
  - reflexivity.
Defined.

(** X20.  [Map] with [Split], on any rows and whether it fails
    or not, changes no row of the store: the rows it yields are new
    objects, put after the rows that were there, and it yields all of them
    and no other. *)
Theorem Map_Split_fresh (column : string) (separator : option ascii)
    (σ : list TRow) (rows : stream nat) :
  ∃ new_rows : list TRow,
    (Map_store (Split column separator) σ rows).1 = σ ++ new_rows
    ∧ (Map_store (Split column separator) σ rows).2.1
      = seq (List.length σ) (List.length new_rows).
Proof. unfold Map_store. apply Map_rows_Split. Qed.

(** ** Graphs *)

(** X21.  The methods that build a graph on a graph add two objects to
    the heap and change none: every graph that was there runs as before.
    The run of the new graph is its operation called on the run of the
    graph it was built on: [Map], [Reduce] and the sort on the one run,
    [Join] on the run of the graph and, as its second stream, the run of
    the graph joined with.  [Stream] and [call] stand for what streams are
    and for what the operations do with them. *)
Theorem graph_methods_run (Stream : Type)
    (call : Operation → list Stream → option Stream)
    (h : list obj) (self join_graph : nat) (op1 op2 : Operation) (ps1 ps2 : nat) :
  heap_ok h = true →
  h !! self = Some (GraphObj op1 ps1) →
  h !! join_graph = Some (GraphObj op2 ps2) →
  ∀ (mapper : Mapper) (reducer : Reducer) (joiner : Joiner) (keys : list string),
  let run_on hg fuel := run Stream call fuel hg.1 hg.2 in
  let unchanged (hg : list obj * nat) :=
    heap_ok hg.1 = true
    ∧ ∀ fuel a, (a < List.length h)%nat →
        run Stream call fuel hg.1 a = run Stream call fuel h a in
  (unchanged (graph_map h self mapper)
   ∧ ∀ fuel, run_on (graph_map h self mapper) (S fuel)
             = run Stream call fuel h self ≫= (λ rows, call (Map mapper) [rows]))
  ∧ (unchanged (graph_reduce h self reducer keys)
     ∧ ∀ fuel, run_on (graph_reduce h self reducer keys) (S fuel)
               = run Stream call fuel h self
                   ≫= (λ rows, call (Reduce reducer keys) [rows]))
  ∧ (unchanged (graph_sort h self keys)
     ∧ ∀ fuel, run_on (graph_sort h self keys) (S fuel)
               = run Stream call fuel h self
                   ≫= (λ rows, call (ExternalSort keys) [rows]))
  ∧ (unchanged (graph_join h self joiner join_graph keys)
     ∧ ∀ fuel, run_on (graph_join h self joiner join_graph keys) (S fuel)
               = run Stream call fuel h self
                   ≫= (λ rows, run Stream call fuel h join_graph
                         ≫= (λ other, call (Join joiner keys) [rows; other]))).
Proof.
  intros Hok Hself Hother mapper reducer joiner keys run_on unchanged.
  assert (H1 : ∀ p, p ∈ [self] → ∃ op ps, h !! p = Some (GraphObj op ps)).
  { intros p Hp. apply list_elem_of_singleton in Hp as ->. by eauto. }
  assert (H2 : ∀ p, p ∈ [self; join_graph] → ∃ op ps, h !! p = Some (GraphObj op ps)).
  { intros p Hp. apply elem_of_cons in Hp as [->|Hp]; [by eauto|].
    apply list_elem_of_singleton in Hp as ->. by eauto. }
  assert (HM : ∀ fuel (k : list Stream → option Stream),
            mapM (run Stream call fuel h) [self] ≫= k
            = run Stream call fuel h self ≫= (λ rows, k [rows])).
  { intros fuel k. cbn [mapM]. by destruct (run Stream call fuel h self). }
  assert (HM2 : ∀ fuel (k : list Stream → option Stream),
            mapM (run Stream call fuel h) [self; join_graph] ≫= k
            = run Stream call fuel h self
                ≫= (λ rows, run Stream call fuel h join_graph
                      ≫= (λ other, k [rows; other]))).
  { intros fuel k. cbn [mapM]. destruct (run Stream call fuel h self); [|done].
    by destruct (run Stream call fuel h join_graph). }
  unfold unchanged, run_on, graph_map, graph_reduce, graph_sort, graph_join, alloc.
  cbn [fst snd].
  repeat split.
  - by apply (run_new_node Stream call h (Map mapper) [self] Hok H1).
  - by apply (run_new_node Stream call h (Map mapper) [self] Hok H1).
  - intros fuel. rewrite <- HM.
    by apply (run_new_node Stream call h (Map mapper) [self] Hok H1).
  - by apply (run_new_node Stream call h (Reduce reducer keys) [self] Hok H1).
  - by apply (run_new_node Stream call h (Reduce reducer keys) [self] Hok H1).
  - intros fuel. rewrite <- HM.
    by apply (run_new_node Stream call h (Reduce reducer keys) [self] Hok H1).
  - by apply (run_new_node Stream call h (ExternalSort keys) [self] Hok H1).
  - by apply (run_new_node Stream call h (ExternalSort keys) [self] Hok H1).
  - intros fuel. rewrite <- HM.
    by apply (run_new_node Stream call h (ExternalSort keys) [self] Hok H1).
  - by apply (run_new_node Stream call h (Join joiner keys) [self; join_graph] Hok H2).
  - by apply (run_new_node Stream call h (Join joiner keys) [self; join_graph] Hok H2).
  - intros fuel. rewrite <- HM2.
    by apply (run_new_node Stream call h (Join joiner keys) [self; join_graph] Hok H2).
Qed.

Lemma graph_methods_run_witness :
  run (list TRow * outcome) (call_operation (λ _ rows, rows) ∅) 5
    (graph_join ex_heap 3%nat (default_joiner InnerJoiner) 1%nat ["id"]).1
    (graph_join ex_heap 3%nat (default_joiner InnerJoiner) 1%nat ["id"]).2
  = run (list TRow * outcome) (call_operation (λ _ rows, rows) ∅) 4 ex_heap 3%nat
      ≫= (λ rows, run (list TRow * outcome) (call_operation (λ _ rows, rows) ∅) 4
                    ex_heap 1%nat
            ≫= (λ other, call_operation (λ _ rows, rows) ∅
                           (Join (default_joiner InnerJoiner) ["id"]) [rows; other])).
Proof.
  destruct (graph_methods_run (list TRow * outcome) (call_operation (λ _ rows, rows) ∅)
              ex_heap 3%nat 1%nat (Map DummyMapper) (ReadIterGenerator "texts")
              2%nat 0%nat eq_refl eq_refl eq_refl
              DummyMapper FirstReducer (default_joiner InnerJoiner) ["id"])
    as (_ & _ & _ & _ & H).
  exact (H 4%nat).
Defined.
(** X22.  What [Reduce] yields with [Count], [Sum] or [Mean], over a
    non-empty stream sorted by a non-empty list of keys and under a column
    that is not one of the keys, is again a stream sorted by these keys: it
    has the keys of the input, in their order, and each of them in one row
    only, so that a [Reduce] or a [Join] by the same keys accepts it as it
    is.  [Count] asks nothing more of the rows, which need not have the
    column; [Sum] needs an [int] under the column in every row; [Mean]
    needs that and no group with a mean too large for a float. *)
Theorem Reduce_output_sorted (truediv : Z → Z → Value) (a : aggregate)
    (column : string) (keys : list string) (rows : list TRow) :
  keys ≠ [] → rows ≠ [] → sorted_by keys rows = true →
  column ∉ keys → aggregate_accepts a column keys rows = true →
  ∃ outs : list TRow,
    Reduce_call (aggregate_reducer truediv column a) keys (rows, Done) = (outs, Done)
    ∧ sorted_by keys outs = true
    ∧ group_keys keys outs = group_keys keys rows
    ∧ runs_of keys outs = (λ row, [row]) <$> outs.
Proof.
  intros Hkeys Hrows Hsorted Hcol Hacc.
  pose proof Hsorted as Hsorted'.
  apply andb_true_iff in Hsorted' as [Hhas Hasc].
  assert (Hkey : ∀ (row out : TRow),
            (∀ c, c ≠ column →
               dict_get out c = if in_keys c keys then dict_get row c else None) →
            itemgetter keys out = itemgetter keys row).
  { intros row out H. apply itemgetter_ext. intros c Hc.
    rewrite H by (intros ->; done).
    by rewrite (proj2 (in_keys_spec c keys) Hc). }
  assert (Hall : ∃ outs, Reduce_call (aggregate_reducer truediv column a) keys
                           (rows, Done) = (outs, Done)
                   ∧ Forall2 (λ g out, ∃ row, head g = Some row
                                ∧ itemgetter keys out = itemgetter keys row)
                       (runs_of keys rows) outs).
  { apply Reduce_call_each_group; try done.
    intros row rest Hg Hrow.
    destruct a; cbn [aggregate_reducer aggregate_accepts] in *.
    - destruct (Count_group column keys row rest Hrow) as (out & H1 & _ & _ & H4).
      exists out. split; [done|]. exists row. split; [done|]. by apply Hkey.
    - pose proof (runs_of_int_column column keys rows _ Hhas Hacc Hg) as Hintg.
      destruct (Sum_group column keys row rest Hrow Hintg) as (out & H1 & _ & _ & H4).
      exists out. split; [done|]. exists row. split; [done|]. by apply Hkey.
    - apply andb_true_iff in Hacc as [Hint Hfit].
      pose proof (runs_of_int_column column keys rows _ Hhas Hint Hg) as Hintg.
      pose proof (means_fit_group column _ _ Hfit Hg) as Hfits.
      destruct (Mean_group truediv column keys row rest Hrow Hintg Hfits)
        as (out & H1 & _ & _ & H4).
      exists out. split; [done|]. exists row. split; [done|]. by apply Hkey. }
  destruct Hall as (outs & Hrun & Hall). exists outs. split; [done|].
  destruct (reduced_rows_keyed keys rows outs Hhas Hall) as (H1 & H2 & H3).
  split; [|by split]. unfold sorted_by. by rewrite H1, H2.
Qed.

Lemma Reduce_output_sorted_witness :
  (∃ outs : list TRow,
     Reduce_call (Count "n") ["id"] (ex_sorted, Done) = (outs, Done)
     ∧ sorted_by ["id"] outs = true
     ∧ group_keys ["id"] outs = group_keys ["id"] ex_sorted
     ∧ runs_of ["id"] outs = (λ row, [row]) <$> outs)
  ∧ (∃ outs : list TRow,
       Reduce_call (Sum "x") ["id"] (ex_marks, Done) = (outs, Done)
       ∧ sorted_by ["id"] outs = true
       ∧ group_keys ["id"] outs = group_keys ["id"] ex_marks
       ∧ runs_of ["id"] outs = (λ row, [row]) <$> outs)
  ∧ ∃ outs : list TRow,
      Reduce_call (Mean (λ n m, VInt (n / m)) "x") ["id"] (ex_marks, Done)
      = (outs, Done)
      ∧ sorted_by ["id"] outs = true
      ∧ group_keys ["id"] outs = group_keys ["id"] ex_marks
      ∧ runs_of ["id"] outs = (λ row, [row]) <$> outs.
Proof.
  split; [|split].
  - apply (Reduce_output_sorted (λ n m, VInt (n / m)) AggCount "n" ["id"] ex_sorted);
      [discriminate|discriminate|reflexivity|decide_by_computation|reflexivity].
  - apply (Reduce_output_sorted (λ n m, VInt (n / m)) AggSum "x" ["id"] ex_marks);
      [discriminate|discriminate|reflexivity|decide_by_computation|reflexivity].
  - apply (Reduce_output_sorted (λ n m, VInt (n / m)) AggMean "x" ["id"] ex_marks);
      [discriminate|discriminate|reflexivity|decide_by_computation|reflexivity].
Defined.

(** X23.  [TermFrequency], on a group whose first row has the key columns
    and whose rows all have the words column, yields one row per word of
    the group, in the order in which the words are first met: the key
    columns of the first row, the word, and under the result column the
    quotient of the number of rows of the group that hold the word by the
    number of rows of the group.  These numbers of rows add up to the
    number of rows of the group. *)
Theorem TermFrequency_group (truediv : Z → Z → Value)
    (words_column result_column : string) (keys : list string)
    (row : TRow) (rest : list TRow) :
  (∀ k, k ∈ keys → is_Some (dict_get row k)) →
  (∀ r, r ∈ row :: rest → is_Some (dict_get r words_column)) →
  ∃ (common_dict : TRow) (freq : list (Value * Z)),
    TermFrequency truediv words_column result_column keys (row :: rest, Done)
    = ((λ wn, dict_set (dict_set common_dict words_column wn.1) result_column
                (truediv wn.2 (Z.of_nat (List.length (row :: rest))))) <$> freq,
       Done)
    ∧ (∀ c, dict_get common_dict c
            = if in_keys c keys then dict_get row c else None)
    ∧ freq.*1 = first_seen (column_values words_column (row :: rest))
    ∧ (∀ w n, (w, n) ∈ freq →
         n = occurrences w (column_values words_column (row :: rest)))
    ∧ foldr Z.add 0 freq.*2 = Z.of_nat (List.length (row :: rest)).
Proof.
  intros Hkeys Hwords.
  destruct (project_loop_total keys row Hkeys []) as [common_dict Hcommon].
  destruct (Hwords row) as [w Hw]; [by left|].
  assert (Hrest : ∀ r, r ∈ rest → is_Some (dict_get r words_column)).
  { intros r Hr. apply Hwords. by right. }
  set (ws := column_values words_column (row :: rest)).
  assert (Hws : ws = w :: column_values words_column rest).
  { unfold ws, column_values. cbn [omap list_omap]. by rewrite Hw. }
  destruct (foldl_tally ws [] (NoDup_nil_2 : NoDup ([] : list (Value * Z)).*1))
    as (Hnd & Horder & Hget & Htotal).
  exists common_dict, (foldl tally [] ws).
  split; [|split; [|split; [|split]]].
  - unfold TermFrequency, next_row. cbn [fst snd]. rewrite Hcommon.
    unfold getitem at 1. rewrite Hw.
    change (@nil (Value * Value)) with (counter_of []).
    rewrite counter_iadd_tally, (tf_loop words_column rest Hrest).
    assert (1 + Z.of_nat (List.length rest) = Z.of_nat (List.length (row :: rest)))
      as -> by (rewrite length_cons; lia).
    assert (Hlen : List.length ws = List.length (row :: rest)).
    { by apply column_values_length. }
    assert (Hfits : Forall (λ wn, float_overflow wn.2
                                    (Z.of_nat (List.length (row :: rest))) = false)
                      (foldl tally [] ws)).
    { apply Forall_forall. intros [w' n] Hin. cbn [snd].
      rewrite <- (tally_get_elem _ w' n Hnd Hin), Hget.
      pose proof (occurrences_bounds w' ws) as Hb. rewrite Hlen in Hb.
      unfold tally_get at 1. cbn [foldr].
      apply float_overflow_part; rewrite ?length_cons in *; lia. }
    rewrite Hws in Hfits. cbn [foldl] in Hfits.
    rewrite frequency_rows_ints; [by rewrite Hws|rewrite length_cons; lia|done].
  - apply (project_loop_get keys row [] common_dict Hcommon).
  - exact Horder.
  - intros w' n Hin. rewrite <- (tally_get_elem _ w' n Hnd Hin), Hget.
    unfold tally_get. simpl. lia.
  - rewrite Htotal. unfold ws.
    rewrite (column_values_length words_column (row :: rest) Hwords). simpl. lia.
Qed.

Lemma TermFrequency_group_witness :
  ∃ (common_dict : TRow) (freq : list (Value * Z)),
    TermFrequency (λ n m, VInt (n / m)) "v" "tf" ["id"]
      ([("id", VInt 1); ("v", VStr "b")] :: [ [("id", VInt 1); ("v", VStr "e")] ], Done)
    = ((λ wn, dict_set (dict_set common_dict "v" wn.1) "tf"
                (VInt (wn.2 / Z.of_nat
                   (List.length ([("id", VInt 1); ("v", VStr "b")]
                                 :: [ [("id", VInt 1); ("v", VStr "e")] ]))))) <$> freq,
       Done)
    ∧ (∀ c, dict_get common_dict c
            = if in_keys c ["id"] then dict_get [("id", VInt 1); ("v", VStr "b")] c
              else None)
    ∧ freq.*1
      = first_seen (column_values "v"
                      ([("id", VInt 1); ("v", VStr "b")]
                       :: [ [("id", VInt 1); ("v", VStr "e")] ]))
    ∧ (∀ w n, (w, n) ∈ freq →
         n = occurrences w (column_values "v"
                              ([("id", VInt 1); ("v", VStr "b")]
                               :: [ [("id", VInt 1); ("v", VStr "e")] ])))
    ∧ foldr Z.add 0 freq.*2
      = Z.of_nat (List.length ([("id", VInt 1); ("v", VStr "b")]
                               :: [ [("id", VInt 1); ("v", VStr "e")] ])).
Proof.
  apply (TermFrequency_group (λ n m, VInt (n / m)) "v" "tf" ["id"]
           [("id", VInt 1); ("v", VStr "b")] [ [("id", VInt 1); ("v", VStr "e")] ]).
  - intros k Hk. apply list_elem_of_singleton in Hk as ->. by eexists.
  - intros r Hr.
    repeat (apply elem_of_cons in Hr as [->|Hr]; [by eexists|]).
    by apply elem_of_nil in Hr.
Defined.

(** X24.  [Join] with an [OuterJoiner] over two non-empty streams that
    are sorted by a non-empty list of keys, the keys of the one being
    comparable with the keys of the other, loses no row of either side:
    the rows it yields are, up to their order, the rows a [LeftJoiner]
    yields and the rows of the right stream whose key the left stream
    does not have, as they are. *)
Theorem Join_OuterJoiner_sorted (self : Joiner) (keys : list string)
    (left_rows right_rows : list TRow) :
  joiner_class self = OuterJoiner →
  keys ≠ [] → left_rows ≠ [] → right_rows ≠ [] →
  sorted_by keys left_rows = true → sorted_by keys right_rows = true →
  cross_comparable (group_keys keys left_rows) (group_keys keys right_rows) = true →
  ∃ out : list TRow,
    Join_call (Joiner_call self) keys (left_rows, Done) (right_rows, Done)
    = Some (out, Done)
    ∧ out ≡ₚ equi_join true keys (_a_suffix self) (_b_suffix self)
               left_rows right_rows
             ++ unmatched_rows keys right_rows left_rows.
Proof.
  intros Hclass Hkeys HL HR HsL HsR Hcmp.
  rewrite (Join_call_sorted _ keys left_rows right_rows Hkeys HL HR HsL HsR).
  apply andb_true_iff in HsL as [HhasL HascL].
  apply andb_true_iff in HsR as [HhasR HascR].
  apply bool_decide_eq_true in HhasL, HhasR.
  destruct (attach_keys_rows keys left_rows HhasL) as [HrowsL HkeyedL].
  destruct (attach_keys_rows keys right_rows HhasR) as [HrowsR HkeyedR].
  pose proof (group_runs_keyed (λ k row, itemgetter keys row = inr k) _ HkeyedL)
    as HgL.
  pose proof (group_runs_keyed (λ k row, itemgetter keys row = inr k) _ HkeyedR)
    as HgR.
  destruct (merge_sorted_groups_outer (Joiner_call self) keys
              (_a_suffix self) (_b_suffix self))
    with (L := group_runs (attach_keys keys left_rows).1)
         (R := group_runs (attach_keys keys right_rows).1)
    as (out & Hout & Hperm).
  - intros [|l gl] [|r gr] Hgl Hgr; try done.
    unfold Joiner_call. by rewrite Hclass.
  - intros [|l gl] Hgl; [done|]. unfold Joiner_call. by rewrite Hclass.
  - intros [|r gr] Hgr; [done|]. unfold Joiner_call. by rewrite Hclass.
  - apply ascending_StronglySorted; [exact HascL|apply group_runs_adjacent].
  - apply group_runs_nonempty.
  - apply ascending_StronglySorted; [exact HascR|apply group_runs_adjacent].
  - apply group_runs_nonempty.
  - intros kl kr. by apply cross_comparable_spec.
  - exists out. rewrite Hout. split; [done|]. rewrite Hperm.
    rewrite (joined_groups_rows true keys _ _ _ _ HgL HgR).
    rewrite (unmatched_groups_rows keys _ _ HgR HgL).
    by rewrite !group_runs_concat, HrowsL, HrowsR.
Qed.

Lemma Join_OuterJoiner_sorted_witness :
  ∃ out : list TRow,
    Join_call (Joiner_call (default_joiner OuterJoiner)) ["id"]
      (ex_right, Done) (ex_sorted, Done)
    = Some (out, Done)
    ∧ out ≡ₚ equi_join true ["id"] "_1" "_2" ex_right ex_sorted
             ++ unmatched_rows ["id"] ex_sorted ex_right.
Proof.
  apply (Join_OuterJoiner_sorted (default_joiner OuterJoiner) ["id"]
           ex_right ex_sorted);
    [reflexivity|discriminate|discriminate|discriminate
    |reflexivity|reflexivity|reflexivity].
Defined.

(** ** The graphs of [algorithms.py] *)

(** X25.  [word_count_graph], called with no file name, builds its
    graph by adding objects to the heap and changing none, and the run of
    that graph is: the rows of the named source, through [Map] with
    [FilterPunctuation], then [LowerCase], then [Split], sorted by the
    text column, reduced with [Count] by the text column, and sorted by
    the count and the text.  A source that is not given makes
    [ReadIterGenerator] raise its [KeyError], which the first [Map] finds
    in its input. *)
Theorem word_count_graph_run
    (graph_from_file : list obj → string → list obj * nat)
    (_lower_case : string → string)
    (sort_call : list string → stream TRow → stream TRow)
    (kwargs : gmap string (stream TRow))
    (h : list obj) (input_stream_name text_column count_column : string) :
  heap_ok h = true →
  ∃ h' g ext,
    word_count_graph graph_from_file _lower_case h input_stream_name
      text_column count_column None = Some (h', g)
    ∧ h' = h ++ ext
    ∧ heap_ok h' = true
    ∧ ∀ fuel, (7 ≤ fuel)%nat →
        run (stream TRow) (call_operation sort_call kwargs) fuel h' g
        = Some (sort_call [count_column; text_column]
                  (Reduce_call (Count count_column) [text_column]
                     (sort_call [text_column]
                        (Map_call (Split text_column None)
                           (Map_call (LowerCase _lower_case text_column)
                              (Map_call (FilterPunctuation text_column)
                                 (match kwargs !! input_stream_name with
                                  | Some rows => rows
                                  | None => ([], Raise (KeyError input_stream_name))
                                  end))))))).
Proof.
  intros Hok.
  destruct (word_count_graph_runs_to graph_from_file _lower_case sort_call kwargs
              h input_stream_name text_column count_column Hok)
    as (h' & g & Hbuilt & (ext & Hext) & (Hok' & _ & Hrun)).
  exists h', g, ext. done.
Qed.

Lemma word_count_graph_run_witness :
  ∃ h' g ext,
    word_count_graph (λ h _, (h, 0%nat)) ascii_lower [] "texts" "text" "count" None
    = Some (h', g)
    ∧ h' = [] ++ ext
    ∧ heap_ok h' = true
    ∧ ∀ fuel, (7 ≤ fuel)%nat →
        run (stream TRow)
          (call_operation (λ _ rows, rows) {["texts" := (ex_texts, Done)]}) fuel h' g
        = Some (Reduce_call (Count "count") ["text"]
                  (Map_call (Split "text" None)
                     (Map_call (LowerCase ascii_lower "text")
                        (Map_call (FilterPunctuation "text")
                           (match ({["texts" := (ex_texts, Done)]}
                                     : gmap string (stream TRow)) !! "texts" with
                            | Some rows => rows
                            | None => ([], Raise (KeyError "texts"))
                            end))))).
Proof.
  apply (word_count_graph_run (λ h _, (h, 0%nat)) ascii_lower (λ _ rows, rows)
           {["texts" := (ex_texts, Done)]} [] "texts" "text" "count").
  reflexivity.
Defined.

(** X26.  When the source hands out rows that hold texts, and the
    sort by the text column gives the words of these texts in an order in
    which they are sorted, [word_count_graph] counts the words: what goes
    into its last sort is one row per word, with the word and the number
    of times it is among the words of the texts, and nothing else; no word
    has two rows and no word is left out. *)
Theorem word_count_graph_counts
    (graph_from_file : list obj → string → list obj * nat)
    (_lower_case : string → string)
    (sort_call : list string → stream TRow → stream TRow)
    (kwargs : gmap string (stream TRow))
    (h : list obj) (input_stream_name text_column count_column : string)
    (texts sorted : list TRow) :
  heap_ok h = true →
  count_column ≠ text_column →
  kwargs !! input_stream_name = Some (texts, Done) →
  str_column text_column texts = true →
  sort_call [text_column] (word_rows _lower_case text_column texts, Done)
  = (sorted, Done) →
  sorted ≡ₚ word_rows _lower_case text_column texts →
  sorted_by [text_column] sorted = true →
  sorted ≠ [] →
  ∃ h' g counted,
    word_count_graph graph_from_file _lower_case h input_stream_name
      text_column count_column None = Some (h', g)
    ∧ (∀ fuel, (7 ≤ fuel)%nat →
         run (stream TRow) (call_operation sort_call kwargs) fuel h' g
         = Some (sort_call [count_column; text_column] (counted, Done)))
    ∧ Forall (λ out, ∃ w,
         dict_get out text_column = Some w
         ∧ (0 < List.length (rows_holding text_column w
                               (word_rows _lower_case text_column texts)))%nat
         ∧ dict_get out count_column
           = Some (VInt (Z.of_nat (List.length
                           (rows_holding text_column w
                              (word_rows _lower_case text_column texts)))))
         ∧ ∀ c, c ≠ text_column → c ≠ count_column → dict_get out c = None)
        counted
    ∧ NoDup (column_values text_column counted)
    ∧ ∀ row, row ∈ word_rows _lower_case text_column texts →
        ∃ out, out ∈ counted ∧ dict_get out text_column = dict_get row text_column.
Proof.
  intros Hok Hne Hsrc Hstr Hsort Hperm Hsorted Hnonempty.
  destruct (word_count_graph_runs_to graph_from_file _lower_case sort_call kwargs
              h input_stream_name text_column count_column Hok)
    as (h' & g & Hbuilt & _ & (_ & _ & Hrun)).
  destruct (Reduce_Count_words count_column text_column sorted
              (word_rows _lower_case text_column texts) Hne Hnonempty Hsorted Hperm)
    as (counted & Hcounted & H1 & H2 & H3).
  exists h', g, counted. split; [done|]. split; [|done].
  intros fuel Hfuel. rewrite (Hrun fuel Hfuel). unfold source_rows. rewrite Hsrc.
  by rewrite (words_of_rows _lower_case text_column texts Hstr), Hsort, Hcounted.
Qed.

Lemma word_count_graph_counts_witness :
  ∃ h' g counted,
    word_count_graph (λ h _, (h, 0%nat)) ascii_lower [] "texts" "text" "count" None
    = Some (h', g)
    ∧ (∀ fuel, (7 ≤ fuel)%nat →
         run (stream TRow)
           (call_operation (λ _ rows, rows) {["texts" := (ex_texts, Done)]}) fuel h' g
         = Some (counted, Done))
    ∧ Forall (λ out, ∃ w,
         dict_get out "text" = Some w
         ∧ (0 < List.length (rows_holding "text" w
                               (word_rows ascii_lower "text" ex_texts)))%nat
         ∧ dict_get out "count"
           = Some (VInt (Z.of_nat (List.length
                           (rows_holding "text" w
                              (word_rows ascii_lower "text" ex_texts)))))
         ∧ ∀ c, c ≠ "text" → c ≠ "count" → dict_get out c = None)
        counted
    ∧ NoDup (column_values "text" counted)
    ∧ ∀ row, row ∈ word_rows ascii_lower "text" ex_texts →
        ∃ out, out ∈ counted ∧ dict_get out "text" = dict_get row "text".
Proof.
  apply (word_count_graph_counts (λ h _, (h, 0%nat)) ascii_lower (λ _ rows, rows)
           {["texts" := (ex_texts, Done)]} [] "texts" "text" "count"
           ex_texts ex_words).
  - reflexivity.
  - discriminate.
  - reflexivity.
  - reflexivity.
  - reflexivity.
  - vm_compute. reflexivity.
  - reflexivity.
  - discriminate.
Defined.

(** X27.  [TermFrequencyFromCounts], on a group whose first row has the
    key columns and whose rows all hold a word and an [int] count, the
    counts adding up to something other than zero and no word having a
    share of them too large for a float (where one has, the division
    raises [OverflowError]): one row for every different word, in the
    order in which the words are first met; the row holds the key columns
    of the first row, the word, and the sum of the counts of the rows
    holding that word divided by the sum of all the counts. *)
Theorem TermFrequencyFromCounts_group (truediv : Z → Z → Value)
    (words_column count_column result_column : string) (keys : list string)
    (row : TRow) (rest : list TRow) :
  (∀ k, k ∈ keys → is_Some (dict_get row k)) →
  (∀ r, r ∈ row :: rest → is_Some (dict_get r words_column)) →
  int_column count_column (row :: rest) = true →
  column_total count_column (row :: rest) ≠ 0 →
  shares_fit words_column count_column (row :: rest) = true →
  ∃ (common_dict : TRow) (freq : list (Value * Z)),
    TermFrequencyFromCounts truediv words_column count_column result_column keys
      (row :: rest, Done)
    = ((λ wn, dict_set (dict_set common_dict words_column wn.1) result_column
                (truediv wn.2 (column_total count_column (row :: rest)))) <$> freq,
       Done)
    ∧ (∀ c, dict_get common_dict c
            = if in_keys c keys then dict_get row c else None)
    ∧ freq.*1 = first_seen (column_values words_column (row :: rest))
    ∧ (∀ w n, (w, n) ∈ freq →
         n = column_total count_column (rows_holding words_column w (row :: rest)))
    ∧ foldr Z.add 0 freq.*2 = column_total count_column (row :: rest).
Proof.
  intros Hkeys Hwords Hint Htotal Hfit.
  destruct (tffc_run truediv words_column count_column result_column keys row rest
              Hkeys Hwords Hint)
    as (common_dict & freq & Hrun & Hcommon & _ & Hnd & Horder & Hget & Hsum).
  exists common_dict, freq. split; [|split; [|split; [|split]]]; try done.
  - rewrite Hrun. apply frequency_rows_ints; [done|].
    apply Forall_forall. intros [w n] Hin. cbn [snd].
    rewrite <- (tally_get_elem _ w n Hnd Hin), Hget.
    apply shares_fit_word; [done|].
    assert (Hw : w ∈ freq.*1) by (apply list_elem_of_fmap; by exists (w, n)).
    rewrite Horder in Hw. apply first_seen_from_elem in Hw as [Hw|Hw]; [|done].
    by apply elem_of_nil in Hw.
  - intros w n Hin. by rewrite <- (tally_get_elem _ w n Hnd Hin), Hget.
Qed.

Lemma TermFrequencyFromCounts_group_witness :
  ∃ (common_dict : TRow) (freq : list (Value * Z)),
    TermFrequencyFromCounts (λ n m, VInt (n / m)) "v" "n" "tf" ["id"]
      (ex_counts, Done)
    = ((λ wn, dict_set (dict_set common_dict "v" wn.1) "tf"
                (VInt (wn.2 / column_total "n" ex_counts))) <$> freq,
       Done)
    ∧ (∀ c, dict_get common_dict c
            = if in_keys c ["id"]
              then dict_get [("id", VInt 1); ("v", VStr "b"); ("n", VInt 2)] c
              else None)
    ∧ freq.*1 = first_seen (column_values "v" ex_counts)
    ∧ (∀ w n, (w, n) ∈ freq →
         n = column_total "n" (rows_holding "v" w ex_counts))
    ∧ foldr Z.add 0 freq.*2 = column_total "n" ex_counts.
Proof.
  apply (TermFrequencyFromCounts_group (λ n m, VInt (n / m)) "v" "n" "tf" ["id"]
           [("id", VInt 1); ("v", VStr "b"); ("n", VInt 2)]
           [ [("id", VInt 1); ("v", VStr "e"); ("n", VInt 3)];
             [("id", VInt 1); ("v", VStr "b"); ("n", VInt 5)] ]).
  - intros k Hk. apply list_elem_of_singleton in Hk as ->. by eexists.
  - intros r Hr.
    repeat (apply elem_of_cons in Hr as [->|Hr]; [by eexists|]).
    by apply elem_of_nil in Hr.
  - reflexivity.
  - vm_compute. discriminate.
  - vm_compute. reflexivity.
Defined.

(** X28.  [TermFrequencyFromCounts], on a group whose first row
    has the key columns and whose rows all hold a word and an [int] count,
    the counts adding up to zero, yields no row and raises
    [ZeroDivisionError]: the division by the sum of the counts is not
    guarded. *)
Theorem TermFrequencyFromCounts_zero_total (truediv : Z → Z → Value)
    (words_column count_column result_column : string) (keys : list string)
    (row : TRow) (rest : list TRow) :
  (∀ k, k ∈ keys → is_Some (dict_get row k)) →
  (∀ r, r ∈ row :: rest → is_Some (dict_get r words_column)) →
  int_column count_column (row :: rest) = true →
  column_total count_column (row :: rest) = 0 →
  TermFrequencyFromCounts truediv words_column count_column result_column keys
    (row :: rest, Done)
  = ([], Raise ZeroDivisionError).
Proof.
  intros Hkeys Hwords Hint Htotal.
  destruct (tffc_run truediv words_column count_column result_column keys row rest
              Hkeys Hwords Hint)
    as (common_dict & freq & Hrun & _ & Hne & _).
  rewrite Hrun, Htotal. destruct freq as [|[w n] freq]; [done|].
  by rewrite counter_of_cons.
Qed.

Lemma TermFrequencyFromCounts_zero_total_witness :
  TermFrequencyFromCounts (λ n m, VInt (n / m)) "v" "n" "tf" ["id"]
    ([("id", VInt 1); ("v", VStr "b"); ("n", VInt 2)]
     :: [ [("id", VInt 1); ("v", VStr "e"); ("n", VInt (-2))] ], Done)
  = ([], Raise ZeroDivisionError).
Proof.
  apply (TermFrequencyFromCounts_zero_total (λ n m, VInt (n / m)) "v" "n" "tf" ["id"]
           [("id", VInt 1); ("v", VStr "b"); ("n", VInt 2)]
           [ [("id", VInt 1); ("v", VStr "e"); ("n", VInt (-2))] ]).
  - intros k Hk. apply list_elem_of_singleton in Hk as ->. by eexists.
  - intros r Hr.
    repeat (apply elem_of_cons in Hr as [->|Hr]; [by eexists|]).
    by apply elem_of_nil in Hr.
  - reflexivity.
  - reflexivity.
Defined.
